(** * CloudDrop: a shallow embedding of the transfer engine

    The development follows the layout of the repository:

    - [Js]        the few JavaScript string and array primitives the code uses;
    - [Sha256]    the digest behind [crypto.subtle.digest('SHA-256', _)];
    - [Kdf]       HMAC and PBKDF2 behind [crypto.subtle.deriveKey];
    - [Aes], [Gcm] the AES-256-GCM algorithm behind [crypto.subtle.encrypt]
                  and [crypto.subtle.decrypt];
    - [Crypto]    [crypto.js]: the [CryptoManager] class;
    - [Worker]    [src/index.ts]: room resolution on connect;
    - [RoomDO]    [src/room.ts]: the password gate of the [Room] object;
    - [Config]    [public/js/config.js];
    - [Base64]    [arrayBufferToBase64] and [base64ToUint8Array];
    - [Wire]      the messages exchanged and the calls made to observers;
    - [Sender]    [public/js/webrtc.js]: the sending side of a transfer, each
                  [async] function as a process resumed at its [await]s;
    - [WebRTC]    [public/js/webrtc.js]: the [WebRTCManager] class, its
                  timers and the receiving side of a transfer;
    - [App]       [public/js/app.js]: the creation of a secure room;
    - [Hub]       [src/room.ts]: the sockets of a room and the messages the
                  room passes between them.

    The modules [Spec], [RelaySpec], [ReceiverSpec] and [EngineSpec] hold
    the notions the statements need; the modules named [...Proofs] hold the
    theorems, one module for each part of the program.  The modules
    [MoreSpec], [RoomSpec], [RelayMoreSpec], [DeliverySpec], [Base64Spec],
    [RelayDeliverySpec], [EngineMoreSpec], [AppSpec] and [HubSpec] hold the
    notions of the further properties, which are proved in [WorkerMore],
    [RoomMore], [CryptoMore], [RelayMore], [DeliveryProofs],
    [RelayDeliveryProofs], [EngineMore], [AppMore] and [HubProofs].

    Byte arrays ([Uint8Array], [ArrayBuffer]) are lists of integers, a
    JavaScript string is a [string] of one-byte characters, 32-bit words are
    integers reduced by [Z.land] with [0xffffffff]. *)

From Stdlib Require Import ZArith Lia List String Ascii Bool.
From stdpp Require Import gmap strings list fin_maps.

Local Open Scope Z_scope.

(** ** JavaScript primitives *)

Module Js.

(** [TextEncoder.encode] on a string of one-byte characters. *)
Definition encode (s : string) : list Z :=
  map (fun c => Z.of_N (N_of_ascii c)) (list_ascii_of_string s).

(** [Uint8Array.prototype.slice(from, to)] for [0 <= from]. *)
Definition slice {A} (from to : nat) (l : list A) : list A :=
  firstn (to - from) (skipn from l).

(** [slice(from)]: up to the end. *)
Definition sliceFrom {A} (from : nat) (l : list A) : list A := skipn from l.

Definition hexDigit (n : Z) : ascii :=
  if n <? 10 then ascii_of_N (Z.to_N (48 + n)) else ascii_of_N (Z.to_N (87 + n)).

(** [b.toString(16).padStart(2, '0')] for a byte [b]. *)
Definition hexByte (b : Z) : string :=
  String (hexDigit (b / 16)) (String (hexDigit (b mod 16)) EmptyString).

(** [bytes.map(b => b.toString(16).padStart(2, '0')).join('')]. *)
Fixpoint hexOfBytes (bs : list Z) : string :=
  match bs with
  | [] => EmptyString
  | b :: r => (hexByte b ++ hexOfBytes r)%string
  end.

Definition upperChar (c : ascii) : ascii :=
  let n := N_of_ascii c in
  if ((97 <=? n) && (n <=? 122))%N then ascii_of_N (n - 32) else c.

Definition lowerChar (c : ascii) : ascii :=
  let n := N_of_ascii c in
  if ((65 <=? n) && (n <=? 90))%N then ascii_of_N (n + 32) else c.

Fixpoint mapString (f : ascii -> ascii) (s : string) : string :=
  match s with
  | EmptyString => EmptyString
  | String c r => String (f c) (mapString f r)
  end.

Definition toUpperCase : string -> string := mapString upperChar.
Definition toLowerCase : string -> string := mapString lowerChar.

(** [s.substring(0, n)]. *)
Definition substring0 (n : nat) (s : string) : string := String.substring 0 n s.

(** [s.includes(c)] for a one-character needle. *)
Fixpoint includesChar (c : ascii) (s : string) : bool :=
  match s with
  | EmptyString => false
  | String d r => if Ascii.eqb c d then true else includesChar c r
  end.

(** [s.split(c)] for a one-character separator: never empty. *)
Fixpoint splitChar (c : ascii) (s : string) : list string :=
  match s with
  | EmptyString => [EmptyString]
  | String d r =>
      if Ascii.eqb c d then EmptyString :: splitChar c r
      else match splitChar c r with
           | [] => [String d EmptyString]
           | h :: t => String d h :: t
           end
  end.

(** [parts.join(sep)]. *)
Fixpoint join (sep : string) (parts : list string) : string :=
  match parts with
  | [] => EmptyString
  | [p] => p
  | p :: r => (p ++ sep ++ join sep r)%string
  end.

(** [s.padStart(n, '0')]. *)
Definition padStart0 (n : nat) (s : string) : string :=
  (string_of_list_ascii (repeat "0"%char (n - String.length s)) ++ s)%string.

(** A string is truthy when it is not empty. *)
Definition truthy (s : string) : bool :=
  match s with EmptyString => false | _ => true end.

Definition isAlnum (c : ascii) : bool :=
  let n := N_of_ascii c in
  (((48 <=? n) && (n <=? 57)) || ((65 <=? n) && (n <=? 90))
   || ((97 <=? n) && (n <=? 122)))%N.

End Js.

(** ** SHA-256 (FIPS 180-4), the digest of [crypto.subtle.digest] *)

Module Sha256.

Definition mask32 : Z := 0xffffffff.
Definition w32 (x : Z) : Z := Z.land x mask32.
Definition add32 (x y : Z) : Z := w32 (x + y).
Definition rotr (n x : Z) : Z :=
  Z.lor (Z.shiftr x n) (w32 (Z.shiftl x (32 - n))).
Definition not32 (x : Z) : Z := Z.lxor x mask32.

Definition Ch (x y z : Z) : Z := Z.lxor (Z.land x y) (Z.land (not32 x) z).
Definition Maj (x y z : Z) : Z :=
  Z.lxor (Z.lxor (Z.land x y) (Z.land x z)) (Z.land y z).
Definition bigSigma0 (x : Z) : Z := Z.lxor (Z.lxor (rotr 2 x) (rotr 13 x)) (rotr 22 x).
Definition bigSigma1 (x : Z) : Z := Z.lxor (Z.lxor (rotr 6 x) (rotr 11 x)) (rotr 25 x).
Definition smallSigma0 (x : Z) : Z := Z.lxor (Z.lxor (rotr 7 x) (rotr 18 x)) (Z.shiftr x 3).
Definition smallSigma1 (x : Z) : Z := Z.lxor (Z.lxor (rotr 17 x) (rotr 19 x)) (Z.shiftr x 10).

(** The largest [x] below [2^bits] with [x^3 <= n], one bit at a time. *)
Fixpoint cbrtAux (bits : nat) (n x : Z) : Z :=
  match bits with
  | O => x
  | S b =>
      let y := Z.lor x (Z.shiftl 1 (Z.of_nat b)) in
      cbrtAux b n (if y * y * y <=? n then y else x)
  end.

Definition isPrime (n : nat) : bool :=
  (1 <? n)%nat && forallb (fun d => negb (Nat.eqb (n mod d) 0)) (seq 2 (n - 2)).

(** The first 64 primes. *)
Definition primes : list Z :=
  Eval vm_compute in map Z.of_nat (List.filter isPrime (seq 2 310)).

(** The round constants: the first 32 bits of the fractional parts of the
    cube roots of the first 64 primes. *)
Definition K : list Z :=
  Eval vm_compute in map (fun p => w32 (cbrtAux 40 (p * 2 ^ 96) 0)) primes.

(** The initial hash value: the first 32 bits of the fractional parts of the
    square roots of the first 8 primes. *)
Definition H0 : list Z :=
  Eval vm_compute in map (fun p => w32 (Z.sqrt (p * 2 ^ 64))) (firstn 8 primes).

(** Big-endian encodings. *)
Fixpoint beBytes (n : nat) (x : Z) : list Z :=
  match n with
  | O => []
  | S m => (Z.shiftr x (8 * Z.of_nat m)) mod 256 :: beBytes m x
  end.

Definition beWord (bs : list Z) : Z :=
  fold_left (fun acc b => acc * 256 + b) bs 0.

(** Message padding: a 1 bit, zeros, and the bit length on 64 bits. *)
Definition pad (msg : list Z) : list Z :=
  let len := Z.of_nat (length msg) in
  let zeros := Z.to_nat ((55 - len) mod 64) in
  msg ++ [0x80] ++ repeat 0 zeros ++ beBytes 8 (8 * len).

Fixpoint groups {A} (fuel size : nat) (l : list A) : list (list A) :=
  match fuel with
  | O => []
  | S f =>
      match l with
      | [] => []
      | _ => firstn size l :: groups f size (skipn size l)
      end
  end.

Definition blocks (bs : list Z) : list (list Z) := groups (length bs) 64 bs.
Definition wordsOf (block : list Z) : list Z := map beWord (groups 16 4 block).

(** The message schedule, extended one word at a time. *)
Fixpoint extend (n : nat) (w : list Z) : list Z :=
  match n with
  | O => w
  | S m =>
      let t := length w in
      let x := add32 (add32 (smallSigma1 (nth (t - 2) w 0)) (nth (t - 7) w 0))
                     (add32 (smallSigma0 (nth (t - 15) w 0)) (nth (t - 16) w 0)) in
      extend m (w ++ [x])
  end.

Definition schedule (block : list Z) : list Z := extend 48 (wordsOf block).

Record regs := Regs { ra : Z; rb : Z; rc : Z; rd : Z; re : Z; rf : Z; rg : Z; rh : Z }.

Definition round (r : regs) (kw : Z * Z) : regs :=
  let t1 := add32 (add32 (add32 (rh r) (bigSigma1 (re r))) (Ch (re r) (rf r) (rg r)))
                  (add32 (fst kw) (snd kw)) in
  let t2 := add32 (bigSigma0 (ra r)) (Maj (ra r) (rb r) (rc r)) in
  Regs (add32 t1 t2) (ra r) (rb r) (rc r) (add32 (rd r) t1) (re r) (rf r) (rg r).

Definition regsOf (h : list Z) : regs :=
  Regs (nth 0 h 0) (nth 1 h 0) (nth 2 h 0) (nth 3 h 0)
       (nth 4 h 0) (nth 5 h 0) (nth 6 h 0) (nth 7 h 0).

Definition listOf (r : regs) : list Z :=
  [ra r; rb r; rc r; rd r; re r; rf r; rg r; rh r].

Definition compress (h : list Z) (block : list Z) : list Z :=
  let r := fold_left round (combine K (schedule block)) (regsOf h) in
  map (fun p => add32 (fst p) (snd p)) (combine h (listOf r)).

Definition digest (msg : list Z) : list Z :=
  flat_map (beBytes 4) (fold_left compress (blocks (pad msg)) H0).

End Sha256.

(** ** [src/index.ts]: room resolution on connect *)

Module Worker.
Import Js.
Local Open Scope string_scope.

(** [s.includes('::')]. *)
Fixpoint includesDoubleColon (s : string) : bool :=
  match s with
  | EmptyString => false
  | String c r =>
      match r with
      | String d _ =>
          if (Ascii.eqb c ":" && Ascii.eqb d ":")%bool then true
          else includesDoubleColon r
      | EmptyString => false
      end
  end.

(** [s.split('::')]: occurrences are taken from the left, without overlap. *)
Fixpoint splitDoubleColon (s : string) : list string :=
  match s with
  | EmptyString => [EmptyString]
  | String c r =>
      let keep :=
        match splitDoubleColon r with
        | [] => [String c EmptyString]
        | h :: t => String c h :: t
        end in
      match r with
      | String d r' =>
          if (Ascii.eqb c ":" && Ascii.eqb d ":")%bool
          then EmptyString :: splitDoubleColon r'
          else keep
      | EmptyString => keep
      end
  end.

(** [s.lastIndexOf(c)], [None] for -1. *)
Fixpoint lastIndexOf (c : ascii) (s : string) : option nat :=
  match s with
  | EmptyString => None
  | String d r =>
      match lastIndexOf c r with
      | Some i => Some (S i)
      | None => if Ascii.eqb c d then Some O else None
      end
  end.

(** [expandIPv6]. [Array(missing)] throws a [RangeError] for a negative
    length: the result is [None] then. *)
Definition expandIPv6 (ip0 : string) : option string :=
  let ip :=
    if includesChar "." ip0
    then match lastIndexOf ":" ip0 with
         | Some lastColon => substring0 lastColon ip0
         | None => EmptyString      (* substring(0, -1) *)
         end
    else ip0 in
  if includesDoubleColon ip then
    let parts := splitDoubleColon ip in
    let side (p : string) := if truthy p then splitChar ":" p else [] in
    let left := side (nth 0 parts EmptyString) in
    let right := side (nth 1 parts EmptyString) in
    let missing := (8 - Z.of_nat (length left) - Z.of_nat (length right))%Z in
    if (missing <? 0)%Z then None
    else
      let middle := repeat "0000" (Z.to_nat missing) in
      let full := (left ++ middle ++ right)%list in
      Some (join ":" (map (padStart0 4) full))
  else Some (join ":" (map (padStart0 4) (splitChar ":" ip))).

(** The seed that [generateRoomId] hashes. *)
Definition networkPart (ip : string) : option string :=
  if (String.eqb ip "default" || String.eqb ip "127.0.0.1" || String.eqb ip "::1")%bool
  then Some "localhost"
  else if (includesChar "." ip && negb (includesChar ":" ip))%bool then
    let parts := splitChar "." ip in
    if Nat.eqb (length parts) 4 then Some (join "." (firstn 3 parts)) else Some ip
  else
    match expandIPv6 ip with
    | Some expanded => Some (join ":" (firstn 4 (splitChar ":" expanded)))
    | None => None
    end.

(** [generateRoomId]: the hex form of the first 8 bytes of the digest. *)
Definition generateRoomId (ip : string) : option string :=
  match networkPart ip with
  | Some np => Some (hexOfBytes (firstn 8 (Sha256.digest (encode np))))
  | None => None
  end.

(** What [handleWebSocket] reads of the upgrade request. *)
Record ConnectRequest := {
  roomParam : option string;          (* url.searchParams.get('room') *)
  cfConnectingIp : option string;     (* header CF-Connecting-IP *)
  xForwardedFor : option string;      (* header X-Forwarded-For *)
  passwordHashParam : option string   (* url.searchParams.get('passwordHash') *)
}.

(** [/^[a-zA-Z0-9]{6}$/.test(s)]. *)
Definition isRoomCodeFormat (s : string) : bool :=
  (Nat.eqb (String.length s) 6 && forallb isAlnum (list_ascii_of_string s))%bool.

Definition validExplicitRoom (req : ConnectRequest) : bool :=
  match roomParam req with
  | Some r => (truthy r && isRoomCodeFormat r)%bool
  | None => false
  end.

(** [CF-Connecting-IP || X-Forwarded-For?.split(',')[0] || 'default']. *)
Definition clientIP (req : ConnectRequest) : string :=
  match cfConnectingIp req with
  | Some ip => if truthy ip then ip else
      match xForwardedFor req with
      | Some x => let h := nth 0 (splitChar "," x) EmptyString in
                  if truthy h then h else "default"
      | None => "default"
      end
  | None =>
      match xForwardedFor req with
      | Some x => let h := nth 0 (splitChar "," x) EmptyString in
                  if truthy h then h else "default"
      | None => "default"
      end
  end.

(** The room code [handleWebSocket] settles on ([None]: the handler threw). *)
Definition roomCodeOf (req : ConnectRequest) : option string :=
  if validExplicitRoom req then
    match roomParam req with
    | Some r => Some (toUpperCase r)
    | None => None
    end
  else
    match generateRoomId (clientIP req) with
    | Some ipHash => Some (toUpperCase (substring0 6 ipHash))
    | None => None
    end.

(** The Durable Object name and the headers passed on to the room. *)
Record RoomRouting := {
  roomId : string;
  xRoomCode : string;
  xRoomPasswordHash : option string
}.

Definition handleWebSocket (req : ConnectRequest) : option RoomRouting :=
  match roomCodeOf req with
  | Some roomCode =>
      Some {| roomId := "room-" ++ toLowerCase roomCode;
              xRoomCode := roomCode;
              xRoomPasswordHash :=
                match passwordHashParam req with
                | Some h => if truthy h then Some h else None
                | None => None
                end |}
  | None => None
  end.

End Worker.

(** ** [src/room.ts]: the password gate of the [Room] Durable Object *)

Module RoomDO.
Import Js.
Local Open Scope string_scope.

(** What [JSON.parse] can return. *)
#[local] Unset Elimination Schemes.
Inductive Json :=
| JNull
| JBool (b : bool)
| JNum (n : Z)
| JStr (s : string)
| JArr (items : list Json)
| JObj (fields : list (string * Json)).
#[local] Set Elimination Schemes.

(** A property of a parsed object: the last binding of a repeated key
    wins. [None] is [undefined]. *)
Fixpoint field (k : string) (fields : list (string * Json)) : option Json :=
  match fields with
  | [] => None
  | (k', v) :: r =>
      match field k r with
      | Some w => Some w
      | None => if String.eqb k k' then Some v else None
      end
  end.

Record Request := {
  pathname : string;
  method : string;
  json : option Json;                 (* request.json(); None: it rejects *)
  upgradeHeader : option string;      (* header Upgrade *)
  roomCodeHeader : option string;     (* header X-Room-Code *)
  passwordHashHeader : option string  (* header X-Room-Password-Hash *)
}.

Inductive Body :=
| Text (s : string)
| SetPasswordResult (success : bool) (error : option string)
| CheckPasswordResult (hasPassword : bool)
| NoBody.

(** What the accepted server socket is made to do before the response. *)
Inductive SocketAction :=
| SendError (error : string)
| Close (code : Z) (reason : string).

Record Response := {
  status : Z;
  body : Body;
  accepted : option string;           (* acceptWebSocket(server, [roomCode]) *)
  socket : list SocketAction
}.

Definition plain (st : Z) (b : Body) : Response :=
  {| status := st; body := b; accepted := None; socket := [] |}.

(** [this.passwordHash] and the [passwordHash] key of [state.storage]. *)
Record Room := {
  passwordHash : option string;
  storage : gmap string string
}.

(** The constructor: [storage.get('passwordHash') || null]. *)
Definition construct (store : gmap string string) : Room :=
  {| passwordHash :=
       match store !! "passwordHash" with
       | Some h => if truthy h then Some h else None
       | None => None
       end;
     storage := store |}.

Definition handleCheckPassword (r : Room) : Response :=
  plain 200 (CheckPasswordResult
               match passwordHash r with Some _ => true | None => false end).

Definition handleSetPassword (r : Room) (req : Request) : Room * Response :=
  if negb (String.eqb (method req) "POST") then
    (r, plain 405 (Text "Method Not Allowed"))
  else
    match passwordHash r with
    | Some _ =>
        (r, plain 400 (SetPasswordResult false (Some "Password already set for this room")))
    | None =>
        let invalidBody :=
          (r, plain 400 (SetPasswordResult false (Some "Invalid request body"))) in
        let invalidHash :=
          (r, plain 400 (SetPasswordResult false (Some "Invalid password hash"))) in
        match json req with
        | None => invalidBody                 (* request.json() rejected *)
        | Some JNull => invalidBody           (* null.passwordHash throws *)
        | Some (JObj fields) =>
            match field "passwordHash" fields with
            | Some (JStr h) =>
                if truthy h then
                  ({| passwordHash := Some h;
                      storage := <["passwordHash" := h]> (storage r) |},
                   plain 200 (SetPasswordResult true None))
                else invalidHash
            | _ => invalidHash
            end
        | Some _ => invalidHash               (* the property is undefined *)
        end
    end.

Definition handleWebSocket (r : Room) (req : Request) : Response :=
  match upgradeHeader req with
  | Some "websocket" =>
      let roomCode :=
        match roomCodeHeader req with
        | Some c => c
        | None => ""
        end in
      let upgraded (acts : list SocketAction) :=
        {| status := 101; body := NoBody; accepted := Some roomCode; socket := acts |} in
      match passwordHash r with
      | Some stored =>
          match passwordHashHeader req with
          | Some provided =>
              if truthy provided then
                if String.eqb provided stored then upgraded []
                else upgraded [SendError "PASSWORD_INCORRECT"; Close 4002 "PASSWORD_INCORRECT"]
              else upgraded [SendError "PASSWORD_REQUIRED"; Close 4001 "PASSWORD_REQUIRED"]
          | None => upgraded [SendError "PASSWORD_REQUIRED"; Close 4001 "PASSWORD_REQUIRED"]
          end
      | None => upgraded []
      end
  | _ => plain 426 (Text "Expected WebSocket")
  end.

Definition fetch (r : Room) (req : Request) : Room * Response :=
  if String.eqb (pathname req) "/ws" then (r, handleWebSocket r req)
  else if String.eqb (pathname req) "/set-password" then handleSetPassword r req
  else if String.eqb (pathname req) "/check-password" then (r, handleCheckPassword r)
  else (r, plain 404 (Text "Not Found")).

(** The room after a series of requests. *)
Definition serve (r : Room) (reqs : list Request) : Room :=
  fold_left (fun room req => fst (fetch room req)) reqs r.

End RoomDO.

(** ** AES-256 (FIPS 197), the block cipher under AES-GCM *)

Module Aes.

(** Multiplication by [x] in GF(2^8) modulo [x^8 + x^4 + x^3 + x + 1]. *)
Definition xtime (b : Z) : Z :=
  let s := Z.land (Z.shiftl b 1) 0xff in
  if Z.testbit b 7 then Z.lxor s 0x1b else s.

Fixpoint gmulAux (n : nat) (a b acc : Z) : Z :=
  match n with
  | O => acc
  | S m => gmulAux m (xtime a) (Z.shiftr b 1)
                   (if Z.testbit b 0 then Z.lxor acc a else acc)
  end.

Definition gmul (a b : Z) : Z := gmulAux 8 a b 0.

(** The inverse in GF(2^8) as the 254th power, 0 for 0. *)
Definition ginv (a : Z) : Z :=
  let a2 := gmul a a in
  let a4 := gmul a2 a2 in
  let a8 := gmul a4 a4 in
  let a16 := gmul a8 a8 in
  let a32 := gmul a16 a16 in
  let a64 := gmul a32 a32 in
  let a128 := gmul a64 a64 in
  gmul a128 (gmul a64 (gmul a32 (gmul a16 (gmul a8 (gmul a4 a2))))).

Definition rotl8 (b n : Z) : Z :=
  Z.land (Z.lor (Z.shiftl b n) (Z.shiftr b (8 - n))) 0xff.

Definition sboxOf (a : Z) : Z :=
  let b := ginv a in
  Z.lxor (Z.lxor (Z.lxor (Z.lxor (Z.lxor b (rotl8 b 1)) (rotl8 b 2)) (rotl8 b 3)) (rotl8 b 4)) 0x63.

Definition sboxTable : list Z :=
  Eval vm_compute in map (fun i => sboxOf (Z.of_nat i)) (seq 0 256).

Definition sbox (b : Z) : Z := nth (Z.to_nat b) sboxTable 0.

Definition xorBytes (a b : list Z) : list Z :=
  map (fun p => Z.lxor (fst p) (snd p)) (combine a b).

(** The state is the 16 input bytes in order: byte [r + 4c] is row [r],
    column [c]. *)
Definition subBytes (s : list Z) : list Z := map sbox s.

Definition shiftRows (s : list Z) : list Z :=
  map (fun i => nth (i mod 4 + 4 * ((i / 4 + i mod 4) mod 4))%nat s 0) (seq 0 16).

Definition mixColumn (c : list Z) : list Z :=
  let a0 := nth 0 c 0 in let a1 := nth 1 c 0 in
  let a2 := nth 2 c 0 in let a3 := nth 3 c 0 in
  [ Z.lxor (Z.lxor (gmul a0 2) (gmul a1 3)) (Z.lxor a2 a3);
    Z.lxor (Z.lxor a0 (gmul a1 2)) (Z.lxor (gmul a2 3) a3);
    Z.lxor (Z.lxor a0 a1) (Z.lxor (gmul a2 2) (gmul a3 3));
    Z.lxor (Z.lxor (gmul a0 3) a1) (Z.lxor a2 (gmul a3 2)) ].

Definition mixColumns (s : list Z) : list Z :=
  flat_map (fun c => mixColumn (firstn 4 (skipn (4 * c) s))) (seq 0 4).

Definition rcon : list Z := [0x01; 0x02; 0x04; 0x08; 0x10; 0x20; 0x40].

(** Key expansion for a 256-bit key: 60 words of 4 bytes. *)
Fixpoint expand (n : nat) (w : list (list Z)) : list (list Z) :=
  match n with
  | O => w
  | S m =>
      let i := length w in
      let prev := nth (i - 1) w [] in
      let temp :=
        if Nat.eqb (i mod 8) 0 then
          xorBytes (map sbox (skipn 1 prev ++ firstn 1 prev))
                   [nth (i / 8 - 1) rcon 0; 0; 0; 0]
        else if Nat.eqb (i mod 8) 4 then map sbox prev
        else prev in
      expand m (w ++ [xorBytes (nth (i - 8) w []) temp])
  end.

Definition keyWords (key : list Z) : list (list Z) :=
  map (fun i => firstn 4 (skipn (4 * i) key)) (seq 0 8).

Definition roundKeys (key : list Z) : list (list Z) :=
  let w := expand 52 (keyWords key) in
  map (fun r => concat (firstn 4 (skipn (4 * r) w))) (seq 0 15).

Definition fullRound (s rk : list Z) : list Z :=
  xorBytes (mixColumns (shiftRows (subBytes s))) rk.

Definition lastRound (s rk : list Z) : list Z :=
  xorBytes (shiftRows (subBytes s)) rk.

(** The forward cipher on one 16-byte block. *)
Definition encryptBlock (key block : list Z) : list Z :=
  let rks := roundKeys key in
  let s0 := xorBytes block (nth 0 rks []) in
  let s13 := fold_left fullRound (firstn 13 (skipn 1 rks)) s0 in
  lastRound s13 (nth 14 rks []).

End Aes.

(** ** Galois/Counter Mode (NIST SP 800-38D) with a 128-bit tag, as
    [crypto.subtle.encrypt] and [crypto.subtle.decrypt] run it for
    [{name: 'AES-GCM', iv}]: no additional data, the tag appended to the
    ciphertext. *)

Module Gcm.

(** A 16-byte block as a 128-bit integer, most significant byte first. *)
Definition blockOf (bs : list Z) : Z := Sha256.beWord bs.
Definition bytesOf (x : Z) : list Z := Sha256.beBytes 16 x.

Definition R : Z := Z.shiftl 0xe1 120.

(** Multiplication in GF(2^128): bit 0 is the leftmost bit. *)
Fixpoint gfmulAux (n : nat) (x v acc : Z) : Z :=
  match n with
  | O => acc
  | S m =>
      let acc' := if Z.testbit x (Z.of_nat m) then Z.lxor acc v else acc in
      let v' := if Z.testbit v 0 then Z.lxor (Z.shiftr v 1) R else Z.shiftr v 1 in
      gfmulAux m x v' acc'
  end.

Definition gfmul (x y : Z) : Z := gfmulAux 128 x y 0.

(** Zero padding to a whole number of blocks. *)
Definition padBlock (bs : list Z) : list Z :=
  bs ++ repeat 0 (Z.to_nat ((- Z.of_nat (length bs)) mod 16)).

Definition ghash (h : Z) (bs : list Z) : Z :=
  fold_left (fun y blk => gfmul (Z.lxor y (blockOf blk)) h)
            (Sha256.groups (length bs) 16 bs) 0.

(** The counter block [j] steps after [cb]: the low 32 bits count. *)
Definition incr (cb : Z) (j : Z) : Z :=
  Z.lor (Z.shiftl (Z.shiftr cb 32) 32) (Z.land (Z.land cb 0xffffffff + j) 0xffffffff).

Section Mode.
(** The block cipher under the mode. *)
Variable E : list Z -> list Z -> list Z.

Definition hashKey (key : list Z) : Z := blockOf (E key (repeat 0 16%nat)).

(** The pre-counter block: 96-bit IVs are used as they are. *)
Definition j0 (key iv : list Z) : Z :=
  if Nat.eqb (length iv) 12 then blockOf (iv ++ [0; 0; 0; 1])
  else ghash (hashKey key)
             (padBlock iv ++ repeat 0 8%nat
              ++ Sha256.beBytes 8 (8 * Z.of_nat (length iv))).

Definition keystreamByte (key : list Z) (icb : Z) (i : nat) : Z :=
  nth (i mod 16) (E key (bytesOf (incr icb (Z.of_nat (i / 16))))) 0.

Fixpoint xorFrom (ks : nat -> Z) (i : nat) (p : list Z) : list Z :=
  match p with
  | [] => []
  | b :: r => Z.lxor b (ks i) :: xorFrom ks (S i) r
  end.

Definition gctr (key : list Z) (icb : Z) (p : list Z) : list Z :=
  xorFrom (keystreamByte key icb) 0 p.

Definition tag (key iv c : list Z) : list Z :=
  let s := ghash (hashKey key)
                 (padBlock c ++ Sha256.beBytes 8 0
                  ++ Sha256.beBytes 8 (8 * Z.of_nat (length c))) in
  gctr key (j0 key iv) (bytesOf s).

(** The ciphertext followed by the 16-byte tag. *)
Definition encrypt (key iv p : list Z) : list Z :=
  let c := gctr key (incr (j0 key iv) 1) p in
  c ++ tag key iv c.

(** [None] is the [OperationError] of a failed authentication. *)
Definition decrypt (key iv data : list Z) : option (list Z) :=
  let n := length data in
  if (n <? 16)%nat then None
  else
    let c := firstn (n - 16) data in
    let t := skipn (n - 16) data in
    if bool_decide (t = tag key iv c)
    then Some (gctr key (incr (j0 key iv) 1) c)
    else None.
End Mode.

Definition aesEncrypt : list Z -> list Z -> list Z -> list Z := encrypt Aes.encryptBlock.
Definition aesDecrypt : list Z -> list Z -> list Z -> option (list Z) :=
  decrypt Aes.encryptBlock.

End Gcm.

(** ** HMAC-SHA-256 (RFC 2104) and PBKDF2 (RFC 8018), behind
    [crypto.subtle.deriveKey({name: 'PBKDF2', hash: 'SHA-256', ...})] *)

Module Kdf.

Definition blockKey (key : list Z) : list Z :=
  let k := if (64 <? length key)%nat then Sha256.digest key else key in
  k ++ repeat 0 (64 - length k)%nat.

Definition hmac (key msg : list Z) : list Z :=
  let k := blockKey key in
  let ipad := map (fun b => Z.lxor b 0x36) k in
  let opad := map (fun b => Z.lxor b 0x5c) k in
  Sha256.digest (opad ++ Sha256.digest (ipad ++ msg)).

(** One step of the iteration: the running block and the running sum. *)
Definition step (password : list Z) (st : list Z * list Z) : list Z * list Z :=
  let u := hmac password (fst st) in
  (u, Aes.xorBytes (snd st) u).

(** The first 32-byte block of the derived key after [iterations] rounds. *)
Definition pbkdf2 (password salt : list Z) (iterations : N) : list Z :=
  let u1 := hmac password (salt ++ [0; 0; 0; 1]) in
  snd (N.iter (iterations - 1) (step password) (u1, u1)).

End Kdf.

(** ** [public/js/config.js] *)

Module Config.
Definition CHUNK_SIZE : Z := 64 * 1024.
Definition CONNECTION_TIMEOUT : Z := 10000.
Definition FAST_FALLBACK_TIMEOUT : Z := 5000.
Definition SLOW_CONNECTION_THRESHOLD : Z := 3000.
Definition DISCONNECTED_TIMEOUT : Z := 3000.
Definition ICE_RESTART_DELAY : Z := 500.
Definition MAX_ICE_RESTARTS : Z := 2.
Definition P2P_RETRY_INITIAL_DELAY : Z := 10000.
Definition P2P_RETRY_INTERVAL : Z := 30000.
Definition P2P_RETRY_MAX_ATTEMPTS : Z := 10.
Definition REQUEST_TIMEOUT : Z := 60000.
Definition WINDOW_SIZE : nat := 10.
Definition ACK_TIMEOUT : Z := 5000.
Definition MAX_CHUNK_RETRIES : Z := 3.
Definition ACK_BATCH_SIZE : nat := 5.
Definition CHUNK_INTERVAL : Z := 5.
Definition TRANSFER_TIMEOUT : Z := 30000.
Definition PASSWORD_MIN_LENGTH : nat := 6.
Definition PBKDF2_ITERATIONS : N := 100000.
End Config.

(** ** [public/js/crypto.js]: the [CryptoManager] class *)

Module Crypto.
Import Js.

Inductive CryptoError :=
| NoSharedKey (peerId : string)   (* Error(`No shared key for peer: ${peerId}`) *)
| OperationError                  (* crypto.subtle.decrypt rejected *)
| IvRequired                      (* Error('IV is required for room key decryption') *)
| PasswordAndRoomCodeRequired.    (* Error('Password and room code are required') *)

(** A result or the error thrown. *)
Definition Result (A : Type) : Type := CryptoError + A.
Definition Ok {A} (a : A) : Result A := inr a.
Definition Throw {A} (e : CryptoError) : Result A := inl e.

(** The source of [crypto.getRandomValues]: a stream and how far it has
    been read. *)
Record Rng := { source : nat -> Z; position : nat }.

(** [crypto.getRandomValues(new Uint8Array(n))]. *)
Definition getRandomValues (n : nat) (g : Rng) : list Z * Rng :=
  (map (fun i => source g (position g + i)%nat mod 256) (seq 0 n),
   {| source := source g; position := (position g + n)%nat |}).

Record CryptoManager := {
  sharedSecrets : gmap string (list Z);   (* peerId -> AES-GCM key *)
  roomKey : option (list Z);
  roomPasswordSet : bool
}.

(** The constructor. *)
Definition new : CryptoManager :=
  {| sharedSecrets := ∅; roomKey := None; roomPasswordSet := false |}.

Definition hasSharedSecret (cm : CryptoManager) (peerId : string) : bool :=
  bool_decide (is_Some (sharedSecrets cm !! peerId)).

Definition removePeer (cm : CryptoManager) (peerId : string) : CryptoManager :=
  {| sharedSecrets := delete peerId (sharedSecrets cm);
     roomKey := roomKey cm; roomPasswordSet := roomPasswordSet cm |}.

Definition hasRoomPassword (cm : CryptoManager) : bool :=
  roomPasswordSet cm && match roomKey cm with Some _ => true | None => false end.

Definition deriveRoomKeyFromPassword (password roomCode : string) : list Z :=
  Kdf.pbkdf2 (encode password) (encode ("clouddrop-room-" ++ roomCode)%string)
             Config.PBKDF2_ITERATIONS.

Definition setRoomPassword (cm : CryptoManager) (password roomCode : string)
  : Result CryptoManager :=
  if negb (truthy password) || negb (truthy roomCode) then
    Throw PasswordAndRoomCodeRequired
  else
    Ok {| sharedSecrets := sharedSecrets cm;
          roomKey := Some (deriveRoomKeyFromPassword password roomCode);
          roomPasswordSet := true |}.

Definition clearRoomPassword (cm : CryptoManager) : CryptoManager :=
  {| sharedSecrets := sharedSecrets cm; roomKey := None; roomPasswordSet := false |}.

Definition hashPasswordForServer (password roomCode : string) : string :=
  hexOfBytes (Sha256.digest (encode (password ++ ":" ++ roomCode ++ ":clouddrop")%string)).

(** [{encrypted, iv}]. *)
Record Encrypted := { encrypted : list Z; iv : option (list Z) }.

Definition encrypt (cm : CryptoManager) (peerId : string) (data : list Z) (g : Rng)
  : Result Encrypted * Rng :=
  match sharedSecrets cm !! peerId with
  | None => (Throw (NoSharedKey peerId), g)
  | Some sharedKey =>
      let '(iv, g') := getRandomValues 12 g in
      (Ok {| encrypted := Gcm.aesEncrypt sharedKey iv data; iv := Some iv |}, g')
  end.

Definition decrypt (cm : CryptoManager) (peerId : string) (encryptedData iv : list Z)
  : Result (list Z) :=
  match sharedSecrets cm !! peerId with
  | None => Throw (NoSharedKey peerId)
  | Some sharedKey =>
      match Gcm.aesDecrypt sharedKey iv encryptedData with
      | Some p => Ok p
      | None => Throw OperationError
      end
  end.

Definition encryptWithRoomKey (cm : CryptoManager) (data : list Z) (g : Rng)
  : Encrypted * Rng :=
  match roomKey cm with
  | Some key =>
      if hasRoomPassword cm then
        let '(iv, g') := getRandomValues 12 g in
        ({| encrypted := Gcm.aesEncrypt key iv data; iv := Some iv |}, g')
      else ({| encrypted := data; iv := None |}, g)
  | None => ({| encrypted := data; iv := None |}, g)
  end.

Definition decryptWithRoomKey (cm : CryptoManager) (encryptedData : list Z)
           (iv : option (list Z)) : Result (list Z) :=
  match roomKey cm with
  | Some key =>
      if hasRoomPassword cm then
        match iv with
        | None => Throw IvRequired
        | Some iv =>
            match Gcm.aesDecrypt key iv encryptedData with
            | Some p => Ok p
            | None => Throw OperationError
            end
        end
      else Ok encryptedData
  | None => Ok encryptedData
  end.

(** [encryptChunk]: [room_iv_length][room_iv][peer_iv][encrypted_data]. *)
Definition encryptChunk (cm : CryptoManager) (peerId : string) (chunk : list Z) (g : Rng)
  : Result (list Z) * Rng :=
  let '(layer1, g1) :=
    if hasRoomPassword cm then encryptWithRoomKey cm chunk g
    else ({| encrypted := chunk; iv := None |}, g) in
  let data := encrypted layer1 in
  let roomIv := iv layer1 in
  match encrypt cm peerId data g1 with
  | (inl e, g2) => (Throw e, g2)
  | (inr layer2, g2) =>
      let peerIv := match iv layer2 with Some v => v | None => [] end in
      let roomIvLength := match roomIv with Some v => Z.of_nat (length v) | None => 0 end in
      (Ok ([roomIvLength]
           ++ match roomIv with Some v => v | None => [] end
           ++ peerIv ++ encrypted layer2), g2)
  end.

(** [decryptChunk]. Reading [dataArray[0]] of an empty array gives
    [undefined], which is not greater than 0. *)
Definition decryptChunk (cm : CryptoManager) (peerId : string) (data : list Z)
  : Result (list Z) :=
  let roomIvLength := match data with b :: _ => b | [] => 0 end in
  let offset := 1%nat in
  let '(roomIv, offset) :=
    if 0 <? roomIvLength
    then (Some (slice offset (offset + Z.to_nat roomIvLength) data),
          (offset + Z.to_nat roomIvLength)%nat)
    else (None, offset) in
  let peerIv := slice offset (offset + 12) data in
  let offset := (offset + 12)%nat in
  let encrypted := sliceFrom offset data in
  match decrypt cm peerId encrypted peerIv with
  | inl e => Throw e
  | inr decrypted =>
      match roomIv with
      | Some riv =>
          if hasRoomPassword cm then decryptWithRoomKey cm decrypted (Some riv)
          else Ok decrypted
      | None => Ok decrypted
      end
  end.

End Crypto.

(** ** [btoa] and [atob] on byte strings (RFC 4648, WHATWG forgiving decode) *)

Module Base64.

Definition alphabet : list ascii :=
  list_ascii_of_string
    "ABCDEFGHIJKLMNOPQRSTUVWXYZabcdefghijklmnopqrstuvwxyz0123456789+/".

Definition charOf (n : Z) : ascii := nth (Z.to_nat n) alphabet "A"%char.

Fixpoint indexIn (c : ascii) (l : list ascii) (i : Z) : option Z :=
  match l with
  | [] => None
  | d :: r => if Ascii.eqb c d then Some i else indexIn c r (i + 1)
  end.

Definition valueOf (c : ascii) : option Z := indexIn c alphabet 0.

Fixpoint encodeAux (fuel : nat) (bs : list Z) : list ascii :=
  match fuel with
  | O => []
  | S f =>
      match bs with
      | [] => []
      | [a] =>
          [charOf (a / 4); charOf (a mod 4 * 16); "="%char; "="%char]
      | [a; b] =>
          [charOf (a / 4); charOf (a mod 4 * 16 + b / 16);
           charOf (b mod 16 * 4); "="%char]
      | a :: b :: c :: r =>
          charOf (a / 4) :: charOf (a mod 4 * 16 + b / 16)
          :: charOf (b mod 16 * 4 + c / 64) :: charOf (c mod 64)
          :: encodeAux f r
      end
  end.

(** [arrayBufferToBase64]: [btoa] of the bytes as a binary string. *)
Definition encode (bs : list Z) : string :=
  string_of_list_ascii (encodeAux (length bs) bs).

Definition isSpace (c : ascii) : bool :=
  let n := N_of_ascii c in
  ((n =? 9) || (n =? 10) || (n =? 12) || (n =? 13) || (n =? 32))%N.

Fixpoint values (cs : list ascii) : option (list Z) :=
  match cs with
  | [] => Some []
  | c :: r =>
      match valueOf c, values r with
      | Some v, Some vs => Some (v :: vs)
      | _, _ => None
      end
  end.

Fixpoint decodeAux (fuel : nat) (vs : list Z) : list Z :=
  match fuel with
  | O => []
  | S f =>
      match vs with
      | a :: b :: c :: d :: r =>
          (a * 4 + b / 16) :: (b mod 16 * 16 + c / 4) :: (c mod 4 * 64 + d)
          :: decodeAux f r
      | [a; b; c] => [a * 4 + b / 16; b mod 16 * 16 + c / 4]
      | [a; b] => [a * 4 + b / 16]
      | _ => []
      end
  end.

Definition stripPadding (cs : list ascii) : list ascii :=
  if Nat.eqb (length cs mod 4) 0 then
    match rev cs with
    | "="%char :: "="%char :: r => rev r
    | "="%char :: r => rev r
    | _ => cs
    end
  else cs.

(** [base64ToUint8Array]: [None] when [atob] throws. *)
Definition decode (s : string) : option (list Z) :=
  let cs := stripPadding (List.filter (fun c => negb (isSpace c)) (list_ascii_of_string s)) in
  if Nat.eqb (length cs mod 4) 1 then None
  else match values cs with
       | Some vs => Some (decodeAux (length vs) vs)
       | None => None
       end.

End Base64.

(** ** [public/js/webrtc.js]: messages and observable effects *)

Module Wire.

(** The [data] of a [relay-data] message, also the text frames of the data
    channel. A numeric field that is absent is [None]. *)
Inductive Payload :=
| FileStart (fileId name : string) (size : Z) (mimeType : string) (totalChunks : Z)
| Chunk (fileId : string) (index : option nat) (data : string) (retry : bool)
| FileEnd (fileId : string) (totalChunks : option Z)
| Ack (fileId : string) (acks : list nat)
| FileCancel (fileId reason : string)
| TextMessage (content : string)
| Unknown.

(** Messages handed to [this.signaling.send], without the [to] field. *)
Inductive Signal :=
| RelayData (data : Payload)
| FileRequest (fileId name : string) (size : Z) (mimeType : string)
              (totalChunks : Z) (transferMode : string)
| FileResponse (fileId : string) (accepted : bool)
| KeyExchange (publicKey : string)
| IceCandidate (candidateType : string).

Inductive DcFrame :=
| DcText (data : Payload)
| DcBinary (bytes : list Z).

Inductive Status := Connecting | Slow | Relay | Connected.

(** Calls that leave the manager, in the order they are made. *)
Inductive Effect :=
| Send (to : string) (msg : Signal)
| DcSend (peerId : string) (frame : DcFrame)
| Notify (peerId : string) (status : Status) (message : option string)
| Progress (peerId fileId : string) (sent total : Z)
| FileRequested (peerId fileId : string)
| FileReceived (peerId name mimeType : string) (blob : list Z)
| TextReceived (peerId content : string)
| TransferCancelled (peerId fileId reason : string)
| LogIncomplete (expected received : Z)
| LogMissing (missing : list nat)
| LogSizeMismatch (expected got : Z)
| LogAckTimeout (unacked : Z).

(** A chunk frame sent with [retry: true]. *)
Definition isRetransmission (e : Effect) : bool :=
  match e with
  | Send _ (RelayData (Chunk _ _ _ true)) => true
  | _ => false
  end.

Definition isChunkFor (i : nat) (e : Effect) : bool :=
  match e with
  | Send _ (RelayData (Chunk _ (Some j) _ _)) => Nat.eqb i j
  | _ => false
  end.

End Wire.

(** ** [public/js/webrtc.js]: the sending side of a transfer *)

Module Sender.
Import Js Config Crypto Wire.
Local Open Scope string_scope.
Local Open Scope list_scope.
Local Open Scope Z_scope.

(** A [File]: [file.size] is the length of its content. *)
Record File := { name : string; type : string; content : list Z }.

Definition fileSize (f : File) : Z := Z.of_nat (length (content f)).

(** [file.type || 'application/octet-stream']. *)
Definition mimeType (f : File) : string :=
  if truthy (type f) then type f else "application/octet-stream".

(** [Math.ceil(a / b)] for [0 < b]: sizes are integers below 2^53 and
    [CHUNK_SIZE] is a power of two, so the quotient is exact. *)
Definition ceilDiv (a b : Z) : Z := - ((- a) / b).

Definition totalChunks (f : File) : Z := ceilDiv (fileSize f) CHUNK_SIZE.

(** [file.slice(offset, offset + CHUNK_SIZE).arrayBuffer()]. *)
Definition chunkAt (f : File) (offset : Z) : list Z :=
  slice (Z.to_nat offset) (Z.to_nat (offset + CHUNK_SIZE)) (content f).

(** The message of [_requestFileTransfer]. *)
Definition fileRequest (f : File) (fileId : string) (isRelayMode : bool) : Signal :=
  FileRequest fileId (name f) (fileSize f) (mimeType f) (totalChunks f)
              (if isRelayMode then "relay" else "p2p").

Definition _requestFileTransfer (peerId : string) (f : File) (fileId : string)
           (isRelayMode : bool) : Effect :=
  Send peerId (fileRequest f fileId isRelayMode).

Inductive SendError :=
| Cancelled               (* '传输已取消' *)
| RetransmitExhausted     (* '传输失败：数据块重传次数过多' *)
| Stalled                 (* '传输超时：接收方无响应' *)
| KeyTimeout              (* 'Encryption key timeout' *)
| CryptoFailed (e : CryptoError).

(** *** Direct path: [_sendFileDataViaP2P] *)

Inductive P2PPc :=
| PLoopHead                           (* about to test [offset < file.size] *)
| PBufferWait (encrypted : list Z)    (* in [while (dc.bufferedAmount > 1 MiB)] *)
| PDone
| PFailed (e : SendError).

Record P2PSender := {
  p_peerId : string;
  p_file : File;
  p_fileId : string;
  p_registered : bool;    (* activeTransfers still holds the transfer *)
  p_cancelled : bool;
  p_offset : Z;
  p_chunkIndex : nat;
  p_pc : P2PPc;
  p_rng : Rng;
  p_out : list Effect
}.

Definition p_emit (e : Effect) (s : P2PSender) : P2PSender :=
  {| p_peerId := p_peerId s; p_file := p_file s; p_fileId := p_fileId s;
     p_registered := p_registered s; p_cancelled := p_cancelled s;
     p_offset := p_offset s; p_chunkIndex := p_chunkIndex s; p_pc := p_pc s;
     p_rng := p_rng s; p_out := p_out s ++ [e] |}.

(** Leaving the [try] block: [finally] deletes the active transfer. *)
Definition p_finish (pc : P2PPc) (s : P2PSender) : P2PSender :=
  {| p_peerId := p_peerId s; p_file := p_file s; p_fileId := p_fileId s;
     p_registered := false; p_cancelled := p_cancelled s;
     p_offset := p_offset s; p_chunkIndex := p_chunkIndex s; p_pc := pc;
     p_rng := p_rng s; p_out := p_out s |}.

Definition p_suspend (pc : P2PPc) (s : P2PSender) : P2PSender :=
  {| p_peerId := p_peerId s; p_file := p_file s; p_fileId := p_fileId s;
     p_registered := p_registered s; p_cancelled := p_cancelled s;
     p_offset := p_offset s; p_chunkIndex := p_chunkIndex s; p_pc := pc;
     p_rng := p_rng s; p_out := p_out s |}.

Definition p_gone (s : P2PSender) : bool := negb (p_registered s) || p_cancelled s.

(** The buffer test and the send of one chunk. *)
Definition p_flush (buffered : Z) (encrypted : list Z) (s : P2PSender) : P2PSender :=
  if 1024 * 1024 <? buffered then
    if p_gone s then p_finish (PFailed Cancelled) s
    else p_suspend (PBufferWait encrypted) s
  else
    let s1 := p_emit (DcSend (p_peerId s) (DcBinary encrypted)) s in
    let offset := p_offset s + CHUNK_SIZE in
    let s2 :=
      {| p_peerId := p_peerId s1; p_file := p_file s1; p_fileId := p_fileId s1;
         p_registered := p_registered s1; p_cancelled := p_cancelled s1;
         p_offset := offset; p_chunkIndex := S (p_chunkIndex s1); p_pc := PLoopHead;
         p_rng := p_rng s1; p_out := p_out s1 |} in
    p_emit (Progress (p_peerId s) (p_fileId s) offset (fileSize (p_file s))) s2.

(** One turn of the [while (offset < file.size)] loop, up to the next
    suspension; the awaits of [arrayBuffer()] and [encryptChunk] are taken
    as immediate. [buffered] is what [dc.bufferedAmount] reads. *)
Definition p_iterate (cm : CryptoManager) (buffered : Z) (s : P2PSender) : P2PSender :=
  if p_offset s <? fileSize (p_file s) then
    if p_gone s then p_finish (PFailed Cancelled) s
    else
      match encryptChunk cm (p_peerId s) (chunkAt (p_file s) (p_offset s)) (p_rng s) with
      | (inl e, _) => p_finish (PFailed (CryptoFailed e)) s
      | (inr encrypted, g) =>
          p_flush buffered encrypted
            {| p_peerId := p_peerId s; p_file := p_file s; p_fileId := p_fileId s;
               p_registered := p_registered s; p_cancelled := p_cancelled s;
               p_offset := p_offset s; p_chunkIndex := p_chunkIndex s; p_pc := p_pc s;
               p_rng := g; p_out := p_out s |}
      end
  else
    p_finish PDone (p_emit (DcSend (p_peerId s) (DcText (FileEnd (p_fileId s) None))) s).

(** The call itself: register, send [file-start], enter the loop. *)
Definition _sendFileDataViaP2P (cm : CryptoManager) (g : Rng) (peerId : string)
           (f : File) (fileId : string) (buffered : Z) : P2PSender :=
  let s0 :=
    {| p_peerId := peerId; p_file := f; p_fileId := fileId;
       p_registered := true; p_cancelled := false;
       p_offset := 0; p_chunkIndex := O; p_pc := PLoopHead;
       p_rng := g; p_out := [] |} in
  p_iterate cm buffered
    (p_emit (DcSend peerId
               (DcText (FileStart fileId (name f) (fileSize f) (mimeType f) (totalChunks f))))
            s0).





(** *** Relay path: [_sendFileDataViaRelay] *)

(** A JavaScript [Map] with numeric keys keeps its entries in insertion
    order; [set] on a present key replaces the value in place. *)
Fixpoint mapSet {V} (k : nat) (v : V) (m : list (nat * V)) : list (nat * V) :=
  match m with
  | [] => [(k, v)]
  | (k', v') :: r => if Nat.eqb k k' then (k, v) :: r else (k', v') :: mapSet k v r
  end.

Definition mapDelete {V} (k : nat) (m : list (nat * V)) : list (nat * V) :=
  List.filter (fun e => negb (Nat.eqb k (fst e))) m.


Record PendingInfo := { base64 : string; retries : Z; sentAt : Z }.

(** The transfer state registered in [activeTransfers]. *)
Record Transfer := {
  cancelled : bool;
  ackedChunks : gset nat;
  pendingChunks : list (nat * PendingInfo);
  lastAckTime : Z
}.

(** [_sendChunk]. *)
Definition _sendChunk (peerId fileId : string) (index : nat) (base64Data : string)
           (retryCount : Z) : Effect :=
  Send peerId (RelayData (Chunk fileId (Some index) base64Data (0 <? retryCount))).

(** [_getOldestPendingChunk]: the first entry, in insertion order, whose
    [sentAt] is below all the earlier ones. *)
Definition _getOldestPendingChunk (t : Transfer) : option (nat * PendingInfo) :=
  fold_left
    (fun oldest e =>
       match oldest with
       | None => Some e
       | Some o => if sentAt (snd e) <? sentAt (snd o) then Some e else oldest
       end)
    (pendingChunks t) None.

(** The body of [handleRelayAck] on the transfer it found. *)
Definition ackTransfer (acks : list nat) (now : Z) (t : Transfer) : Transfer :=
  {| cancelled := cancelled t;
     ackedChunks := fold_left (fun s i => s ∪ {[i]}) acks (ackedChunks t);
     pendingChunks := fold_left (fun m i => mapDelete i m) acks (pendingChunks t);
     lastAckTime := now |}.

Inductive RelayPc :=
| RKeyWait        (* in waitForEncryptionKey *)
| RLoopHead       (* after the CHUNK_INTERVAL pause *)
| RWindowWait     (* after the 50 ms pause of the window loop *)
| RAckWait        (* after the 100 ms pause of the final loop *)
| RBeforeEnd      (* after the 500 ms pause before file-end *)
| RDone
| RFailed (e : SendError).

Record RelaySender := {
  r_peerId : string;
  r_file : File;
  r_fileId : string;
  r_transfer : Transfer;
  r_registered : bool;      (* activeTransfers still holds the transfer *)
  r_offset : Z;
  r_chunkIndex : nat;
  r_waitStart : Z;          (* start of the key wait, then ackWaitStart *)
  r_pc : RelayPc;
  r_cm : CryptoManager;
  r_rng : Rng;
  r_out : list Effect
}.

Definition r_with (t : Transfer) (pc : RelayPc) (s : RelaySender) : RelaySender :=
  {| r_peerId := r_peerId s; r_file := r_file s; r_fileId := r_fileId s;
     r_transfer := t; r_registered := r_registered s;
     r_offset := r_offset s; r_chunkIndex := r_chunkIndex s;
     r_waitStart := r_waitStart s; r_pc := pc;
     r_cm := r_cm s; r_rng := r_rng s; r_out := r_out s |}.

Definition r_suspend (pc : RelayPc) (s : RelaySender) : RelaySender :=
  r_with (r_transfer s) pc s.

Definition r_emit (e : Effect) (s : RelaySender) : RelaySender :=
  {| r_peerId := r_peerId s; r_file := r_file s; r_fileId := r_fileId s;
     r_transfer := r_transfer s; r_registered := r_registered s;
     r_offset := r_offset s; r_chunkIndex := r_chunkIndex s;
     r_waitStart := r_waitStart s; r_pc := r_pc s;
     r_cm := r_cm s; r_rng := r_rng s; r_out := r_out s ++ [e] |}.

(** Leaving the [try] block: [finally] deletes the active transfer. *)
Definition r_finish (pc : RelayPc) (s : RelaySender) : RelaySender :=
  {| r_peerId := r_peerId s; r_file := r_file s; r_fileId := r_fileId s;
     r_transfer := r_transfer s; r_registered := false;
     r_offset := r_offset s; r_chunkIndex := r_chunkIndex s;
     r_waitStart := r_waitStart s; r_pc := pc;
     r_cm := r_cm s; r_rng := r_rng s; r_out := r_out s |}.

(** One turn of [while (transfer.pendingChunks.size >= RELAY.WINDOW_SIZE)]. *)
Definition r_windowTurn (now : Z) (s : RelaySender) : RelaySender :=
  let t := r_transfer s in
  let retransmitted :=
    if ACK_TIMEOUT <? now - lastAckTime t then
      match _getOldestPendingChunk t with
      | Some (index, info) =>
          if MAX_CHUNK_RETRIES <=? retries info then inl RetransmitExhausted
          else
            let s1 := r_emit (_sendChunk (r_peerId s) (r_fileId s) index
                                         (base64 info) (retries info + 1)) s in
            let t1 :=
              {| cancelled := cancelled t;
                 ackedChunks := ackedChunks t;
                 pendingChunks :=
                   mapSet index {| base64 := base64 info;
                                   retries := retries info + 1;
                                   sentAt := now |} (pendingChunks t);
                 lastAckTime := lastAckTime t |} in
            inr (r_with t1 (r_pc s1) s1)
      | None => inr s
      end
    else inr s in
  match retransmitted with
  | inl e => r_finish (RFailed e) s
  | inr s1 =>
      if cancelled (r_transfer s1) then r_finish (RFailed Cancelled) s1
      else r_suspend RWindowWait s1
  end.

(** After the window loop: the stall test, then one chunk is encrypted,
    recorded as pending and sent. *)
Definition r_sendNext (now : Z) (s : RelaySender) : RelaySender :=
  let t := r_transfer s in
  if (TRANSFER_TIMEOUT <? now - lastAckTime t) && (0 <? r_chunkIndex s)%nat then
    r_finish (RFailed Stalled) s
  else
    match encryptChunk (r_cm s) (r_peerId s) (chunkAt (r_file s) (r_offset s)) (r_rng s) with
    | (inl e, _) => r_finish (RFailed (CryptoFailed e)) s
    | (inr encrypted, g) =>
        let base64Data := Base64.encode encrypted in
        let t1 :=
          {| cancelled := cancelled t;
             ackedChunks := ackedChunks t;
             pendingChunks :=
               mapSet (r_chunkIndex s)
                      {| base64 := base64Data; retries := 0; sentAt := now |}
                      (pendingChunks t);
             lastAckTime := lastAckTime t |} in
        let offset := r_offset s + CHUNK_SIZE in
        {| r_peerId := r_peerId s; r_file := r_file s; r_fileId := r_fileId s;
           r_transfer := t1; r_registered := r_registered s;
           r_offset := offset; r_chunkIndex := S (r_chunkIndex s);
           r_waitStart := r_waitStart s; r_pc := RLoopHead;
           r_cm := r_cm s; r_rng := g;
           r_out := r_out s
                    ++ [_sendChunk (r_peerId s) (r_fileId s) (r_chunkIndex s) base64Data 0;
                        Progress (r_peerId s) (r_fileId s)
                                 (Z.min offset (fileSize (r_file s))) (fileSize (r_file s))] |}
    end.

Definition r_window (now : Z) (s : RelaySender) : RelaySender :=
  if (WINDOW_SIZE <=? length (pendingChunks (r_transfer s)))%nat
  then r_windowTurn now s
  else r_sendNext now s.

(** One turn of [while (transferState.ackedChunks.size < totalChunks)]. *)
Definition r_ackWait (now : Z) (s : RelaySender) : RelaySender :=
  let acked := Z.of_nat (size (ackedChunks (r_transfer s))) in
  let total := totalChunks (r_file s) in
  if acked <? total then
    if ACK_TIMEOUT * 2 <? now - r_waitStart s then
      r_suspend RBeforeEnd (r_emit (LogAckTimeout (total - acked)) s)
    else if cancelled (r_transfer s) then r_finish (RFailed Cancelled) s
    else r_suspend RAckWait s
  else r_suspend RBeforeEnd s.

(** The head of [while (offset < file.size)], and past the loop. *)
Definition r_loopHead (now : Z) (s : RelaySender) : RelaySender :=
  if r_offset s <? fileSize (r_file s) then
    if negb (r_registered s) || cancelled (r_transfer s)
    then r_finish (RFailed Cancelled) s
    else r_window now s
  else
    r_ackWait now
      {| r_peerId := r_peerId s; r_file := r_file s; r_fileId := r_fileId s;
         r_transfer := r_transfer s; r_registered := r_registered s;
         r_offset := r_offset s; r_chunkIndex := r_chunkIndex s;
         r_waitStart := now; r_pc := r_pc s;
         r_cm := r_cm s; r_rng := r_rng s; r_out := r_out s |}.

Definition r_fileEnd (s : RelaySender) : RelaySender :=
  r_finish RDone
    (r_emit (Send (r_peerId s)
                  (RelayData (FileEnd (r_fileId s) (Some (totalChunks (r_file s)))))) s).

(** Once the key is there: [file-start], then the loop. *)
Definition r_begin (now : Z) (s : RelaySender) : RelaySender :=
  let f := r_file s in
  r_loopHead now
    (r_emit (Send (r_peerId s)
                  (RelayData (FileStart (r_fileId s) (name f) (fileSize f) (mimeType f)
                                        (totalChunks f)))) s).

(** One poll of [waitForEncryptionKey(peerId, 5000)]; its rejection is
    thrown before the [try] block is entered. *)
Definition r_keyWait (now : Z) (s : RelaySender) : RelaySender :=
  if hasSharedSecret (r_cm s) (r_peerId s) then r_begin now s
  else if 5000 <? now - r_waitStart s then r_suspend (RFailed KeyTimeout) s
  else r_suspend RKeyWait s.

(** The call itself. [publicKey] is what [exportPublicKey] returns. *)
Definition _sendFileDataViaRelay (cm : CryptoManager) (g : Rng) (publicKey : string)
           (peerId : string) (f : File) (fileId : string) (now : Z) : RelaySender :=
  let s0 :=
    {| r_peerId := peerId; r_file := f; r_fileId := fileId;
       r_transfer := {| cancelled := false; ackedChunks := ∅;
                        pendingChunks := []; lastAckTime := now |};
       r_registered := true;
       r_offset := 0; r_chunkIndex := O; r_waitStart := now; r_pc := RLoopHead;
       r_cm := cm; r_rng := g; r_out := [] |} in
  if hasSharedSecret cm peerId then r_begin now s0
  else r_keyWait now (r_emit (Send peerId (KeyExchange publicKey)) s0).

(** What happens while the sender is suspended. *)
Inductive RelayEvent :=
| RAck (acks : list nat) (now : Z)    (* handleRelayAck for this file *)
| RCancel                             (* cancelTransfer / handleFileCancel *)
| RKey (key : list Z)                 (* the peer's key has been imported *)
| RWake (now : Z).                    (* the sender is resumed *)

Definition r_step (s : RelaySender) (ev : RelayEvent) : RelaySender :=
  match ev with
  | RAck acks now =>
      if r_registered s then r_with (ackTransfer acks now (r_transfer s)) (r_pc s) s
      else s
  | RCancel =>
      if r_registered s then
        let t := r_transfer s in
        r_with {| cancelled := true; ackedChunks := ackedChunks t;
                  pendingChunks := pendingChunks t; lastAckTime := lastAckTime t |}
               (r_pc s) s
      else s
  | RKey key =>
      {| r_peerId := r_peerId s; r_file := r_file s; r_fileId := r_fileId s;
         r_transfer := r_transfer s; r_registered := r_registered s;
         r_offset := r_offset s; r_chunkIndex := r_chunkIndex s;
         r_waitStart := r_waitStart s; r_pc := r_pc s;
         r_cm := {| sharedSecrets := <[r_peerId s := key]> (sharedSecrets (r_cm s));
                    roomKey := roomKey (r_cm s);
                    roomPasswordSet := roomPasswordSet (r_cm s) |};
         r_rng := r_rng s; r_out := r_out s |}
  | RWake now =>
      match r_pc s with
      | RKeyWait => r_keyWait now s
      | RLoopHead => r_loopHead now s
      | RWindowWait => r_window now s
      | RAckWait => r_ackWait now s
      | RBeforeEnd => r_fileEnd s
      | RDone | RFailed _ => s
      end
  end.

Definition r_run (s : RelaySender) (evs : list RelayEvent) : RelaySender :=
  fold_left r_step evs s.

End Sender.

(** ** [public/js/webrtc.js]: the [WebRTCManager] state, the connection
    engine and the receiving side *)

Module WebRTC.
Import Js Config Crypto Wire.
Local Open Scope string_scope.
Local Open Scope list_scope.
Local Open Scope Z_scope.

(** An entry of [connectionQuality]; a field that the object does not
    carry reads [false]. *)
Record Quality := {
  hasHost : bool; hasSrflx : bool; hasPrflx : bool; hasRelay : bool;
  p2pPossible : bool; p2pLikely : bool; networkIssue : bool
}.

Inductive IceState :=
| IceNew | IceChecking | IceConnected | IceCompleted
| IceFailed | IceDisconnected | IceClosed.

(** What the engine reads of an [RTCPeerConnection]. *)
Record PeerConnection := { iceConnectionState : IceState }.

Inductive Winner := P2P | ViaRelay.

(** The [racingState] object of a race and the timers its closures hold. *)
Record Racing := {
  resolved : bool;
  winner : option Winner;
  slowTimer : nat;
  fallbackTimer : nat;
  ultimateTimer : nat
}.

Inductive TimerAction :=
| SlowHint (peerId : string)
| FastFallback (peerId : string)
| Ultimate (peerId : string)
| P2PRetry (peerId : string)
| StillDisconnected (peerId : string) (isBackgroundRecovery : bool).

(** A pending [setTimeout]. *)
Record Timer := { timerId : nat; fireAt : Z; action : TimerAction }.

(** An entry of [incomingTransfers]. *)
Record IncomingTransfer := {
  fileId : string;
  name : string;
  size : Z;
  mimeType : string;
  totalChunks : Z;
  chunks : list (option (list Z));        (* a sparse array *)
  receivedIndices : option (gset nat);    (* absent before a relay file-start *)
  received : Z;
  startTime : Z;
  confirmed : bool;
  pendingAcks : option (list nat)         (* absent before the first chunk *)
}.

(** An entry of [activeTransfers]. *)
Inductive ActiveTransfer :=
| Sending (peerId : string) (t : Sender.Transfer)
| Receiving (peerId : string) (cancelled : bool).

Record Manager := MkManager {
  crypto : CryptoManager;                       (* the cryptoManager singleton *)
  relayMode : gmap string bool;
  candidateTypes : gmap string (gset string);
  connectionQuality : gmap string Quality;
  connections : gmap string PeerConnection;
  iceRestartCounts : gmap string Z;
  disconnectedTimers : gmap string nat;
  connectionRacing : gset string;               (* peers whose race is in the map *)
  races : gmap string Racing;                   (* the racingState of each peer *)
  raceResult : gmap string Winner;              (* what Promise.race settled on *)
  timers : list Timer;
  nextTimerId : nat;
  p2pRetryTimers : gmap string nat;
  p2pRetryAttempts : gmap string Z;
  incomingTransfers : gmap string IncomingTransfer;
  activeTransfers : gmap string ActiveTransfer;
  effects : list Effect
}.

(** The constructor; timer identifiers start at 1. *)
Definition new : Manager :=
  MkManager Crypto.new ∅ ∅ ∅ ∅ ∅ ∅ ∅ ∅ ∅ [] 1%nat ∅ ∅ ∅ ∅ [].

(** Field updates. *)
Definition withRelayMode (f : gmap string bool -> gmap string bool) (m : Manager) :=
  let 'MkManager a b c d e f0 g h i j k l n o p q r := m in
  MkManager a (f b) c d e f0 g h i j k l n o p q r.
Definition withCandidateTypes (f : gmap string (gset string) -> gmap string (gset string))
           (m : Manager) :=
  let 'MkManager a b c d e f0 g h i j k l n o p q r := m in
  MkManager a b (f c) d e f0 g h i j k l n o p q r.
Definition withConnectionQuality (f : gmap string Quality -> gmap string Quality)
           (m : Manager) :=
  let 'MkManager a b c d e f0 g h i j k l n o p q r := m in
  MkManager a b c (f d) e f0 g h i j k l n o p q r.
Definition withConnections (f : gmap string PeerConnection -> gmap string PeerConnection)
           (m : Manager) :=
  let 'MkManager a b c d e f0 g h i j k l n o p q r := m in
  MkManager a b c d (f e) f0 g h i j k l n o p q r.
Definition withIceRestartCounts (f : gmap string Z -> gmap string Z) (m : Manager) :=
  let 'MkManager a b c d e f0 g h i j k l n o p q r := m in
  MkManager a b c d e (f f0) g h i j k l n o p q r.
Definition withDisconnectedTimers (f : gmap string nat -> gmap string nat) (m : Manager) :=
  let 'MkManager a b c d e f0 g h i j k l n o p q r := m in
  MkManager a b c d e f0 (f g) h i j k l n o p q r.
Definition withConnectionRacing (f : gset string -> gset string) (m : Manager) :=
  let 'MkManager a b c d e f0 g h i j k l n o p q r := m in
  MkManager a b c d e f0 g (f h) i j k l n o p q r.
Definition withRaces (f : gmap string Racing -> gmap string Racing) (m : Manager) :=
  let 'MkManager a b c d e f0 g h i j k l n o p q r := m in
  MkManager a b c d e f0 g h (f i) j k l n o p q r.
Definition withRaceResult (f : gmap string Winner -> gmap string Winner) (m : Manager) :=
  let 'MkManager a b c d e f0 g h i j k l n o p q r := m in
  MkManager a b c d e f0 g h i (f j) k l n o p q r.
Definition withTimers (f : list Timer -> list Timer) (m : Manager) :=
  let 'MkManager a b c d e f0 g h i j k l n o p q r := m in
  MkManager a b c d e f0 g h i j (f k) l n o p q r.
Definition withNextTimerId (f : nat -> nat) (m : Manager) :=
  let 'MkManager a b c d e f0 g h i j k l n o p q r := m in
  MkManager a b c d e f0 g h i j k (f l) n o p q r.
Definition withP2pRetryTimers (f : gmap string nat -> gmap string nat) (m : Manager) :=
  let 'MkManager a b c d e f0 g h i j k l n o p q r := m in
  MkManager a b c d e f0 g h i j k l (f n) o p q r.
Definition withP2pRetryAttempts (f : gmap string Z -> gmap string Z) (m : Manager) :=
  let 'MkManager a b c d e f0 g h i j k l n o p q r := m in
  MkManager a b c d e f0 g h i j k l n (f o) p q r.
Definition withIncomingTransfers
           (f : gmap string IncomingTransfer -> gmap string IncomingTransfer) (m : Manager) :=
  let 'MkManager a b c d e f0 g h i j k l n o p q r := m in
  MkManager a b c d e f0 g h i j k l n o (f p) q r.
Definition withActiveTransfers
           (f : gmap string ActiveTransfer -> gmap string ActiveTransfer) (m : Manager) :=
  let 'MkManager a b c d e f0 g h i j k l n o p q r := m in
  MkManager a b c d e f0 g h i j k l n o p (f q) r.
Definition withEffects (f : list Effect -> list Effect) (m : Manager) :=
  let 'MkManager a b c d e f0 g h i j k l n o p q r := m in
  MkManager a b c d e f0 g h i j k l n o p q (f r).

Definition emit (e : Effect) : Manager -> Manager := withEffects (fun l => l ++ [e]).
Definition emitAll (es : list Effect) : Manager -> Manager := withEffects (fun l => l ++ es).

(** [this.relayMode.get(peerId)] as a condition. *)
Definition inRelayMode (m : Manager) (peerId : string) : bool :=
  match relayMode m !! peerId with Some b => b | None => false end.

(** *** Timers *)

Definition setTimeout (act : TimerAction) (delay now : Z) (m : Manager) : nat * Manager :=
  let id := nextTimerId m in
  (id, withNextTimerId S
         (withTimers (fun l => l ++ [{| timerId := id; fireAt := now + delay; action := act |}])
                     m)).

Definition clearTimeout (id : nat) : Manager -> Manager :=
  withTimers (List.filter (fun t => negb (Nat.eqb (timerId t) id))).

Definition pendingTimer (m : Manager) (id : nat) : option Timer :=
  find (fun t => Nat.eqb (timerId t) id) (timers m).

(** The observers that [app.js] registers at start-up are taken as
    installed. *)
Definition _notifyConnectionState (peerId : string) (status : Status)
           (message : option string) : Manager -> Manager :=
  emit (Notify peerId status message).

(** *** Candidate tracking and quality prediction *)

Definition _updateConnectionQuality (peerId : string) (m : Manager) : Manager :=
  match candidateTypes m !! peerId with
  | None => m
  | Some types =>
      let has (t : string) := bool_decide (t ∈ types) in
      withConnectionQuality
        (insert peerId
           {| hasHost := has "host"; hasSrflx := has "srflx"; hasPrflx := has "prflx";
              hasRelay := has "relay";
              p2pPossible := has "host" || has "srflx" || has "prflx";
              p2pLikely := has "srflx" || has "prflx";
              networkIssue := false |}) m
  end.

Definition _finalizeConnectionQuality (peerId : string) (m : Manager) : Manager :=
  let noTypes :=
    match candidateTypes m !! peerId with
    | None => true
    | Some types => bool_decide (base.size types = 0%nat)
    end in
  if noTypes then
    withConnectionQuality
      (insert peerId
         {| hasHost := false; hasSrflx := false; hasPrflx := false; hasRelay := false;
            p2pPossible := false; p2pLikely := false; networkIssue := true |}) m
  else m.

(** The [onicecandidate] handler installed by [createConnection]:
    [Some type] for a candidate, [None] for the end of gathering. *)
Definition onicecandidate (peerId : string) (candidate : option string) (m : Manager)
  : Manager :=
  match candidate with
  | Some candidateType =>
      let m1 :=
        match candidateTypes m !! peerId with
        | Some types =>
            withCandidateTypes (insert peerId (types ∪ {[candidateType]})) m
        | None => m
        end in
      emit (Send peerId (IceCandidate candidateType)) (_updateConnectionQuality peerId m1)
  | None => _finalizeConnectionQuality peerId m
  end.

(** What [createConnection] leaves in the maps once the connection
    object exists. *)
Definition createConnection (peerId : string) (m : Manager) : Manager :=
  let m1 := withConnections (insert peerId {| iceConnectionState := IceNew |}) m in
  match candidateTypes m1 !! peerId with
  | Some _ => m1
  | None => withCandidateTypes (insert peerId ∅) m1
  end.

Definition _shouldFastFallback (m : Manager) (peerId : string) : bool :=
  match connectionQuality m !! peerId with
  | Some quality =>
      (negb (p2pPossible quality) && hasRelay quality) || networkIssue quality
  | None => false
  end.

Definition _hasP2PProgress (m : Manager) (peerId : string) : bool :=
  let hasP2PCandidates :=
    match candidateTypes m !! peerId with
    | Some types =>
        bool_decide ("host" ∈ types) || bool_decide ("srflx" ∈ types)
        || bool_decide ("prflx" ∈ types)
    | None => false
    end in
  let iceGood :=
    match connections m !! peerId with
    | Some pc =>
        match iceConnectionState pc with
        | IceNew | IceChecking | IceConnected | IceCompleted => true
        | _ => false
        end
    | None => false
    end in
  hasP2PCandidates && iceGood.

(** *** Relay mode and the background retry *)

Definition _stopBackgroundP2PRetry (peerId : string) (m : Manager) : Manager :=
  let m1 :=
    match p2pRetryTimers m !! peerId with
    | Some id =>
        if (0 <? id)%nat then withP2pRetryTimers (delete peerId) (clearTimeout id m) else m
    | None => m
    end in
  withP2pRetryAttempts (delete peerId) m1.

Definition _startBackgroundP2PRetry (peerId : string) (now : Z) (m : Manager) : Manager :=
  let m1 := withP2pRetryAttempts (insert peerId 0) (_stopBackgroundP2PRetry peerId m) in
  let '(id, m2) := setTimeout (P2PRetry peerId) P2P_RETRY_INITIAL_DELAY now m1 in
  withP2pRetryTimers (insert peerId id) m2.

Definition _switchToRelay (peerId : string) (message : option string) (silent : bool)
           (now : Z) (m : Manager) : Manager :=
  if inRelayMode m peerId then m
  else
    let m1 := withRelayMode (insert peerId true) m in
    let m2 := _notifyConnectionState peerId Relay (if silent then None else message) m1 in
    let m3 :=
      if bool_decide (peerId ∈ connectionRacing m2) then
        match races m2 !! peerId with
        | Some racing =>
            if resolved racing then m2
            else withRaces (insert peerId
                              {| resolved := true; winner := Some ViaRelay;
                                 slowTimer := slowTimer racing;
                                 fallbackTimer := fallbackTimer racing;
                                 ultimateTimer := ultimateTimer racing |}) m2
        | None => m2
        end
      else m2 in
    _startBackgroundP2PRetry peerId now m3.


(** *** Racing the direct attempt against the fallback timers *)

Definition isResolved (m : Manager) (peerId : string) : bool :=
  match races m !! peerId with
  | Some racing => resolved racing
  | None => false
  end.

Definition resolveRace (peerId : string) (w : Winner) (m : Manager) : Manager :=
  match races m !! peerId with
  | Some racing =>
      if resolved racing then m
      else withRaces (insert peerId
                        {| resolved := true; winner := Some w;
                           slowTimer := slowTimer racing;
                           fallbackTimer := fallbackTimer racing;
                           ultimateTimer := ultimateTimer racing |}) m
  | None => m
  end.

(** [Promise.race] settles once; [finally] drops the map entry and
    [ensureConnection] announces a direct connection. *)
Definition settle (peerId : string) (w : Winner) (m : Manager) : Manager :=
  match raceResult m !! peerId with
  | Some _ => m
  | None =>
      let m1 := withConnectionRacing (fun s => s ∖ {[peerId]})
                  (withRaceResult (insert peerId w) m) in
      match w with
      | P2P => _notifyConnectionState peerId Connected None m1
      | ViaRelay => m1
      end
  end.

(** [_raceP2PWithFallback], up to the point where the timers are armed;
    the direct attempt reports back through [p2pSucceeded] and
    [p2pFailed]. *)
Definition _raceP2PWithFallback (peerId : string) (now : Z) (m : Manager) : Manager :=
  let m0 := withRaceResult (delete peerId) m in
  let '(slow, m1) := setTimeout (SlowHint peerId) SLOW_CONNECTION_THRESHOLD now m0 in
  let '(fallback, m2) := setTimeout (FastFallback peerId) FAST_FALLBACK_TIMEOUT now m1 in
  let '(ultimate, m3) := setTimeout (Ultimate peerId) CONNECTION_TIMEOUT now m2 in
  withConnectionRacing (fun s => s ∪ {[peerId]})
    (withRaces (insert peerId
                  {| resolved := false; winner := None; slowTimer := slow;
                     fallbackTimer := fallback; ultimateTimer := ultimate |}) m3).

Definition clearRaceTimers (peerId : string) (m : Manager) : Manager :=
  match races m !! peerId with
  | Some racing =>
      clearTimeout (ultimateTimer racing)
        (clearTimeout (fallbackTimer racing) (clearTimeout (slowTimer racing) m))
  | None => m
  end.

(** The direct attempt succeeded. *)
Definition p2pSucceeded (peerId : string) (m : Manager) : Manager :=
  settle peerId P2P (clearRaceTimers peerId (resolveRace peerId P2P m)).

(** The direct attempt failed. *)
Definition p2pFailed (peerId : string) (now : Z) (m : Manager) : Manager :=
  let m1 :=
    if isResolved m peerId then m
    else _switchToRelay peerId (Some "transfer.connection.failedSwitchRelay") false now
           (resolveRace peerId ViaRelay m) in
  let result :=
    match races m1 !! peerId with
    | Some {| winner := Some w |} => w
    | _ => ViaRelay
    end in
  settle peerId result (clearRaceTimers peerId m1).

Definition slowTimerFired (peerId : string) (m : Manager) : Manager :=
  if isResolved m peerId then m
  else _notifyConnectionState peerId Slow (Some "transfer.connection.slow") m.

Definition fallbackTimerFired (peerId : string) (now : Z) (m : Manager) : Manager :=
  let m1 :=
    match races m !! peerId with
    | Some racing => clearTimeout (slowTimer racing) m
    | None => m
    end in
  if isResolved m1 peerId then m1
  else
    let shouldFallback := _shouldFastFallback m1 peerId || negb (_hasP2PProgress m1 peerId) in
    if shouldFallback then
      settle peerId ViaRelay
        (_switchToRelay peerId (Some "transfer.connection.switchedToRelay") false now m1)
    else m1.

Definition ultimateTimerFired (peerId : string) (now : Z) (m : Manager) : Manager :=
  let m1 :=
    match races m !! peerId with
    | Some racing => clearTimeout (fallbackTimer racing) (clearTimeout (slowTimer racing) m)
    | None => m
    end in
  if isResolved m1 peerId then m1
  else
    settle peerId ViaRelay
      (_switchToRelay peerId (Some "transfer.connection.timeoutSwitchRelay") false now m1).

(** *** ICE connection state changes *)

Definition msgP2PFailed : string := "P2P连接失败，已切换到中继传输".

Definition _attemptIceRestart (peerId : string) (m : Manager) : Manager :=
  let restartCount :=
    match iceRestartCounts m !! peerId with Some c => c | None => 0 end in
  if MAX_ICE_RESTARTS <=? restartCount then m
  else withIceRestartCounts (insert peerId (restartCount + 1)) m.

(** [_handleIceConnectionStateChange], run when the connection of
    [peerId] has moved to [state]. *)
Definition _handleIceConnectionStateChange (peerId : string) (state : IceState)
           (now : Z) (m : Manager) : Manager :=
  let m0 := withConnections (insert peerId {| iceConnectionState := state |}) m in
  let m1 :=
    match disconnectedTimers m0 !! peerId with
    | Some id => withDisconnectedTimers (delete peerId) (clearTimeout id m0)
    | None => m0
    end in
  let isBackgroundRecovery := inRelayMode m1 peerId in
  match state with
  | IceDisconnected =>
      let '(id, m2) :=
        setTimeout (StillDisconnected peerId isBackgroundRecovery)
                   DISCONNECTED_TIMEOUT now m1 in
      withDisconnectedTimers (insert peerId id) m2
  | IceFailed =>
      let restartCount :=
        match iceRestartCounts m1 !! peerId with Some c => c | None => 0 end in
      let possible :=
        match connectionQuality m1 !! peerId with
        | Some quality => p2pPossible quality
        | None => false
        end in
      if possible && (restartCount <? MAX_ICE_RESTARTS) then _attemptIceRestart peerId m1
      else _switchToRelay peerId (Some msgP2PFailed) isBackgroundRecovery now m1
  | IceConnected | IceCompleted =>
      withRelayMode (delete peerId) (withIceRestartCounts (delete peerId) m1)
  | _ => m1
  end.

Definition stillDisconnectedFired (peerId : string) (isBackgroundRecovery : bool)
           (now : Z) (m : Manager) : Manager :=
  match connections m !! peerId with
  | Some {| iceConnectionState := IceDisconnected |} =>
      _switchToRelay peerId (Some msgP2PFailed) isBackgroundRecovery now m
  | _ => m
  end.

(** *** The background retry *)

(** [_attemptSilentP2PReconnect] up to the silent attempt; [true] when an
    attempt has been started. *)
Definition _attemptSilentP2PReconnect (peerId : string) (m : Manager) : bool * Manager :=
  if negb (inRelayMode m peerId) then (false, _stopBackgroundP2PRetry peerId m)
  else
    let attempts :=
      match p2pRetryAttempts m !! peerId with Some a => a | None => 0 end + 1 in
    let m1 := withP2pRetryAttempts (insert peerId attempts) m in
    if P2P_RETRY_MAX_ATTEMPTS <? attempts then (false, _stopBackgroundP2PRetry peerId m1)
    else
      (true,
       withConnectionQuality (delete peerId)
         (withCandidateTypes (delete peerId)
            (withIceRestartCounts (delete peerId)
               (withConnections (delete peerId) m1)))).

(** The silent attempt came back. *)
Definition silentReconnectDone (peerId : string) (ok : bool) (now : Z) (m : Manager)
  : Manager :=
  if ok then
    _notifyConnectionState peerId Connected None
      (_stopBackgroundP2PRetry peerId (withRelayMode (delete peerId) m))
  else if inRelayMode m peerId then
    let '(id, m1) := setTimeout (P2PRetry peerId) P2P_RETRY_INTERVAL now m in
    withP2pRetryTimers (insert peerId id) m1
  else m.

(** A pending timer fires at time [now]. *)
Definition fire (id : nat) (now : Z) (m : Manager) : Manager :=
  match pendingTimer m id with
  | None => m
  | Some t =>
      let m1 := clearTimeout id m in
      match action t with
      | SlowHint peerId => slowTimerFired peerId m1
      | FastFallback peerId => fallbackTimerFired peerId now m1
      | Ultimate peerId => ultimateTimerFired peerId now m1
      | P2PRetry peerId => snd (_attemptSilentP2PReconnect peerId m1)
      | StillDisconnected peerId bg => stillDisconnectedFired peerId bg now m1
      end
  end.


(** *** The receiving side of the relay path *)

(** [array[i] = v] on a sparse array: the array grows as needed. *)
Fixpoint arraySet {A} (i : nat) (v : A) (l : list (option A)) : list (option A) :=
  match i, l with
  | O, [] => [Some v]
  | O, _ :: r => Some v :: r
  | S j, [] => None :: arraySet j v []
  | S j, x :: r => x :: arraySet j v r
  end.

(** [array[i]], [None] for a hole or past the end. *)
Definition arrayGet {A} (i : nat) (l : list (option A)) : option A :=
  match nth_error l i with
  | Some (Some v) => Some v
  | _ => None
  end.

Definition _sendChunkAck (peerId fileId : string) (acks : list nat) : Effect :=
  Send peerId (RelayData (Ack fileId acks)).

Definition hasReceived (t : IncomingTransfer) (i : nat) : bool :=
  match receivedIndices t with
  | Some s => bool_decide (i ∈ s)
  | None => false
  end.

(** [transfer.receivedIndices ? transfer.receivedIndices.size : 0]. *)
Definition receivedCount (t : IncomingTransfer) : Z :=
  match receivedIndices t with
  | Some s => Z.of_nat (base.size s)
  | None => 0
  end.

(** The [file-start] branch. *)
Definition relayFileStart (peerId : string) (fid nm : string) (sz : Z) (mime : string)
           (total : Z) (now : Z) (m : Manager) : Manager :=
  let existing := incomingTransfers m !! peerId in
  let reuse :=
    match existing with
    | Some t => confirmed t && String.eqb (fileId t) fid
    | None => false
    end in
  let m1 :=
    match existing with
    | Some t =>
        if reuse then
          withIncomingTransfers
            (insert peerId
               {| fileId := fileId t; name := name t; size := size t;
                  mimeType := mimeType t; totalChunks := total;
                  chunks := []; receivedIndices := Some ∅; received := 0;
                  startTime := now; confirmed := confirmed t;
                  pendingAcks := pendingAcks t |}) m
        else
          let m0 := withIncomingTransfers (delete peerId) m in
          if truthy (fileId t) then withActiveTransfers (delete (fileId t)) m0 else m0
    | None => m
    end in
  let m2 :=
    if reuse then m1
    else
      withIncomingTransfers
        (insert peerId
           {| fileId := fid; name := nm; size := sz;
              mimeType := if truthy mime then mime else "application/octet-stream";
              totalChunks := total;
              chunks := []; receivedIndices := Some ∅; received := 0;
              startTime := now; confirmed := true; pendingAcks := None |}) m1 in
  emit (FileRequested peerId fid)
    (withActiveTransfers (insert fid (Receiving peerId false)) m2).

(** The [chunk] branch on the transfer it found: the new transfer and
    what was sent. A failed decode or decryption is caught and logged. *)
Definition receiveChunk (cm : CryptoManager) (peerId : string) (fid : string)
           (index : option nat) (data : string) (t : IncomingTransfer)
  : IncomingTransfer * list Effect :=
  if negb (String.eqb (fileId t) fid) then (t, [])
  else
    let chunkIndex := match index with Some i => i | None => length (chunks t) end in
    if hasReceived t chunkIndex then (t, [_sendChunkAck peerId fid [chunkIndex]])
    else
      match Base64.decode data with
      | None => (t, [])
      | Some bytes =>
          match decryptChunk cm peerId bytes with
          | inl _ => (t, [])
          | inr decrypted =>
              let got := received t + Z.of_nat (length decrypted) in
              let indices :=
                match receivedIndices t with
                | Some s => s ∪ {[chunkIndex]}
                | None => {[chunkIndex]}
                end in
              let acks :=
                match pendingAcks t with
                | Some l => l ++ [chunkIndex]
                | None => [chunkIndex]
                end in
              let flush := (ACK_BATCH_SIZE <=? length acks)%nat in
              ({| fileId := fileId t; name := name t; size := size t;
                  mimeType := mimeType t; totalChunks := totalChunks t;
                  chunks := arraySet chunkIndex decrypted (chunks t);
                  receivedIndices := Some indices; received := got;
                  startTime := startTime t; confirmed := confirmed t;
                  pendingAcks := Some (if flush then [] else acks) |},
               (if flush then [_sendChunkAck peerId fid acks] else [])
               ++ [Progress peerId (fileId t) got (size t)])
          end
      end.

Definition relayChunk (peerId : string) (fid : string) (index : option nat)
           (data : string) (m : Manager) : Manager :=
  match incomingTransfers m !! peerId with
  | Some t =>
      let '(t', out) := receiveChunk (crypto m) peerId fid index data t in
      emitAll out (withIncomingTransfers (insert peerId t') m)
  | None => m
  end.

(** A chunk frame as it arrives: [fileId], [index], [data]. *)
Definition ChunkFrame : Type := string * option nat * string.

Definition relayChunks (peerId : string) (frames : list ChunkFrame) (m : Manager)
  : Manager :=
  fold_left (fun acc f => relayChunk peerId (fst (fst f)) (snd (fst f)) (snd f) acc)
            frames m.

(** The wait for missing chunks in the [file-end] branch, polled every
    100 ms: each tick carries the chunk frames handled since the last poll
    and the time of the poll. Once the ticks are used up, the 3 seconds
    have passed. *)
Fixpoint awaitMissing (peerId : string) (expectedCount waitStart : Z)
         (ticks : list (list ChunkFrame * Z)) (m : Manager) : Manager :=
  match ticks with
  | [] => m
  | (frames, now) :: rest =>
      let m1 := relayChunks peerId frames m in
      let count :=
        match incomingTransfers m1 !! peerId with
        | Some t => receivedCount t
        | None => 0
        end in
      if (expectedCount <=? count) || (3000 <? now - waitStart) then m1
      else awaitMissing peerId expectedCount waitStart rest m1
  end.

(** [data.totalChunks || transfer.totalChunks]. *)
Definition expectedCountOf (total : option Z) (t : IncomingTransfer) : Z :=
  match total with
  | Some n => if n =? 0 then totalChunks t else n
  | None => totalChunks t
  end.

(** The indices below [expectedCount] that are not marked as received. *)
Definition missingChunks (expectedCount : Z) (t : IncomingTransfer) : list nat :=
  List.filter (fun i => negb (hasReceived t i)) (seq 0 (Z.to_nat expectedCount)).

(** The chunks below [expectedCount] that are stored, in index order, each
    with its index. *)
Definition orderedChunks (expectedCount : Z) (t : IncomingTransfer)
  : list (nat * list Z) :=
  flat_map (fun i => match arrayGet i (chunks t) with
                     | Some c => [(i, c)]
                     | None => []
                     end)
           (seq 0 (Z.to_nat expectedCount)).

(** The [file-end] branch up to the end of the wait: the acknowledgements
    still held back are sent, and if chunks are missing the handler waits
    for them. *)
Definition fileEndWait (peerId : string) (t0 : IncomingTransfer) (expectedCount : Z)
           (ticks : list (list ChunkFrame * Z)) (now : Z) (m : Manager) : Manager :=
  let m1 :=
    match pendingAcks t0 with
    | Some (a :: l) =>
        emit (_sendChunkAck peerId (fileId t0) (a :: l))
          (withIncomingTransfers
             (insert peerId
                {| fileId := fileId t0; name := name t0; size := size t0;
                   mimeType := mimeType t0; totalChunks := totalChunks t0;
                   chunks := chunks t0; receivedIndices := receivedIndices t0;
                   received := received t0; startTime := startTime t0;
                   confirmed := confirmed t0; pendingAcks := Some [] |}) m)
    | _ => m
    end in
  if receivedCount t0 <? expectedCount
  then awaitMissing peerId expectedCount now ticks m1
  else m1.

(** The rest of the [file-end] branch on the transfer as the wait left
    it: the integrity check, the assembly in index order, the size check
    and the hand-over. *)
Definition fileEndAssemble (peerId : string) (expectedCount : Z) (t : IncomingTransfer)
           (m : Manager) : Manager :=
  let count := receivedCount t in
  let m3 :=
    if count =? expectedCount then m
    else emitAll [LogIncomplete expectedCount count;
                  LogMissing (missingChunks expectedCount t)] m in
  let blob := concat (map snd (orderedChunks expectedCount t)) in
  let blobSize := Z.of_nat (length blob) in
  let m4 :=
    if blobSize =? size t then m3
    else emit (LogSizeMismatch (size t) blobSize) m3 in
  let mime :=
    if truthy (mimeType t) then mimeType t else "application/octet-stream" in
  withActiveTransfers (delete (fileId t))
    (withIncomingTransfers (delete peerId)
       (emit (FileReceived peerId (name t) mime blob) m4)).

(** The [file-end] branch. The chunk handlers that run during the wait
    update the transfer object in place, so what is assembled is the
    transfer as they left it. *)
Definition relayFileEnd (peerId : string) (total : option Z)
           (ticks : list (list ChunkFrame * Z)) (now : Z) (m : Manager) : Manager :=
  match incomingTransfers m !! peerId with
  | None => m
  | Some t0 =>
      let expectedCount := expectedCountOf total t0 in
      let m2 := fileEndWait peerId t0 expectedCount ticks now m in
      match incomingTransfers m2 !! peerId with
      | None => m2
      | Some t => fileEndAssemble peerId expectedCount t m2
      end
  end.

(** [handleRelayAck]. *)
Definition handleRelayAck (fid : string) (acks : list nat) (now : Z) (m : Manager)
  : Manager :=
  match activeTransfers m !! fid with
  | Some (Sending p t) =>
      withActiveTransfers (insert fid (Sending p (Sender.ackTransfer acks now t))) m
  | _ => m
  end.

(** [handleFileCancel]; requests still waiting for an answer are not
    tracked here. *)
Definition handleFileCancel (peerId : string) (fid reason : string) (m : Manager)
  : Manager :=
  let m1 :=
    match activeTransfers m !! fid with
    | Some (Sending p t) =>
        withActiveTransfers
          (insert fid
             (Sending p {| Sender.cancelled := true;
                           Sender.ackedChunks := Sender.ackedChunks t;
                           Sender.pendingChunks := Sender.pendingChunks t;
                           Sender.lastAckTime := Sender.lastAckTime t |})) m
    | Some (Receiving p _) => withActiveTransfers (insert fid (Receiving p true)) m
    | None => m
    end in
  let m2 :=
    match incomingTransfers m1 !! peerId with
    | Some t =>
        if String.eqb (fileId t) fid then withIncomingTransfers (delete peerId) m1 else m1
    | None => m1
    end in
  emit (TransferCancelled peerId fid reason) m2.

(** The first statement of [handleRelayData]: the receiver-side switch. *)
Definition noteRelayMode (peerId : string) (m : Manager) : Manager :=
  if inRelayMode m peerId then m
  else _notifyConnectionState peerId Relay None (withRelayMode (insert peerId true) m).

(** The dispatch on [data.type]. *)
Definition dispatchRelayData (peerId : string) (data : Payload)
           (ticks : list (list ChunkFrame * Z)) (now : Z) (m : Manager) : Manager :=
  match data with
  | FileStart fid nm sz mime total => relayFileStart peerId fid nm sz mime total now m
  | FileCancel fid reason => handleFileCancel peerId fid reason m
  | FileEnd _ total => relayFileEnd peerId total ticks now m
  | Chunk fid index d _ => relayChunk peerId fid index d m
  | Ack fid acks => handleRelayAck fid acks now m
  | TextMessage content => emit (TextReceived peerId content) m
  | Unknown => m
  end.

(** [handleRelayData]. [ticks] is what arrives while a [file-end] waits
    for missing chunks. *)
Definition handleRelayData (peerId : string) (data : Payload)
           (ticks : list (list ChunkFrame * Z)) (now : Z) (m : Manager) : Manager :=
  dispatchRelayData peerId data ticks now (noteRelayMode peerId m).


(** *** The receiving side of the direct path *)

(** [respondToFileRequest(peerId, fileId, true)] and the transfer that
    [acceptFileRequest] of [app.js] then registers. *)
Definition acceptFileRequest (peerId : string) (fid nm : string) (sz : Z) (mime : string)
           (total : Z) (now : Z) (m : Manager) : Manager :=
  withIncomingTransfers
    (insert peerId
       {| fileId := fid; name := nm; size := sz;
          mimeType := if truthy mime then mime else "application/octet-stream";
          totalChunks := total; chunks := []; receivedIndices := None;
          received := 0; startTime := now; confirmed := true; pendingAcks := None |})
    (emit (Send peerId (FileResponse fid true)) m).

(** [new Blob(transfer.chunks)]: a hole of the array is read as
    [undefined] and contributes the text [undefined]. *)
Definition blobOf (parts : list (option (list Z))) : list Z :=
  flat_map (fun part => match part with
                        | Some bytes => bytes
                        | None => encode "undefined"
                        end) parts.

(** [handleMessage]: a text frame or a binary frame of the data channel.
    A chunk that fails to decrypt rejects the handler and changes nothing. *)
Definition handleMessage (peerId : string) (frame : DcFrame) (now : Z) (m : Manager)
  : Manager :=
  match frame with
  | DcText (FileStart fid nm sz mime total) =>
      let reuse :=
        match incomingTransfers m !! peerId with
        | Some t => confirmed t && String.eqb (fileId t) fid
        | None => false
        end in
      let m1 :=
        match incomingTransfers m !! peerId with
        | Some t =>
            if reuse then
              withIncomingTransfers
                (insert peerId
                   {| fileId := fileId t; name := name t; size := size t;
                      mimeType := mimeType t; totalChunks := totalChunks t;
                      chunks := chunks t; receivedIndices := receivedIndices t;
                      received := received t; startTime := now;
                      confirmed := confirmed t; pendingAcks := pendingAcks t |}) m
            else m
        | None => m
        end in
      let m2 :=
        if reuse then m1
        else
          withIncomingTransfers
            (insert peerId
               {| fileId := fid; name := nm; size := sz;
                  mimeType := if truthy mime then mime else "application/octet-stream";
                  totalChunks := total; chunks := []; receivedIndices := None;
                  received := 0; startTime := now; confirmed := true;
                  pendingAcks := None |}) m1 in
      emit (FileRequested peerId fid)
        (withActiveTransfers (insert fid (Receiving peerId false)) m2)
  | DcText (FileEnd _ _) =>
      match incomingTransfers m !! peerId with
      | Some t =>
          let mime :=
            if truthy (mimeType t) then mimeType t else "application/octet-stream" in
          withActiveTransfers (delete (fileId t))
            (withIncomingTransfers (delete peerId)
               (emit (FileReceived peerId (name t) mime (blobOf (chunks t))) m))
      | None => m
      end
  | DcText (FileCancel fid reason) => handleFileCancel peerId fid reason m
  | DcText (TextMessage content) => emit (TextReceived peerId content) m
  | DcText _ => m
  | DcBinary data =>
      match incomingTransfers m !! peerId with
      | Some t =>
          match decryptChunk (crypto m) peerId data with
          | inl _ => m
          | inr decrypted =>
              let got := received t + Z.of_nat (length decrypted) in
              emit (Progress peerId (fileId t) got (size t))
                (withIncomingTransfers
                   (insert peerId
                      {| fileId := fileId t; name := name t; size := size t;
                         mimeType := mimeType t; totalChunks := totalChunks t;
                         chunks := chunks t ++ [Some decrypted];
                         receivedIndices := receivedIndices t;
                         received := got; startTime := startTime t;
                         confirmed := confirmed t; pendingAcks := pendingAcks t |}) m)
          end
      | None => m
      end
  end.

(** The frames of the data channel, handled in order. *)
Definition handleMessages (peerId : string) (frames : list DcFrame) (now : Z)
           (m : Manager) : Manager :=
  fold_left (fun acc f => handleMessage peerId f now acc) frames m.

(** The frames that a list of effects puts on the data channel to a peer. *)
Definition dcFramesTo (peerId : string) (es : list Effect) : list DcFrame :=
  flat_map (fun e => match e with
                     | DcSend p f => if String.eqb p peerId then [f] else []
                     | _ => []
                     end) es.

End WebRTC.

(** ** [public/js/app.js]: creating a password-protected room *)

Module App.
Import Js Config Crypto.
Local Open Scope string_scope.
Local Open Scope list_scope.

(** The server side of [POST /api/room/set-password?room=...]:
    [handleSetRoomPassword] of [src/index.ts] checks the room code and
    forwards to the room object. *)
Definition postSetPassword (room : RoomDO.Room) (roomCode passwordHash : string)
  : RoomDO.Room * RoomDO.Response :=
  if truthy roomCode && Worker.isRoomCodeFormat roomCode then
    RoomDO.fetch room
      {| RoomDO.pathname := "/set-password"; RoomDO.method := "POST";
         RoomDO.json := Some (RoomDO.JObj [("passwordHash", RoomDO.JStr passwordHash)]);
         RoomDO.upgradeHeader := None; RoomDO.roomCodeHeader := None;
         RoomDO.passwordHashHeader := None |}
  else
    (room, RoomDO.plain 400
             (RoomDO.SetPasswordResult false (Some "Invalid room code format"))).

(** [createSecureRoom], with the request reaching the server: the result,
    the crypto manager and the room afterwards. *)
Definition createSecureRoom (cm : CryptoManager) (room : RoomDO.Room)
           (roomCode password : string) : bool * CryptoManager * RoomDO.Room :=
  if negb (truthy password) || (String.length password <? PASSWORD_MIN_LENGTH)%nat then
    (false, cm, room)
  else if negb (truthy roomCode) || negb (Worker.isRoomCodeFormat roomCode) then
    (false, cm, room)
  else
    let passwordHash := hashPasswordForServer password roomCode in
    let '(room', response) := postSetPassword room roomCode passwordHash in
    match RoomDO.body response with
    | RoomDO.SetPasswordResult true _ =>
        match setRoomPassword cm password roomCode with
        | inr cm' => (true, cm', room')
        | inl _ => (false, cm, room')
        end
    | _ => (false, cm, room')
    end.

End App.

(** ** Notions of the specification, and helpers of the proofs *)

Module Spec.
Import Js Worker.
Local Open Scope string_scope.
Local Open Scope list_scope.

(** One group of an IPv6 address, or one octet of an IPv4 address: not
    empty, without [:] or [.]. *)
Definition isGroup (g : string) : bool :=
  truthy g && negb (includesChar ":" g) && negb (includesChar "." g).

(** Loopback or unknown. *)
Definition isSpecial (ip : string) : bool :=
  String.eqb ip "default" || String.eqb ip "127.0.0.1" || String.eqb ip "::1".

(** The network part of a client address, in the words of the
    specification of room resolution: [localhost] for loopback or unknown,
    the first three octets of an IPv4 address, the first four groups of an
    IPv6 address once [::] is expanded and the groups are padded. *)
Inductive NetworkPartOf : string -> string -> Prop :=
| np_local ip :
    isSpecial ip = true -> NetworkPartOf ip "localhost"
| np_ipv4 a b c d :
    forallb isGroup [a; b; c; d] = true ->
    isSpecial (join "." [a; b; c; d]) = false ->
    NetworkPartOf (join "." [a; b; c; d]) (join "." [a; b; c])
| np_ipv6 gs :
    gs <> [] -> forallb isGroup gs = true ->
    isSpecial (join ":" gs) = false ->
    NetworkPartOf (join ":" gs) (join ":" (firstn 4 (map (padStart0 4) gs)))
| np_ipv6_abbreviated ls rs :
    forallb isGroup ls = true -> forallb isGroup rs = true ->
    (length ls + length rs <= 8)%nat ->
    isSpecial (join ":" ls ++ "::" ++ join ":" rs)%string = false ->
    NetworkPartOf
      (join ":" ls ++ "::" ++ join ":" rs)%string
      (join ":" (firstn 4 (map (padStart0 4)
                               (ls ++ repeat "0000" (8 - length ls - length rs) ++ rs)))).

(** The two ways [splitDoubleColon] extends the split of a tail. *)
Definition keep (c : ascii) (parts : list string) : list string :=
  match parts with
  | [] => [String c ""]
  | h :: t => String c h :: t
  end.

Definition prepend (g : string) (parts : list string) : list string :=
  match parts with
  | [] => [g]
  | h :: t => (g ++ h)%string :: t
  end.

(** A connect request without query parameters, from 192.168.1.5. *)
Definition lanRequest : ConnectRequest :=
  {| roomParam := None; cfConnectingIp := Some "192.168.1.5";
     xForwardedFor := None; passwordHashParam := None |}.

(** A well-formed request to set the password of a room. *)
Definition setPasswordRequest (hash : string) : RoomDO.Request :=
  {| RoomDO.pathname := "/set-password"; RoomDO.method := "POST";
     RoomDO.json := Some (RoomDO.JObj [("passwordHash", RoomDO.JStr hash)]);
     RoomDO.upgradeHeader := None; RoomDO.roomCodeHeader := None;
     RoomDO.passwordHashHeader := None |}.

(** What [handleSetPassword] answers once a hash is stored. *)
Definition alreadySet : RoomDO.Response :=
  RoomDO.plain 400
    (RoomDO.SetPasswordResult false (Some "Password already set for this room")).

(** A room that has just been created. *)
Definition freshRoom : RoomDO.Room := RoomDO.construct ∅.

(** Two peers that share a peer key: Alice has a room password, Bob has
    none, or the same one. *)
Definition sampleRng : Crypto.Rng :=
  {| Crypto.source := fun n => (Z.of_nat n * 37 + 11)%Z; Crypto.position := 0 |}.

Definition peerKey : list Z := repeat 7%Z 32.
Definition sharedRoomKey : list Z := repeat 9%Z 32.

Definition alice : Crypto.CryptoManager :=
  {| Crypto.sharedSecrets := {["bob" := peerKey]};
     Crypto.roomKey := Some sharedRoomKey; Crypto.roomPasswordSet := true |}.

Definition bob : Crypto.CryptoManager :=
  {| Crypto.sharedSecrets := {["alice" := peerKey]};
     Crypto.roomKey := None; Crypto.roomPasswordSet := false |}.

Definition bobInRoom : Crypto.CryptoManager :=
  {| Crypto.sharedSecrets := {["alice" := peerKey]};
     Crypto.roomKey := Some sharedRoomKey; Crypto.roomPasswordSet := true |}.

(** Files of 0, [CHUNK_SIZE] and [CHUNK_SIZE + 1] bytes, and one of 3. *)
Definition fileOf (bytes : list Z) : Sender.File :=
  {| Sender.name := "hello.bin"; Sender.type := ""; Sender.content := bytes |}.

Definition emptyFile : Sender.File := fileOf [].
Definition oneChunkFile : Sender.File := fileOf (repeat 0%Z (Z.to_nat 65536)).
Definition twoChunkFile : Sender.File := fileOf (repeat 0%Z (Z.to_nat 65537)).
Definition smallFile : Sender.File := fileOf [1; 2; 3]%Z.

End Spec.

(** ** Notions used for the relay sender *)

Module RelaySpec.
Import Js Config Crypto Wire Sender.
Local Open Scope string_scope.
Local Open Scope list_scope.
Local Open Scope Z_scope.

(** A chunk frame carries an index below [total]. *)
Definition chunkInRange (total : Z) (e : Effect) : Prop :=
  match e with
  | Send _ (RelayData (Chunk _ index _ _)) =>
      exists i, index = Some i /\ Z.of_nat i < total
  | _ => True
  end.

(** What holds of a relay sender between two events. *)
Record SenderInv (s : RelaySender) : Prop := {
  inv_offset : r_offset s = CHUNK_SIZE * Z.of_nat (r_chunkIndex s);
  inv_index : Z.of_nat (r_chunkIndex s) <= totalChunks (r_file s);
  inv_nodup : List.NoDup (map fst (pendingChunks (r_transfer s)));
  inv_keys : Forall (fun e => (fst e < r_chunkIndex s)%nat) (pendingChunks (r_transfer s));
  inv_retries : Forall (fun e => 0 <= retries (snd e)) (pendingChunks (r_transfer s));
  inv_frames : Forall (chunkInRange (totalChunks (r_file s))) (r_out s);
  inv_window : r_pc s = RWindowWait -> r_offset s < fileSize (r_file s)
}.

(** One step of the search of [_getOldestPendingChunk]. *)
Definition older (oldest : option (nat * PendingInfo)) (e : nat * PendingInfo) :=
  match oldest with
  | None => Some e
  | Some o => if sentAt (snd e) <? sentAt (snd o) then Some e else oldest
  end.

(** No chunk has been sent with [retry: true]. *)
Definition noRetransmission (es : list Effect) : Prop :=
  Forall (fun e => isRetransmission e = false) es.

(** The sender is not in the window loop and has retransmitted nothing. *)
Definition Calm (s : RelaySender) : Prop :=
  noRetransmission (r_out s) /\ r_pc s <> RWindowWait.

(** Ten chunks, the last one of a single byte. *)
Definition tenChunkFile : File :=
  Spec.fileOf (repeat 0 (Z.to_nat (9 * CHUNK_SIZE + 1))).




End RelaySpec.

(** ** Notions used for the relay receiver *)

Module ReceiverSpec.
Import Js Config Crypto Wire WebRTC.
Local Open Scope string_scope.
Local Open Scope list_scope.
Local Open Scope Z_scope.

(** A chunk frame that names an index below [total]. *)
Definition inRange (total : Z) (f : ChunkFrame) : bool :=
  match snd (fst f) with
  | Some i => Z.of_nat i <? total
  | None => false
  end.

Definition ticksInRange (total : Z) (ticks : list (list ChunkFrame * Z)) : bool :=
  forallb (fun tick => forallb (inRange total) (fst tick)) ticks.

(** Chunk frames handed to [handleRelayData] one after the other. *)
Definition receiveFrames (peerId : string) (frames : list ChunkFrame) (now : Z)
           (m : Manager) : Manager :=
  fold_left (fun acc f =>
               handleRelayData peerId (Chunk (fst (fst f)) (snd (fst f)) (snd f) false)
                               [] now acc)
            frames m.

(** The transfer of [peerId] when the wait of the [file-end] branch is
    over. *)
Definition transferAtAssembly (peerId : string) (total : option Z)
           (ticks : list (list ChunkFrame * Z)) (now : Z) (m : Manager)
  : option IncomingTransfer :=
  match incomingTransfers m !! peerId with
  | None => None
  | Some t0 =>
      incomingTransfers (fileEndWait peerId t0 (expectedCountOf total t0) ticks now m)
        !! peerId
  end.

(** The set of received indices and the array of chunks agree, and no
    index reaches [n]. *)
Definition Tracked (n : Z) (t : IncomingTransfer) : Prop :=
  totalChunks t = n
  /\ exists R : gset nat,
      receivedIndices t = Some R
      /\ (forall i, i ∈ R <-> arrayGet i (chunks t) <> None)
      /\ (forall i, i ∈ R -> Z.of_nat i < n).

Definition TrackedFor (n : Z) (peerId : string) (m : Manager) : Prop :=
  exists t, incomingTransfers m !! peerId = Some t /\ Tracked n t.

(** [m'] has the relay mode and the cryptography of [m], and the effects
    of [m] followed by chunk acknowledgements and progress reports. *)
Definition quietEffect (e : Effect) : bool :=
  match e with
  | Send _ (RelayData (Ack _ _)) | Progress _ _ _ _ => true
  | _ => false
  end.

Definition Extends (m m' : Manager) : Prop :=
  relayMode m' = relayMode m /\ crypto m' = crypto m
  /\ exists out, effects m' = effects m ++ out /\ forallb quietEffect out = true.

(** The chunk frames among the messages a sender hands to the signaling
    channel. *)
Definition framesOf (es : list Effect) : list ChunkFrame :=
  flat_map (fun e => match e with
                     | Send _ (RelayData (Chunk fid index data _)) => [(fid, index, data)]
                     | _ => []
                     end) es.

(** The chunk frames that a run of [_sendFileDataViaRelay] sends. *)
Definition sentFrames (cm : CryptoManager) (g : Rng) (publicKey to : string)
           (f : Sender.File) (fid : string) (now : Z) (evs : list Sender.RelayEvent)
  : list ChunkFrame :=
  framesOf (Sender.r_out
              (Sender.r_run (Sender._sendFileDataViaRelay cm g publicKey to f fid now) evs)).

(** Every frame of [frames] is one of [sent]: on the way frames may be
    lost, repeated and reordered, but none is made up. *)
Definition delivered (sent frames : list (string * option nat * string)) : bool :=
  forallb (fun fr => bool_decide (fr ∈ sent)) frames.

Definition ticksDelivered (sent : list (string * option nat * string))
           (ticks : list (list ChunkFrame * Z)) : bool :=
  forallb (fun tick => delivered sent (fst tick)) ticks.

(** What [alice] sends of the three-byte file when nothing is
    acknowledged: its one chunk. *)
Definition sentSmall : list ChunkFrame :=
  sentFrames Spec.alice Spec.sampleRng "pk" "bob" Spec.smallFile "f1" 0 [].

(** A chunk as [alice] seals it for [bob]. *)
Definition sealed (bytes : list Z) : string :=
  match encryptChunk Spec.alice "bob" bytes Spec.sampleRng with
  | (inr encrypted, _) => Base64.encode encrypted
  | (inl _, _) => ""
  end.

(** [bob]'s side, nothing received yet. *)
Definition receiver : Manager :=
  MkManager Spec.bobInRoom ∅ ∅ ∅ ∅ ∅ ∅ ∅ ∅ ∅ [] 1%nat ∅ ∅ ∅ ∅ [].

(** Chunk 0, chunk 2, and chunk 0 once more. *)
Definition sampleFrames : list ChunkFrame :=
  [("f1", Some 0%nat, sealed [1; 2]); ("f1", Some 2%nat, sealed [5]);
   ("f1", Some 0%nat, sealed [1; 2])].

(** Chunk 1 arrives while [file-end] waits. *)
Definition lateTicks : list (list ChunkFrame * Z) :=
  [([("f1", Some 1%nat, sealed [3; 4])], 1100)].
End ReceiverSpec.

(** ** Notions used for the connection engine *)

Module EngineSpec.
Import Js Config Crypto Wire WebRTC.
Local Open Scope string_scope.
Local Open Scope list_scope.
Local Open Scope Z_scope.

(** [m'] has the relay modes, the timers and the background retry of [m],
    and the effects of [m] followed by [out]. *)
Definition Untouched (m m' : Manager) (out : list Effect) : Prop :=
  relayMode m' = relayMode m
  /\ timers m' = timers m
  /\ nextTimerId m' = nextTimerId m
  /\ p2pRetryTimers m' = p2pRetryTimers m
  /\ p2pRetryAttempts m' = p2pRetryAttempts m
  /\ effects m' = effects m ++ out.



(** [['new', 'checking', 'connected', 'completed'].includes(state)]. *)
Definition iceGood (state : IceState) : bool :=
  match state with
  | IceNew | IceChecking | IceConnected | IceCompleted => true
  | _ => false
  end.




(** [ensureConnection] has started the race for [peerId], and the
    connection object exists. *)
Definition started (peerId : string) (now : Z) (m : Manager) : Manager :=
  createConnection peerId (_raceP2PWithFallback peerId now m).

(** The race that [started] leaves for a manager whose next timer is 1. *)
Definition firstRace : Racing :=
  {| resolved := false; winner := None; slowTimer := 1; fallbackTimer := 2;
     ultimateTimer := 3 |}.
End EngineSpec.

Module MoreSpec.
Import Js Worker.
Local Open Scope string_scope.
Local Open Scope list_scope.

(** A connect request without query parameters from the address [ip]. *)
Definition requestFrom (ip : string) : ConnectRequest :=
  {| roomParam := None; cfConnectingIp := Some ip;
     xForwardedFor := None; passwordHashParam := None |}.

(** A connect request that names the room [room]. *)
Definition requestFor (room ip : string) : ConnectRequest :=
  {| roomParam := Some room; cfConnectingIp := Some ip;
     xForwardedFor := None; passwordHashParam := None |}.

(** A byte. *)
Definition isByte (b : Z) : Prop := (0 <= b < 256)%Z.
End MoreSpec.


Module RoomSpec.
Import Js RoomDO.
Local Open Scope string_scope.
Local Open Scope list_scope.

(** An upgrade request as the Worker forwards it. *)
Definition upgradeRequest (roomCode : string) (hash : option string) : Request :=
  {| pathname := "/ws"; method := "GET"; json := None;
     upgradeHeader := Some "websocket"; roomCodeHeader := Some roomCode;
     passwordHashHeader := hash |}.

(** The server socket is sent [error] and closed with [code]. *)
Definition refused (code : Z) (error : string) : list SocketAction :=
  [SendError error; Close code error].

(** A room whose password hash is [hash]. *)
Definition lockedRoom (hash : string) : Room :=
  {| passwordHash := Some hash; storage := {["passwordHash" := hash]} |}.
End RoomSpec.


Module RelayMoreSpec.
Import Js Config Crypto Wire Sender.
Local Open Scope string_scope.
Local Open Scope list_scope.
Local Open Scope Z_scope.

(** How many chunk frames for index [i] are among [es]. *)
Definition sentCount (i : nat) (es : list Effect) : nat :=
  length (List.filter (isChunkFor i) es).

Definition isFileEnd (e : Effect) : bool :=
  match e with
  | Send _ (RelayData (FileEnd _ _)) => true
  | _ => false
  end.

(** The sender is past the loop over the chunks. *)
Definition pastLoop (pc : RelayPc) : bool :=
  match pc with
  | RAckWait | RBeforeEnd | RDone => true
  | _ => false
  end.

(** How the frames sent relate to the bookkeeping of the sender. *)
Record Counted (s : RelaySender) : Prop := {
  cnt_pending :
    forall i info, In (i, info) (pendingChunks (r_transfer s)) ->
                   sentCount i (r_out s) = S (Z.to_nat (retries info))
                   /\ retries info <= MAX_CHUNK_RETRIES;
  cnt_sent :
    forall i, (i < r_chunkIndex s)%nat -> (1 <= sentCount i (r_out s) <= 4)%nat;
  cnt_unsent :
    forall i, (r_chunkIndex s <= i)%nat -> sentCount i (r_out s) = 0%nat;
  cnt_past : pastLoop (r_pc s) = true -> fileSize (r_file s) <= r_offset s;
  cnt_end :
    r_pc s = RDone ->
    last (r_out s)
    = Some (Send (r_peerId s)
                 (RelayData (FileEnd (r_fileId s) (Some (totalChunks (r_file s))))))
    /\ r_registered s = false;
  cnt_no_end : r_pc s <> RDone -> existsb isFileEnd (r_out s) = false
}.

(** At most [WINDOW_SIZE] chunks are waiting for their acknowledgement. *)
Definition windowed (s : RelaySender) : Prop :=
  (length (pendingChunks (r_transfer s)) <= WINDOW_SIZE)%nat.

(** How many frames for index [i] were sent with [retry: false]. *)
Definition isFirstChunkFor (i : nat) (e : Effect) : bool :=
  isChunkFor i e && negb (isRetransmission e).

Definition firstCount (i : nat) (es : list Effect) : nat :=
  length (List.filter (isFirstChunkFor i) es).

(** Each chunk read so far went out once with [retry: false], the others
    never. *)
Definition Once (s : RelaySender) : Prop :=
  forall i, firstCount i (r_out s) = if (i <? r_chunkIndex s)%nat then 1%nat else 0%nat.

(** Whom the sender sends to, and what. *)
Definition ident (s : RelaySender) : string * string * File :=
  (r_peerId s, r_fileId s, r_file s).

(** [alice] sends [f] to [bob] through the relay, from time 0. *)
Definition relayStart (f : File) : RelaySender :=
  _sendFileDataViaRelay Spec.alice Spec.sampleRng "pk" "bob" f "f1" 0.
End RelayMoreSpec.


Module DeliverySpec.
Import Js Config Crypto Wire.
Local Open Scope string_scope.
Local Open Scope list_scope.
Local Open Scope Z_scope.

(** The two sides can read each other: they hold the same key for each
    other, and the sender has no room password, or the receiver has one
    and holds the same room key. *)
Definition Paired (sender receiver : CryptoManager) (toPeer fromPeer : string) : Prop :=
  (exists key, sharedSecrets sender !! toPeer = Some key
               /\ sharedSecrets receiver !! fromPeer = Some key)
  /\ (hasRoomPassword sender = false
      \/ (hasRoomPassword receiver = true /\ roomKey receiver = roomKey sender)).

(** Chunk [i] of a file. *)
Definition chunkOf (f : Sender.File) (i : nat) : list Z :=
  Sender.chunkAt f (CHUNK_SIZE * Z.of_nat i).

(** The receiver reads [frame] as chunk [i] of [f]. *)
Definition opens (receiver : CryptoManager) (fromPeer : string) (f : Sender.File)
           (frame : list Z) (i : nat) : Prop :=
  decryptChunk receiver fromPeer frame = Ok (chunkOf f i).




End DeliverySpec.


Module Base64Spec.
Import Js Base64.
Local Open Scope string_scope.
Local Open Scope list_scope.
Local Open Scope Z_scope.

(** The 6-bit values that [encodeAux] writes, without the padding. *)
Fixpoint sextets (fuel : nat) (bs : list Z) : list Z :=
  match fuel with
  | O => []
  | S f =>
      match bs with
      | [] => []
      | [a] => [a / 4; a mod 4 * 16]
      | [a; b] => [a / 4; a mod 4 * 16 + b / 16; b mod 16 * 4]
      | a :: b :: c :: r =>
          a / 4 :: a mod 4 * 16 + b / 16 :: b mod 16 * 4 + c / 64 :: c mod 64
          :: sextets f r
      end
  end.

(** The padding after the last group. *)
Fixpoint padding (fuel : nat) (bs : list Z) : list ascii :=
  match fuel with
  | O => []
  | S f =>
      match bs with
      | [] => []
      | [_] => ["="%char; "="%char]
      | [_; _] => ["="%char]
      | _ :: _ :: _ :: r => padding f r
      end
  end.

Definition isSextet (v : Z) : Prop := 0 <= v < 64.
End Base64Spec.


Module RelayDeliverySpec.
Import Js Config Crypto Wire MoreSpec DeliverySpec.
Local Open Scope string_scope.
Local Open Scope list_scope.
Local Open Scope Z_scope.

(** The receiver holds [key] for the sender; the sender holds it for the
    receiver, or no key yet; the sender has no room password, or the
    receiver has one and holds the same room key; the keys are bytes. *)
Record KeysAgree (key : list Z) (sender receiver : CryptoManager)
       (toPeer fromPeer : string) : Prop := {
  ka_receiver : sharedSecrets receiver !! fromPeer = Some key;
  ka_sender : sharedSecrets sender !! toPeer = Some key
              \/ sharedSecrets sender !! toPeer = None;
  ka_room : hasRoomPassword sender = false
            \/ (hasRoomPassword receiver = true /\ roomKey receiver = roomKey sender);
  ka_key_bytes : Forall isByte key;
  ka_room_bytes : forall rk, roomKey sender = Some rk -> Forall isByte rk
}.

(** A key that is imported during the transfer is [key]. *)
Definition sameKey (key : list Z) (ev : Sender.RelayEvent) : Prop :=
  match ev with
  | Sender.RKey k => k = key
  | _ => True
  end.

(** The receiver decodes [data] and reads it as chunk [i] of [f]. *)
Definition readable (receiver : CryptoManager) (fromPeer : string) (f : Sender.File)
           (i : nat) (data : string) : Prop :=
  exists bytes, Base64.decode data = Some bytes /\ opens receiver fromPeer f bytes i.

(** A chunk frame belongs to the transfer and is readable. *)
Definition frameReadable (receiver : CryptoManager) (fromPeer : string) (f : Sender.File)
           (fid : string) (e : Effect) : Prop :=
  match e with
  | Send _ (RelayData (Chunk fid' index data _)) =>
      fid' = fid /\ exists i, index = Some i /\ readable receiver fromPeer f i data
  | _ => True
  end.

(** What holds of the frames of a relay sender, for a receiver that can
    read it. *)
Record Sealing (key : list Z) (sender receiver : CryptoManager) (fromPeer : string)
       (s : Sender.RelaySender) : Prop := {
  sl_roomKey : roomKey (Sender.r_cm s) = roomKey sender;
  sl_roomSet : roomPasswordSet (Sender.r_cm s) = roomPasswordSet sender;
  sl_key : sharedSecrets (Sender.r_cm s) !! Sender.r_peerId s = Some key
           \/ sharedSecrets (Sender.r_cm s) !! Sender.r_peerId s = None;
  sl_bytes : Forall isByte (Sender.content (Sender.r_file s));
  sl_frames : Forall (frameReadable receiver fromPeer (Sender.r_file s) (Sender.r_fileId s))
                     (Sender.r_out s);
  sl_pending : Forall (fun e => readable receiver fromPeer (Sender.r_file s) (fst e)
                                         (Sender.base64 (snd e)))
                      (Sender.pendingChunks (Sender.r_transfer s))
}.

(** A chunk frame that the receiver can use: of this transfer, with an
    index below [total], readable. *)
Definition usable (receiver : CryptoManager) (fromPeer : string) (f : Sender.File)
           (fid : string) (total : Z) (fr : WebRTC.ChunkFrame) : Prop :=
  fst (fst fr) = fid
  /\ exists i, snd (fst fr) = Some i /\ Z.of_nat i < total
               /\ readable receiver fromPeer f i (snd fr).

(** The transfer of the receiver holds chunks of [f] under their indices,
    and [R] is the set of the indices it holds. *)
Record Faithful (f : Sender.File) (fid : string) (total : Z) (R : gset nat)
       (t : WebRTC.IncomingTransfer) : Prop := {
  ft_fileId : WebRTC.fileId t = fid;
  ft_name : WebRTC.name t = Sender.name f;
  ft_size : WebRTC.size t = Sender.fileSize f;
  ft_mime : WebRTC.mimeType t = Sender.mimeType f;
  ft_total : WebRTC.totalChunks t = total;
  ft_indices : WebRTC.receivedIndices t = Some R;
  ft_stored : forall i, i ∈ R <-> WebRTC.arrayGet i (WebRTC.chunks t) <> None;
  ft_chunks : forall i c, WebRTC.arrayGet i (WebRTC.chunks t) = Some c -> c = chunkOf f i;
  ft_bound : forall i, i ∈ R -> Z.of_nat i < total
}.

(** The receiver is in relay mode and holds a faithful transfer. *)
Definition Holding (receiver : CryptoManager) (fromPeer : string) (f : Sender.File)
           (fid : string) (R : gset nat) (m : WebRTC.Manager) : Prop :=
  WebRTC.crypto m = receiver /\ WebRTC.inRelayMode m fromPeer = true
  /\ exists t, WebRTC.incomingTransfers m !! fromPeer = Some t
               /\ Faithful f fid (Sender.totalChunks f) R t.

(** The frames of [alice] for [bob] when her first chunk is acknowledged. *)
Definition relayedSmall : list WebRTC.ChunkFrame :=
  ReceiverSpec.sentFrames Spec.alice Spec.sampleRng "pk" "bob" Spec.smallFile "f1" 0
                          [Sender.RWake 1; Sender.RAck [0%nat] 2; Sender.RWake 3].
End RelayDeliverySpec.


Module EngineMoreSpec.
Import Js Config Crypto Wire WebRTC.
Local Open Scope string_scope.
Local Open Scope list_scope.
Local Open Scope Z_scope.

(** [this.iceRestartCounts.get(peerId) || 0]. *)
Definition restartCount (m : Manager) (peerId : string) : Z :=
  match iceRestartCounts m !! peerId with Some c => c | None => 0 end.

(** [quality?.p2pPossible]. *)
Definition directPossible (m : Manager) (peerId : string) : bool :=
  match connectionQuality m !! peerId with
  | Some quality => p2pPossible quality
  | None => false
  end.

(** The ICE connection of [peerId] fails at each of the given times. *)
Definition iceFailures (peerId : string) (times : list Z) (m : Manager) : Manager :=
  fold_left (fun acc now => _handleIceConnectionStateChange peerId IceFailed now acc)
            times m.

(** One round of the background retry: the timer calls
    [_attemptSilentP2PReconnect], and the silent attempt, if one is
    started, fails. *)
Definition failedRetry (peerId : string) (now : Z) (m : Manager) : Manager :=
  let '(startedAttempt, m1) := _attemptSilentP2PReconnect peerId m in
  if startedAttempt then silentReconnectDone peerId false now m1 else m1.

Definition failedRetries (peerId : string) (times : list Z) (m : Manager) : Manager :=
  fold_left (fun acc now => failedRetry peerId now acc) times m.

(** [this.p2pRetryAttempts.get(peerId)]. *)
Definition retryAttempts (m : Manager) (peerId : string) : option Z :=
  p2pRetryAttempts m !! peerId.

(** The three timers of a race. *)
Definition raceTimers (racing : Racing) : list nat :=
  [slowTimer racing; fallbackTimer racing; ultimateTimer racing].

(** A manager that has switched [bob] to relay mode at time 0. *)
Definition relayedBob : Manager := _switchToRelay "bob" None true 0 new.

(** A manager that has seen a host candidate of [bob]. *)
Definition withHostCandidate : Manager :=
  onicecandidate "bob" (Some "host") (createConnection "bob" new).
End EngineMoreSpec.


Module AppSpec.
Import Js Config Crypto Wire WebRTC.
Local Open Scope string_scope.
Local Open Scope list_scope.
Local Open Scope Z_scope.

(** A frame of the data channel that carries data of a transfer or ends
    it. *)
Definition isDataFrame (frame : DcFrame) : bool :=
  match frame with
  | DcBinary _ | DcText (Chunk _ _ _ _) | DcText (FileEnd _ _) => true
  | _ => false
  end.

(** A relayed payload that carries data of a transfer or ends it. *)
Definition isDataPayload (data : Payload) : bool :=
  match data with
  | Chunk _ _ _ _ | FileEnd _ _ => true
  | _ => false
  end.

(** Payloads handed to [handleRelayData] one after the other; nothing
    arrives while a [file-end] waits. *)
Definition relayed (peerId : string) (payloads : list Payload) (now : Z) (m : Manager)
  : Manager :=
  fold_left (fun acc data => handleRelayData peerId data [] now acc) payloads m.

(** A file has been handed over, or progress reported. *)
Definition isDelivery (e : Effect) : bool :=
  match e with
  | FileReceived _ _ _ _ | Progress _ _ _ _ => true
  | _ => false
  end.

(** [bob] has got the [file-start] of [f1] from [alice]. *)
Definition receivingFromAlice : Manager :=
  handleMessages "alice" [DcText (FileStart "f1" "hello.bin" 3 "" 1)] 5
                 ReceiverSpec.receiver.
End AppSpec.


(** ** [src/room.ts]: the sockets of a room and the messages between them *)

Module Hub.
Import Js RoomDO.
Local Open Scope string_scope.
Local Open Scope list_scope.
Local Open Scope Z_scope.

(** JavaScript truthiness of a parsed value. *)
Definition truthyJson (j : Json) : bool :=
  match j with
  | JNull => false
  | JBool b => b
  | JNum n => negb (n =? 0)
  | JStr s => truthy s
  | JArr _ | JObj _ => true
  end.

(** [value.key] on a parsed value: [None] when the access throws (on
    [null]), [Some None] for [undefined]. *)
Definition prop (k : string) (j : Json) : option (option Json) :=
  match j with
  | JNull => None
  | JObj fields => Some (field k fields)
  | _ => Some None
  end.

(** [PeerAttachment], also the entries of the [peers] list. *)
Record PeerAttachment := {
  id : string;
  name : option Json;
  deviceType : Json;
  browserInfo : option Json
}.

(** What the room sends to a socket. *)
Inductive ServerMessage :=
| Joined (peerId roomCode : string) (peers : list PeerAttachment)
| PeerJoined (peer : PeerAttachment)
| PeerLeft (peerId : string)
| Routed (type from : string) (data : option Json)
| NameChanged (from : string) (name : option Json).

(** A server socket: its tags, its attachment, its state, whether [send]
    throws on it, and what has been sent on it. *)
Record Socket := {
  tags : list string;
  attachment : option PeerAttachment;
  readyState : Z;
  sendThrows : bool;
  sent : list ServerMessage
}.

(** [state.getWebSockets()], in its order; a socket is known by its
    position. *)
Definition Sockets := list Socket.

(** A parsed message of a client; [from] is never read. *)
Record ClientMessage := {
  type : string;
  to : option string;
  data : option Json
}.

Definition OPEN : Z := 1.

Definition withSent (msg : ServerMessage) (s : Socket) : Socket :=
  {| tags := tags s; attachment := attachment s; readyState := readyState s;
     sendThrows := sendThrows s; sent := sent s ++ [msg] |}.

Definition withAttachment (a : PeerAttachment) (s : Socket) : Socket :=
  {| tags := tags s; attachment := Some a; readyState := readyState s;
     sendThrows := sendThrows s; sent := sent s |}.

(** [list[i] = f(list[i])]. *)
Fixpoint update (i : nat) (f : Socket -> Socket) (l : Sockets) : Sockets :=
  match l, i with
  | [], _ => []
  | s :: r, O => f s :: r
  | s :: r, S j => s :: update j f r
  end.

(** [attachment?.id]. *)
Definition getPeerIdFromWs (s : Socket) : option string :=
  match attachment s with
  | Some a => Some (id a)
  | None => None
  end.

(** [Map.prototype.set]: a present key keeps its place. *)
Fixpoint mapSet {V} (k : string) (v : V) (m : list (string * V)) : list (string * V) :=
  match m with
  | [] => [(k, v)]
  | (k', v') :: r => if String.eqb k' k then (k, v) :: r else (k', v') :: mapSet k v r
  end.

(** [getActivePeers]. *)
Definition getActivePeers (l : Sockets) : list (string * PeerAttachment) :=
  fold_left (fun peers s =>
               match attachment s with
               | Some a =>
                   if truthy (id a) && (readyState s =? OPEN)
                   then mapSet (id a) a peers
                   else peers
               | None => peers
               end) l [].

(** [sendToPeer], and the loop of [handleSignaling]: the first socket
    with the target's identifier on which [send] does not throw. *)
Fixpoint sendToPeer (targetPeerId : string) (msg : ServerMessage) (l : Sockets) : Sockets :=
  match l with
  | [] => []
  | s :: r =>
      match attachment s with
      | Some a =>
          if String.eqb (id a) targetPeerId then
            if sendThrows s then s :: sendToPeer targetPeerId msg r
            else withSent msg s :: r
          else s :: sendToPeer targetPeerId msg r
      | None => s :: sendToPeer targetPeerId msg r
      end
  end.

(** [broadcast]. *)
Definition broadcast (msg : ServerMessage) (excludePeerId : option string) (l : Sockets)
  : Sockets :=
  map (fun s =>
         match attachment s with
         | Some a =>
             let excluded :=
               match excludePeerId with
               | Some e => String.eqb (id a) e
               | None => false
               end in
             if negb (truthy (id a)) || excluded then s
             else if sendThrows s then s
             else withSent msg s
         | None => s
         end) l.

(** [handleJoin]. [peerId] is what [crypto.randomUUID()] returns and
    [generated] what [generateName()] would return. *)
Definition handleJoin (ws : nat) (msg : ClientMessage) (peerId generated : string)
           (l : Sockets) : Sockets :=
  match nth_error l ws with
  | None => l
  | Some socket =>
      let roomCode := match tags socket with t :: _ => t | [] => "" end in
      match data msg with
      | None => l                                   (* undefined.name throws *)
      | Some joinData =>
          match prop "name" joinData, prop "deviceType" joinData,
                prop "browserInfo" joinData with
          | Some nm, Some dt, Some bi =>
              let a :=
                {| id := peerId;
                   name := Some (match nm with
                                 | Some v => if truthyJson v then v else JStr generated
                                 | None => JStr generated
                                 end);
                   deviceType := match dt with
                                 | Some v => if truthyJson v then v else JStr "desktop"
                                 | None => JStr "desktop"
                                 end;
                   browserInfo := bi |} in
              let l1 := update ws (withAttachment a) l in
              let otherPeers :=
                map snd (List.filter (fun e => negb (String.eqb (fst e) peerId))
                                     (getActivePeers l1)) in
              if sendThrows socket then l1
              else
                broadcast (PeerJoined a) (Some peerId)
                          (update ws (withSent (Joined peerId roomCode otherPeers)) l1)
          | _, _, _ => l                            (* null.name throws *)
          end
      end
  end.

(** [handleLeave]. *)
Definition handleLeave (ws : nat) (l : Sockets) : Sockets :=
  match nth_error l ws with
  | None => l
  | Some socket =>
      match getPeerIdFromWs socket with
      | Some peerId => if truthy peerId then broadcast (PeerLeft peerId) None l else l
      | None => l
      end
  end.

(** [handleSignaling], [handleText], [handleRelayData],
    [handleKeyExchange] and [handleFileSignaling]: the message goes to
    [msg.to] with the sender's identifier as [from]. *)
Definition forward (ws : nat) (msg : ClientMessage) (l : Sockets) : Sockets :=
  match to msg with
  | None => l
  | Some target =>
      if negb (truthy target) then l
      else
        match nth_error l ws with
        | None => l
        | Some socket =>
            match getPeerIdFromWs socket with
            | Some fromPeerId =>
                if truthy fromPeerId
                then sendToPeer target (Routed (type msg) fromPeerId (data msg)) l
                else l
            | None => l
            end
        end
  end.

(** [handleNameChanged]. *)
Definition handleNameChanged (ws : nat) (msg : ClientMessage) (l : Sockets) : Sockets :=
  match nth_error l ws with
  | None => l
  | Some socket =>
      match attachment socket with
      | Some a =>
          if truthy (id a) then
            match data msg with
            | None => l
            | Some nameData =>
                match prop "name" nameData with
                | None => l
                | Some nm =>
                    let a' := {| id := id a; name := nm; deviceType := deviceType a;
                                 browserInfo := browserInfo a |} in
                    broadcast (NameChanged (id a) nm) (Some (id a))
                              (update ws (withAttachment a') l)
                end
            end
          else l
      | None => l
      end
  end.

Definition isRouted (t : string) : bool :=
  String.eqb t "offer" || String.eqb t "answer" || String.eqb t "ice-candidate"
  || String.eqb t "text" || String.eqb t "relay-data" || String.eqb t "key-exchange"
  || String.eqb t "file-request" || String.eqb t "file-response"
  || String.eqb t "file-cancel".

(** [webSocketMessage] on a message that parses. *)
Definition webSocketMessage (ws : nat) (msg : ClientMessage) (uuid generated : string)
           (l : Sockets) : Sockets :=
  if String.eqb (type msg) "join" then handleJoin ws msg uuid generated l
  else if isRouted (type msg) then forward ws msg l
  else if String.eqb (type msg) "name-changed" then handleNameChanged ws msg l
  else l.

(** [webSocketClose] and [webSocketError]. *)
Definition webSocketClose (ws : nat) (l : Sockets) : Sockets := handleLeave ws l.
End Hub.


Module HubSpec.
Import Js RoomDO Hub.
Local Open Scope string_scope.
Local Open Scope list_scope.
Local Open Scope Z_scope.

(** The identifiers that the sockets carry. *)
Definition ids (l : Sockets) : list string :=
  flat_map (fun s => match attachment s with Some a => [id a] | None => [] end) l.

(** No two sockets carry the same identifier. *)
Definition Unique (l : Sockets) : Prop := List.NoDup (ids l).

(** The peers that [getActivePeers] finds. *)
Definition peersOf (l : Sockets) : list PeerAttachment :=
  flat_map (fun s => match attachment s with
                     | Some a => if truthy (id a) && (readyState s =? OPEN) then [a] else []
                     | None => []
                     end) l.

(** The sockets other than the one at position [ws]. *)
Definition others (ws : nat) (l : Sockets) : Sockets := firstn ws l ++ skipn (S ws) l.

(** The socket carries [target] and [send] works on it. *)
Definition reaches (target : string) (s : Socket) : bool :=
  match attachment s with
  | Some a => String.eqb (id a) target && negb (sendThrows s)
  | None => false
  end.

(** What [broadcast] does to one socket. *)
Definition told (msg : ServerMessage) (excludePeerId : option string) (s : Socket) : Socket :=
  match attachment s with
  | Some a =>
      if truthy (id a)
         && negb (match excludePeerId with Some e => String.eqb (id a) e | None => false end)
         && negb (sendThrows s)
      then withSent msg s
      else s
  | None => s
  end.

(** The attachment that [handleJoin] makes of the data of a [join]. *)
Definition attachmentOf (joinData : Json) (peerId generated : string) : PeerAttachment :=
  {| id := peerId;
     name := Some (match prop "name" joinData with
                   | Some (Some v) => if truthyJson v then v else JStr generated
                   | _ => JStr generated
                   end);
     deviceType := match prop "deviceType" joinData with
                   | Some (Some v) => if truthyJson v then v else JStr "desktop"
                   | _ => JStr "desktop"
                   end;
     browserInfo := match prop "browserInfo" joinData with
                    | Some bi => bi
                    | None => None
                    end |}.

(** The attachment of the socket at position [k]. *)
Definition peerAt (l : Sockets) (k : nat) : option PeerAttachment :=
  match nth_error l k with
  | Some s => attachment s
  | None => None
  end.

(** [send] works on the socket at position [k]. *)
Definition working (l : Sockets) (k : nat) : bool :=
  match nth_error l k with
  | Some s => negb (sendThrows s)
  | None => false
  end.

(** A socket that has been accepted for room [ROOM01] and has not joined. *)
Definition accepted : Socket :=
  {| tags := ["ROOM01"]; attachment := None; readyState := OPEN; sendThrows := false;
     sent := [] |}.

Definition joinAs (nm : string) : ClientMessage :=
  {| type := "join"; to := None;
     data := Some (JObj [("name", JStr nm); ("deviceType", JStr "mobile")]) |}.

(** Two sockets; the first has joined as [u1], the second as [u2]. *)
Definition twoPeers : Sockets :=
  webSocketMessage 1 (joinAs "Bob") "u2" "Swift Wolf"
    (webSocketMessage 0 (joinAs "Alice") "u1" "Calm Lion" [accepted; accepted]).
End HubSpec.

(** * Properties *)

(** ** Room resolution ([src/index.ts]) *)

Module WorkerProofs.
Import Js Worker Spec.
Local Open Scope string_scope.
Local Open Scope list_scope.

Lemma beBytes_length n x : length (Sha256.beBytes n x) = n.
Proof. induction n as [|n IH]; simpl; [reflexivity | now rewrite IH]. Qed.

Lemma compress_length h block :
  length h = 8%nat -> length (Sha256.compress h block) = 8%nat.
Proof.
  intros Hh. unfold Sha256.compress.
  rewrite length_map, length_combine, Hh. reflexivity.
Qed.

Lemma fold_compress_length bs h :
  length h = 8%nat -> length (fold_left Sha256.compress bs h) = 8%nat.
Proof.
  revert h. induction bs as [|b bs IH]; intros h Hh; simpl; [exact Hh|].
  apply IH, compress_length, Hh.
Qed.

Lemma flat_beBytes_length ws :
  length (flat_map (Sha256.beBytes 4) ws) = (4 * length ws)%nat.
Proof.
  induction ws as [|w ws IH]; [reflexivity|].
  cbn [flat_map]. rewrite length_app, IH, beBytes_length. cbn [length]. lia.
Qed.

(** A digest has 32 bytes. *)
Lemma digest_length msg : length (Sha256.digest msg) = 32%nat.
Proof.
  unfold Sha256.digest. rewrite flat_beBytes_length, fold_compress_length; reflexivity.
Qed.

Lemma string_length_app (a b : string) :
  String.length (a ++ b)%string = (String.length a + String.length b)%nat.
Proof. induction a as [|c a IH]; simpl; [reflexivity | now rewrite IH]. Qed.

Lemma hexOfBytes_app a b :
  hexOfBytes (a ++ b) = (hexOfBytes a ++ hexOfBytes b)%string.
Proof.
  induction a as [|x a IH]; [reflexivity|].
  cbn [hexOfBytes app]. rewrite IH. unfold hexByte. reflexivity.
Qed.

Lemma hexOfBytes_length bs : String.length (hexOfBytes bs) = (2 * length bs)%nat.
Proof.
  induction bs as [|b bs IH]; [reflexivity|].
  cbn [hexOfBytes]. rewrite string_length_app, IH.
  unfold hexByte. cbn [String.length length]. lia.
Qed.

Lemma substring0_app n (a b : string) :
  (n <= String.length a)%nat -> substring0 n (a ++ b)%string = substring0 n a.
Proof.
  unfold substring0. revert a. induction n as [|n IH]; intros a Hn.
  - destruct a; simpl; destruct b; reflexivity.
  - destruct a as [|c a]; simpl in *; [lia|]. f_equal. apply IH. lia.
Qed.

Lemma substring0_length n (a : string) :
  (n <= String.length a)%nat -> String.length (substring0 n a) = n.
Proof.
  unfold substring0. revert a. induction n as [|n IH]; intros a Hn.
  - destruct a; reflexivity.
  - destruct a as [|c a]; simpl in *; [lia|]. f_equal. apply IH. lia.
Qed.

Lemma mapString_length f s : String.length (mapString f s) = String.length s.
Proof. induction s as [|c s IH]; simpl; [reflexivity | now rewrite IH]. Qed.

(** The six digits kept do not depend on where the digest is cut. *)
Lemma six_digits_of_prefix d :
  (3 <= length d)%nat ->
  substring0 6 (hexOfBytes (firstn 8 d)) = substring0 6 (hexOfBytes d).
Proof.
  intros Hd.
  assert (Hcut : firstn 3 (firstn 8 d) = firstn 3 d)
    by (rewrite firstn_firstn; reflexivity).
  assert (Hlen : (6 <= String.length (hexOfBytes (firstn 3 d)))%nat)
    by (rewrite hexOfBytes_length, length_firstn; lia).
  rewrite <- (firstn_skipn 3 d) at 2.
  rewrite <- (firstn_skipn 3 (firstn 8 d)), Hcut.
  rewrite !hexOfBytes_app, !substring0_app by exact Hlen.
  reflexivity.
Qed.

(** Room resolution without an explicit room: the code is the upper-cased
    first six hex digits of the digest of the network part. *)
Lemma roomCodeOf_auto (req : ConnectRequest) :
  validExplicitRoom req = false ->
  roomCodeOf req =
    match networkPart (clientIP req) with
    | Some np => Some (toUpperCase (substring0 6 (hexOfBytes (Sha256.digest (encode np)))))
    | None => None
    end.
Proof.
  intros Hv. unfold roomCodeOf, generateRoomId. rewrite Hv.
  destruct (networkPart (clientIP req)) as [np|]; [|reflexivity].
  rewrite six_digits_of_prefix; [reflexivity|].
  rewrite digest_length. lia.
Qed.

Lemma roomCodeOf_auto_length (req : ConnectRequest) code :
  validExplicitRoom req = false ->
  roomCodeOf req = Some code -> String.length code = 6%nat.
Proof.
  intros Hv. rewrite (roomCodeOf_auto req Hv).
  destruct (networkPart (clientIP req)) as [np|]; [|discriminate].
  intros [= <-]. unfold toUpperCase. rewrite mapString_length.
  apply substring0_length. rewrite hexOfBytes_length, digest_length. lia.
Qed.

Lemma append_nil (b : string) : ("" ++ b)%string = b.
Proof. reflexivity. Qed.

Lemma append_cons c (a b : string) : (String c a ++ b)%string = String c (a ++ b).
Proof. reflexivity. Qed.

Ltac sapp := repeat (rewrite append_cons || rewrite append_nil).

Lemma app_empty_r (s : string) : (s ++ "")%string = s.
Proof. induction s as [|c s IH]; [reflexivity|]. sapp. now rewrite IH. Qed.

Lemma app_assoc_s (a b c : string) : ((a ++ b) ++ c)%string = (a ++ (b ++ c))%string.
Proof. induction a as [|x a IH]; [reflexivity|]. sapp. now rewrite IH. Qed.

Lemma includesChar_app c (a b : string) :
  includesChar c (a ++ b)%string = includesChar c a || includesChar c b.
Proof.
  induction a as [|x a IH]; [reflexivity|]. sapp. cbn.
  destruct (Ascii.eqb c x); [reflexivity | exact IH].
Qed.

Lemma splitChar_cons c s : exists h t, splitChar c s = h :: t.
Proof.
  destruct s as [|d s]; cbn; [eauto|].
  destruct (Ascii.eqb c d); [eauto|]. destruct (splitChar c s); eauto.
Qed.

(** Splitting at a separator that the first part does not contain. *)
Lemma splitChar_app c (a r : string) :
  includesChar c a = false ->
  splitChar c (a ++ String c r)%string = a :: splitChar c r.
Proof.
  induction a as [|x a IH]; sapp; cbn; intros Ha.
  - now rewrite Ascii.eqb_refl.
  - destruct (Ascii.eqb c x); [discriminate|]. now rewrite (IH Ha).
Qed.

Lemma splitChar_whole c (a : string) :
  includesChar c a = false -> splitChar c a = [a].
Proof.
  induction a as [|x a IH]; cbn; intros Ha; [reflexivity|].
  destruct (Ascii.eqb c x); [discriminate|]. now rewrite (IH Ha).
Qed.

Lemma isGroup_parts g :
  isGroup g = true ->
  truthy g = true /\ includesChar ":" g = false /\ includesChar "." g = false.
Proof.
  unfold isGroup. rewrite !andb_true_iff, !negb_true_iff. tauto.
Qed.

(** [split] undoes [join] on parts without the separator. *)
Lemma splitChar_join c (gs : list string) :
  gs <> [] -> Forall (fun g => includesChar c g = false) gs ->
  splitChar c (join (String c "") gs) = gs.
Proof.
  induction gs as [|g gs IH]; [congruence|]. intros _ Hall.
  inversion Hall as [|? ? Hg Hgs]; subst.
  destruct gs as [|g2 gs].
  - cbn. now apply splitChar_whole.
  - change (join (String c "") (g :: g2 :: gs))
      with (g ++ String c (join (String c "") (g2 :: gs)))%string.
    rewrite splitChar_app by exact Hg. f_equal. apply IH; [congruence | exact Hgs].
Qed.

Lemma includesChar_join c d (gs : list string) :
  Ascii.eqb c d = false ->
  Forall (fun g => includesChar c g = false) gs ->
  includesChar c (join (String d "") gs) = false.
Proof.
  intros Hcd. induction gs as [|g gs IH]; [reflexivity|]. intros Hall.
  inversion Hall as [|? ? Hg Hgs]; subst.
  destruct gs as [|g2 gs]; [exact Hg|].
  change (join (String d "") (g :: g2 :: gs))
    with (g ++ String d (join (String d "") (g2 :: gs)))%string.
  rewrite includesChar_app, Hg. cbn [orb includesChar]. rewrite Hcd. now apply IH.
Qed.

Lemma groups_no_colon gs :
  forallb isGroup gs = true -> Forall (fun g => includesChar ":" g = false) gs.
Proof.
  rewrite forallb_forall, Forall_forall. intros H g Hg.
  apply list_elem_of_In in Hg. now destruct (isGroup_parts g (H g Hg)) as (_ & ? & _).
Qed.

Lemma groups_no_dot gs :
  forallb isGroup gs = true -> Forall (fun g => includesChar "." g = false) gs.
Proof.
  rewrite forallb_forall, Forall_forall. intros H g Hg.
  apply list_elem_of_In in Hg. now destruct (isGroup_parts g (H g Hg)) as (_ & _ & ?).
Qed.

(** **** [::] in strings built from groups *)

Lemma includesDoubleColon_unfold c d r :
  includesDoubleColon (String c (String d r))
  = if Ascii.eqb c ":" && Ascii.eqb d ":" then true
    else includesDoubleColon (String d r).
Proof. reflexivity. Qed.

Lemma splitDoubleColon_unfold c d r :
  splitDoubleColon (String c (String d r))
  = if Ascii.eqb c ":" && Ascii.eqb d ":" then "" :: splitDoubleColon r
    else keep c (splitDoubleColon (String d r)).
Proof. reflexivity. Qed.

Lemma splitDoubleColon_cons s : exists h t, splitDoubleColon s = h :: t.
Proof.
  induction s as [|c s IH]; [cbn; eauto|].
  destruct s as [|d s]; [cbn; eauto|].
  rewrite splitDoubleColon_unfold. destruct IH as (h & t & ->).
  destruct (Ascii.eqb c ":" && Ascii.eqb d ":"); cbn; eauto.
Qed.

Lemma includesDoubleColon_skip (g tail : string) :
  includesChar ":" g = false ->
  includesDoubleColon (g ++ tail)%string = includesDoubleColon tail.
Proof.
  induction g as [|c g IH]; [reflexivity|]. cbn [includesChar]. intros Hg.
  destruct (Ascii.eqb ":" c) eqn:Hc; [discriminate|].
  rewrite <- (IH Hg). sapp.
  destruct (g ++ tail)%string as [|d r]; [reflexivity|].
  rewrite includesDoubleColon_unfold, (Ascii.eqb_sym c ":"), Hc. reflexivity.
Qed.

Lemma includesDoubleColon_colon c (rest : string) :
  Ascii.eqb ":" c = false ->
  includesDoubleColon (String ":" (String c rest)) = includesDoubleColon (String c rest).
Proof.
  intros Hc. rewrite includesDoubleColon_unfold, (Ascii.eqb_sym c ":"), Hc.
  rewrite andb_false_r. reflexivity.
Qed.

Lemma group_first g :
  isGroup g = true -> exists c r, g = String c r /\ Ascii.eqb ":" c = false.
Proof.
  intros Hg. destruct (isGroup_parts g Hg) as (Ht & Hc & _).
  destruct g as [|c r]; [cbn in Ht; discriminate|]. exists c, r. split; [reflexivity|].
  cbn [includesChar] in Hc. destruct (Ascii.eqb ":" c); [discriminate | reflexivity].
Qed.

Lemma join_cons2 sep g g2 gs :
  join sep (g :: g2 :: gs) = (g ++ sep ++ join sep (g2 :: gs))%string.
Proof. reflexivity. Qed.

(** A join of groups followed by anything starts with no colon, unless it
    is empty. *)
Lemma join_groups_first gs (tail : string) :
  gs <> [] -> forallb isGroup gs = true ->
  exists c r, (join ":" gs ++ tail)%string = String c r /\ Ascii.eqb ":" c = false.
Proof.
  destruct gs as [|g gs]; [congruence|]. intros _ Hall.
  cbn [forallb] in Hall. apply andb_true_iff in Hall as [Hg _].
  destruct (group_first g Hg) as (c & r & -> & Hc).
  destruct gs as [|g2 gs].
  - exists c, (r ++ tail)%string. split; [reflexivity | exact Hc].
  - rewrite join_cons2. exists c, ((r ++ ":" ++ join ":" (g2 :: gs)) ++ tail)%string.
    split; [reflexivity | exact Hc].
Qed.

Lemma includesDoubleColon_join gs (tail : string) :
  forallb isGroup gs = true ->
  includesDoubleColon (join ":" gs ++ tail)%string = includesDoubleColon tail.
Proof.
  induction gs as [|g gs IH]; [reflexivity|]. intros Hall.
  cbn [forallb] in Hall. apply andb_true_iff in Hall as [Hg Hgs].
  destruct (isGroup_parts g Hg) as (_ & Hc & _).
  destruct gs as [|g2 gs].
  - cbn [join]. now apply includesDoubleColon_skip.
  - rewrite join_cons2, !app_assoc_s, includesDoubleColon_skip by exact Hc.
    destruct (join_groups_first (g2 :: gs) tail) as (c & r & Heq & Hne);
      [congruence | exact Hgs |].
    sapp. rewrite Heq, includesDoubleColon_colon by exact Hne.
    rewrite <- Heq. now apply IH.
Qed.

Lemma splitDoubleColon_skip (g tail : string) :
  includesChar ":" g = false ->
  splitDoubleColon (g ++ tail)%string = prepend g (splitDoubleColon tail).
Proof.
  induction g as [|c g IH]; intros Hg.
  - sapp. destruct (splitDoubleColon_cons tail) as (h & t & ->). reflexivity.
  - cbn [includesChar] in Hg. destruct (Ascii.eqb ":" c) eqn:Hc; [discriminate|].
    sapp. specialize (IH Hg).
    destruct (splitDoubleColon_cons tail) as (h & t & Ht). rewrite Ht in *.
    destruct (g ++ tail)%string as [|d r] eqn:E.
    + cbn in IH. injection IH as H1 H2. subst t.
      cbn [prepend]. sapp. rewrite <- H1. reflexivity.
    + rewrite splitDoubleColon_unfold, (Ascii.eqb_sym c ":"), Hc, IH. reflexivity.
Qed.

Lemma splitDoubleColon_colon c (rest : string) :
  Ascii.eqb ":" c = false ->
  splitDoubleColon (String ":" (String c rest))
  = prepend ":" (splitDoubleColon (String c rest)).
Proof.
  intros Hc. rewrite splitDoubleColon_unfold, (Ascii.eqb_sym c ":"), Hc, andb_false_r.
  destruct (splitDoubleColon_cons (String c rest)) as (h & t & ->). reflexivity.
Qed.

Lemma splitDoubleColon_sep (rest : string) :
  splitDoubleColon ("::" ++ rest)%string = "" :: splitDoubleColon rest.
Proof. reflexivity. Qed.

(** Groups, then [::], then anything: the first part is the groups. *)
Lemma splitDoubleColon_join gs (rest : string) :
  forallb isGroup gs = true ->
  splitDoubleColon (join ":" gs ++ "::" ++ rest)%string
  = join ":" gs :: splitDoubleColon rest.
Proof.
  induction gs as [|g gs IH]; [reflexivity|]. intros Hall.
  cbn [forallb] in Hall. apply andb_true_iff in Hall as [Hg Hgs].
  destruct (isGroup_parts g Hg) as (_ & Hc & _).
  destruct gs as [|g2 gs].
  - cbn [join]. rewrite splitDoubleColon_skip by exact Hc.
    rewrite splitDoubleColon_sep. cbn. now rewrite app_empty_r.
  - specialize (IH Hgs). revert IH. generalize ("::" ++ rest)%string as tl. intros tl IH.
    rewrite join_cons2, !app_assoc_s, splitDoubleColon_skip by exact Hc.
    destruct (join_groups_first (g2 :: gs) tl) as (c & r & Heq & Hne);
      [congruence | exact Hgs |].
    sapp. rewrite Heq, splitDoubleColon_colon by exact Hne.
    rewrite <- Heq, IH. reflexivity.
Qed.

(** Groups alone hold no [::]. *)
Lemma splitDoubleColon_groups gs :
  forallb isGroup gs = true -> splitDoubleColon (join ":" gs) = [join ":" gs].
Proof.
  induction gs as [|g gs IH]; [reflexivity|]. intros Hall.
  cbn [forallb] in Hall. apply andb_true_iff in Hall as [Hg Hgs].
  destruct (isGroup_parts g Hg) as (_ & Hc & _).
  destruct gs as [|g2 gs].
  - cbn [join]. rewrite <- (app_empty_r g) at 1.
    rewrite splitDoubleColon_skip by exact Hc. cbn. now rewrite app_empty_r.
  - rewrite join_cons2, splitDoubleColon_skip by exact Hc.
    destruct (join_groups_first (g2 :: gs) "") as (c & r & Heq & Hne);
      [congruence | exact Hgs |].
    rewrite app_empty_r in Heq. sapp.
    rewrite Heq, splitDoubleColon_colon by exact Hne.
    rewrite <- Heq, IH by exact Hgs. reflexivity.
Qed.

Lemma includesChar_zeros c k :
  Ascii.eqb c "0" = false ->
  includesChar c (string_of_list_ascii (repeat "0"%char k)) = false.
Proof.
  intros Hc. induction k as [|k IH]; [reflexivity|].
  cbn [repeat string_of_list_ascii includesChar]. now rewrite Hc.
Qed.

Lemma includesChar_padStart0 c n g :
  Ascii.eqb c "0" = false ->
  includesChar c (padStart0 n g) = includesChar c g.
Proof.
  intros Hc. unfold padStart0.
  now rewrite includesChar_app, includesChar_zeros by exact Hc.
Qed.

Lemma padded_no_colon gs :
  Forall (fun g => includesChar ":" g = false) gs ->
  Forall (fun g => includesChar ":" g = false) (map (padStart0 4) gs).
Proof.
  intros H. apply Forall_map. eapply Forall_impl; [exact H|].
  intros g Hg. cbn beta. now rewrite includesChar_padStart0.
Qed.

Lemma truthy_join gs :
  gs <> [] -> forallb isGroup gs = true -> truthy (join ":" gs) = true.
Proof.
  intros Hne Hall.
  destruct (join_groups_first gs "" Hne Hall) as (c & r & Heq & _).
  rewrite app_empty_r in Heq. now rewrite Heq.
Qed.

(** What [expandIPv6] makes of one side of [::]. *)
Lemma side_join gs :
  forallb isGroup gs = true ->
  (if truthy (join ":" gs) then splitChar ":" (join ":" gs) else []) = gs.
Proof.
  intros Hall. destruct gs as [|g gs]; [reflexivity|].
  rewrite truthy_join by (congruence || exact Hall).
  apply splitChar_join; [congruence | now apply groups_no_colon].
Qed.

Lemma expandIPv6_groups gs :
  gs <> [] -> forallb isGroup gs = true ->
  expandIPv6 (join ":" gs) = Some (join ":" (map (padStart0 4) gs)).
Proof.
  intros Hne Hall. unfold expandIPv6.
  rewrite (includesChar_join "." ":" gs) by (reflexivity || now apply groups_no_dot).
  rewrite <- (app_empty_r (join ":" gs)) at 1.
  rewrite includesDoubleColon_join by exact Hall. cbn [includesDoubleColon].
  rewrite splitChar_join by (exact Hne || now apply groups_no_colon). reflexivity.
Qed.

Lemma expandIPv6_abbreviated ls rs :
  forallb isGroup ls = true -> forallb isGroup rs = true ->
  (length ls + length rs <= 8)%nat ->
  expandIPv6 (join ":" ls ++ "::" ++ join ":" rs)%string
  = Some (join ":" (map (padStart0 4)
                        (ls ++ repeat "0000" (8 - length ls - length rs) ++ rs))).
Proof.
  intros Hl Hr Hlen. unfold expandIPv6.
  assert (Hdot : includesChar "." (join ":" ls ++ "::" ++ join ":" rs)%string = false).
  { rewrite !includesChar_app.
    rewrite !(includesChar_join "." ":") by (reflexivity || now apply groups_no_dot).
    reflexivity. }
  rewrite Hdot, includesDoubleColon_join by exact Hl.
  change (includesDoubleColon ("::" ++ join ":" rs)%string) with true. cbv iota.
  rewrite splitDoubleColon_join, splitDoubleColon_groups by assumption.
  cbn [nth]. rewrite !side_join by assumption.
  destruct (8 - Z.of_nat (length ls) - Z.of_nat (length rs) <? 0)%Z eqn:Hm.
  - apply Z.ltb_lt in Hm. lia.
  - replace (Z.to_nat (8 - Z.of_nat (length ls) - Z.of_nat (length rs)))
      with (8 - length ls - length rs)%nat by lia.
    reflexivity.
Qed.

(** The network part that [generateRoomId] hashes is the one the
    specification describes. *)
Lemma networkPart_spec ip np : NetworkPartOf ip np -> networkPart ip = Some np.
Proof.
  intros H. destruct H as [ip Hs | a b c d Hg Hs | gs Hne Hg Hs | ls rs Hl Hr Hlen Hs];
    unfold networkPart; unfold isSpecial in Hs; rewrite Hs.
  - reflexivity.
  - assert (Hcolon : includesChar ":" (join "." [a; b; c; d]) = false)
      by (apply includesChar_join; [reflexivity | now apply groups_no_colon]).
    assert (Hdot : includesChar "." (join "." [a; b; c; d]) = true).
    { rewrite join_cons2, includesChar_app. apply orb_true_iff. right. reflexivity. }
    rewrite Hcolon, Hdot. cbn [andb negb].
    rewrite splitChar_join by (congruence || now apply groups_no_dot). reflexivity.
  - rewrite (includesChar_join "." ":" gs) by (reflexivity || now apply groups_no_dot).
    cbn [andb]. rewrite expandIPv6_groups by assumption.
    rewrite splitChar_join; [reflexivity | | apply padded_no_colon, groups_no_colon, Hg].
    destruct gs; [congruence | discriminate].
  - assert (Hdot : includesChar "." (join ":" ls ++ "::" ++ join ":" rs)%string = false).
    { rewrite !includesChar_app.
      rewrite !(includesChar_join "." ":") by (reflexivity || now apply groups_no_dot).
      reflexivity. }
    rewrite Hdot. cbn [andb]. rewrite expandIPv6_abbreviated by assumption.
    rewrite splitChar_join; [reflexivity | |].
    + intros E. apply (f_equal (@length string)) in E.
      rewrite length_map, !length_app, repeat_length in E. cbn in E. lia.
    + apply padded_no_colon. rewrite !Forall_app. repeat split.
      * now apply groups_no_colon.
      * apply Forall_forall. intros g Hin. apply list_elem_of_In, repeat_spec in Hin.
        now subst g.
      * now apply groups_no_colon.
Qed.

(** C7 (amended). When no valid explicit room code is supplied, the room
    code is the upper-cased first SIX hex digits of the SHA-256 digest of
    the network part of the client address, the network part being
    [localhost] for loopback or unknown, the first three octets for IPv4
    and the first four padded groups, after expansion of [::], for IPv6. *)
Theorem auto_room_code (req : ConnectRequest) (np : string) :
  validExplicitRoom req = false ->
  NetworkPartOf (clientIP req) np ->
  roomCodeOf req
  = Some (toUpperCase (substring0 6 (hexOfBytes (Sha256.digest (encode np))))).
Proof.
  intros Hv Hnp. rewrite (roomCodeOf_auto req Hv), (networkPart_spec _ _ Hnp).
  reflexivity.
Qed.

Lemma auto_room_code_witness :
  validExplicitRoom lanRequest = false
  /\ NetworkPartOf (clientIP lanRequest) "192.168.1"
  /\ roomCodeOf lanRequest
     = Some (toUpperCase (substring0 6 (hexOfBytes (Sha256.digest (encode "192.168.1"))))).
Proof.
  assert (Hnp : NetworkPartOf (clientIP lanRequest) "192.168.1")
    by (apply (np_ipv4 "192" "168" "1" "5"); reflexivity).
  split; [reflexivity | split; [exact Hnp |]].
  apply (auto_room_code lanRequest "192.168.1"); [reflexivity | exact Hnp].
Defined.

(** C7 as stated fails: for a client at 192.168.1.5 the room code is
    [261B83], not the first eight digits [261B835B]. *)
Lemma eight_digits_counterexample :
  validExplicitRoom lanRequest = false
  /\ networkPart (clientIP lanRequest) = Some "192.168.1"
  /\ roomCodeOf lanRequest = Some "261B83"
  /\ roomCodeOf lanRequest
     <> Some (toUpperCase (substring0 8 (hexOfBytes (Sha256.digest (encode "192.168.1"))))).
Proof.
  repeat split; try (vm_compute; reflexivity).
  vm_compute. discriminate.
Qed.

End WorkerProofs.

(** ** The password gate ([src/room.ts]) *)

Module RoomProofs.
Import Js RoomDO Spec.
Local Open Scope string_scope.
Local Open Scope list_scope.

Lemma truthy_nonempty s : s <> "" -> truthy s = true.
Proof. destruct s; [congruence | reflexivity]. Qed.

(** No request changes a stored hash, whatever its path or method. *)
Lemma fetch_keeps_hash (r : Room) (req : Request) (h : string) :
  passwordHash r = Some h -> fst (fetch r req) = r.
Proof.
  intros Hh. unfold fetch.
  destruct (String.eqb (pathname req) "/ws"); [reflexivity|].
  destruct (String.eqb (pathname req) "/set-password"); [|
    destruct (String.eqb (pathname req) "/check-password"); reflexivity].
  unfold handleSetPassword. rewrite Hh.
  destruct (negb (String.eqb (method req) "POST")); reflexivity.
Qed.

Lemma serve_keeps_room (reqs : list Request) (r : Room) (h : string) :
  passwordHash r = Some h -> serve r reqs = r.
Proof.
  intros Hh. unfold serve. induction reqs as [|req reqs IH]; [reflexivity|].
  cbn [fold_left]. rewrite (fetch_keeps_hash r req h Hh). exact IH.
Qed.

Lemma set_password_rejected (r : Room) (req : Request) (h : string) :
  passwordHash r = Some h -> method req = "POST" ->
  handleSetPassword r req = (r, alreadySet).
Proof.
  intros Hh Hm. unfold handleSetPassword. rewrite Hm, Hh. reflexivity.
Qed.

Lemma set_password_accepted (r : Room) (req : Request) fields (h : string) :
  passwordHash r = None -> method req = "POST" ->
  json req = Some (JObj fields) -> field "passwordHash" fields = Some (JStr h) ->
  h <> "" ->
  handleSetPassword r req
  = ({| passwordHash := Some h; storage := <["passwordHash" := h]> (storage r) |},
     plain 200 (SetPasswordResult true None)).
Proof.
  intros Hn Hm Hj Hf Hh. unfold handleSetPassword.
  rewrite Hm, Hn, Hj, Hf, (truthy_nonempty h Hh). reflexivity.
Qed.

(** C5. Once a hash is stored, every later set-password request (a POST,
    after any other requests to the room) is answered [{success: false}]
    and the stored hash, in memory and in storage, stays as it is; a first
    set-password request with a non-empty string hash is answered
    [{success: true}] and stores the hash. *)
Theorem password_set_once :
  (forall (r : Room) (h : string) (earlier : list Request) (req : Request),
      passwordHash r = Some h -> method req = "POST" ->
      let r' := serve r earlier in
      handleSetPassword r' req = (r', alreadySet)
      /\ passwordHash (fst (handleSetPassword r' req)) = Some h
      /\ storage (fst (handleSetPassword r' req)) = storage r)
  /\ (forall (r : Room) (req : Request) fields (h : string),
         passwordHash r = None -> method req = "POST" ->
         json req = Some (JObj fields) ->
         field "passwordHash" fields = Some (JStr h) -> h <> "" ->
         snd (handleSetPassword r req) = plain 200 (SetPasswordResult true None)
         /\ passwordHash (fst (handleSetPassword r req)) = Some h
         /\ storage (fst (handleSetPassword r req)) !! "passwordHash" = Some h).
Proof.
  split.
  - intros r h earlier req Hh Hm r'. subst r'.
    rewrite (serve_keeps_room earlier r h Hh).
    rewrite (set_password_rejected r req h Hh Hm). cbn [fst]. auto.
  - intros r req fields h Hn Hm Hj Hf Hh.
    rewrite (set_password_accepted r req fields h Hn Hm Hj Hf Hh). cbn [fst snd].
    repeat split; try reflexivity. cbn. apply lookup_insert_eq.
Qed.

Lemma password_set_once_witness :
  snd (handleSetPassword freshRoom (setPasswordRequest "ab12"))
  = plain 200 (SetPasswordResult true None)
  /\ handleSetPassword
       (serve (fst (handleSetPassword freshRoom (setPasswordRequest "ab12")))
              [setPasswordRequest "ffff"])
       (setPasswordRequest "cd34")
     = (serve (fst (handleSetPassword freshRoom (setPasswordRequest "ab12")))
              [setPasswordRequest "ffff"], alreadySet).
Proof.
  destruct password_set_once as [Hlater Hfirst].
  split.
  - apply (Hfirst freshRoom (setPasswordRequest "ab12")
                  [("passwordHash", JStr "ab12")] "ab12");
      (reflexivity || discriminate).
  - apply (Hlater (fst (handleSetPassword freshRoom (setPasswordRequest "ab12"))) "ab12"
                  [setPasswordRequest "ffff"] (setPasswordRequest "cd34")); reflexivity.
Defined.

End RoomProofs.

(** ** The crypto envelope ([public/js/crypto.js]) *)

Module GcmProofs.
Import Gcm.

Section Mode.
Variable E : list Z -> list Z -> list Z.

Lemma xorFrom_length ks i p : length (xorFrom ks i p) = length p.
Proof.
  revert i. induction p as [|b p IH]; intros i; cbn; [reflexivity | now rewrite IH].
Qed.

(** Adding the same key stream twice gives the input back. *)
Lemma xorFrom_involutive ks i p : xorFrom ks i (xorFrom ks i p) = p.
Proof.
  revert i. induction p as [|b p IH]; intros i; cbn; [reflexivity|].
  rewrite IH, Z.lxor_assoc, Z.lxor_nilpotent, Z.lxor_0_r. reflexivity.
Qed.

Lemma gctr_involutive key icb p : gctr E key icb (gctr E key icb p) = p.
Proof. apply xorFrom_involutive. Qed.

Lemma gctr_length key icb p : length (gctr E key icb p) = length p.
Proof. apply xorFrom_length. Qed.

Lemma tag_length key iv c : length (tag E key iv c) = 16%nat.
Proof.
  unfold tag. rewrite gctr_length. unfold bytesOf.
  apply WorkerProofs.beBytes_length.
Qed.

(** The ciphertext is 16 bytes longer than the plaintext. *)
Lemma encrypt_length key iv p :
  length (encrypt E key iv p) = (length p + 16)%nat.
Proof. unfold encrypt. now rewrite length_app, gctr_length, tag_length. Qed.

(** Decryption under the same key and IV undoes encryption. *)
Lemma decrypt_encrypt key iv p :
  decrypt E key iv (encrypt E key iv p) = Some p.
Proof.
  unfold decrypt. rewrite encrypt_length.
  destruct (length p + 16 <? 16)%nat eqn:Hlt; [apply Nat.ltb_lt in Hlt; lia|].
  replace (length p + 16 - 16)%nat with (length p) by lia.
  unfold encrypt.
  set (c := gctr E key (incr (j0 E key iv) 1) p).
  assert (Hc : length c = length p) by apply gctr_length.
  rewrite <- Hc, firstn_app, Nat.sub_diag, firstn_all, firstn_0, app_nil_r.
  rewrite skipn_app, Nat.sub_diag, skipn_all, skipn_0. cbn [app].
  rewrite bool_decide_eq_true_2 by reflexivity.
  subst c. now rewrite gctr_involutive.
Qed.
End Mode.

Lemma aes_decrypt_encrypt key iv p : aesDecrypt key iv (aesEncrypt key iv p) = Some p.
Proof. apply decrypt_encrypt. Qed.

Lemma aes_encrypt_length key iv p : length (aesEncrypt key iv p) = (length p + 16)%nat.
Proof. apply encrypt_length. Qed.

End GcmProofs.

Module CryptoProofs.
Import Js Crypto GcmProofs Spec.
Local Open Scope string_scope.
Local Open Scope list_scope.
Local Open Scope Z_scope.

Lemma getRandomValues_length n g : length (fst (getRandomValues n g)) = n.
Proof. unfold getRandomValues. cbn [fst]. now rewrite length_map, length_seq. Qed.

Lemma firstn_exact {A} (a b : list A) n : length a = n -> firstn n (a ++ b) = a.
Proof.
  intros <-. now rewrite firstn_app, Nat.sub_diag, firstn_all, firstn_0, app_nil_r.
Qed.

Lemma skipn_exact {A} (a b : list A) n : length a = n -> skipn n (a ++ b) = b.
Proof. intros <-. now rewrite skipn_app, Nat.sub_diag, skipn_all, skipn_0. Qed.

Lemma hasRoomPassword_key cm :
  hasRoomPassword cm = true -> exists rk, roomKey cm = Some rk /\ roomPasswordSet cm = true.
Proof.
  unfold hasRoomPassword. destruct (roomPasswordSet cm); [|discriminate].
  destruct (roomKey cm) as [rk|]; [eauto | discriminate].
Qed.

(** The frame of a sender without room password: [0][peer_iv][data]. *)
Lemma encryptChunk_plain cm peerId key chunk g :
  sharedSecrets cm !! peerId = Some key -> hasRoomPassword cm = false ->
  encryptChunk cm peerId chunk g
  = (Ok (0 :: fst (getRandomValues 12 g)
           ++ Gcm.aesEncrypt key (fst (getRandomValues 12 g)) chunk),
     snd (getRandomValues 12 g)).
Proof.
  intros Hk Hr. unfold encryptChunk, encrypt. rewrite Hr. cbn [encrypted iv].
  rewrite Hk. destruct (getRandomValues 12 g) as [piv g'] eqn:Hg. reflexivity.
Qed.

(** The frame of a sender with a room password:
    [12][room_iv][peer_iv][data], the data encrypted twice. *)
Lemma encryptChunk_room cm peerId key rk chunk g :
  sharedSecrets cm !! peerId = Some key ->
  hasRoomPassword cm = true -> roomKey cm = Some rk ->
  let riv := fst (getRandomValues 12 g) in
  let g1 := snd (getRandomValues 12 g) in
  let piv := fst (getRandomValues 12 g1) in
  encryptChunk cm peerId chunk g
  = (Ok (12 :: riv ++ piv ++ Gcm.aesEncrypt key piv (Gcm.aesEncrypt rk riv chunk)),
     snd (getRandomValues 12 g1)).
Proof.
  intros Hk Hr Hrk riv g1 piv. unfold encryptChunk, encryptWithRoomKey, encrypt.
  rewrite Hr, Hrk. subst riv g1 piv.
  destruct (getRandomValues 12 g) as [riv g1] eqn:Hg. cbn [encrypted iv fst snd].
  rewrite Hk. destruct (getRandomValues 12 g1) as [piv g2] eqn:Hg1. cbn [encrypted iv fst snd].
  assert (Hl : length riv = 12%nat).
  { pose proof (getRandomValues_length 12 g) as H. now rewrite Hg in H. }
  rewrite Hl. reflexivity.
Qed.

(** Reading a frame without room layer. *)
Lemma decryptChunk_plain cm peerId piv ct :
  length piv = 12%nat ->
  decryptChunk cm peerId (0 :: piv ++ ct) = decrypt cm peerId ct piv.
Proof.
  intros Hl. unfold decryptChunk. cbn [Z.ltb Z.compare].
  unfold slice, sliceFrom.
  replace (skipn 1 (0 :: piv ++ ct)) with (piv ++ ct) by reflexivity.
  replace (1 + 12 - 1)%nat with 12%nat by reflexivity.
  rewrite (firstn_exact piv ct 12 Hl).
  replace (skipn (1 + 12) (0 :: piv ++ ct)) with (skipn 12 (piv ++ ct)) by reflexivity.
  rewrite (skipn_exact piv ct 12 Hl).
  destruct (decrypt cm peerId ct piv); reflexivity.
Qed.

(** Reading a frame with a room layer: the peer layer is removed, and the
    room layer too when the reader has a room password, and only then. *)
Lemma decryptChunk_room cm peerId riv piv ct :
  length riv = 12%nat -> length piv = 12%nat ->
  decryptChunk cm peerId (12 :: riv ++ piv ++ ct)
  = match decrypt cm peerId ct piv with
    | inl e => Throw e
    | inr decrypted =>
        if hasRoomPassword cm then decryptWithRoomKey cm decrypted (Some riv)
        else Ok decrypted
    end.
Proof.
  intros Hr Hp. unfold decryptChunk. cbn [Z.ltb Z.compare].
  unfold slice, sliceFrom. change (Z.to_nat 12) with 12%nat.
  replace (skipn 1 (12 :: riv ++ piv ++ ct)) with (riv ++ piv ++ ct) by reflexivity.
  replace (1 + 12 - 1)%nat with 12%nat by reflexivity.
  rewrite (firstn_exact riv _ 12 Hr).
  replace (skipn (1 + 12) (12 :: riv ++ piv ++ ct)) with (skipn 12 (riv ++ piv ++ ct))
    by reflexivity.
  replace (1 + 12 + 12 - (1 + 12))%nat with 12%nat by reflexivity.
  rewrite (skipn_exact riv _ 12 Hr), (firstn_exact piv ct 12 Hp).
  replace (skipn (1 + 12 + 12) (12 :: riv ++ piv ++ ct))
    with (skipn 12 (skipn 12 (riv ++ piv ++ ct))) by (now rewrite skipn_skipn).
  rewrite (skipn_exact riv _ 12 Hr), (skipn_exact piv ct 12 Hp).
  reflexivity.
Qed.

Lemma decrypt_encrypted cm peerId key piv data :
  sharedSecrets cm !! peerId = Some key ->
  decrypt cm peerId (Gcm.aesEncrypt key piv data) piv = Ok data.
Proof.
  intros Hk. unfold decrypt. now rewrite Hk, aes_decrypt_encrypt.
Qed.

(** C1 (amended). Between two peers holding the same peer key, the receiver's
    [decryptChunk] gives back exactly the plaintext [P] that the sender's
    [encryptChunk] wrapped, for every [P] (so also for every [P] of at most
    1 MiB), when the sender has no room key, whatever the receiver has, and
    when both hold the same room key. When the sender has a room key and the
    receiver has none, [decryptChunk] succeeds with the room-layer
    ciphertext, 16 bytes longer than [P]. *)
Theorem chunk_round_trip (sender receiver : CryptoManager) (toPeer fromPeer : string)
        (key P : list Z) (g : Rng) :
  sharedSecrets sender !! toPeer = Some key ->
  sharedSecrets receiver !! fromPeer = Some key ->
  exists frame,
    fst (encryptChunk sender toPeer P g) = Ok frame
    /\ (hasRoomPassword sender = false -> decryptChunk receiver fromPeer frame = Ok P)
    /\ (hasRoomPassword sender = true -> hasRoomPassword receiver = true ->
        roomKey receiver = roomKey sender ->
        decryptChunk receiver fromPeer frame = Ok P)
    /\ (hasRoomPassword sender = true -> hasRoomPassword receiver = false ->
        exists c, decryptChunk receiver fromPeer frame = Ok c
                  /\ length c = (length P + 16)%nat).
Proof.
  intros Hs Hr. destruct (hasRoomPassword sender) eqn:Hroom.
  - destruct (hasRoomPassword_key sender Hroom) as (rk & Hrk & _).
    pose proof (encryptChunk_room sender toPeer key rk P g Hs Hroom Hrk) as Henc.
    cbv zeta in Henc. rewrite Henc. cbn [fst]. eexists. split; [reflexivity|].
    set (riv := fst (getRandomValues 12 g)).
    set (piv := fst (getRandomValues 12 (snd (getRandomValues 12 g)))).
    assert (Hlr : length riv = 12%nat) by apply getRandomValues_length.
    assert (Hlp : length piv = 12%nat) by apply getRandomValues_length.
    rewrite (decryptChunk_room receiver fromPeer riv piv _ Hlr Hlp).
    rewrite (decrypt_encrypted receiver fromPeer key piv _ Hr).
    split; [discriminate|]. split.
    + intros _ Hrecv Hsame. rewrite Hrecv. unfold decryptWithRoomKey.
      rewrite Hsame, Hrk, Hrecv. unfold Ok. cbv iota beta.
      rewrite aes_decrypt_encrypt. reflexivity.
    + intros _ Hrecv. rewrite Hrecv. eexists. split; [reflexivity|].
      apply aes_encrypt_length.
  - rewrite (encryptChunk_plain sender toPeer key P g Hs Hroom). cbn [fst].
    eexists. split; [reflexivity|].
    rewrite decryptChunk_plain by apply getRandomValues_length.
    rewrite (decrypt_encrypted receiver fromPeer key _ _ Hr).
    split; [reflexivity|]. split; discriminate.
Qed.

Lemma chunk_round_trip_witness :
  sharedSecrets alice !! "bob" = Some peerKey
  /\ sharedSecrets bobInRoom !! "alice" = Some peerKey
  /\ exists frame,
      fst (encryptChunk alice "bob" [1; 2; 3] sampleRng) = Ok frame
      /\ (hasRoomPassword alice = false -> decryptChunk bobInRoom "alice" frame = Ok [1; 2; 3])
      /\ (hasRoomPassword alice = true -> hasRoomPassword bobInRoom = true ->
          roomKey bobInRoom = roomKey alice ->
          decryptChunk bobInRoom "alice" frame = Ok [1; 2; 3])
      /\ (hasRoomPassword alice = true -> hasRoomPassword bobInRoom = false ->
          exists c, decryptChunk bobInRoom "alice" frame = Ok c
                    /\ length c = (length [1; 2; 3] + 16)%nat).
Proof.
  split; [reflexivity | split; [reflexivity |]].
  apply (chunk_round_trip alice bobInRoom "bob" "alice" peerKey [1; 2; 3] sampleRng);
    reflexivity.
Defined.

(** C1 as stated fails: the sender holds a room key, the receiver holds
    none, both hold the same peer key, and the receiver does not get the
    three bytes back. *)
Lemma one_sided_room_key_counterexample :
  sharedSecrets alice !! "bob" = Some peerKey
  /\ sharedSecrets bob !! "alice" = Some peerKey
  /\ hasRoomPassword alice = true /\ hasRoomPassword bob = false
  /\ exists frame,
      fst (encryptChunk alice "bob" [1; 2; 3] sampleRng) = Ok frame
      /\ decryptChunk bob "alice" frame <> Ok [1; 2; 3].
Proof.
  repeat (split; [reflexivity|]).
  eexists. split; [vm_compute; reflexivity|].
  vm_compute. discriminate.
Qed.

(** C2 (amended). A chunk whose first byte [roomIvLen] is greater than 0 does
    not make a receiver without room key fail: [decryptChunk] removes the
    peer layer alone and returns what it finds under it (for a chunk of a
    sender with a room password, the room-layer ciphertext). A chunk with
    [roomIvLen = 0] is read through the peer layer alone whether or not the
    receiver has a room password. *)
Theorem room_layer_is_optional (receiver : CryptoManager) (fromPeer : string)
        (roomIvLen : Z) (rest : list Z) :
  (0 < roomIvLen -> hasRoomPassword receiver = false ->
   decryptChunk receiver fromPeer (roomIvLen :: rest)
   = decrypt receiver fromPeer
             (skipn (Z.to_nat roomIvLen + 12) rest)
             (firstn 12 (skipn (Z.to_nat roomIvLen) rest)))
  /\ (roomIvLen = 0 ->
      decryptChunk receiver fromPeer (roomIvLen :: rest)
      = decrypt receiver fromPeer (skipn 12 rest) (firstn 12 rest)).
Proof.
  split.
  - intros Hpos Hnone. unfold decryptChunk.
    destruct (0 <? roomIvLen) eqn:Hlt; [|apply Z.ltb_ge in Hlt; lia].
    unfold slice, sliceFrom. rewrite Hnone.
    replace (1 + Z.to_nat roomIvLen + 12 - (1 + Z.to_nat roomIvLen))%nat with 12%nat by lia.
    replace (skipn (1 + Z.to_nat roomIvLen) (roomIvLen :: rest))
      with (skipn (Z.to_nat roomIvLen) rest) by reflexivity.
    replace (skipn (1 + Z.to_nat roomIvLen + 12) (roomIvLen :: rest))
      with (skipn (Z.to_nat roomIvLen + 12) rest) by reflexivity.
    destruct (decrypt receiver fromPeer _ _); reflexivity.
  - intros ->. unfold decryptChunk. cbn [Z.ltb Z.compare]. unfold slice, sliceFrom.
    replace (skipn 1 (0 :: rest)) with rest by reflexivity.
    replace (skipn (1 + 12) (0 :: rest)) with (skipn 12 rest) by reflexivity.
    replace (1 + 12 - 1)%nat with 12%nat by reflexivity.
    destruct (decrypt receiver fromPeer _ _); reflexivity.
Qed.

Lemma room_layer_is_optional_witness :
  (0 < 12 -> hasRoomPassword bob = false ->
   decryptChunk bob "alice" (12 :: repeat 0 40)
   = decrypt bob "alice" (skipn (Z.to_nat 12 + 12) (repeat 0 40))
             (firstn 12 (skipn (Z.to_nat 12) (repeat 0 40))))
  /\ (0 = 0 ->
      decryptChunk bobInRoom "alice" (0 :: repeat 0 40)
      = decrypt bobInRoom "alice" (skipn 12 (repeat 0 40)) (firstn 12 (repeat 0 40))).
Proof.
  split.
  - apply (room_layer_is_optional bob "alice" 12 (repeat 0 40)).
  - apply (room_layer_is_optional bobInRoom "alice" 0 (repeat 0 40)).
Defined.

(** C2 as stated fails: the frame starts with [roomIvLen = 12], the receiver
    has no room key, and [decryptChunk] succeeds with 19 bytes. *)
Lemma no_room_key_missing_counterexample :
  hasRoomPassword bob = false
  /\ exists frame out,
      fst (encryptChunk alice "bob" [1; 2; 3] sampleRng) = Ok frame
      /\ 0 < nth 0 frame 0
      /\ decryptChunk bob "alice" frame = Ok out
      /\ length out = 19%nat.
Proof.
  split; [reflexivity|]. eexists. eexists.
  split; [vm_compute; reflexivity|].
  split; [reflexivity|].
  split; [vm_compute; reflexivity | reflexivity].
Qed.

(** C9 (amended). [setRoomPassword] has no length check: it succeeds for
    every non-empty password with a non-empty room code, for a password of
    length 5 as for one of length 6 (the PBKDF2 room key is derived, the room
    password is marked as set), and fails only for an empty password or room
    code. The minimum of 6 characters is checked by [createSecureRoom], which
    returns [false] for a shorter password and leaves the manager as it
    was. *)
Theorem setRoomPassword_has_no_minimum (cm : CryptoManager) (password roomCode : string) :
  (password <> ""%string -> roomCode <> ""%string ->
   exists cm',
     setRoomPassword cm password roomCode = Ok cm'
     /\ hasRoomPassword cm' = true
     /\ roomKey cm' = Some (deriveRoomKeyFromPassword password roomCode)
     /\ sharedSecrets cm' = sharedSecrets cm)
  /\ (password = ""%string \/ roomCode = ""%string ->
      setRoomPassword cm password roomCode = Throw PasswordAndRoomCodeRequired)
  /\ (forall room,
        (String.length password < Config.PASSWORD_MIN_LENGTH)%nat ->
        App.createSecureRoom cm room roomCode password = (false, cm, room)).
Proof.
  split; [|split].
  - intros Hp Hr. unfold setRoomPassword.
    rewrite (RoomProofs.truthy_nonempty _ Hp), (RoomProofs.truthy_nonempty _ Hr). cbn [negb orb].
    eexists. split; [reflexivity|]. repeat split.
  - intros [-> | ->]; unfold setRoomPassword; cbn [truthy negb orb];
      [reflexivity | now rewrite orb_true_r].
  - intros room Hlen. unfold App.createSecureRoom.
    apply Nat.ltb_lt in Hlen. rewrite Hlen, orb_true_r. reflexivity.
Qed.

Lemma setRoomPassword_has_no_minimum_witness :
  (exists cm',
      setRoomPassword Crypto.new "abcde" "ABC234" = Ok cm'
      /\ hasRoomPassword cm' = true
      /\ roomKey cm' = Some (deriveRoomKeyFromPassword "abcde" "ABC234")
      /\ sharedSecrets cm' = sharedSecrets Crypto.new)
  /\ App.createSecureRoom Crypto.new freshRoom "ABC234" "abcde"
     = (false, Crypto.new, freshRoom).
Proof.
  destruct (setRoomPassword_has_no_minimum Crypto.new "abcde" "ABC234")
    as (Hok & _ & Hshort).
  split.
  - apply Hok; discriminate.
  - apply Hshort. unfold Config.PASSWORD_MIN_LENGTH. cbn. lia.
Defined.

(** C9 as stated fails: a password of length 5 is accepted. *)
Lemma five_characters_counterexample :
  String.length "abcde" = 5%nat
  /\ exists cm',
      setRoomPassword Crypto.new "abcde" "ABC234" = Ok cm'
      /\ hasRoomPassword cm' = true.
Proof.
  split; [reflexivity|]. eexists. split; reflexivity.
Qed.

End CryptoProofs.

(** ** The sending side ([public/js/webrtc.js]) *)

Module SenderProofs.
Import Js Config Crypto Wire Sender Spec.
Local Open Scope string_scope.
Local Open Scope list_scope.
Local Open Scope Z_scope.

(** [ceilDiv a b] is the least integer [n] with [a <= n * b]. *)
Lemma ceilDiv_spec a b : 0 < b -> (ceilDiv a b - 1) * b < a <= ceilDiv a b * b.
Proof.
  intros Hb. unfold ceilDiv.
  pose proof (Z.div_mod (- a) b ltac:(lia)) as Hdm.
  pose proof (Z.mod_pos_bound (- a) b Hb) as Hm.
  nia.
Qed.

Lemma ceilDiv_unique a b n : 0 < b -> (n - 1) * b < a <= n * b -> ceilDiv a b = n.
Proof.
  intros Hb Hn. pose proof (ceilDiv_spec a b Hb) as Hc. nia.
Qed.

Lemma fileSize_zero f : fileSize f = 0 -> content f = [].
Proof.
  unfold fileSize. destruct (content f); [reflexivity|]. cbn [length]. lia.
Qed.

(** A file of size 0 on the direct path: [file-start], then at once
    [file-end]. *)
Lemma empty_file_p2p cm g peerId f fileId buffered :
  fileSize f = 0 ->
  let s := _sendFileDataViaP2P cm g peerId f fileId buffered in
  p_out s = [DcSend peerId (DcText (FileStart fileId (name f) 0 (mimeType f) 0));
             DcSend peerId (DcText (FileEnd fileId None))]
  /\ p_pc s = PDone /\ p_registered s = false.
Proof.
  intros Hz. unfold _sendFileDataViaP2P, p_iterate.
  cbn [p_emit p_offset p_file]. rewrite Hz. cbn [Z.ltb Z.compare].
  unfold totalChunks. rewrite Hz. repeat split.
Qed.

Lemma mimeType_truthy f : truthy (mimeType f) = true.
Proof. unfold mimeType. destruct (truthy (type f)) eqn:E; [exact E | reflexivity]. Qed.

(** The receiver of the two frames of an empty file delivers an empty
    blob. *)
Lemma empty_file_received (m : WebRTC.Manager) sender fileId nm mime now :
  WebRTC.incomingTransfers m !! sender = None ->
  truthy mime = true ->
  WebRTC.effects
    (WebRTC.handleMessages sender
       [DcText (FileStart fileId nm 0 mime 0); DcText (FileEnd fileId None)] now m)
  = WebRTC.effects m ++ [FileRequested sender fileId; FileReceived sender nm mime []].
Proof.
  intros Hnone Hmime. destruct m. cbn in Hnone.
  unfold WebRTC.handleMessages. cbn [fold_left].
  unfold WebRTC.handleMessage at 2. cbn. rewrite Hnone, Hmime. cbn.
  unfold WebRTC.handleMessage. cbn. rewrite lookup_insert_eq. cbn.
  rewrite Hmime. now rewrite <- app_assoc.
Qed.

(** C8. The file-request of a file of size [S] carries
    [totalChunks = ceil(S / ChunkSize)], the least [n] with
    [S <= n * ChunkSize], where [ChunkSize] is 64 KiB. A file of size 0 has
    [totalChunks = 0], its direct-path transfer puts [file-start] then
    [file-end] on the data channel in one go, and the receiver of these two
    frames delivers an empty file; a file of [ChunkSize] bytes has
    [totalChunks = 1] and one of [ChunkSize + 1] bytes has
    [totalChunks = 2]. *)
Theorem total_chunks_of_request (f : File) :
  (forall peerId fileId relay,
      exists mode,
        _requestFileTransfer peerId f fileId relay
        = Send peerId (FileRequest fileId (name f) (fileSize f) (mimeType f)
                                   (ceilDiv (fileSize f) (64 * 1024)) mode))
  /\ (ceilDiv (fileSize f) (64 * 1024) - 1) * (64 * 1024) < fileSize f
     <= ceilDiv (fileSize f) (64 * 1024) * (64 * 1024)
  /\ (fileSize f = 0 ->
      totalChunks f = 0
      /\ forall cm g peerId fileId buffered,
          let s := _sendFileDataViaP2P cm g peerId f fileId buffered in
          p_out s = [DcSend peerId (DcText (FileStart fileId (name f) 0 (mimeType f) 0));
                     DcSend peerId (DcText (FileEnd fileId None))]
          /\ p_pc s = PDone
          /\ forall m sender now,
              WebRTC.incomingTransfers m !! sender = None ->
              WebRTC.effects
                (WebRTC.handleMessages sender (WebRTC.dcFramesTo peerId (p_out s)) now m)
              = WebRTC.effects m
                ++ [FileRequested sender fileId;
                    FileReceived sender (name f) (mimeType f) []])
  /\ (fileSize f = 64 * 1024 -> totalChunks f = 1)
  /\ (fileSize f = 64 * 1024 + 1 -> totalChunks f = 2).
Proof.
  split; [|split; [|split; [|split]]].
  - intros peerId fileId relay. eexists. reflexivity.
  - apply ceilDiv_spec. lia.
  - intros Hz. split; [unfold totalChunks; rewrite Hz; reflexivity|].
    intros cm g peerId fileId buffered s.
    destruct (empty_file_p2p cm g peerId f fileId buffered Hz) as (Hout & Hpc & _).
    fold s in Hout, Hpc. split; [exact Hout | split; [exact Hpc|]].
    intros m sender now Hnone. rewrite Hout.
    cbn [WebRTC.dcFramesTo flat_map app]. rewrite String.eqb_refl. cbn [app].
    apply empty_file_received; [exact Hnone | apply mimeType_truthy].
  - intros Hs. unfold totalChunks. rewrite Hs. reflexivity.
  - intros Hs. unfold totalChunks. rewrite Hs. reflexivity.
Qed.

Lemma total_chunks_of_request_witness :
  (fileSize emptyFile = 0 /\ totalChunks emptyFile = 0
   /\ p_out (_sendFileDataViaP2P alice sampleRng "bob" emptyFile "f-1" 0)
      = [DcSend "bob" (DcText (FileStart "f-1" "hello.bin" 0 "application/octet-stream" 0));
         DcSend "bob" (DcText (FileEnd "f-1" None))])
  /\ (fileSize oneChunkFile = 64 * 1024 /\ totalChunks oneChunkFile = 1)
  /\ (fileSize twoChunkFile = 64 * 1024 + 1 /\ totalChunks twoChunkFile = 2).
Proof.
  assert (H0 : fileSize emptyFile = 0) by reflexivity.
  assert (H1 : fileSize oneChunkFile = 64 * 1024) by (vm_compute; reflexivity).
  assert (H2 : fileSize twoChunkFile = 64 * 1024 + 1) by (vm_compute; reflexivity).
  split; [|split].
  - destruct (total_chunks_of_request emptyFile) as (_ & _ & Hz & _).
    destruct (Hz H0) as (Ht & Hp). split; [exact H0 | split; [exact Ht|]].
    apply (Hp alice sampleRng "bob" "f-1" 0).
  - destruct (total_chunks_of_request oneChunkFile) as (_ & _ & _ & Hone & _).
    split; [exact H1 | exact (Hone H1)].
  - destruct (total_chunks_of_request twoChunkFile) as (_ & _ & _ & _ & Htwo).
    split; [exact H2 | exact (Htwo H2)].
Defined.

End SenderProofs.

(** ** The relay sender: window, retransmission, invariant *)

Module RelaySenderProofs.
Import Js Config Crypto Wire Sender RelaySpec.
Local Open Scope string_scope.
Local Open Scope list_scope.
Local Open Scope Z_scope.

(** **** The pending map *)

Lemma mapSet_keys_present {V} k (v : V) m :
  In k (map fst m) -> map fst (mapSet k v m) = map fst m.
Proof.
  induction m as [|[k' v'] m IH]; cbn; [tauto|]. intros [-> | Hin].
  - now rewrite Nat.eqb_refl.
  - destruct (Nat.eqb k k') eqn:E; cbn; [apply Nat.eqb_eq in E; now subst|].
    now rewrite IH.
Qed.

Lemma mapSet_keys_fresh {V} k (v : V) m :
  ~ In k (map fst m) -> map fst (mapSet k v m) = map fst m ++ [k].
Proof.
  induction m as [|[k' v'] m IH]; cbn; [reflexivity|]. intros Hnin.
  destruct (Nat.eqb k k') eqn:E; [apply Nat.eqb_eq in E; subst; elim Hnin; now left|].
  cbn. rewrite IH; [reflexivity | tauto].
Qed.

Lemma mapSet_In {V} k (v : V) m e :
  In e (mapSet k v m) -> e = (k, v) \/ In e m.
Proof.
  induction m as [|[k' v'] m IH]; cbn; [intuition congruence|].
  destruct (Nat.eqb k k'); cbn; [intuition congruence|]. intros [<- | Hin]; [tauto|].
  destruct (IH Hin); tauto.
Qed.


Lemma mapDelete_keys {V} k (m : list (nat * V)) :
  map fst (mapDelete k m) = List.filter (fun j => negb (Nat.eqb k j)) (map fst m).
Proof.
  unfold mapDelete. induction m as [|[k' v'] m IH]; cbn; [reflexivity|].
  destruct (Nat.eqb k k'); cbn; now rewrite IH.
Qed.

Lemma mapDelete_incl {V} k (m : list (nat * V)) e : In e (mapDelete k m) -> In e m.
Proof. unfold mapDelete. intros H. now apply List.filter_In in H. Qed.

(** Distinct keys below [n] are at most [n]. *)
Lemma keys_bounded {V} (m : list (nat * V)) n :
  List.NoDup (map fst m) -> Forall (fun e => (fst e < n)%nat) m -> (length m <= n)%nat.
Proof.
  intros Hnd Hall.
  assert (H : (length (map fst m) <= length (seq 0 n))%nat).
  { apply List.NoDup_incl_length; [exact Hnd|].
    intros k Hk. apply in_map_iff in Hk as (e & <- & He).
    rewrite Forall_forall in Hall. apply list_elem_of_In in He.
    specialize (Hall e He). apply in_seq. lia. }
  now rewrite length_map, length_seq in H.
Qed.

(** **** The oldest pending chunk *)

Lemma fold_older_spec l acc :
  match fold_left older l acc with
  | None => acc = None /\ l = []
  | Some o =>
      (acc = Some o \/ In o l)
      /\ (forall e, In e l -> sentAt (snd o) <= sentAt (snd e))
      /\ (forall a, acc = Some a -> sentAt (snd o) <= sentAt (snd a))
  end.
Proof.
  revert acc. induction l as [|e l IH]; intros acc; cbn [fold_left].
  - destruct acc as [a|]; [|tauto]. split; [tauto|]. split; [intros ? []|].
    intros ? [= <-]. lia.
  - specialize (IH (older acc e)).
    destruct (fold_left older l (older acc e)) as [o|].
    + destruct IH as (Hmem & Hmin & Hacc). split; [|split].
      * destruct Hmem as [Hmem | Hmem]; [|right; now right].
        unfold older in Hmem. destruct acc as [a|].
        -- destruct (sentAt (snd e) <? sentAt (snd a));
             injection Hmem as <-; [right; now left | now left].
        -- injection Hmem as <-. right. now left.
      * intros e' [<- | Hin]; [|now apply Hmin].
        unfold older in Hacc. destruct acc as [a|].
        -- destruct (sentAt (snd e) <? sentAt (snd a)) eqn:E.
           ++ now apply Hacc.
           ++ apply Z.ltb_ge in E. specialize (Hacc a eq_refl). lia.
        -- now apply Hacc.
      * intros a ->. cbn [older] in Hacc.
        destruct (sentAt (snd e) <? sentAt (snd a)) eqn:E.
        -- apply Z.ltb_lt in E. specialize (Hacc e eq_refl). lia.
        -- now apply Hacc.
    + destruct IH as (Hacc & _). unfold older in Hacc.
      destruct acc as [a|]; [destruct (sentAt (snd e) <? sentAt (snd a))|]; discriminate.
Qed.

(** [_getOldestPendingChunk] returns a pending chunk that was sent no later
    than any other. *)
Lemma oldest_is_oldest t index info :
  _getOldestPendingChunk t = Some (index, info) ->
  In (index, info) (pendingChunks t)
  /\ forall e, In e (pendingChunks t) -> sentAt info <= sentAt (snd e).
Proof.
  unfold _getOldestPendingChunk. intros H.
  pose proof (fold_older_spec (pendingChunks t) None) as Hs.
  change (fold_left older (pendingChunks t) None = Some (index, info)) in H.
  rewrite H in Hs. destruct Hs as ([Hn | Hin] & Hmin & _); [discriminate|].
  split; [exact Hin | exact Hmin].
Qed.

(** **** One turn of the window loop *)

Lemma windowTurn_exhausted s now index info :
  ACK_TIMEOUT < now - lastAckTime (r_transfer s) ->
  _getOldestPendingChunk (r_transfer s) = Some (index, info) ->
  MAX_CHUNK_RETRIES <= retries info ->
  r_windowTurn now s = r_finish (RFailed RetransmitExhausted) s.
Proof.
  intros Ht Ho Hr. unfold r_windowTurn.
  apply Z.ltb_lt in Ht. rewrite Ht, Ho. apply Z.leb_le in Hr. now rewrite Hr.
Qed.

Lemma windowTurn_retransmits s now index info :
  ACK_TIMEOUT < now - lastAckTime (r_transfer s) ->
  _getOldestPendingChunk (r_transfer s) = Some (index, info) ->
  retries info < MAX_CHUNK_RETRIES ->
  let s' := r_windowTurn now s in
  r_out s' = r_out s ++ [_sendChunk (r_peerId s) (r_fileId s) index (base64 info)
                                    (retries info + 1)]
  /\ pendingChunks (r_transfer s')
     = mapSet index {| base64 := base64 info; retries := retries info + 1; sentAt := now |}
              (pendingChunks (r_transfer s))
  /\ r_pc s' = (if cancelled (r_transfer s) then RFailed Cancelled else RWindowWait)
  /\ r_offset s' = r_offset s /\ r_chunkIndex s' = r_chunkIndex s /\ r_file s' = r_file s.
Proof.
  intros Ht Ho Hr. unfold r_windowTurn.
  apply Z.ltb_lt in Ht. rewrite Ht, Ho.
  destruct (MAX_CHUNK_RETRIES <=? retries info) eqn:E; [apply Z.leb_le in E; lia|].
  cbn [r_with r_emit r_transfer cancelled r_out r_peerId r_fileId].
  destruct (cancelled (r_transfer s)); cbn; repeat split.
Qed.

Lemma windowTurn_quiet s now :
  now - lastAckTime (r_transfer s) <= ACK_TIMEOUT ->
  r_out (r_windowTurn now s) = r_out s
  /\ r_transfer (r_windowTurn now s) = r_transfer s.
Proof.
  intros Ht. unfold r_windowTurn.
  destruct (ACK_TIMEOUT <? now - lastAckTime (r_transfer s)) eqn:E;
    [apply Z.ltb_lt in E; lia|].
  destruct (cancelled (r_transfer s)); cbn; split; reflexivity.
Qed.

(** What [r_sendNext] adds to the output holds no retransmission. *)
Lemma sendNext_out s now :
  exists added,
    r_out (r_sendNext now s) = r_out s ++ added
    /\ Forall (fun e => isRetransmission e = false) added
    /\ Forall (chunkInRange (Z.of_nat (S (r_chunkIndex s)))) added.
Proof.
  unfold r_sendNext.
  destruct ((TRANSFER_TIMEOUT <? now - lastAckTime (r_transfer s))
            && (0 <? r_chunkIndex s)%nat).
  - exists []. cbn. rewrite app_nil_r. repeat split; constructor.
  - destruct (encryptChunk _ _ _ _) as [[e | encrypted] g].
    + exists []. cbn. rewrite app_nil_r. repeat split; constructor.
    + eexists. cbn [r_out]. split; [reflexivity|]. split.
      * repeat constructor.
      * constructor; [|repeat constructor]. cbn. eexists. split; [reflexivity | lia].
Qed.

(** **** The invariant of the sender *)

Lemma chunkInRange_mono a b e : a <= b -> chunkInRange a e -> chunkInRange b e.
Proof.
  intros Hab. destruct e as [to [p| | | |]| | | | | | | | | | |]; try exact id.
  destruct p; try exact id. cbn. intros (i & Hi & Hlt). exists i. split; [exact Hi | lia].
Qed.

Lemma inv_update s s' added :
  r_offset s' = r_offset s -> r_chunkIndex s' = r_chunkIndex s ->
  r_file s' = r_file s ->
  pendingChunks (r_transfer s') = pendingChunks (r_transfer s) ->
  r_out s' = r_out s ++ added ->
  Forall (chunkInRange (totalChunks (r_file s))) added ->
  (r_pc s' = RWindowWait -> r_offset s < fileSize (r_file s)) ->
  SenderInv s -> SenderInv s'.
Proof.
  intros Ho Hi Hf Hp Hout Hadd Hpc [I1 I2 I3 I4 I5 I6 I7].
  constructor; rewrite ?Ho, ?Hi, ?Hf, ?Hp, ?Hout; try assumption.
  apply Forall_app; split; assumption.
Qed.

Lemma finish_inv pc s :
  pc <> RWindowWait -> SenderInv s -> SenderInv (r_finish pc s).
Proof.
  intros Hpc. apply (inv_update s _ []); try reflexivity; [now rewrite app_nil_r | constructor |].
  cbn. congruence.
Qed.

Lemma suspend_inv pc s :
  (pc = RWindowWait -> r_offset s < fileSize (r_file s)) ->
  SenderInv s -> SenderInv (r_suspend pc s).
Proof.
  intros Hpc. apply (inv_update s _ []); try reflexivity; [now rewrite app_nil_r | constructor |].
  exact Hpc.
Qed.

Lemma emit_inv e s :
  chunkInRange (totalChunks (r_file s)) e -> SenderInv s -> SenderInv (r_emit e s).
Proof.
  intros He Hinv. apply (inv_update s _ [e]); try reflexivity;
    [now constructor | apply (inv_window s Hinv) | exact Hinv].
Qed.

(** While the loop runs, the next index is below the number of chunks. *)
Lemma index_below_total s :
  SenderInv s -> r_offset s < fileSize (r_file s) ->
  Z.of_nat (r_chunkIndex s) < totalChunks (r_file s).
Proof.
  intros Hinv Hlt. rewrite (inv_offset s Hinv) in Hlt.
  pose proof (SenderProofs.ceilDiv_spec (fileSize (r_file s)) CHUNK_SIZE ltac:(reflexivity)) as Hc.
  fold (totalChunks (r_file s)) in Hc. unfold CHUNK_SIZE in *. nia.
Qed.

Lemma windowTurn_inv s now :
  r_offset s < fileSize (r_file s) -> SenderInv s -> SenderInv (r_windowTurn now s).
Proof.
  intros Hlt Hinv.
  destruct (Z.le_gt_cases (now - lastAckTime (r_transfer s)) ACK_TIMEOUT) as [Hq | Ht].
  - unfold r_windowTurn.
    destruct (ACK_TIMEOUT <? now - lastAckTime (r_transfer s)) eqn:E;
      [apply Z.ltb_lt in E; lia|].
    destruct (cancelled (r_transfer s)); [now apply finish_inv | now apply suspend_inv].
  - destruct (_getOldestPendingChunk (r_transfer s)) as [[index info]|] eqn:Ho.
    + destruct (oldest_is_oldest _ _ _ Ho) as (Hin & _).
      destruct (Z.lt_ge_cases (retries info) MAX_CHUNK_RETRIES) as [Hr | Hr].
      * destruct (windowTurn_retransmits s now index info Ht Ho Hr)
          as (Hout & Hpend & _ & Hoff & Hidx & Hfile).
        destruct Hinv as [I1 I2 I3 I4 I5 I6 I7].
        assert (Hkey : In index (map fst (pendingChunks (r_transfer s))))
          by (apply in_map_iff; exists (index, info); split; [reflexivity | exact Hin]).
        assert (Hlt' : (index < r_chunkIndex s)%nat).
        { rewrite Forall_forall in I4. apply list_elem_of_In in Hin. exact (I4 _ Hin). }
        assert (Hret : 0 <= retries info).
        { rewrite Forall_forall in I5. apply list_elem_of_In in Hin. exact (I5 _ Hin). }
        constructor; rewrite ?Hoff, ?Hidx, ?Hfile, ?Hpend, ?Hout; try assumption.
        -- now rewrite mapSet_keys_present.
        -- apply Forall_forall. intros e He. apply list_elem_of_In, mapSet_In in He.
           destruct He as [-> | He]; [exact Hlt'|].
           rewrite Forall_forall in I4. apply I4. now apply list_elem_of_In.
        -- apply Forall_forall. intros e He. apply list_elem_of_In, mapSet_In in He.
           destruct He as [-> | He]; [cbn; lia|].
           rewrite Forall_forall in I5. apply I5. now apply list_elem_of_In.
        -- apply Forall_app. split; [exact I6|]. constructor; [|constructor].
           cbn. exists index. split; [reflexivity | lia].
        -- now intros _.
      * rewrite (windowTurn_exhausted s now index info Ht Ho Hr).
        now apply finish_inv.
    + unfold r_windowTurn. apply Z.ltb_lt in Ht. rewrite Ht, Ho.
      destruct (cancelled (r_transfer s)); [now apply finish_inv | now apply suspend_inv].
Qed.

Lemma sendNext_inv s now :
  r_offset s < fileSize (r_file s) -> SenderInv s -> SenderInv (r_sendNext now s).
Proof.
  intros Hlt Hinv. pose proof (index_below_total s Hinv Hlt) as Hidx.
  unfold r_sendNext.
  destruct ((TRANSFER_TIMEOUT <? now - lastAckTime (r_transfer s))
            && (0 <? r_chunkIndex s)%nat); [now apply finish_inv|].
  destruct (encryptChunk _ _ _ _) as [[e | encrypted] g]; [now apply finish_inv|].
  destruct Hinv as [I1 I2 I3 I4 I5 I6 I7].
  assert (Hfresh : ~ In (r_chunkIndex s) (map fst (pendingChunks (r_transfer s)))).
  { intros Hk. apply in_map_iff in Hk as (e & He & Hin).
    rewrite Forall_forall in I4. apply list_elem_of_In in Hin.
    specialize (I4 _ Hin). lia. }
  constructor; cbn [r_offset r_chunkIndex r_file r_transfer pendingChunks r_out r_pc].
  - rewrite I1. lia.
  - lia.
  - rewrite mapSet_keys_fresh by exact Hfresh.
    apply List.NoDup_app; [exact I3 | constructor; [intros [] | constructor] |].
    intros k Hk [<- | []]. exact (Hfresh Hk).
  - apply Forall_forall. intros e He. apply list_elem_of_In, mapSet_In in He.
    destruct He as [-> | He]; [cbn; lia|].
    rewrite Forall_forall in I4. apply list_elem_of_In in He. specialize (I4 _ He). lia.
  - apply Forall_forall. intros e He. apply list_elem_of_In, mapSet_In in He.
    destruct He as [-> | He]; [cbn; lia|].
    rewrite Forall_forall in I5. apply I5. now apply list_elem_of_In.
  - apply Forall_app. split; [exact I6|]. constructor; [|repeat constructor].
    cbn. eexists. split; [reflexivity | lia].
  - discriminate.
Qed.

Lemma window_inv s now :
  r_offset s < fileSize (r_file s) -> SenderInv s -> SenderInv (r_window now s).
Proof.
  intros Hlt Hinv. unfold r_window.
  destruct (WINDOW_SIZE <=? length (pendingChunks (r_transfer s)))%nat;
    [now apply windowTurn_inv | now apply sendNext_inv].
Qed.

Lemma ackWait_inv s now : SenderInv s -> SenderInv (r_ackWait now s).
Proof.
  intros Hinv. unfold r_ackWait.
  destruct (_ <? _); [|apply suspend_inv; [discriminate | exact Hinv]].
  destruct (_ <? _).
  - apply suspend_inv; [discriminate|]. apply emit_inv; [exact I | exact Hinv].
  - destruct (cancelled _); [apply finish_inv | apply suspend_inv];
      (discriminate || exact Hinv).
Qed.

Lemma loopHead_inv s now : SenderInv s -> SenderInv (r_loopHead now s).
Proof.
  intros Hinv. unfold r_loopHead.
  destruct (r_offset s <? fileSize (r_file s)) eqn:E.
  - apply Z.ltb_lt in E.
    destruct (negb (r_registered s) || cancelled (r_transfer s));
      [apply finish_inv; [discriminate | exact Hinv] | now apply window_inv].
  - apply ackWait_inv. apply (inv_update s _ []); try reflexivity;
      [now rewrite app_nil_r | constructor | apply (inv_window s Hinv) | exact Hinv].
Qed.

Lemma begin_inv s now : SenderInv s -> SenderInv (r_begin now s).
Proof.
  intros Hinv. unfold r_begin. apply loopHead_inv, emit_inv; [exact I | exact Hinv].
Qed.

Lemma keyWait_inv s now : SenderInv s -> SenderInv (r_keyWait now s).
Proof.
  intros Hinv. unfold r_keyWait.
  destruct (hasSharedSecret _ _); [now apply begin_inv|].
  destruct (_ <? _); apply suspend_inv; (discriminate || exact Hinv).
Qed.

Lemma ackTransfer_keys acks now t e :
  In e (pendingChunks (ackTransfer acks now t)) -> In e (pendingChunks t).
Proof.
  unfold ackTransfer. cbn [pendingChunks]. generalize (pendingChunks t) as m.
  induction acks as [|a acks IH]; intros m; cbn [fold_left]; [exact id|].
  intros H. apply IH in H. now apply mapDelete_incl in H.
Qed.

Lemma ackTransfer_nodup acks now t :
  List.NoDup (map fst (pendingChunks t)) ->
  List.NoDup (map fst (pendingChunks (ackTransfer acks now t))).
Proof.
  unfold ackTransfer. cbn [pendingChunks]. generalize (pendingChunks t) as m.
  induction acks as [|a acks IH]; intros m; cbn [fold_left]; [exact id|].
  intros H. apply IH. rewrite mapDelete_keys. now apply List.NoDup_filter.
Qed.

Lemma step_inv s ev : SenderInv s -> SenderInv (r_step s ev).
Proof.
  intros Hinv. destruct ev as [acks now | | key | now]; cbn [r_step].
  - destruct (r_registered s); [|exact Hinv].
    destruct Hinv as [I1 I2 I3 I4 I5 I6 I7].
    constructor; cbn [r_with r_offset r_chunkIndex r_file r_transfer r_out r_pc];
      try assumption.
    + now apply ackTransfer_nodup.
    + apply Forall_forall. intros e He. apply list_elem_of_In, ackTransfer_keys in He.
      rewrite Forall_forall in I4. apply I4. now apply list_elem_of_In.
    + apply Forall_forall. intros e He. apply list_elem_of_In, ackTransfer_keys in He.
      rewrite Forall_forall in I5. apply I5. now apply list_elem_of_In.
  - destruct (r_registered s); [|exact Hinv].
    apply (inv_update s _ []); try reflexivity;
      [now rewrite app_nil_r | constructor | apply (inv_window s Hinv) | exact Hinv].
  - apply (inv_update s _ []); try reflexivity;
      [now rewrite app_nil_r | constructor | apply (inv_window s Hinv) | exact Hinv].
  - destruct (r_pc s) eqn:Hpc.
    + now apply keyWait_inv.
    + now apply loopHead_inv.
    + apply window_inv; [apply (inv_window s Hinv Hpc) | exact Hinv].
    + now apply ackWait_inv.
    + unfold r_fileEnd. apply finish_inv; [discriminate|].
      apply emit_inv; [exact I | exact Hinv].
    + exact Hinv.
    + exact Hinv.
Qed.

Lemma start_inv cm g publicKey peerId f fileId now :
  SenderInv (_sendFileDataViaRelay cm g publicKey peerId f fileId now).
Proof.
  unfold _sendFileDataViaRelay.
  set (s0 := {| r_peerId := peerId; r_file := f; r_fileId := fileId;
                r_transfer := _; r_registered := true; r_offset := 0;
                r_chunkIndex := 0; r_waitStart := now; r_pc := RLoopHead;
                r_cm := cm; r_rng := g; r_out := [] |}).
  assert (H0 : SenderInv s0).
  { constructor; cbn; try constructor; try discriminate.
    pose proof (SenderProofs.ceilDiv_spec (fileSize f) CHUNK_SIZE ltac:(reflexivity)) as Hc.
    fold (totalChunks f) in Hc. unfold fileSize, CHUNK_SIZE in *. nia. }
  destruct (hasSharedSecret cm peerId); [now apply begin_inv|].
  apply keyWait_inv, emit_inv; [exact I | exact H0].
Qed.

Lemma run_inv s evs : SenderInv s -> SenderInv (r_run s evs).
Proof.
  unfold r_run. revert s. induction evs as [|ev evs IH]; intros s Hinv; [exact Hinv|].
  cbn [fold_left]. apply IH, step_inv, Hinv.
Qed.

Ltac branches :=
  repeat first
    [ reflexivity
    | match goal with
      | |- context [if ?c then _ else _] => destruct c
      | |- context [match ?c with _ => _ end] => destruct c
      end ].

Lemma windowTurn_file s now : r_file (r_windowTurn now s) = r_file s.
Proof.
  unfold r_windowTurn. cbv zeta.
  destruct (ACK_TIMEOUT <? _); [destruct (_getOldestPendingChunk _) as [[index info]|];
                                [destruct (MAX_CHUNK_RETRIES <=? _)|]|];
    cbn; try reflexivity; destruct (cancelled _); reflexivity.
Qed.

Lemma sendNext_file s now : r_file (r_sendNext now s) = r_file s.
Proof. unfold r_sendNext. branches. Qed.

Lemma ackWait_file s now : r_file (r_ackWait now s) = r_file s.
Proof. unfold r_ackWait. branches. Qed.

Lemma loopHead_file s now : r_file (r_loopHead now s) = r_file s.
Proof.
  unfold r_loopHead, r_window.
  destruct (_ <? _); [|now rewrite ackWait_file].
  destruct (_ || _); [reflexivity|].
  destruct (_ <=? _)%nat; [apply windowTurn_file | apply sendNext_file].
Qed.

Lemma keyWait_file s now : r_file (r_keyWait now s) = r_file s.
Proof.
  unfold r_keyWait, r_begin.
  destruct (hasSharedSecret _ _); [now rewrite loopHead_file|].
  destruct (_ <? _); reflexivity.
Qed.

Lemma step_file s ev : r_file (r_step s ev) = r_file s.
Proof.
  destruct ev; cbn [r_step]; try (destruct (r_registered s); reflexivity); try reflexivity.
  destruct (r_pc s); try reflexivity.
  - apply keyWait_file.
  - apply loopHead_file.
  - unfold r_window. destruct (_ <=? _)%nat; [apply windowTurn_file | apply sendNext_file].
  - apply ackWait_file.
Qed.

Lemma run_file s evs : r_file (r_run s evs) = r_file s.
Proof.
  unfold r_run. revert s. induction evs as [|ev evs IH]; intros s; [reflexivity|].
  cbn [fold_left]. now rewrite IH, step_file.
Qed.

Lemma start_file cm g publicKey peerId f fileId now :
  r_file (_sendFileDataViaRelay cm g publicKey peerId f fileId now) = f.
Proof.
  unfold _sendFileDataViaRelay, r_begin.
  destruct (hasSharedSecret cm peerId);
    [now rewrite loopHead_file | now rewrite keyWait_file].
Qed.

(** Whatever happens, every chunk frame that [_sendFileDataViaRelay] sends
    carries an index below [totalChunks]. *)
Lemma relay_frames_in_range cm g publicKey peerId f fileId now evs :
  Forall (chunkInRange (totalChunks f))
         (r_out (r_run (_sendFileDataViaRelay cm g publicKey peerId f fileId now) evs)).
Proof.
  pose proof (run_inv _ evs (start_inv cm g publicKey peerId f fileId now)) as Hinv.
  pose proof (inv_frames _ Hinv) as Hf.
  now rewrite run_file, start_file in Hf.
Qed.

(** **** Transfers that fit in the window *)

Lemma finish_calm pc s : pc <> RWindowWait -> Calm s -> Calm (r_finish pc s).
Proof. intros Hpc [Hout _]. split; [exact Hout | exact Hpc]. Qed.

Lemma suspend_calm pc s : pc <> RWindowWait -> Calm s -> Calm (r_suspend pc s).
Proof. intros Hpc [Hout _]. split; [exact Hout | exact Hpc]. Qed.

Lemma emit_calm e s : isRetransmission e = false -> Calm s -> Calm (r_emit e s).
Proof.
  intros He [Hout Hpc]. split; [|exact Hpc].
  unfold noRetransmission. cbn [r_emit r_out]. apply Forall_app. split; [exact Hout|].
  now constructor.
Qed.

Lemma sendNext_calm s now : Calm s -> Calm (r_sendNext now s).
Proof.
  intros Hc. destruct (sendNext_out s now) as (added & Hout & Hno & _).
  split.
  - unfold noRetransmission. rewrite Hout. apply Forall_app. split; [apply Hc | exact Hno].
  - unfold r_sendNext.
    destruct (_ && _); [discriminate|].
    destruct (encryptChunk _ _ _ _) as [[e | encrypted] g]; discriminate.
Qed.

Lemma ackWait_calm s now : Calm s -> Calm (r_ackWait now s).
Proof.
  intros Hc. unfold r_ackWait.
  destruct (_ <? _); [|now apply suspend_calm].
  destruct (_ <? _); [apply suspend_calm; [discriminate | now apply emit_calm]|].
  destruct (cancelled _); [now apply finish_calm | now apply suspend_calm].
Qed.

(** With at most [WINDOW_SIZE] chunks in the file the window is never full
    when the loop asks. *)
Lemma window_not_full s :
  SenderInv s -> totalChunks (r_file s) <= Z.of_nat WINDOW_SIZE ->
  r_offset s < fileSize (r_file s) ->
  (WINDOW_SIZE <=? length (pendingChunks (r_transfer s)))%nat = false.
Proof.
  intros Hinv Hfit Hlt. apply Nat.leb_gt.
  pose proof (index_below_total s Hinv Hlt) as Hidx.
  pose proof (keys_bounded _ _ (inv_nodup s Hinv) (inv_keys s Hinv)) as Hlen.
  lia.
Qed.

Lemma loopHead_calm s now :
  SenderInv s -> totalChunks (r_file s) <= Z.of_nat WINDOW_SIZE ->
  Calm s -> Calm (r_loopHead now s).
Proof.
  intros Hinv Hfit Hc. unfold r_loopHead.
  destruct (r_offset s <? fileSize (r_file s)) eqn:E.
  - apply Z.ltb_lt in E.
    destruct (negb (r_registered s) || cancelled (r_transfer s));
      [now apply finish_calm|].
    unfold r_window. rewrite (window_not_full s Hinv Hfit E). now apply sendNext_calm.
  - apply ackWait_calm. exact Hc.
Qed.

Lemma keyWait_calm s now :
  SenderInv s -> totalChunks (r_file s) <= Z.of_nat WINDOW_SIZE ->
  Calm s -> Calm (r_keyWait now s).
Proof.
  intros Hinv Hfit Hc. unfold r_keyWait, r_begin.
  destruct (hasSharedSecret _ _).
  - apply loopHead_calm; [apply emit_inv; [exact I | exact Hinv] | exact Hfit |].
    now apply emit_calm.
  - destruct (_ <? _); now apply suspend_calm.
Qed.

Lemma step_calm s ev :
  SenderInv s -> totalChunks (r_file s) <= Z.of_nat WINDOW_SIZE ->
  Calm s -> Calm (r_step s ev).
Proof.
  intros Hinv Hfit Hc. destruct ev as [acks now | | key | now]; cbn [r_step].
  - destruct (r_registered s); exact Hc.
  - destruct (r_registered s); exact Hc.
  - exact Hc.
  - destruct (r_pc s) eqn:Hpc.
    + now apply keyWait_calm.
    + now apply loopHead_calm.
    + destruct Hc as [_ Hc]. congruence.
    + now apply ackWait_calm.
    + unfold r_fileEnd. apply finish_calm; [discriminate|]. now apply emit_calm.
    + exact Hc.
    + exact Hc.
Qed.

Lemma run_calm s evs :
  SenderInv s -> totalChunks (r_file s) <= Z.of_nat WINDOW_SIZE ->
  Calm s -> Calm (r_run s evs).
Proof.
  unfold r_run. revert s. induction evs as [|ev evs IH]; intros s Hinv Hfit Hc; [exact Hc|].
  cbn [fold_left]. apply IH; [now apply step_inv | now rewrite step_file |].
  now apply step_calm.
Qed.

(** A file of at most [WINDOW_SIZE] chunks is sent without a single
    retransmission, whatever is acknowledged and however long the sender
    waits. *)
Lemma fits_window_never_retransmits cm g publicKey peerId f fileId now evs :
  totalChunks f <= Z.of_nat WINDOW_SIZE ->
  noRetransmission
    (r_out (r_run (_sendFileDataViaRelay cm g publicKey peerId f fileId now) evs)).
Proof.
  intros Hfit.
  apply run_calm; [apply start_inv | now rewrite start_file |].
  unfold _sendFileDataViaRelay.
  set (s0 := {| r_peerId := peerId; r_file := f; r_fileId := fileId;
                r_transfer := _; r_registered := true; r_offset := 0;
                r_chunkIndex := 0; r_waitStart := now; r_pc := RLoopHead;
                r_cm := cm; r_rng := g; r_out := [] |}).
  assert (H0 : SenderInv s0 /\ Calm s0).
  { split; [|split; [constructor | discriminate]].
    constructor; cbn; try constructor; try discriminate.
    pose proof (SenderProofs.ceilDiv_spec (fileSize f) CHUNK_SIZE ltac:(reflexivity)) as Hc.
    fold (totalChunks f) in Hc. unfold fileSize, CHUNK_SIZE in *. nia. }
  destruct H0 as [Hinv Hc].
  destruct (hasSharedSecret cm peerId).
  - unfold r_begin. apply loopHead_calm;
      [apply emit_inv; [exact I | exact Hinv] | exact Hfit | now apply emit_calm].
  - apply keyWait_calm; [apply emit_inv; [exact I | exact Hinv] | exact Hfit |].
    now apply emit_calm.
Qed.




(** The transfer of the specification's scenario has ten chunks, so
    whichever acknowledgements are lost no chunk of it is sent again. *)
Lemma ten_chunks_never_retransmit cm g publicKey peerId fileId now evs :
  totalChunks tenChunkFile = 10
  /\ noRetransmission
       (r_out (r_run (_sendFileDataViaRelay cm g publicKey peerId tenChunkFile fileId now)
                     evs)).
Proof.
  assert (H : totalChunks tenChunkFile = 10) by (vm_compute; reflexivity).
  split; [exact H|]. apply fits_window_never_retransmits. rewrite H. vm_compute.
  discriminate.
Qed.
End RelaySenderProofs.

(** ** The relay receiver: tracking, the wait of [file-end], assembly *)

Module ReceiverProofs.
Import Js Config Crypto Wire WebRTC ReceiverSpec.
Local Open Scope string_scope.
Local Open Scope list_scope.
Local Open Scope Z_scope.

(** **** Sparse arrays *)

Lemma arrayGet_nil {A} i : arrayGet i (@nil (option A)) = None.
Proof. unfold arrayGet. now destruct i. Qed.

Lemma arrayGet_arraySet_eq {A} i (v : A) l : arrayGet i (arraySet i v l) = Some v.
Proof.
  revert l. induction i as [|i IH]; intros [|x l]; try reflexivity.
  - apply (IH []).
  - apply (IH l).
Qed.

Lemma arrayGet_arraySet_ne {A} i j (v : A) l :
  i <> j -> arrayGet j (arraySet i v l) = arrayGet j l.
Proof.
  revert j l. induction i as [|i IH]; intros [|j] [|x l] Hne; try reflexivity;
    try congruence.
  - cbn. now destruct j.
  - change (arrayGet j (arraySet i v []) = None).
    rewrite IH by congruence. apply arrayGet_nil.
  - change (arrayGet j (arraySet i v l) = arrayGet j l). apply IH. congruence.
Qed.

(** **** Projections of the updated manager *)

Ltac fields m := destruct m; reflexivity.

Lemma incoming_withEffects f m :
  incomingTransfers (withEffects f m) = incomingTransfers m.
Proof. fields m. Qed.

Lemma incoming_withActive f m :
  incomingTransfers (withActiveTransfers f m) = incomingTransfers m.
Proof. fields m. Qed.

Lemma incoming_withIncoming f m :
  incomingTransfers (withIncomingTransfers f m) = f (incomingTransfers m).
Proof. fields m. Qed.

Lemma incoming_withRelayMode f m :
  incomingTransfers (withRelayMode f m) = incomingTransfers m.
Proof. fields m. Qed.

Lemma effects_withEffects f m : effects (withEffects f m) = f (effects m).
Proof. fields m. Qed.

Lemma effects_withActive f m : effects (withActiveTransfers f m) = effects m.
Proof. fields m. Qed.

Lemma effects_withIncoming f m : effects (withIncomingTransfers f m) = effects m.
Proof. fields m. Qed.

Lemma relayMode_withEffects f m : relayMode (withEffects f m) = relayMode m.
Proof. fields m. Qed.

Lemma relayMode_withActive f m : relayMode (withActiveTransfers f m) = relayMode m.
Proof. fields m. Qed.

Lemma relayMode_withIncoming f m : relayMode (withIncomingTransfers f m) = relayMode m.
Proof. fields m. Qed.

Lemma relayMode_withRelayMode f m : relayMode (withRelayMode f m) = f (relayMode m).
Proof. fields m. Qed.

Lemma crypto_withEffects f m : crypto (withEffects f m) = crypto m.
Proof. fields m. Qed.

Lemma crypto_withActive f m : crypto (withActiveTransfers f m) = crypto m.
Proof. fields m. Qed.

Lemma crypto_withIncoming f m : crypto (withIncomingTransfers f m) = crypto m.
Proof. fields m. Qed.

Ltac project :=
  unfold _notifyConnectionState, emit, emitAll;
  repeat first
    [ rewrite incoming_withEffects | rewrite incoming_withActive
    | rewrite incoming_withIncoming | rewrite incoming_withRelayMode
    | rewrite effects_withEffects | rewrite effects_withActive
    | rewrite effects_withIncoming | rewrite relayMode_withEffects
    | rewrite relayMode_withActive | rewrite relayMode_withIncoming
    | rewrite relayMode_withRelayMode | rewrite crypto_withEffects
    | rewrite crypto_withActive | rewrite crypto_withIncoming ].

(** **** The receiver-side switch *)

Lemma noteRelayMode_incoming peerId m :
  incomingTransfers (noteRelayMode peerId m) = incomingTransfers m.
Proof. unfold noteRelayMode. destruct (inRelayMode m peerId); [reflexivity|]. now project. Qed.

Lemma noteRelayMode_sets peerId m : inRelayMode (noteRelayMode peerId m) peerId = true.
Proof.
  unfold noteRelayMode. destruct (inRelayMode m peerId) eqn:E; [exact E|].
  unfold inRelayMode. project. now rewrite lookup_insert_eq.
Qed.

Lemma noteRelayMode_id peerId m : inRelayMode m peerId = true -> noteRelayMode peerId m = m.
Proof. intros H. unfold noteRelayMode. now rewrite H. Qed.

(** **** One chunk *)

Lemma receiveChunk_tracked cm peerId n fid index data t :
  inRange n (fid, index, data) = true -> Tracked n t ->
  Tracked n (fst (receiveChunk cm peerId fid index data t)).
Proof.
  intros Hr Ht. unfold receiveChunk.
  destruct (negb (String.eqb (fileId t) fid)); [exact Ht|].
  destruct index as [i|]; [|discriminate]. cbn in Hr. apply Z.ltb_lt in Hr.
  destruct (hasReceived t i); [exact Ht|].
  destruct (Base64.decode data) as [bytes|]; [|exact Ht].
  destruct (decryptChunk cm peerId bytes) as [e | decrypted]; [exact Ht|].
  destruct Ht as (Htot & R & HR & Hstored & Hbound).
  split; [exact Htot|]. exists (R ∪ {[i]}). cbn [fst receivedIndices chunks].
  rewrite HR. split; [reflexivity|]. split.
  - intros j. destruct (Nat.eq_dec i j) as [<- | Hne].
    + rewrite arrayGet_arraySet_eq. split; [discriminate|].
      intros _. apply elem_of_union. right. now apply elem_of_singleton.
    + rewrite (arrayGet_arraySet_ne i j) by exact Hne. rewrite <- Hstored.
      rewrite elem_of_union, elem_of_singleton. intuition congruence.
  - intros j Hj. apply elem_of_union in Hj as [Hj | Hj]; [now apply Hbound|].
    apply elem_of_singleton in Hj. now subst.
Qed.

Lemma receiveChunk_quiet cm peerId fid index data t :
  forallb quietEffect (snd (receiveChunk cm peerId fid index data t)) = true.
Proof.
  unfold receiveChunk.
  destruct (negb _); [reflexivity|].
  destruct (hasReceived _ _); [reflexivity|].
  destruct (Base64.decode data) as [bytes|]; [|reflexivity].
  destruct (decryptChunk cm peerId bytes) as [e | decrypted]; [reflexivity|].
  cbn [snd]. destruct (_ <=? _)%nat; reflexivity.
Qed.

Lemma relayChunk_extends peerId fid index data m :
  Extends m (relayChunk peerId fid index data m).
Proof.
  unfold relayChunk. destruct (incomingTransfers m !! peerId) as [t|].
  - pose proof (receiveChunk_quiet (crypto m) peerId fid index data t) as Hq.
    destruct (receiveChunk _ _ _ _ _ _) as [t' out]. cbn [snd] in Hq.
    repeat split; project; try reflexivity. now exists out.
  - repeat split. exists []. now rewrite app_nil_r.
Qed.

Lemma relayChunk_tracked peerId n fid index data m :
  inRange n (fid, index, data) = true ->
  TrackedFor n peerId m -> TrackedFor n peerId (relayChunk peerId fid index data m).
Proof.
  intros Hr (t & Hm & Ht). unfold relayChunk. rewrite Hm.
  pose proof (receiveChunk_tracked (crypto m) peerId n fid index data t Hr Ht) as Ht'.
  destruct (receiveChunk _ _ _ _ _ _) as [t' out]. cbn [fst] in Ht'.
  exists t'. project. now rewrite lookup_insert_eq.
Qed.

Lemma extends_refl m : Extends m m.
Proof. repeat split. exists []. now rewrite app_nil_r. Qed.

Lemma extends_trans a b c : Extends a b -> Extends b c -> Extends a c.
Proof.
  intros (R1 & C1 & o1 & E1 & Q1) (R2 & C2 & o2 & E2 & Q2).
  repeat split; [congruence | congruence|].
  exists (o1 ++ o2). rewrite E2, E1, <- app_assoc. split; [reflexivity|].
  rewrite forallb_app. now rewrite Q1, Q2.
Qed.

(** **** Several chunks *)

Lemma relayChunks_tracked peerId n frames m :
  forallb (inRange n) frames = true ->
  TrackedFor n peerId m -> TrackedFor n peerId (relayChunks peerId frames m).
Proof.
  unfold relayChunks. revert m.
  induction frames as [|[[fid index] data] frames IH]; intros m Hr Hm; [exact Hm|].
  cbn [forallb] in Hr. apply andb_true_iff in Hr as [H1 H2].
  cbn [fold_left fst snd]. apply IH; [exact H2|]. now apply relayChunk_tracked.
Qed.

Lemma relayChunks_extends peerId frames m : Extends m (relayChunks peerId frames m).
Proof.
  unfold relayChunks. revert m.
  induction frames as [|f frames IH]; intros m; [apply extends_refl|].
  cbn [fold_left]. eapply extends_trans; [apply relayChunk_extends | apply IH].
Qed.

Lemma awaitMissing_tracked peerId n expected waitStart ticks m :
  ticksInRange n ticks = true ->
  TrackedFor n peerId m -> TrackedFor n peerId (awaitMissing peerId expected waitStart ticks m).
Proof.
  revert m. induction ticks as [|[frames now] ticks IH]; intros m Hr Hm; [exact Hm|].
  cbn [ticksInRange forallb fst] in Hr. apply andb_true_iff in Hr as [H1 H2].
  cbn [awaitMissing].
  pose proof (relayChunks_tracked peerId n frames m H1 Hm) as Hm'.
  destruct (_ || _); [exact Hm' | now apply IH].
Qed.

Lemma awaitMissing_extends peerId expected waitStart ticks m :
  Extends m (awaitMissing peerId expected waitStart ticks m).
Proof.
  revert m. induction ticks as [|[frames now] ticks IH]; intros m; [apply extends_refl|].
  cbn [awaitMissing].
  pose proof (relayChunks_extends peerId frames m) as He.
  destruct (_ || _); [exact He | eapply extends_trans; [exact He | apply IH]].
Qed.

(** **** [file-start] *)

Lemma fresh_tracked n fid nm sz mime now conf acks :
  Tracked n {| fileId := fid; name := nm; size := sz; mimeType := mime;
               totalChunks := n; chunks := []; receivedIndices := Some ∅;
               received := 0; startTime := now; confirmed := conf;
               pendingAcks := acks |}.
Proof.
  split; [reflexivity|]. exists ∅. cbn. split; [reflexivity|]. split.
  - intros i. rewrite arrayGet_nil. split; [intros H; now apply not_elem_of_empty in H|].
    congruence.
  - intros i H. now apply not_elem_of_empty in H.
Qed.

Lemma relayFileStart_tracked peerId fid nm sz mime total now m :
  TrackedFor total peerId (relayFileStart peerId fid nm sz mime total now m).
Proof.
  unfold relayFileStart, TrackedFor.
  destruct (incomingTransfers m !! peerId) as [t|].
  - destruct (confirmed t && String.eqb (fileId t) fid).
    + eexists. project. rewrite lookup_insert_eq. split; [reflexivity|].
      apply fresh_tracked.
    + eexists. project. rewrite lookup_insert_eq. split; [reflexivity|].
      apply fresh_tracked.
  - eexists. project. rewrite lookup_insert_eq. split; [reflexivity|].
    apply fresh_tracked.
Qed.

Lemma relayFileStart_relayMode peerId fid nm sz mime total now m :
  relayMode (relayFileStart peerId fid nm sz mime total now m) = relayMode m.
Proof.
  unfold relayFileStart.
  destruct (incomingTransfers m !! peerId) as [t|]; [|now project].
  destruct (confirmed t && String.eqb (fileId t) fid); [now project|].
  destruct (truthy (fileId t)); now project.
Qed.

(** **** The frames of a transfer *)

Lemma handleRelayData_chunk peerId fid index data retry ticks now m :
  inRelayMode m peerId = true ->
  handleRelayData peerId (Chunk fid index data retry) ticks now m
  = relayChunk peerId fid index data m.
Proof. intros H. unfold handleRelayData. now rewrite (noteRelayMode_id _ _ H). Qed.

Lemma receiveFrames_spec peerId n frames now m :
  inRelayMode m peerId = true ->
  forallb (inRange n) frames = true ->
  TrackedFor n peerId m ->
  let m' := receiveFrames peerId frames now m in
  TrackedFor n peerId m' /\ inRelayMode m' peerId = true.
Proof.
  unfold receiveFrames. revert m.
  induction frames as [|[[fid index] data] frames IH]; intros m Hrelay Hr Hm;
    [now split|].
  cbn [forallb] in Hr. apply andb_true_iff in Hr as [H1 H2].
  cbn [fold_left fst snd]. rewrite (handleRelayData_chunk _ _ _ _ _ _ _ _ Hrelay).
  apply IH; [|exact H2 | now apply relayChunk_tracked].
  destruct (relayChunk_extends peerId fid index data m) as (Hrm & _).
  unfold inRelayMode in *. now rewrite Hrm.
Qed.

(** **** The wait of [file-end] *)

Lemma fileEndWait_spec peerId n t0 expected ticks now m :
  ticksInRange n ticks = true ->
  incomingTransfers m !! peerId = Some t0 -> Tracked n t0 ->
  let m' := fileEndWait peerId t0 expected ticks now m in
  TrackedFor n peerId m' /\ Extends m m'.
Proof.
  intros Hr Hm Ht. unfold fileEndWait.
  set (m1 := match pendingAcks t0 with Some (a :: l) => _ | _ => m end).
  assert (H1 : TrackedFor n peerId m1 /\ Extends m m1).
  { subst m1. destruct (pendingAcks t0) as [[|a l]|].
    - split; [now exists t0 | apply extends_refl].
    - split.
      + eexists. project. rewrite lookup_insert_eq. split; [reflexivity|].
        destruct Ht as (Htot & R & HR & Hs & Hb). split; [exact Htot|].
        exists R. split; [exact HR | split; [exact Hs | exact Hb]].
      + repeat split; project; try reflexivity. eexists. split; reflexivity.
    - split; [now exists t0 | apply extends_refl]. }
  destruct H1 as [Htr Hex].
  destruct (_ <? _); [|now split].
  split; [now apply awaitMissing_tracked|].
  eapply extends_trans; [exact Hex | apply awaitMissing_extends].
Qed.

(** **** The assembly *)

Lemma ordered_absent (cs : list (option (list Z))) l i :
  (~ In i l \/ arrayGet i cs = None) ->
  count_occ Nat.eq_dec
            (map fst (flat_map (fun i => match arrayGet i cs with
                                         | Some c => [(i, c)]
                                         | None => []
                                         end) l)) i = 0%nat.
Proof.
  induction l as [|a l IH]; intros H; [reflexivity|].
  cbn [flat_map]. rewrite map_app, count_occ_app, IH.
  - destruct (arrayGet a cs) as [c|] eqn:E; [|reflexivity].
    cbn [map fst]. destruct (Nat.eq_dec a i) as [-> | Hne].
    + destruct H as [H | H]; [elim H; now left | congruence].
    + now rewrite (count_occ_cons_neq Nat.eq_dec [] Hne).
  - destruct H as [H | H]; [left; intros Hin; apply H; now right | now right].
Qed.

Lemma ordered_present (cs : list (option (list Z))) l i c :
  List.NoDup l -> In i l -> arrayGet i cs = Some c ->
  count_occ Nat.eq_dec
            (map fst (flat_map (fun i => match arrayGet i cs with
                                         | Some c => [(i, c)]
                                         | None => []
                                         end) l)) i = 1%nat.
Proof.
  induction l as [|a l IH]; intros Hnd Hin Hc; [destruct Hin|].
  inversion Hnd as [|? ? Hnot Hnd']; subst.
  cbn [flat_map]. rewrite map_app, count_occ_app.
  destruct Hin as [-> | Hin].
  - rewrite Hc. cbn [map fst].
    rewrite (count_occ_cons_eq Nat.eq_dec [] eq_refl).
    rewrite ordered_absent; [reflexivity | now left].
  - rewrite (IH Hnd' Hin Hc).
    destruct (arrayGet a cs) as [c'|]; [|reflexivity].
    cbn [map fst]. destruct (Nat.eq_dec a i) as [-> | Hne]; [contradiction|].
    now rewrite (count_occ_cons_neq Nat.eq_dec [] Hne).
Qed.

Lemma in_missingChunks n t i :
  In i (missingChunks n t) <-> (Z.of_nat i < n /\ hasReceived t i = false).
Proof.
  unfold missingChunks. rewrite filter_In, in_seq, negb_true_iff.
  split; intros [H1 H2]; (split; [lia | exact H2]).
Qed.

(** If as many indices are marked as are expected, every index below the
    expected count is marked. *)
Lemma all_marked n (R : gset nat) i :
  (forall j, j ∈ R -> Z.of_nat j < n) ->
  Z.of_nat (base.size R) = n -> Z.of_nat i < n -> i ∈ R.
Proof.
  intros Hb Hsize Hi.
  assert (Heq : R = set_seq 0 (Z.to_nat n)).
  { apply set_subseteq_size_eq.
    - intros j Hj. apply elem_of_set_seq. specialize (Hb j Hj). lia.
    - rewrite size_set_seq. lia. }
  rewrite Heq. apply elem_of_set_seq. lia.
Qed.

Lemma assembled_or_missing n t i :
  Tracked n t -> Z.of_nat i < n ->
  (count_occ Nat.eq_dec (map fst (orderedChunks n t)) i = 1%nat
   /\ ~ In i (missingChunks n t))
  \/ (count_occ Nat.eq_dec (map fst (orderedChunks n t)) i = 0%nat
      /\ In i (missingChunks n t)
      /\ receivedCount t <> n).
Proof.
  intros (Htot & R & HR & Hs & Hb) Hi.
  assert (Hin : In i (seq 0 (Z.to_nat n))) by (apply in_seq; lia).
  destruct (decide (i ∈ R)) as [Hyes | Hno].
  - left. pose proof (proj1 (Hs i) Hyes) as Hc.
    destruct (arrayGet i (chunks t)) as [c|] eqn:E; [|congruence].
    split.
    + unfold orderedChunks. eapply ordered_present; [apply List.seq_NoDup | exact Hin | exact E].
    + rewrite in_missingChunks. unfold hasReceived. rewrite HR.
      rewrite bool_decide_eq_true_2 by exact Hyes. intros [_ H]. discriminate.
  - right. split; [|split].
    + unfold orderedChunks. apply ordered_absent. right.
      destruct (arrayGet i (chunks t)) as [c|] eqn:E; [|reflexivity].
      elim Hno. apply Hs. congruence.
    + rewrite in_missingChunks. unfold hasReceived. rewrite HR.
      now rewrite bool_decide_eq_false_2 by exact Hno.
    + unfold receivedCount. rewrite HR. intros Hsize.
      apply Hno. now apply (all_marked n R i).
Qed.

Lemma fileEndAssemble_effects peerId n t m :
  exists log,
    effects (fileEndAssemble peerId n t m)
    = effects m ++ log
              ++ [FileReceived peerId (name t)
                    (if truthy (mimeType t) then mimeType t
                     else "application/octet-stream")
                    (concat (map snd (orderedChunks n t)))]
    /\ (receivedCount t <> n -> In (LogMissing (missingChunks n t)) log).
Proof.
  unfold fileEndAssemble. cbv zeta.
  destruct (receivedCount t =? n) eqn:Ec;
    destruct (_ =? size t) eqn:Es; project.
  - exists []. split; [reflexivity|]. apply Z.eqb_eq in Ec. congruence.
  - eexists [_]. split; [now rewrite <- !app_assoc|]. apply Z.eqb_eq in Ec. congruence.
  - eexists [_; _]. split; [now rewrite <- !app_assoc|]. intros _. right. now left.
  - eexists [_; _; _]. split; [now rewrite <- !app_assoc|]. intros _. right. now left.
Qed.

Lemma expectedCountOf_same n t : totalChunks t = n -> expectedCountOf (Some n) t = n.
Proof.
  intros H. unfold expectedCountOf. destruct (n =? 0) eqn:E; [|reflexivity].
  apply Z.eqb_eq in E. congruence.
Qed.

(** A transfer as the receiver sees it: [file-start], chunk frames whose
    indices are below [totalChunks], [file-end] with the same
    [totalChunks], more such frames during the wait. *)
Lemma assembly_in_range (peerId fid nm : string) (sz : Z) (mime : string) (total : Z)
        (frames : list ChunkFrame) (ticks : list (list ChunkFrame * Z))
        (now0 now1 now : Z) (m0 : Manager) :
  forallb (inRange total) frames = true ->
  ticksInRange total ticks = true ->
  let m1 := handleRelayData peerId (FileStart fid nm sz mime total) [] now0 m0 in
  let m2 := receiveFrames peerId frames now1 m1 in
  let m3 := handleRelayData peerId (FileEnd fid (Some total)) ticks now m2 in
  (exists t added,
      transferAtAssembly peerId (Some total) ticks now m2 = Some t
      /\ effects m3 = effects m2 ++ added
      /\ last added
         = Some (FileReceived peerId (name t)
                   (if truthy (mimeType t) then mimeType t
                    else "application/octet-stream")
                   (concat (map snd (orderedChunks total t))))
      /\ forall i, Z.of_nat i < total ->
           (count_occ Nat.eq_dec (map fst (orderedChunks total t)) i = 1%nat
            /\ ~ In i (missingChunks total t))
           \/ (count_occ Nat.eq_dec (map fst (orderedChunks total t)) i = 0%nat
               /\ In i (missingChunks total t)
               /\ In (LogMissing (missingChunks total t)) added))
  /\ (forall m t i data retry when,
         incomingTransfers m !! peerId = Some t ->
         fileId t = fid ->
         hasReceived t i = true ->
         let m' := handleRelayData peerId (Chunk fid (Some i) data retry) [] when m in
         incomingTransfers m' = incomingTransfers m
         /\ effects m' = effects (noteRelayMode peerId m)
                                 ++ [_sendChunkAck peerId fid [i]]).
Proof.
  intros Hframes Hticks m1 m2 m3. split.
  - assert (H1 : TrackedFor total peerId m1 /\ inRelayMode m1 peerId = true).
    { subst m1. unfold handleRelayData. cbn [dispatchRelayData]. split.
      - apply relayFileStart_tracked.
      - unfold inRelayMode. rewrite relayFileStart_relayMode.
        apply noteRelayMode_sets. }
    destruct H1 as [Htr1 Hrm1].
    destruct (receiveFrames_spec peerId total frames now1 m1 Hrm1 Hframes Htr1)
      as [(t0 & Hm2 & Ht0) Hrm2].
    fold m2 in Hm2, Hrm2.
    pose proof (expectedCountOf_same total t0 (proj1 Ht0)) as Hexp.
    destruct (fileEndWait_spec peerId total t0 total ticks now m2 Hticks Hm2 Ht0)
      as [(t & Hwait & Ht) (_ & _ & out & Hout & _)].
    destruct (fileEndAssemble_effects peerId total t
                (fileEndWait peerId t0 total ticks now m2)) as (log & Hlog & Hmissing).
    exists t, (out ++ log ++ [FileReceived peerId (name t)
                               (if truthy (mimeType t) then mimeType t
                                else "application/octet-stream")
                               (concat (map snd (orderedChunks total t)))]).
    split; [|split; [|split]].
    + unfold transferAtAssembly. now rewrite Hm2, Hexp.
    + subst m3. unfold handleRelayData. rewrite (noteRelayMode_id _ _ Hrm2).
      cbn [dispatchRelayData]. unfold relayFileEnd. rewrite Hm2. cbv zeta.
      rewrite Hexp, Hwait, Hlog, Hout. now rewrite <- app_assoc.
    + rewrite !app_assoc. apply last_snoc.
    + intros i Hi. destruct (assembled_or_missing total t i Ht Hi) as [H | (Hc & Hin & Hne)].
      * now left.
      * right. split; [exact Hc|]. split; [exact Hin|].
        apply in_or_app. right. apply in_or_app. left. now apply Hmissing.
  - intros m t i data retry when Hm Hfid Hdup m'. subst m'.
    unfold handleRelayData. cbn [dispatchRelayData]. unfold relayChunk.
    rewrite noteRelayMode_incoming, Hm. unfold receiveChunk.
    rewrite Hfid, String.eqb_refl. cbn [negb]. rewrite Hdup.
    project. split; [|reflexivity].
    rewrite noteRelayMode_incoming. now apply insert_id.
Qed.

(** The frames of the sample: chunk 0 arrives twice, chunk 1 while
    [file-end] waits; the file handed over has each chunk once. *)
Lemma late_chunk_is_assembled :
  let m1 := handleRelayData "alice" (FileStart "f1" "hello.bin" 5 "" 3) [] 0 receiver in
  let m2 := receiveFrames "alice" sampleFrames 10 m1 in
  let m3 := handleRelayData "alice" (FileEnd "f1" (Some 3)) lateTicks 1000 m2 in
  last (effects m3)
  = Some (FileReceived "alice" "hello.bin" "application/octet-stream" [1; 2; 3; 4; 5])
  /\ existsb (fun e => match e with LogMissing _ => true | _ => false end) (effects m3)
     = false.
Proof. vm_compute. split; reflexivity. Qed.

(** Without the late chunk the wait runs out: chunk 1 is logged as
    missing and the file handed over lacks it. *)
Lemma lost_chunk_is_reported :
  let m1 := handleRelayData "alice" (FileStart "f1" "hello.bin" 5 "" 3) [] 0 receiver in
  let m2 := receiveFrames "alice" sampleFrames 10 m1 in
  let m3 := handleRelayData "alice" (FileEnd "f1" (Some 3)) [([], 4100)] 1000 m2 in
  last (effects m3)
  = Some (FileReceived "alice" "hello.bin" "application/octet-stream" [1; 2; 5])
  /\ In (LogMissing [1%nat]) (effects m3).
Proof. vm_compute. split; [reflexivity|]. tauto. Qed.

Lemma framesOf_in_range n es :
  Forall (RelaySpec.chunkInRange n) es -> forallb (inRange n) (framesOf es) = true.
Proof.
  unfold framesOf. induction 1 as [|e es He _ IH]; [reflexivity|].
  cbn [flat_map]. rewrite forallb_app. apply andb_true_iff. split; [|exact IH].
  destruct e as [to [p| | | |]| | | | | | | | | | |]; try reflexivity.
  destruct p; try reflexivity.
  cbn in He. destruct He as (i & -> & Hi). cbn. rewrite andb_true_r. now apply Z.ltb_lt.
Qed.

(** What [_sendFileDataViaRelay] sends meets the condition on the frames:
    the indices are below the [totalChunks] it announces. *)
Lemma sender_frames_in_range cm g publicKey peerId f fileId now evs :
  forallb (inRange (Sender.totalChunks f))
          (framesOf (Sender.r_out
                       (Sender.r_run
                          (Sender._sendFileDataViaRelay cm g publicKey peerId f fileId now)
                          evs))) = true.
Proof. apply framesOf_in_range, RelaySenderProofs.relay_frames_in_range. Qed.

Lemma delivered_forallb (P : ChunkFrame -> bool) sent frames :
  forallb P sent = true -> delivered sent frames = true -> forallb P frames = true.
Proof.
  intros Hs Hd. apply forallb_forall. intros fr Hin.
  unfold delivered in Hd. rewrite forallb_forall in Hd. specialize (Hd fr Hin).
  apply bool_decide_eq_true_1 in Hd. rewrite forallb_forall in Hs.
  apply Hs. now apply list_elem_of_In.
Qed.

Lemma ticksDelivered_in_range n sent ticks :
  forallb (inRange n) sent = true -> ticksDelivered sent ticks = true ->
  ticksInRange n ticks = true.
Proof.
  intros Hs Hd. unfold ticksInRange, ticksDelivered in *.
  apply forallb_forall. intros tick Hin. rewrite forallb_forall in Hd.
  exact (delivered_forallb _ sent _ Hs (Hd tick Hin)).
Qed.

(** C4. A relay transfer: the sender runs [_sendFileDataViaRelay] on a
    file, under any schedule of acknowledgements and wake-ups; the
    receiver gets the [file-start] of that file, then chunk frames that
    the sender has sent (any of them, in any order, any number of times),
    then the [file-end], and more such frames during the wait of at most
    3 seconds.  The handler of [file-end] ends by handing over the stored
    chunks in index order, and for every index below [totalChunks] either
    the index occurs exactly once among them, or it does not occur and is
    in the list of missing chunks that is logged.  A chunk frame for an
    index that is already marked as received leaves the transfers as they
    are and is answered with an acknowledgement of that index. *)
Theorem relay_assembly (cm : CryptoManager) (g : Rng) (publicKey to : string)
        (f : Sender.File) (fid : string) (sentAt : Z) (evs : list Sender.RelayEvent)
        (peerId : string) (frames : list ChunkFrame) (ticks : list (list ChunkFrame * Z))
        (now0 now1 now : Z) (m0 : Manager) :
  delivered (sentFrames cm g publicKey to f fid sentAt evs) frames = true ->
  ticksDelivered (sentFrames cm g publicKey to f fid sentAt evs) ticks = true ->
  let total := Sender.totalChunks f in
  let m1 :=
    handleRelayData peerId
      (FileStart fid (Sender.name f) (Sender.fileSize f) (Sender.mimeType f) total)
      [] now0 m0 in
  let m2 := receiveFrames peerId frames now1 m1 in
  let m3 := handleRelayData peerId (FileEnd fid (Some total)) ticks now m2 in
  (exists t added,
      transferAtAssembly peerId (Some total) ticks now m2 = Some t
      /\ effects m3 = effects m2 ++ added
      /\ last added
         = Some (FileReceived peerId (name t)
                   (if truthy (mimeType t) then mimeType t
                    else "application/octet-stream")
                   (concat (map snd (orderedChunks total t))))
      /\ forall i, Z.of_nat i < total ->
           (count_occ Nat.eq_dec (map fst (orderedChunks total t)) i = 1%nat
            /\ ~ In i (missingChunks total t))
           \/ (count_occ Nat.eq_dec (map fst (orderedChunks total t)) i = 0%nat
               /\ In i (missingChunks total t)
               /\ In (LogMissing (missingChunks total t)) added))
  /\ (forall m t i data retry when,
         incomingTransfers m !! peerId = Some t ->
         fileId t = fid ->
         hasReceived t i = true ->
         let m' := handleRelayData peerId (Chunk fid (Some i) data retry) [] when m in
         incomingTransfers m' = incomingTransfers m
         /\ effects m' = effects (noteRelayMode peerId m)
                                 ++ [_sendChunkAck peerId fid [i]]).
Proof.
  intros Hframes Hticks total.
  pose proof (sender_frames_in_range cm g publicKey to f fid sentAt evs) as Hsent.
  apply assembly_in_range.
  - exact (delivered_forallb _ _ _ Hsent Hframes).
  - exact (ticksDelivered_in_range _ _ _ Hsent Hticks).
Qed.

Lemma relay_assembly_witness :
  let m1 := handleRelayData "alice" (FileStart "f1" "hello.bin" 3 "application/octet-stream" 1)
                            [] 0 receiver in
  let m2 := receiveFrames "alice" (sentSmall ++ sentSmall) 10 m1 in
  delivered sentSmall (sentSmall ++ sentSmall) = true
  /\ ticksDelivered sentSmall [] = true
  /\ exists t,
      transferAtAssembly "alice" (Some 1) [] 1000 m2 = Some t
      /\ forall i, Z.of_nat i < 1 ->
           count_occ Nat.eq_dec (map fst (orderedChunks 1 t)) i = 1%nat
           \/ In i (missingChunks 1 t).
Proof.
  intros m1 m2. split; [vm_compute; reflexivity|]. split; [reflexivity|].
  destruct (relay_assembly Spec.alice Spec.sampleRng "pk" "bob" Spec.smallFile "f1" 0 []
                           "alice" (sentSmall ++ sentSmall) [] 0 10 1000 receiver)
    as [(t & added & Ht & _ & _ & Hi) _]; [vm_compute; reflexivity | reflexivity|].
  exists t. split; [exact Ht|]. intros i Hlt.
  destruct (Hi i Hlt) as [[H _] | (_ & H & _)]; [now left | now right].
Defined.

(** The chunk that [alice] sends, delivered twice, is handed over once. *)
Lemma repeated_chunk_is_assembled_once :
  let m1 := handleRelayData "alice" (FileStart "f1" "hello.bin" 3 "application/octet-stream" 1)
                            [] 0 receiver in
  let m2 := receiveFrames "alice" (sentSmall ++ sentSmall) 10 m1 in
  let m3 := handleRelayData "alice" (FileEnd "f1" (Some 1)) [] 1000 m2 in
  length sentSmall = 1%nat
  /\ last (effects m3)
     = Some (FileReceived "alice" "hello.bin" "application/octet-stream" [1; 2; 3]).
Proof. vm_compute. split; reflexivity. Qed.
End ReceiverProofs.

(** ** The connection engine: the switches to relay mode, the fallback timer *)

Module EngineProofs.
Import Js Config Crypto Wire WebRTC ReceiverSpec EngineSpec.
Local Open Scope string_scope.
Local Open Scope list_scope.
Local Open Scope Z_scope.

(** Reduces the field updates on a manager given by its fields. *)
Ltac fields :=
  cbn [crypto relayMode candidateTypes connectionQuality connections iceRestartCounts
       disconnectedTimers connectionRacing races raceResult timers nextTimerId
       p2pRetryTimers p2pRetryAttempts incomingTransfers activeTransfers effects
       withRelayMode withCandidateTypes withConnectionQuality withConnections
       withIceRestartCounts withDisconnectedTimers withConnectionRacing withRaces
       withRaceResult withTimers withNextTimerId withP2pRetryTimers
       withP2pRetryAttempts withIncomingTransfers withActiveTransfers withEffects
       emit emitAll _notifyConnectionState] in *.

Ltac untouched :=
  repeat split; fields; rewrite <- ?app_assoc; try reflexivity.

Lemma untouched_refl m : Untouched m m [].
Proof. repeat split. now rewrite app_nil_r. Qed.

Lemma untouched_trans a b c o1 o2 :
  Untouched a b o1 -> Untouched b c o2 -> Untouched a c (o1 ++ o2).
Proof.
  intros (A1 & A2 & A3 & A4 & A5 & A6) (B1 & B2 & B3 & B4 & B5 & B6).
  repeat split; try congruence. now rewrite B6, A6, <- app_assoc.
Qed.

(** **** The branches of [handleRelayData] *)

Lemma relayChunk_untouched peerId fid index data m :
  exists out, Untouched m (relayChunk peerId fid index data m) out.
Proof.
  unfold relayChunk. destruct (incomingTransfers m !! peerId) as [t|].
  - destruct (receiveChunk _ _ _ _ _ _) as [t' out]. exists out.
    destruct m. untouched.
  - exists []. apply untouched_refl.
Qed.

Lemma relayChunks_untouched peerId frames m :
  exists out, Untouched m (relayChunks peerId frames m) out.
Proof.
  unfold relayChunks. revert m.
  induction frames as [|f frames IH]; intros m; [exists []; apply untouched_refl|].
  cbn [fold_left].
  destruct (relayChunk_untouched peerId (fst (fst f)) (snd (fst f)) (snd f) m) as (o1 & H1).
  destruct (IH (relayChunk peerId (fst (fst f)) (snd (fst f)) (snd f) m)) as (o2 & H2).
  exists (o1 ++ o2). eapply untouched_trans; eassumption.
Qed.

Lemma awaitMissing_untouched peerId expected waitStart ticks m :
  exists out, Untouched m (awaitMissing peerId expected waitStart ticks m) out.
Proof.
  revert m. induction ticks as [|[frames now] ticks IH]; intros m;
    [exists []; apply untouched_refl|].
  cbn [awaitMissing].
  destruct (relayChunks_untouched peerId frames m) as (o1 & H1).
  destruct (_ || _); [now exists o1|].
  destruct (IH (relayChunks peerId frames m)) as (o2 & H2).
  exists (o1 ++ o2). eapply untouched_trans; eassumption.
Qed.

Lemma fileEndWait_untouched peerId t0 expected ticks now m :
  exists out, Untouched m (fileEndWait peerId t0 expected ticks now m) out.
Proof.
  unfold fileEndWait.
  set (m1 := match pendingAcks t0 with Some (a :: l) => _ | _ => m end).
  assert (H1 : exists out, Untouched m m1 out).
  { subst m1. destruct (pendingAcks t0) as [[|a l]|];
      try (exists []; apply untouched_refl).
    eexists. destruct m. untouched. }
  destruct H1 as (o1 & H1).
  destruct (_ <? _); [|now exists o1].
  destruct (awaitMissing_untouched peerId expected now ticks m1) as (o2 & H2).
  exists (o1 ++ o2). eapply untouched_trans; eassumption.
Qed.

Lemma fileEndAssemble_untouched peerId n t m :
  exists out, Untouched m (fileEndAssemble peerId n t m) out.
Proof.
  unfold fileEndAssemble. cbv zeta.
  destruct (_ =? n); destruct (_ =? size t); eexists; destruct m; untouched.
Qed.

Lemma relayFileEnd_untouched peerId total ticks now m :
  exists out, Untouched m (relayFileEnd peerId total ticks now m) out.
Proof.
  unfold relayFileEnd.
  destruct (incomingTransfers m !! peerId) as [t0|]; [|exists []; apply untouched_refl].
  cbv zeta.
  destruct (fileEndWait_untouched peerId t0 (expectedCountOf total t0) ticks now m)
    as (o1 & H1).
  destruct (incomingTransfers _ !! peerId) as [t|]; [|now exists o1].
  destruct (fileEndAssemble_untouched peerId (expectedCountOf total t0) t
              (fileEndWait peerId t0 (expectedCountOf total t0) ticks now m)) as (o2 & H2).
  exists (o1 ++ o2). eapply untouched_trans; eassumption.
Qed.

Lemma relayFileStart_untouched peerId fid nm sz mime total now m :
  exists out, Untouched m (relayFileStart peerId fid nm sz mime total now m) out.
Proof.
  unfold relayFileStart. eexists.
  destruct (incomingTransfers m !! peerId) as [t|];
    [destruct (confirmed t && String.eqb (fileId t) fid);
     [|destruct (truthy (fileId t))]|];
    destruct m; untouched.
Qed.

Lemma handleFileCancel_untouched peerId fid reason m :
  exists out, Untouched m (handleFileCancel peerId fid reason m) out.
Proof.
  unfold handleFileCancel. cbv zeta. eexists.
  destruct m. fields.
  repeat match goal with
         | |- context [match ?x !! ?k with _ => _ end] => destruct (x !! k); fields
         | |- context [match ?a with Sending _ _ => _ | Receiving _ _ => _ end] =>
             destruct a; fields
         | |- context [if ?c then _ else _] => destruct c; fields
         end; untouched.
Qed.

Lemma handleRelayAck_untouched fid acks now m :
  exists out, Untouched m (handleRelayAck fid acks now m) out.
Proof.
  unfold handleRelayAck. exists [].
  destruct (activeTransfers m !! fid) as [[p t | p c]|]; try apply untouched_refl.
  destruct m. untouched. now rewrite app_nil_r.
Qed.

Lemma dispatch_untouched peerId data ticks now m :
  exists out, Untouched m (dispatchRelayData peerId data ticks now m) out.
Proof.
  destruct data; cbn [dispatchRelayData].
  - apply relayFileStart_untouched.
  - apply relayChunk_untouched.
  - apply relayFileEnd_untouched.
  - apply handleRelayAck_untouched.
  - apply handleFileCancel_untouched.
  - eexists. destruct m. untouched.
  - exists []. apply untouched_refl.
Qed.

(** **** The two switches to relay mode *)

Lemma noteRelayMode_untouched_but_mode peerId m :
  inRelayMode m peerId = false ->
  relayMode (noteRelayMode peerId m) = <[peerId := true]> (relayMode m)
  /\ timers (noteRelayMode peerId m) = timers m
  /\ nextTimerId (noteRelayMode peerId m) = nextTimerId m
  /\ p2pRetryTimers (noteRelayMode peerId m) = p2pRetryTimers m
  /\ p2pRetryAttempts (noteRelayMode peerId m) = p2pRetryAttempts m
  /\ effects (noteRelayMode peerId m) = effects m ++ [Notify peerId Relay None].
Proof.
  intros H. unfold noteRelayMode. rewrite H. destruct m. untouched.
Qed.

(** The switch of the sending side, [_switchToRelay], arms the timer of
    the background retry. *)
Lemma switchToRelay_starts_retry peerId message silent now m :
  inRelayMode m peerId = false ->
  let m' := _switchToRelay peerId message silent now m in
  p2pRetryTimers m' !! peerId = Some (nextTimerId m)
  /\ p2pRetryAttempts m' !! peerId = Some 0
  /\ In {| timerId := nextTimerId m; fireAt := now + P2P_RETRY_INITIAL_DELAY;
           action := P2PRetry peerId |} (timers m').
Proof.
  intros H m'. subst m'. unfold _switchToRelay. rewrite H. cbv zeta.
  set (m3 := if bool_decide _ then _ else _).
  assert (H3 : nextTimerId m3 = nextTimerId m).
  { subst m3. destruct m as [a b c d e f0 g h i j k l n o p q r]. fields.
    destruct (bool_decide _); [|reflexivity].
    destruct (i !! peerId) as [racing|]; [|reflexivity].
    destruct (resolved racing); reflexivity. }
  rewrite <- H3. clear H3 H. generalize m3 as x. clear. intros x.
  unfold _startBackgroundP2PRetry, _stopBackgroundP2PRetry, setTimeout, clearTimeout.
  destruct x as [a b c d e f0 g h i j k l n o p q r]. fields.
  destruct (n !! peerId) as [id|]; [destruct (0 <? id)%nat|]; fields;
    (split; [apply lookup_insert_eq|]; split; [apply lookup_insert_eq|];
     apply in_or_app; right; now left).
Qed.

(** C10. A [relay-data] frame from a peer that is not marked as being in
    relay mode: [handleRelayData] marks the peer, notifies the observer of
    the connection state with status [relay] and no message, and only then
    handles the payload, whose effects follow the notification.  The
    timers and the maps of the background retry are as they were, so no
    retry has been scheduled. *)
Theorem relay_data_switches_receiver (peerId : string) (data : Payload)
        (ticks : list (list ChunkFrame * Z)) (now : Z) (m : Manager) :
  inRelayMode m peerId = false ->
  let switched := noteRelayMode peerId m in
  let m' := handleRelayData peerId data ticks now m in
  (relayMode switched = <[peerId := true]> (relayMode m)
   /\ effects switched = effects m ++ [Notify peerId Relay None]
   /\ m' = dispatchRelayData peerId data ticks now switched)
  /\ inRelayMode m' peerId = true
  /\ (exists payloadEffects,
        effects m' = effects m ++ Notify peerId Relay None :: payloadEffects)
  /\ timers m' = timers m
  /\ nextTimerId m' = nextTimerId m
  /\ p2pRetryTimers m' = p2pRetryTimers m
  /\ p2pRetryAttempts m' = p2pRetryAttempts m.
Proof.
  intros H switched m'.
  destruct (noteRelayMode_untouched_but_mode peerId m H)
    as (S1 & S2 & S3 & S4 & S5 & S6).
  destruct (dispatch_untouched peerId data ticks now switched)
    as (out & D1 & D2 & D3 & D4 & D5 & D6).
  fold switched in S1, S2, S3, S4, S5, S6.
  change m' with (dispatchRelayData peerId data ticks now switched).
  split; [now repeat split|]. split.
  - unfold inRelayMode. rewrite D1, S1. now rewrite lookup_insert_eq.
  - split; [exists out; rewrite D6, S6; now rewrite <- app_assoc|].
    repeat split; congruence.
Qed.

Lemma relay_data_switches_receiver_witness :
  let m' := handleRelayData "alice" (TextMessage "hi") [] 0 receiver in
  inRelayMode receiver "alice" = false
  /\ inRelayMode m' "alice" = true
  /\ timers m' = timers receiver
  /\ p2pRetryTimers m' = p2pRetryTimers receiver.
Proof.
  intros m'.
  destruct (relay_data_switches_receiver "alice" (TextMessage "hi") [] 0 receiver)
    as (_ & Hmode & _ & Htimers & _ & Hretry & _); [reflexivity|].
  split; [reflexivity|]. split; [exact Hmode|]. split; [exact Htimers | exact Hretry].
Defined.

(** **** Gathering *)










(** **** The decision when the fallback timer fires *)


Lemma clearTimeout_keeps id peerId m :
  inRelayMode (clearTimeout id m) peerId = inRelayMode m peerId
  /\ isResolved (clearTimeout id m) peerId = isResolved m peerId
  /\ _shouldFastFallback (clearTimeout id m) peerId = _shouldFastFallback m peerId
  /\ _hasP2PProgress (clearTimeout id m) peerId = _hasP2PProgress m peerId
  /\ raceResult (clearTimeout id m) = raceResult m
  /\ effects (clearTimeout id m) = effects m
  /\ relayMode (clearTimeout id m) = relayMode m.
Proof.
  unfold clearTimeout, inRelayMode, isResolved, _shouldFastFallback, _hasP2PProgress.
  destruct m. fields. now repeat split.
Qed.

(** What [_switchToRelay] followed by the settling of the race leaves. *)
Lemma switch_and_settle peerId message now m :
  inRelayMode m peerId = false ->
  raceResult m !! peerId = None ->
  let m' := settle peerId ViaRelay (_switchToRelay peerId (Some message) false now m) in
  inRelayMode m' peerId = true
  /\ raceResult m' !! peerId = Some ViaRelay
  /\ effects m' = effects m ++ [Notify peerId Relay (Some message)].
Proof.
  intros Hmode Hres m'. subst m'. unfold _switchToRelay. rewrite Hmode. cbv zeta.
  set (m3 := if bool_decide _ then _ else _).
  assert (H3 : relayMode m3 = <[peerId := true]> (relayMode m)
               /\ raceResult m3 = raceResult m
               /\ effects m3 = effects m ++ [Notify peerId Relay (Some message)]).
  { subst m3. destruct m as [a b c d e f0 g h i j k l n o p q r]. fields.
    destruct (bool_decide _); [|now repeat split].
    destruct (i !! peerId) as [racing|]; [|now repeat split].
    destruct (resolved racing); now repeat split. }
  destruct H3 as (R3 & S3 & E3). clear Hmode.
  revert R3 S3 E3. generalize m3 as x. clear m3. intros x R3 S3 E3.
  unfold _startBackgroundP2PRetry, _stopBackgroundP2PRetry, setTimeout, clearTimeout,
    settle, inRelayMode.
  destruct x as [a b c d e f0 g h i j k l n o p q r]. fields.
  destruct (n !! peerId) as [id|]; [destruct (0 <? id)%nat|]; fields;
    rewrite S3, Hres; fields; rewrite R3, !lookup_insert_eq;
    (split; [reflexivity|]; split; [reflexivity | exact E3]).
Qed.






(** The state that [ensureConnection] leaves meets the conditions under
    which the decision is analysed. *)
Lemma started_open peerId now m :
  inRelayMode m peerId = false ->
  candidateTypes m !! peerId = None ->
  let s := started peerId now m in
  inRelayMode s peerId = false
  /\ races s !! peerId
     = Some {| resolved := false; winner := None; slowTimer := nextTimerId m;
               fallbackTimer := S (nextTimerId m);
               ultimateTimer := S (S (nextTimerId m)) |}
  /\ raceResult s !! peerId = None
  /\ candidateTypes s !! peerId = Some ∅
  /\ connections s !! peerId = Some {| iceConnectionState := IceNew |}
  /\ In {| timerId := S (nextTimerId m); fireAt := now + FAST_FALLBACK_TIMEOUT;
           action := FastFallback peerId |} (timers s).
Proof.
  intros Hmode Htypes s. subst s.
  unfold started, createConnection, _raceP2PWithFallback, setTimeout, inRelayMode in *.
  destruct m as [a b c d e f0 g h i j k l n o p q r]. fields.
  rewrite Htypes. fields. rewrite !lookup_insert_eq, lookup_delete_eq.
  repeat split; try assumption.
  rewrite <- !app_assoc. apply in_or_app. right. right. now left.
Qed.
End EngineProofs.

Module WorkerMore.
Import Js Worker Spec MoreSpec WorkerProofs.
Local Open Scope string_scope.
Local Open Scope list_scope.

(** **** Letter case *)

Ltac by_cases c := destruct c as [[] [] [] [] [] [] [] []]; vm_compute; reflexivity.

Lemma lowerChar_upperChar c : lowerChar (upperChar c) = lowerChar c.
Proof. by_cases c. Qed.

Lemma upperChar_lowerChar c : upperChar (lowerChar c) = upperChar c.
Proof. by_cases c. Qed.

Lemma upperChar_idem c : upperChar (upperChar c) = upperChar c.
Proof. by_cases c. Qed.

Lemma isAlnum_upperChar c : isAlnum (upperChar c) = isAlnum c.
Proof. by_cases c. Qed.

Lemma mapString_mapString f g s : mapString f (mapString g s) = mapString (fun c => f (g c)) s.
Proof. induction s as [|c s IH]; cbn; [reflexivity | now rewrite IH]. Qed.

Lemma mapString_ext f g s : (forall c, f c = g c) -> mapString f s = mapString g s.
Proof. intros H. induction s as [|c s IH]; cbn; [reflexivity | now rewrite H, IH]. Qed.

Lemma toLowerCase_toUpperCase s : toLowerCase (toUpperCase s) = toLowerCase s.
Proof.
  unfold toLowerCase, toUpperCase. rewrite mapString_mapString.
  apply mapString_ext, lowerChar_upperChar.
Qed.

Lemma toUpperCase_toLowerCase s : toUpperCase (toLowerCase s) = toUpperCase s.
Proof.
  unfold toLowerCase, toUpperCase. rewrite mapString_mapString.
  apply mapString_ext, upperChar_lowerChar.
Qed.

Lemma toUpperCase_idem s : toUpperCase (toUpperCase s) = toUpperCase s.
Proof.
  unfold toUpperCase. rewrite mapString_mapString. apply mapString_ext, upperChar_idem.
Qed.

Lemma alnum_toUpperCase s :
  forallb isAlnum (list_ascii_of_string (toUpperCase s))
  = forallb isAlnum (list_ascii_of_string s).
Proof.
  induction s as [|c s IH]; [reflexivity|].
  cbn [toUpperCase mapString list_ascii_of_string forallb].
  fold (toUpperCase s). now rewrite isAlnum_upperChar, IH.
Qed.

Lemma isRoomCodeFormat_toUpperCase s :
  isRoomCodeFormat (toUpperCase s) = isRoomCodeFormat s.
Proof.
  unfold isRoomCodeFormat. rewrite alnum_toUpperCase.
  unfold toUpperCase. now rewrite mapString_length.
Qed.

Lemma format_truthy s : isRoomCodeFormat s = true -> truthy s = true.
Proof. destruct s; [discriminate | reflexivity]. Qed.

(** **** Hexadecimal digits *)

Lemma hexDigit_alnum n : (0 <= n < 16)%Z -> isAlnum (hexDigit n) = true.
Proof.
  intros H.
  assert (Hn : In n (map Z.of_nat (seq 0 16))).
  { apply in_map_iff. exists (Z.to_nat n). split; [lia | apply in_seq; lia]. }
  cbn in Hn. repeat (destruct Hn as [<- | Hn]; [reflexivity|]). destruct Hn.
Qed.

Lemma hexOfBytes_alnum bs :
  Forall isByte bs -> forallb isAlnum (list_ascii_of_string (hexOfBytes bs)) = true.
Proof.
  induction 1 as [|b bs Hb _ IH]; [reflexivity|].
  cbn [hexOfBytes]. unfold hexByte. rewrite !append_cons, append_nil.
  cbn [list_ascii_of_string forallb]. unfold isByte in Hb.
  rewrite !hexDigit_alnum, IH; [reflexivity | |].
  - pose proof (Z.mod_pos_bound b 16). lia.
  - split; [apply Z.div_pos; lia | apply Z.div_lt_upper_bound; lia].
Qed.

Lemma beBytes_bytes n x : Forall isByte (Sha256.beBytes n x).
Proof.
  induction n as [|n IH]; cbn; constructor; [|exact IH].
  unfold isByte. apply Z.mod_pos_bound. lia.
Qed.

(** The bytes of a digest are bytes. *)
Lemma digest_bytes msg : Forall isByte (Sha256.digest msg).
Proof.
  unfold Sha256.digest. generalize (fold_left Sha256.compress
                                      (Sha256.blocks (Sha256.pad msg)) Sha256.H0).
  intros ws. induction ws as [|w ws IH]; cbn [flat_map]; [constructor|].
  apply Forall_app. split; [apply beBytes_bytes | exact IH].
Qed.

Lemma substring0_forallb (P : ascii -> bool) n s :
  forallb P (list_ascii_of_string s) = true ->
  forallb P (list_ascii_of_string (substring0 n s)) = true.
Proof.
  unfold substring0. revert s. induction n as [|n IH]; intros s H.
  - destruct s; reflexivity.
  - destruct s as [|c s]; [reflexivity|].
    cbn [String.substring list_ascii_of_string forallb] in *.
    apply andb_true_iff in H as [Hc Hs]. now rewrite Hc, IH.
Qed.

(** **** The room code has the format of a room code *)

Lemma roomCodeOf_format req code :
  roomCodeOf req = Some code -> isRoomCodeFormat code = true.
Proof.
  destruct (validExplicitRoom req) eqn:Hv.
  - unfold roomCodeOf. rewrite Hv. unfold validExplicitRoom in Hv.
    destruct (roomParam req) as [r|]; [|discriminate].
    intros [= <-]. rewrite isRoomCodeFormat_toUpperCase.
    now apply andb_true_iff in Hv as [_ Hv].
  - intros H. pose proof (roomCodeOf_auto_length req code Hv H) as Hlen.
    rewrite (roomCodeOf_auto req Hv) in H.
    destruct (networkPart (clientIP req)) as [np|]; [|discriminate].
    injection H as <-. unfold isRoomCodeFormat. rewrite Hlen, alnum_toUpperCase.
    cbn [Nat.eqb andb]. apply substring0_forallb, hexOfBytes_alnum, digest_bytes.
Qed.

Lemma roomCodeOf_upper req code : roomCodeOf req = Some code -> toUpperCase code = code.
Proof.
  unfold roomCodeOf. destruct (validExplicitRoom req).
  - destruct (roomParam req); [|discriminate]. intros [= <-]. apply toUpperCase_idem.
  - destruct (generateRoomId (clientIP req)); [|discriminate].
    intros [= <-]. apply toUpperCase_idem.
Qed.

Lemma handleWebSocket_code req routing :
  handleWebSocket req = Some routing ->
  roomCodeOf req = Some (xRoomCode routing)
  /\ roomId routing = ("room-" ++ toLowerCase (xRoomCode routing))%string.
Proof.
  unfold handleWebSocket. destruct (roomCodeOf req) as [code|]; [|discriminate].
  intros [= <-]. now split.
Qed.

Lemma explicit_roomCode req r :
  roomParam req = Some r -> isRoomCodeFormat r = true ->
  roomCodeOf req = Some (toUpperCase r).
Proof.
  intros Hr Hf. unfold roomCodeOf, validExplicitRoom. rewrite Hr, Hf, (format_truthy r Hf).
  reflexivity.
Qed.

(** X1. Two clients that name no room and whose IPv4 addresses share the
    first three octets are sent to the same room, whatever the last
    octets; so are two clients whose full-form IPv6 addresses share the
    first four groups.  (Loopback addresses are apart: they go to the
    room of [localhost].) *)
Theorem same_network_same_room :
  (forall (req1 req2 : ConnectRequest) (a b c d1 d2 : string),
      validExplicitRoom req1 = false -> validExplicitRoom req2 = false ->
      clientIP req1 = join "." [a; b; c; d1] ->
      clientIP req2 = join "." [a; b; c; d2] ->
      forallb isGroup [a; b; c; d1; d2] = true ->
      isSpecial (clientIP req1) = false -> isSpecial (clientIP req2) = false ->
      exists code,
        roomCodeOf req1 = Some code /\ roomCodeOf req2 = Some code
        /\ option_map roomId (handleWebSocket req1)
           = option_map roomId (handleWebSocket req2))
  /\ (forall (req1 req2 : ConnectRequest) (prefix rest1 rest2 : list string),
         validExplicitRoom req1 = false -> validExplicitRoom req2 = false ->
         clientIP req1 = join ":" (prefix ++ rest1) ->
         clientIP req2 = join ":" (prefix ++ rest2) ->
         length prefix = 4%nat ->
         forallb isGroup (prefix ++ rest1 ++ rest2) = true ->
         isSpecial (clientIP req1) = false -> isSpecial (clientIP req2) = false ->
         exists code,
           roomCodeOf req1 = Some code /\ roomCodeOf req2 = Some code
           /\ option_map roomId (handleWebSocket req1)
              = option_map roomId (handleWebSocket req2)).
Proof.
  split.
  - intros req1 req2 a b c d1 d2 V1 V2 I1 I2 Hg S1 S2.
    cbn [forallb] in Hg. repeat (apply andb_true_iff in Hg as [? Hg]).
    assert (N1 : networkPart (clientIP req1) = Some (join "." [a; b; c])).
    { rewrite I1 in *. apply networkPart_spec, np_ipv4; [|exact S1].
      cbn [forallb]. now rewrite H, H0, H1, H2. }
    assert (N2 : networkPart (clientIP req2) = Some (join "." [a; b; c])).
    { rewrite I2 in *. apply networkPart_spec, np_ipv4; [|exact S2].
      cbn [forallb]. now rewrite H, H0, H1, H3. }
    eexists. unfold handleWebSocket.
    rewrite (roomCodeOf_auto req1 V1), (roomCodeOf_auto req2 V2), N1, N2.
    repeat split.
  - intros req1 req2 prefix rest1 rest2 V1 V2 I1 I2 Hlen Hg S1 S2.
    rewrite !forallb_app in Hg. apply andb_true_iff in Hg as [Hp Hg].
    apply andb_true_iff in Hg as [Hr1 Hr2].
    assert (Hcut : forall rest,
               firstn 4 (map (padStart0 4) (prefix ++ rest)) = map (padStart0 4) prefix).
    { intros rest. rewrite map_app, firstn_app, length_map, Hlen.
      rewrite firstn_all2 by (rewrite length_map; lia). cbn. apply app_nil_r. }
    assert (Hne : forall rest, prefix ++ rest <> []).
    { intros rest E. apply (f_equal (@length string)) in E.
      rewrite length_app, Hlen in E. cbn in E. lia. }
    assert (N1 : networkPart (clientIP req1) = Some (join ":" (map (padStart0 4) prefix))).
    { rewrite I1 in *. rewrite <- (Hcut rest1).
      apply networkPart_spec, np_ipv6; [apply Hne | | exact S1].
      rewrite forallb_app. now rewrite Hp, Hr1. }
    assert (N2 : networkPart (clientIP req2) = Some (join ":" (map (padStart0 4) prefix))).
    { rewrite I2 in *. rewrite <- (Hcut rest2).
      apply networkPart_spec, np_ipv6; [apply Hne | | exact S2].
      rewrite forallb_app. now rewrite Hp, Hr2. }
    eexists. unfold handleWebSocket.
    rewrite (roomCodeOf_auto req1 V1), (roomCodeOf_auto req2 V2), N1, N2.
    repeat split.
Qed.

Lemma same_network_same_room_witness :
  (exists code,
      roomCodeOf (requestFrom "192.168.1.5") = Some code
      /\ roomCodeOf (requestFrom "192.168.1.77") = Some code
      /\ option_map roomId (handleWebSocket (requestFrom "192.168.1.5"))
         = option_map roomId (handleWebSocket (requestFrom "192.168.1.77")))
  /\ (exists code,
         roomCodeOf (requestFrom "2001:db8:0:1:a:b:c:d") = Some code
         /\ roomCodeOf (requestFrom "2001:db8:0:1:1:2:3:4") = Some code
         /\ option_map roomId (handleWebSocket (requestFrom "2001:db8:0:1:a:b:c:d"))
            = option_map roomId (handleWebSocket (requestFrom "2001:db8:0:1:1:2:3:4"))).
Proof.
  destruct same_network_same_room as [H4 H6]. split.
  - apply (H4 (requestFrom "192.168.1.5") (requestFrom "192.168.1.77")
              "192" "168" "1" "5" "77"); reflexivity.
  - apply (H6 (requestFrom "2001:db8:0:1:a:b:c:d") (requestFrom "2001:db8:0:1:1:2:3:4")
              ["2001"; "db8"; "0"; "1"] ["a"; "b"; "c"; "d"] ["1"; "2"; "3"; "4"]);
      reflexivity.
Defined.

Lemma isAlnum_lowerChar c : isAlnum (lowerChar c) = isAlnum c.
Proof. by_cases c. Qed.

Lemma isRoomCodeFormat_toLowerCase s :
  isRoomCodeFormat (toLowerCase s) = isRoomCodeFormat s.
Proof.
  unfold isRoomCodeFormat, toLowerCase. rewrite mapString_length. f_equal.
  induction s as [|c s IH]; [reflexivity|].
  cbn [mapString list_ascii_of_string forallb]. now rewrite isAlnum_lowerChar, IH.
Qed.

(** X2. A request that names a room in the room-code format is sent to
    the room named [room-] followed by the code in lower case, and is
    told the code in upper case, whatever the client address; two such
    requests whose codes differ only in the case of their letters reach
    the same room. *)
Theorem explicit_room_ignores_case (req1 req2 : ConnectRequest) (r1 r2 : string) :
  roomParam req1 = Some r1 -> roomParam req2 = Some r2 ->
  isRoomCodeFormat r1 = true ->
  toLowerCase r2 = toLowerCase r1 ->
  exists g1 g2,
    handleWebSocket req1 = Some g1 /\ handleWebSocket req2 = Some g2
    /\ roomId g1 = ("room-" ++ toLowerCase r1)%string
    /\ xRoomCode g1 = toUpperCase r1
    /\ roomId g2 = roomId g1
    /\ xRoomCode g2 = xRoomCode g1.
Proof.
  intros H1 H2 Hf Hcase.
  assert (Hf2 : isRoomCodeFormat r2 = true).
  { rewrite <- isRoomCodeFormat_toLowerCase, Hcase, isRoomCodeFormat_toLowerCase.
    exact Hf. }
  assert (Hup : toUpperCase r2 = toUpperCase r1).
  { rewrite <- (toUpperCase_toLowerCase r2), Hcase. apply toUpperCase_toLowerCase. }
  unfold handleWebSocket.
  rewrite (explicit_roomCode req1 r1 H1 Hf), (explicit_roomCode req2 r2 H2 Hf2), Hup.
  eexists. eexists. repeat split. cbn [roomId].
  now rewrite toLowerCase_toUpperCase.
Qed.

Lemma explicit_room_ignores_case_witness :
  exists g1 g2,
    handleWebSocket (requestFor "abC23x" "10.0.0.1") = Some g1
    /\ handleWebSocket (requestFor "ABc23X" "192.168.1.5") = Some g2
    /\ roomId g1 = "room-abc23x"
    /\ xRoomCode g1 = "ABC23X"
    /\ roomId g2 = roomId g1
    /\ xRoomCode g2 = xRoomCode g1.
Proof.
  apply (explicit_room_ignores_case (requestFor "abC23x" "10.0.0.1")
           (requestFor "ABc23X" "192.168.1.5") "abC23x" "ABc23X"); reflexivity.
Defined.

(** X3. Whatever room code [handleWebSocket] settles on, from an explicit
    room or from the client address, it has the format of a room code, and
    a later request that names this code, from any address, is sent to
    the same room and told the same code. *)
Theorem displayed_code_reaches_room (req req' : ConnectRequest) (routing : RoomRouting) :
  handleWebSocket req = Some routing ->
  roomParam req' = Some (xRoomCode routing) ->
  isRoomCodeFormat (xRoomCode routing) = true
  /\ exists routing',
      handleWebSocket req' = Some routing'
      /\ roomId routing' = roomId routing
      /\ xRoomCode routing' = xRoomCode routing.
Proof.
  intros H Hr. destruct (handleWebSocket_code req routing H) as [Hc Hid].
  pose proof (roomCodeOf_format req _ Hc) as Hf.
  split; [exact Hf|].
  unfold handleWebSocket. rewrite (explicit_roomCode req' _ Hr Hf).
  rewrite (roomCodeOf_upper req _ Hc). eexists. split; [reflexivity|].
  split; [now rewrite Hid | reflexivity].
Qed.

Lemma displayed_code_reaches_room_witness :
  isRoomCodeFormat "261B83" = true
  /\ exists routing',
      handleWebSocket (requestFor "261B83" "10.9.8.7") = Some routing'
      /\ roomId routing' = "room-261b83"
      /\ xRoomCode routing' = "261B83".
Proof.
  apply (displayed_code_reaches_room (requestFrom "192.168.1.5")
           (requestFor "261B83" "10.9.8.7")
           {| roomId := "room-261b83"; xRoomCode := "261B83"; xRoomPasswordHash := None |});
    [vm_compute; reflexivity | reflexivity].
Defined.

Lemma expandIPv6_overflow ls rs :
  forallb isGroup ls = true -> forallb isGroup rs = true ->
  (8 < length ls + length rs)%nat ->
  expandIPv6 (join ":" ls ++ "::" ++ join ":" rs)%string = None.
Proof.
  intros Hl Hr Hlen. unfold expandIPv6.
  assert (Hdot : includesChar "." (join ":" ls ++ "::" ++ join ":" rs)%string = false).
  { rewrite !includesChar_app.
    rewrite !(includesChar_join "." ":") by (reflexivity || now apply groups_no_dot).
    reflexivity. }
  rewrite Hdot, includesDoubleColon_join by exact Hl.
  change (includesDoubleColon ("::" ++ join ":" rs)%string) with true. cbv iota.
  rewrite splitDoubleColon_join, splitDoubleColon_groups by assumption.
  cbn [nth]. rewrite !side_join by assumption.
  destruct (8 - Z.of_nat (length ls) - Z.of_nat (length rs) <? 0)%Z eqn:Hm;
    [reflexivity|].
  apply Z.ltb_ge in Hm. lia.
Qed.

(** X4. When the client address has a [::] with more than eight groups
    around it, [expandIPv6] asks for an array of negative length: it
    throws, and with it [generateRoomId] and [handleWebSocket], so the
    request is not routed to any room. *)
Theorem too_many_groups_throws (req : ConnectRequest) (ls rs : list string) :
  validExplicitRoom req = false ->
  clientIP req = (join ":" ls ++ "::" ++ join ":" rs)%string ->
  forallb isGroup ls = true -> forallb isGroup rs = true ->
  (8 < length ls + length rs)%nat ->
  expandIPv6 (clientIP req) = None
  /\ generateRoomId (clientIP req) = None
  /\ handleWebSocket req = None.
Proof.
  intros Hv Hip Hl Hr Hlen.
  pose proof (expandIPv6_overflow ls rs Hl Hr Hlen) as He. rewrite <- Hip in He.
  assert (Hnp : networkPart (clientIP req) = None).
  { unfold networkPart.
    destruct (String.eqb (clientIP req) "default") eqn:E1;
      [apply String.eqb_eq in E1; rewrite E1 in He; discriminate|].
    destruct (String.eqb (clientIP req) "127.0.0.1") eqn:E2;
      [apply String.eqb_eq in E2; rewrite E2 in He; discriminate|].
    destruct (String.eqb (clientIP req) "::1") eqn:E3;
      [apply String.eqb_eq in E3; rewrite E3 in He; discriminate|].
    cbn [orb].
    assert (Hcolon : includesChar ":" (clientIP req) = true).
    { rewrite Hip, !includesChar_app. apply orb_true_iff. right. reflexivity. }
    rewrite Hcolon, andb_false_r. now rewrite He. }
  split; [exact He|].
  assert (Hg : generateRoomId (clientIP req) = None)
    by (unfold generateRoomId; now rewrite Hnp).
  split; [exact Hg|].
  unfold handleWebSocket, roomCodeOf. now rewrite Hv, Hg.
Qed.

Lemma too_many_groups_throws_witness :
  expandIPv6 (clientIP (requestFrom "1:2:3:4:5::6:7:8:9")) = None
  /\ generateRoomId (clientIP (requestFrom "1:2:3:4:5::6:7:8:9")) = None
  /\ handleWebSocket (requestFrom "1:2:3:4:5::6:7:8:9") = None.
Proof.
  apply (too_many_groups_throws (requestFrom "1:2:3:4:5::6:7:8:9")
           ["1"; "2"; "3"; "4"; "5"] ["6"; "7"; "8"; "9"]); (reflexivity || (cbn; lia)).
Defined.
End WorkerMore.


Module RoomMore.
Import Js RoomDO Spec RoomSpec.
Local Open Scope string_scope.
Local Open Scope list_scope.

Lemma handleWebSocket_upgrade r req :
  upgradeHeader req = Some "websocket" ->
  handleWebSocket r req
  = {| status := 101; body := NoBody;
       accepted := Some (match roomCodeHeader req with Some c => c | None => "" end);
       socket :=
         match passwordHash r with
         | Some stored =>
             match passwordHashHeader req with
             | Some provided =>
                 if truthy provided then
                   if String.eqb provided stored then []
                   else refused 4002 "PASSWORD_INCORRECT"
                 else refused 4001 "PASSWORD_REQUIRED"
             | None => refused 4001 "PASSWORD_REQUIRED"
             end
         | None => []
         end |}.
Proof.
  intros Hu. unfold handleWebSocket. rewrite Hu.
  destruct (passwordHash r) as [stored|]; [|reflexivity].
  destruct (passwordHashHeader req) as [provided|]; [|reflexivity].
  destruct (truthy provided); [|reflexivity].
  destruct (String.eqb provided stored); reflexivity.
Qed.

(** X5. The password gate of the WebSocket upgrade.  An upgrade request
    is always answered 101 with the socket accepted under the room code
    of the header, and it leaves the room as it is.  In a room without
    password the socket stays open.  In a room with a password the socket
    stays open when the hash of the request is the stored one; it is sent
    [PASSWORD_REQUIRED] and closed with 4001 when the request carries no
    hash or an empty one, and sent [PASSWORD_INCORRECT] and closed with
    4002 when it carries another hash. *)
Theorem websocket_password_gate (r : Room) (req : Request) :
  pathname req = "/ws" ->
  upgradeHeader req = Some "websocket" ->
  let resp := snd (fetch r req) in
  fst (fetch r req) = r
  /\ status resp = 101
  /\ accepted resp = Some (match roomCodeHeader req with Some c => c | None => "" end)
  /\ (passwordHash r = None -> socket resp = [])
  /\ (forall stored, passwordHash r = Some stored ->
      (passwordHashHeader req = None \/ passwordHashHeader req = Some "" ->
       socket resp = refused 4001 "PASSWORD_REQUIRED")
      /\ (forall provided, passwordHashHeader req = Some provided -> provided <> "" ->
          (provided = stored -> socket resp = [])
          /\ (provided <> stored -> socket resp = refused 4002 "PASSWORD_INCORRECT"))).
Proof.
  intros Hp Hu resp. subst resp.
  assert (Hf : fetch r req = (r, handleWebSocket r req))
    by (unfold fetch; now rewrite Hp).
  rewrite Hf, (handleWebSocket_upgrade r req Hu). cbn [fst snd status accepted socket].
  split; [reflexivity|]. split; [reflexivity|]. split; [reflexivity|].
  split; [now intros ->|].
  intros stored Hs. rewrite Hs. split.
  - now intros [-> | ->].
  - intros provided Hh Hne. rewrite Hh, (RoomProofs.truthy_nonempty provided Hne). split.
    + intros ->. now rewrite String.eqb_refl.
    + intros Hd. apply String.eqb_neq in Hd. now rewrite Hd.
Qed.

Lemma websocket_password_gate_witness :
  let resp := snd (fetch (lockedRoom "ab12") (upgradeRequest "ABC234" (Some "ffff"))) in
  status resp = 101
  /\ socket resp = refused 4002 "PASSWORD_INCORRECT".
Proof.
  intros resp.
  destruct (websocket_password_gate (lockedRoom "ab12") (upgradeRequest "ABC234" (Some "ffff")))
    as (_ & Hst & _ & _ & Hlocked); [reflexivity | reflexivity|].
  split; [exact Hst|].
  destruct (Hlocked "ab12" eq_refl) as [_ Hp].
  destruct (Hp "ffff" eq_refl) as [_ Hwrong]; [discriminate|].
  apply Hwrong. discriminate.
Defined.


(** **** The password survives the object *)

Lemma construct_storage_fixed r : construct (storage r) = r -> forall req,
  construct (storage (fst (fetch r req))) = fst (fetch r req).
Proof.
  intros Hr req. unfold fetch.
  destruct (String.eqb (pathname req) "/ws"); [exact Hr|].
  destruct (String.eqb (pathname req) "/set-password");
    [|destruct (String.eqb (pathname req) "/check-password"); exact Hr].
  unfold handleSetPassword.
  destruct (negb (String.eqb (method req) "POST")); [exact Hr|].
  destruct (passwordHash r); [exact Hr|].
  destruct (json req) as [[| | | | |fields]|]; try exact Hr.
  destruct (field "passwordHash" fields) as [[| | |h| |]|]; try exact Hr.
  destruct (truthy h) eqn:Ht; [|exact Hr].
  cbn [fst storage]. unfold construct. rewrite lookup_insert_eq, Ht. reflexivity.
Qed.

(** X6. The room object keeps its password hash in memory and in
    storage.  After any series of requests, a room object built anew from
    the storage (as the constructor does when the object has been
    evicted) is the room as it was: the password survives, and a room
    without password stays without. *)
Theorem password_survives_eviction (store : gmap string string) (reqs : list Request) :
  let r := serve (construct store) reqs in
  construct (storage r) = r.
Proof.
  intros r. subst r. unfold serve.
  assert (H0 : construct (storage (construct store)) = construct store) by reflexivity.
  revert H0. generalize (construct store) as r.
  induction reqs as [|req reqs IH]; intros r Hr; [exact Hr|].
  cbn [fold_left]. apply IH. now apply construct_storage_fixed.
Qed.
End RoomMore.


Module CryptoMore.
Import Js Crypto GcmProofs CryptoProofs Spec.
Local Open Scope string_scope.
Local Open Scope list_scope.
Local Open Scope Z_scope.

(** X7. The peer layer.  When the sender holds for the receiver the key
    that the receiver holds for the sender, [encrypt] returns a fresh
    12-byte IV and a ciphertext 16 bytes longer than the data, and
    [decrypt] of that ciphertext under that IV gives the data back. *)
Theorem peer_layer_round_trip (sender receiver : CryptoManager) (toPeer fromPeer : string)
        (key data : list Z) (g : Rng) :
  sharedSecrets sender !! toPeer = Some key ->
  sharedSecrets receiver !! fromPeer = Some key ->
  exists ct iv0,
    fst (encrypt sender toPeer data g) = Ok {| encrypted := ct; iv := Some iv0 |}
    /\ iv0 = fst (getRandomValues 12 g)
    /\ length iv0 = 12%nat
    /\ length ct = (length data + 16)%nat
    /\ position (snd (encrypt sender toPeer data g)) = (position g + 12)%nat
    /\ decrypt receiver fromPeer ct iv0 = Ok data.
Proof.
  intros Hs Hr. unfold encrypt. rewrite Hs.
  pose proof (getRandomValues_length 12 g) as Hlen.
  assert (Hpos : position (snd (getRandomValues 12 g)) = (position g + 12)%nat)
    by reflexivity.
  destruct (getRandomValues 12 g) as [iv0 g']. cbn [fst snd] in *.
  exists (Gcm.aesEncrypt key iv0 data), iv0.
  split; [reflexivity|]. split; [reflexivity|]. split; [exact Hlen|].
  split; [apply aes_encrypt_length|]. split; [exact Hpos|].
  now apply decrypt_encrypted.
Qed.

Lemma peer_layer_round_trip_witness :
  exists ct iv0,
    fst (encrypt alice "bob" [1; 2; 3] sampleRng) = Ok {| encrypted := ct; iv := Some iv0 |}
    /\ iv0 = fst (getRandomValues 12 sampleRng)
    /\ length iv0 = 12%nat
    /\ length ct = (length [1; 2; 3] + 16)%nat
    /\ position (snd (encrypt alice "bob" [1; 2; 3] sampleRng)) = (position sampleRng + 12)%nat
    /\ decrypt bob "alice" ct iv0 = Ok [1; 2; 3].
Proof.
  apply (peer_layer_round_trip alice bob "bob" "alice" peerKey [1; 2; 3] sampleRng);
    reflexivity.
Defined.

(** X8. Without a shared secret for the peer, in particular after
    [removePeer], [encrypt], [decrypt], [encryptChunk] and [decryptChunk]
    all throw the error that names the peer; [removePeer] takes away the
    secret of that peer only and leaves the room key alone. *)
Theorem no_key_no_crypto (cm : CryptoManager) (peerId : string) :
  (sharedSecrets cm !! peerId = None ->
   forall data iv0 g,
     fst (encrypt cm peerId data g) = Throw (NoSharedKey peerId)
     /\ decrypt cm peerId data iv0 = Throw (NoSharedKey peerId)
     /\ fst (encryptChunk cm peerId data g) = Throw (NoSharedKey peerId)
     /\ decryptChunk cm peerId data = Throw (NoSharedKey peerId))
  /\ hasSharedSecret (removePeer cm peerId) peerId = false
  /\ sharedSecrets (removePeer cm peerId) !! peerId = None
  /\ (forall other, other <> peerId ->
      sharedSecrets (removePeer cm peerId) !! other = sharedSecrets cm !! other)
  /\ roomKey (removePeer cm peerId) = roomKey cm
  /\ hasRoomPassword (removePeer cm peerId) = hasRoomPassword cm.
Proof.
  split.
  - intros Hn data iv0 g.
    assert (He : forall d g0, encrypt cm peerId d g0 = (Throw (NoSharedKey peerId), g0))
      by (intros; unfold encrypt; now rewrite Hn).
    assert (Hd : forall d i, decrypt cm peerId d i = Throw (NoSharedKey peerId))
      by (intros; unfold decrypt; now rewrite Hn).
    split; [now rewrite He|]. split; [apply Hd|]. split.
    + unfold encryptChunk.
      destruct (if hasRoomPassword cm then _ else _) as [layer1 g1].
      now rewrite He.
    + unfold decryptChunk.
      destruct (if 0 <? _ then _ else _) as [roomIv offset].
      now rewrite Hd.
  - unfold hasSharedSecret, removePeer. cbn [sharedSecrets roomKey].
    rewrite lookup_delete_eq. split; [|split; [reflexivity|]].
    + apply bool_decide_eq_false_2. intros [x Hx]. discriminate.
    + split; [|split; reflexivity].
      intros other Hne. now apply lookup_delete_ne.
Qed.

Lemma no_key_no_crypto_witness :
  fst (encryptChunk (removePeer alice "bob") "bob" [1; 2; 3] sampleRng)
  = Throw (NoSharedKey "bob")
  /\ hasRoomPassword (removePeer alice "bob") = true.
Proof.
  destruct (no_key_no_crypto alice "bob") as (_ & _ & Hgone & _ & _ & Hroom).
  destruct (no_key_no_crypto (removePeer alice "bob") "bob") as (Hthrow & _).
  destruct (Hthrow Hgone [1; 2; 3] [] sampleRng) as (_ & _ & Hchunk & _).
  split; [exact Hchunk|]. now rewrite Hroom.
Defined.

(** X9. The room layer.  What [encryptWithRoomKey] returns,
    [decryptWithRoomKey] of the same manager, or of one with the same
    room key, turns back into the data: with a room password through
    AES-GCM under the room key and a fresh IV, without one because both
    pass the data through.  With a room password, [decryptWithRoomKey]
    without IV throws. *)
Theorem room_layer_round_trip (sender receiver : CryptoManager) (data : list Z) (g : Rng) :
  roomKey receiver = roomKey sender ->
  roomPasswordSet receiver = roomPasswordSet sender ->
  let sealed := fst (encryptWithRoomKey sender data g) in
  decryptWithRoomKey receiver (encrypted sealed) (iv sealed) = Ok data
  /\ (hasRoomPassword sender = true ->
      iv sealed = Some (fst (getRandomValues 12 g))
      /\ length (encrypted sealed) = (length data + 16)%nat
      /\ decryptWithRoomKey receiver (encrypted sealed) None = Throw IvRequired)
  /\ (hasRoomPassword sender = false -> encrypted sealed = data /\ iv sealed = None).
Proof.
  intros Hk Hp sealed. subst sealed.
  unfold encryptWithRoomKey, decryptWithRoomKey, hasRoomPassword. rewrite Hk, Hp.
  destruct (roomPasswordSet sender), (roomKey sender) as [key|]; cbn [andb];
    try (split; [reflexivity|]; split; [discriminate | now intros _]).
  destruct (getRandomValues 12 g) as [iv0 g'] eqn:Hg. cbn [fst encrypted iv].
  rewrite aes_decrypt_encrypt. split; [reflexivity|]. split; [|discriminate].
  intros _. split; [reflexivity|]. split; [apply aes_encrypt_length | reflexivity].
Qed.

Lemma room_layer_round_trip_witness :
  let sealed := fst (encryptWithRoomKey alice [1; 2; 3] sampleRng) in
  decryptWithRoomKey bobInRoom (encrypted sealed) (iv sealed) = Ok [1; 2; 3].
Proof.
  intros sealed.
  apply (room_layer_round_trip alice bobInRoom [1; 2; 3] sampleRng); reflexivity.
Defined.

(** X10. The frame of [encryptChunk].  With a shared secret for the peer
    the call succeeds.  Without room password the frame starts with the
    byte 0 and is 29 bytes longer than the chunk (1 + 12 + 16), and 12
    random bytes are drawn; with a room password it starts with the byte
    12 and is 57 bytes longer (1 + 12 + 12 + 16 + 16), and 24 random bytes
    are drawn, the room IV first. *)
Theorem chunk_frame_layout (cm : CryptoManager) (peerId : string) (key chunk : list Z)
        (g : Rng) :
  sharedSecrets cm !! peerId = Some key ->
  exists frame,
    fst (encryptChunk cm peerId chunk g) = Ok frame
    /\ nth 0 frame 0 = (if hasRoomPassword cm then 12 else 0)
    /\ length frame
       = (length chunk + (if hasRoomPassword cm then 57 else 29))%nat
    /\ position (snd (encryptChunk cm peerId chunk g))
       = (position g + (if hasRoomPassword cm then 24 else 12))%nat.
Proof.
  intros Hk. destruct (hasRoomPassword cm) eqn:Hr.
  - destruct (hasRoomPassword_key cm Hr) as (rk & Hrk & _).
    pose proof (encryptChunk_room cm peerId key rk chunk g Hk Hr Hrk) as He.
    cbv zeta in He. rewrite He. eexists. split; [reflexivity|]. cbn [fst snd nth].
    split; [reflexivity|]. split.
    + cbn [length]. rewrite !length_app, !aes_encrypt_length, !getRandomValues_length. lia.
    + unfold getRandomValues. cbn [snd position]. lia.
  - rewrite (encryptChunk_plain cm peerId key chunk g Hk Hr).
    eexists. split; [reflexivity|]. cbn [fst snd nth].
    split; [reflexivity|]. split.
    + cbn [length]. rewrite !length_app, !aes_encrypt_length, !getRandomValues_length. lia.
    + unfold getRandomValues. cbn [snd position]. lia.
Qed.

Lemma chunk_frame_layout_witness :
  exists frame,
    fst (encryptChunk alice "bob" [1; 2; 3] sampleRng) = Ok frame
    /\ nth 0 frame 0 = (if hasRoomPassword alice then 12 else 0)
    /\ length frame = (length [1; 2; 3] + (if hasRoomPassword alice then 57 else 29))%nat
    /\ position (snd (encryptChunk alice "bob" [1; 2; 3] sampleRng))
       = (position sampleRng + (if hasRoomPassword alice then 24 else 12))%nat.
Proof.
  apply (chunk_frame_layout alice "bob" peerKey [1; 2; 3] sampleRng). reflexivity.
Defined.
End CryptoMore.


Module RelayMore.
Import Js Config Crypto Wire Sender RelaySpec RelayMoreSpec RelaySenderProofs.
Local Open Scope string_scope.
Local Open Scope list_scope.
Local Open Scope Z_scope.

(** **** The window *)

Lemma mapSet_length {V} k (v : V) m : (length (mapSet k v m) <= S (length m))%nat.
Proof.
  induction m as [|[k' v'] m IH]; cbn; [lia|].
  destruct (Nat.eqb k k'); cbn; lia.
Qed.

Lemma mapSet_length_present {V} k (v : V) m :
  In k (map fst m) -> length (mapSet k v m) = length m.
Proof.
  intros H. rewrite <- (length_map fst (mapSet k v m)), mapSet_keys_present by exact H.
  apply length_map.
Qed.

Lemma mapDelete_length {V} k (m : list (nat * V)) : (length (mapDelete k m) <= length m)%nat.
Proof. unfold mapDelete. apply filter_length_le. Qed.

Lemma ackTransfer_length acks now t :
  (length (pendingChunks (ackTransfer acks now t)) <= length (pendingChunks t))%nat.
Proof.
  unfold ackTransfer. cbn [pendingChunks]. generalize (pendingChunks t) as m.
  induction acks as [|a acks IH]; intros m; cbn [fold_left]; [lia|].
  etransitivity; [apply IH | apply mapDelete_length].
Qed.

Lemma windowTurn_windowed s now : windowed s -> windowed (r_windowTurn now s).
Proof.
  unfold windowed, r_windowTurn. intros H. cbv zeta.
  destruct (ACK_TIMEOUT <? _).
  - destruct (_getOldestPendingChunk (r_transfer s)) as [[index info]|] eqn:Ho.
    + destruct (MAX_CHUNK_RETRIES <=? retries info); [exact H|].
      destruct (oldest_is_oldest _ _ _ Ho) as [Hin _].
      assert (Hlen : length (mapSet index {| base64 := base64 info;
                                             retries := retries info + 1;
                                             sentAt := now |}
                                    (pendingChunks (r_transfer s)))
                     = length (pendingChunks (r_transfer s))).
      { apply mapSet_length_present, in_map_iff. now exists (index, info). }
      cbn [r_with r_emit r_transfer cancelled pendingChunks].
      destruct (cancelled (r_transfer s)); cbn [r_finish r_suspend r_with r_transfer pendingChunks];
        now rewrite Hlen.
    + destruct (cancelled (r_transfer s)); exact H.
  - destruct (cancelled (r_transfer s)); exact H.
Qed.

Lemma sendNext_windowed s now :
  (length (pendingChunks (r_transfer s)) < WINDOW_SIZE)%nat -> windowed (r_sendNext now s).
Proof.
  unfold windowed, r_sendNext. intros H.
  destruct (_ && _); [cbn; lia|].
  destruct (encryptChunk _ _ _ _) as [[e | encrypted] g]; [cbn; lia|].
  cbn [r_transfer pendingChunks].
  pose proof (mapSet_length (r_chunkIndex s)
                {| base64 := Base64.encode encrypted; retries := 0; sentAt := now |}
                (pendingChunks (r_transfer s))). lia.
Qed.

Lemma window_windowed s now : windowed s -> windowed (r_window now s).
Proof.
  intros H. unfold r_window.
  destruct (WINDOW_SIZE <=? length (pendingChunks (r_transfer s)))%nat eqn:E.
  - now apply windowTurn_windowed.
  - apply sendNext_windowed. now apply Nat.leb_gt in E.
Qed.

Lemma ackWait_transfer s now : r_transfer (r_ackWait now s) = r_transfer s.
Proof.
  unfold r_ackWait. destruct (_ <? _); [|reflexivity].
  destruct (_ <? _); [reflexivity|]. destruct (cancelled _); reflexivity.
Qed.

Lemma loopHead_windowed s now : windowed s -> windowed (r_loopHead now s).
Proof.
  intros H. unfold r_loopHead.
  destruct (_ <? _).
  - destruct (_ || _); [exact H | now apply window_windowed].
  - unfold windowed. now rewrite ackWait_transfer.
Qed.

Lemma keyWait_windowed s now : windowed s -> windowed (r_keyWait now s).
Proof.
  intros H. unfold r_keyWait, r_begin.
  destruct (hasSharedSecret _ _); [now apply loopHead_windowed|].
  destruct (_ <? _); exact H.
Qed.

Lemma step_windowed s ev : windowed s -> windowed (r_step s ev).
Proof.
  intros H. destruct ev as [acks now | | key | now]; cbn [r_step].
  - destruct (r_registered s); [|exact H]. unfold windowed in *.
    cbn [r_with r_transfer]. pose proof (ackTransfer_length acks now (r_transfer s)). lia.
  - destruct (r_registered s); exact H.
  - exact H.
  - destruct (r_pc s); try exact H.
    + now apply keyWait_windowed.
    + now apply loopHead_windowed.
    + now apply window_windowed.
    + unfold windowed. now rewrite ackWait_transfer.
Qed.

(** X11. Flow control of the relay sender: at every point of every run
    of [_sendFileDataViaRelay], whatever is acknowledged, cancelled or
    timed out, at most [WINDOW_SIZE] chunks are waiting for their
    acknowledgement. *)
Theorem relay_window_is_bounded (cm : CryptoManager) (g : Rng) (publicKey peerId : string)
        (f : File) (fileId : string) (now : Z) (evs : list RelayEvent) :
  (length (pendingChunks
             (r_transfer (r_run (_sendFileDataViaRelay cm g publicKey peerId f fileId now)
                                evs)))
   <= WINDOW_SIZE)%nat.
Proof.
  change (windowed (r_run (_sendFileDataViaRelay cm g publicKey peerId f fileId now) evs)).
  assert (H0 : windowed (_sendFileDataViaRelay cm g publicKey peerId f fileId now)).
  { unfold _sendFileDataViaRelay.
    destruct (hasSharedSecret cm peerId).
    - unfold r_begin. apply loopHead_windowed. unfold windowed. cbn. lia.
    - apply keyWait_windowed. unfold windowed. cbn. lia. }
  revert H0. generalize (_sendFileDataViaRelay cm g publicKey peerId f fileId now) as s.
  unfold r_run. induction evs as [|ev evs IH]; intros s Hs; [exact Hs|].
  cbn [fold_left]. apply IH, step_windowed, Hs.
Qed.

(** **** Counting the frames *)

Lemma sentCount_app i a b : sentCount i (a ++ b) = (sentCount i a + sentCount i b)%nat.
Proof. unfold sentCount. now rewrite List.filter_app, length_app. Qed.

Lemma sentCount_chunk i peerId fid j data retryCount :
  sentCount i [_sendChunk peerId fid j data retryCount] = if Nat.eqb i j then 1%nat else 0%nat.
Proof. unfold sentCount, _sendChunk. cbn. now destruct (Nat.eqb i j). Qed.

Lemma sentCount_other i e :
  isChunkFor i e = false -> sentCount i [e] = 0%nat.
Proof. intros H. unfold sentCount. cbn. now rewrite H. Qed.

Lemma existsb_end_app a b :
  existsb isFileEnd (a ++ b) = existsb isFileEnd a || existsb isFileEnd b.
Proof. apply existsb_app. Qed.

(** With distinct keys, [set] leaves no other entry under the key. *)
Lemma mapSet_In_distinct {V} k (v : V) m e :
  List.NoDup (map fst m) -> In e (mapSet k v m) ->
  e = (k, v) \/ (In e m /\ fst e <> k).
Proof.
  induction m as [|[k' v'] m IH]; cbn [mapSet map fst]; intros Hnd Hin.
  - destruct Hin as [<- | []]. now left.
  - inversion Hnd as [|? ? Hnot Hnd']; subst.
    destruct (Nat.eqb k k') eqn:E.
    + apply Nat.eqb_eq in E. subst k'. destruct Hin as [<- | Hin]; [now left|].
      right. split; [now right|]. intros <-. apply Hnot, in_map_iff. now exists e.
    + apply Nat.eqb_neq in E. destruct Hin as [<- | Hin].
      * right. split; [now left | cbn; congruence].
      * destruct (IH Hnd' Hin) as [-> | [H1 H2]]; [now left|].
        right. split; [now right | exact H2].
Qed.

(** An update that changes neither the frames nor the bookkeeping. *)
Lemma counted_update s s' added :
  r_peerId s' = r_peerId s -> r_fileId s' = r_fileId s -> r_file s' = r_file s ->
  r_offset s' = r_offset s -> r_chunkIndex s' = r_chunkIndex s ->
  (forall e, In e (pendingChunks (r_transfer s')) -> In e (pendingChunks (r_transfer s))) ->
  r_out s' = r_out s ++ added ->
  Forall (fun e => forall i, isChunkFor i e = false) added ->
  (pastLoop (r_pc s') = true -> fileSize (r_file s) <= r_offset s) ->
  (r_pc s' = RDone ->
   last (r_out s')
   = Some (Send (r_peerId s)
                (RelayData (FileEnd (r_fileId s) (Some (totalChunks (r_file s))))))
   /\ r_registered s' = false) ->
  (r_pc s' <> RDone -> existsb isFileEnd (r_out s') = false) ->
  Counted s -> Counted s'.
Proof.
  intros Hp Hfid Hf Ho Hi Hpend Hout Hadd Hpast Hend Hnoend [C1 C2 C3 C4 C5 C6].
  assert (Hcount : forall i, sentCount i (r_out s') = sentCount i (r_out s)).
  { intros i. rewrite Hout, sentCount_app.
    assert (H0 : sentCount i added = 0%nat).
    { clear Hout. induction Hadd as [|e es He _ IH]; [reflexivity|].
      change (e :: es) with ([e] ++ es). rewrite sentCount_app, IH.
      now rewrite (sentCount_other i e (He i)). }
    lia. }
  constructor; rewrite ?Hp, ?Hfid, ?Hf, ?Ho, ?Hi; try assumption.
  - intros i info Hin. rewrite Hcount. apply C1, Hpend, Hin.
  - intros i Hlt. rewrite Hcount. now apply C2.
  - intros i Hge. rewrite Hcount. now apply C3.
Qed.

(** An update that sends neither a chunk nor [file-end]. *)
Lemma counted_quiet s s' added :
  r_peerId s' = r_peerId s -> r_fileId s' = r_fileId s -> r_file s' = r_file s ->
  r_offset s' = r_offset s -> r_chunkIndex s' = r_chunkIndex s ->
  (forall e, In e (pendingChunks (r_transfer s')) -> In e (pendingChunks (r_transfer s))) ->
  r_out s' = r_out s ++ added ->
  Forall (fun e => (forall i, isChunkFor i e = false) /\ isFileEnd e = false) added ->
  r_pc s' <> RDone ->
  (pastLoop (r_pc s') = true -> fileSize (r_file s) <= r_offset s) ->
  r_pc s <> RDone ->
  Counted s -> Counted s'.
Proof.
  intros Hp Hfid Hf Ho Hi Hpend Hout Hadd Hpc Hpast Hpc0 Hc.
  apply (counted_update s s' added); try assumption.
  - eapply List.Forall_impl; [|exact Hadd]. now intros e [H _].
  - intros Hd. contradiction.
  - intros _. rewrite Hout, existsb_end_app, (cnt_no_end s Hc Hpc0). cbn [orb].
    clear Hout. induction Hadd as [|e es [_ He] _ IH]; [reflexivity|].
    cbn [existsb]. now rewrite He, IH.
Qed.

Ltac quiet s added :=
  apply (counted_quiet s _ added);
  [ reflexivity | reflexivity | reflexivity | reflexivity | reflexivity
  | intros ? H; exact H | .. ].

Lemma finish_counted e s : r_pc s <> RDone -> Counted s -> Counted (r_finish (RFailed e) s).
Proof.
  intros Hpc Hc. quiet s (@nil Effect); try assumption.
  - cbn. now rewrite app_nil_r.
  - constructor.
  - discriminate.
  - discriminate.
Qed.

Lemma suspend_counted pc s :
  pc <> RDone -> (pastLoop pc = true -> fileSize (r_file s) <= r_offset s) ->
  r_pc s <> RDone -> Counted s -> Counted (r_suspend pc s).
Proof.
  intros Hpc Hpast Hpc0 Hc. quiet s (@nil Effect); try assumption.
  - cbn. now rewrite app_nil_r.
  - constructor.
Qed.

Lemma emit_counted e s :
  (forall i, isChunkFor i e = false) -> isFileEnd e = false ->
  r_pc s <> RDone -> Counted s -> Counted (r_emit e s).
Proof.
  intros He1 He2 Hpc Hc. quiet s [e]; try assumption.
  - reflexivity.
  - now repeat constructor.
  - cbn. apply (cnt_past s Hc).
Qed.

Lemma sendNext_counted s now :
  SenderInv s -> r_offset s < fileSize (r_file s) -> r_pc s <> RDone ->
  Counted s -> Counted (r_sendNext now s).
Proof.
  intros Hinv Hlt Hpc Hc. unfold r_sendNext.
  destruct (_ && _); [now apply finish_counted|].
  destruct (encryptChunk _ _ _ _) as [[e | encrypted] g]; [now apply finish_counted|].
  destruct Hc as [C1 C2 C3 C4 C5 C6].
  assert (Hfresh : ~ In (r_chunkIndex s) (map fst (pendingChunks (r_transfer s)))).
  { intros Hk. apply in_map_iff in Hk as (e & He & Hin).
    pose proof (inv_keys s Hinv) as I4. rewrite Forall_forall in I4.
    apply list_elem_of_In in Hin. specialize (I4 _ Hin). lia. }
  constructor; cbn [r_peerId r_fileId r_file r_offset r_chunkIndex r_transfer
                    pendingChunks r_out r_pc r_registered pastLoop].
  - intros i info Hin. apply mapSet_In in Hin.
    rewrite sentCount_app. change [?a; ?b] with ([a] ++ [b]).
    rewrite sentCount_app, sentCount_chunk.
    change (sentCount i [Progress _ _ _ _]) with 0%nat.
    destruct Hin as [[= -> ->] | Hin].
    + rewrite Nat.eqb_refl, (C3 (r_chunkIndex s)) by lia. cbn. unfold MAX_CHUNK_RETRIES. lia.
    + assert (Hne : Nat.eqb i (r_chunkIndex s) = false).
      { apply Nat.eqb_neq. intros ->. apply Hfresh, in_map_iff. now exists (r_chunkIndex s, info). }
      rewrite Hne. destruct (C1 i info Hin) as [H1 H2]. split; [lia | exact H2].
  - intros i Hlt'. rewrite sentCount_app. change [?a; ?b] with ([a] ++ [b]).
    rewrite sentCount_app, sentCount_chunk.
    change (sentCount i [Progress _ _ _ _]) with 0%nat.
    destruct (Nat.eqb i (r_chunkIndex s)) eqn:E.
    + apply Nat.eqb_eq in E. subst i. rewrite (C3 (r_chunkIndex s)) by lia. lia.
    + apply Nat.eqb_neq in E. assert (Hi : (i < r_chunkIndex s)%nat) by lia.
      specialize (C2 i Hi). lia.
  - intros i Hge. rewrite sentCount_app. change [?a; ?b] with ([a] ++ [b]).
    rewrite sentCount_app, sentCount_chunk.
    change (sentCount i [Progress _ _ _ _]) with 0%nat.
    assert (E : Nat.eqb i (r_chunkIndex s) = false) by (apply Nat.eqb_neq; lia).
    rewrite E, (C3 i) by lia. reflexivity.
  - discriminate.
  - discriminate.
  - intros _. rewrite existsb_end_app, (C6 Hpc). reflexivity.
Qed.

Lemma windowTurn_counted s now :
  SenderInv s -> r_offset s < fileSize (r_file s) -> r_pc s <> RDone ->
  Counted s -> Counted (r_windowTurn now s).
Proof.
  intros Hinv Hlt Hpc Hc.
  destruct (Z.le_gt_cases (now - lastAckTime (r_transfer s)) ACK_TIMEOUT) as [Hq | Ht].
  - unfold r_windowTurn.
    destruct (ACK_TIMEOUT <? now - lastAckTime (r_transfer s)) eqn:E;
      [apply Z.ltb_lt in E; lia|].
    destruct (cancelled (r_transfer s)); [now apply finish_counted|].
    apply suspend_counted; (discriminate || assumption).
  - destruct (_getOldestPendingChunk (r_transfer s)) as [[index info]|] eqn:Ho.
    + destruct (oldest_is_oldest _ _ _ Ho) as (Hin & _).
      destruct (Z.lt_ge_cases (retries info) MAX_CHUNK_RETRIES) as [Hr | Hr].
      * destruct (windowTurn_retransmits s now index info Ht Ho Hr)
          as (Hout & Hpend & Hpc' & Hoff & Hidx & Hfile).
        assert (Hids : r_peerId (r_windowTurn now s) = r_peerId s
                       /\ r_fileId (r_windowTurn now s) = r_fileId s
                       /\ r_registered (r_windowTurn now s)
                          = (if cancelled (r_transfer s) then false else r_registered s)).
        { unfold r_windowTurn. apply Z.ltb_lt in Ht. rewrite Ht, Ho.
          destruct (MAX_CHUNK_RETRIES <=? retries info) eqn:E; [apply Z.leb_le in E; lia|].
          cbn [r_with r_emit r_transfer cancelled].
          destruct (cancelled (r_transfer s)); now repeat split. }
        destruct Hids as (Hp & Hfid & _).
        pose proof (inv_retries s Hinv) as I5. rewrite Forall_forall in I5.
        assert (Hret : 0 <= retries info) by (apply (I5 (index, info)), list_elem_of_In, Hin).
        destruct Hc as [C1 C2 C3 C4 C5 C6].
        constructor; rewrite ?Hp, ?Hfid, ?Hfile, ?Hoff, ?Hidx, ?Hpend, ?Hout.
        -- intros i info' Hin'.
           apply (mapSet_In_distinct _ _ _ _ (inv_nodup s Hinv)) in Hin'.
           rewrite sentCount_app, sentCount_chunk.
           destruct Hin' as [[= -> ->] | [Hin' Hne]].
           ++ rewrite Nat.eqb_refl. destruct (C1 index info Hin) as [H1 _].
              cbn [retries]. split; [rewrite H1; lia | lia].
           ++ cbn [fst] in Hne. apply Nat.eqb_neq in Hne. rewrite Hne.
              destruct (C1 i info' Hin') as [H1 H2]. split; [lia | exact H2].
        -- intros i Hi. rewrite sentCount_app, sentCount_chunk. specialize (C2 i Hi).
           destruct (Nat.eqb i index) eqn:E; [|lia].
           apply Nat.eqb_eq in E. subst i. destruct (C1 index info Hin) as [H1 _].
           rewrite H1. unfold MAX_CHUNK_RETRIES in Hr. lia.
        -- intros i Hge. rewrite sentCount_app, sentCount_chunk, (C3 i Hge).
           assert (E : Nat.eqb i index = false).
           { apply Nat.eqb_neq. intros ->.
             pose proof (inv_keys s Hinv) as I4. rewrite Forall_forall in I4.
             specialize (I4 (index, info) ltac:(apply list_elem_of_In, Hin)). cbn in I4. lia. }
           now rewrite E.
        -- rewrite Hpc'. destruct (cancelled (r_transfer s)); discriminate.
        -- rewrite Hpc'. destruct (cancelled (r_transfer s)); discriminate.
        -- intros _. rewrite existsb_end_app, (C6 Hpc). reflexivity.
      * rewrite (windowTurn_exhausted s now index info Ht Ho Hr).
        now apply finish_counted.
    + unfold r_windowTurn. apply Z.ltb_lt in Ht. rewrite Ht, Ho.
      destruct (cancelled (r_transfer s)); [now apply finish_counted|].
      apply suspend_counted; (discriminate || assumption).
Qed.

Lemma window_counted s now :
  SenderInv s -> r_offset s < fileSize (r_file s) -> r_pc s <> RDone ->
  Counted s -> Counted (r_window now s).
Proof.
  intros Hinv Hlt Hpc Hc. unfold r_window.
  destruct (_ <=? _)%nat; [now apply windowTurn_counted | now apply sendNext_counted].
Qed.

Lemma ackWait_counted s now :
  fileSize (r_file s) <= r_offset s -> r_pc s <> RDone ->
  Counted s -> Counted (r_ackWait now s).
Proof.
  intros Hge Hpc Hc. unfold r_ackWait.
  destruct (_ <? _); [|apply suspend_counted; (discriminate || assumption || now intros _)].
  destruct (_ <? _).
  - apply suspend_counted; try discriminate; try (now intros _); try assumption.
    now apply emit_counted.
  - destruct (cancelled _); [now apply finish_counted|].
    apply suspend_counted; (discriminate || assumption || now intros _).
Qed.

Lemma loopHead_counted s now :
  SenderInv s -> r_pc s <> RDone -> Counted s -> Counted (r_loopHead now s).
Proof.
  intros Hinv Hpc Hc. unfold r_loopHead.
  destruct (r_offset s <? fileSize (r_file s)) eqn:E.
  - apply Z.ltb_lt in E.
    destruct (_ || _); [now apply finish_counted | now apply window_counted].
  - apply Z.ltb_ge in E. apply ackWait_counted; [exact E | exact Hpc|].
    quiet s (@nil Effect); try assumption.
    + cbn. now rewrite app_nil_r.
    + constructor.
    + now intros _.
Qed.

Lemma keyWait_counted s now :
  SenderInv s -> r_pc s <> RDone -> Counted s -> Counted (r_keyWait now s).
Proof.
  intros Hinv Hpc Hc. unfold r_keyWait, r_begin.
  destruct (hasSharedSecret _ _).
  - apply loopHead_counted; [apply emit_inv; [exact I | exact Hinv] | exact Hpc|].
    now apply emit_counted.
  - destruct (_ <? _); apply suspend_counted; (discriminate || assumption).
Qed.

Lemma fileEnd_counted s :
  r_pc s = RBeforeEnd -> Counted s -> Counted (r_fileEnd s).
Proof.
  intros Hpc Hc. unfold r_fileEnd.
  apply (counted_update s _ [Send (r_peerId s)
                                  (RelayData (FileEnd (r_fileId s)
                                                      (Some (totalChunks (r_file s)))))]);
    try reflexivity; try (intros ? H; exact H); try assumption.
  - now repeat constructor.
  - intros _. apply (cnt_past s Hc). now rewrite Hpc.
  - intros _. split; [|reflexivity]. cbn [r_finish r_emit r_out]. apply last_snoc.
  - intros H. now elim H.
Qed.

(** Only these parts of the sender matter for the count. *)
Lemma counted_same s s' :
  r_peerId s' = r_peerId s -> r_fileId s' = r_fileId s -> r_file s' = r_file s ->
  r_offset s' = r_offset s -> r_chunkIndex s' = r_chunkIndex s ->
  (forall e, In e (pendingChunks (r_transfer s')) -> In e (pendingChunks (r_transfer s))) ->
  r_out s' = r_out s -> r_pc s' = r_pc s -> r_registered s' = r_registered s ->
  Counted s -> Counted s'.
Proof.
  intros Hp Hfid Hf Ho Hi Hpend Hout Hpc Hreg [C1 C2 C3 C4 C5 C6].
  constructor; rewrite ?Hp, ?Hfid, ?Hf, ?Ho, ?Hi, ?Hout, ?Hpc, ?Hreg; try assumption.
  intros i info Hin. apply C1, Hpend, Hin.
Qed.

Lemma step_counted s ev : SenderInv s -> Counted s -> Counted (r_step s ev).
Proof.
  intros Hinv Hc. destruct ev as [acks now | | key | now]; cbn [r_step].
  - destruct (r_registered s) eqn:Hreg; [|exact Hc].
    apply (counted_same s); try reflexivity; try exact Hc.
    intros e. cbn [r_with r_transfer]. apply ackTransfer_keys.
  - destruct (r_registered s) eqn:Hreg; [|exact Hc].
    apply (counted_same s); try reflexivity; try exact Hc.
    intros e H. exact H.
  - apply (counted_same s); try reflexivity; try exact Hc.
    intros e H. exact H.
  - destruct (r_pc s) eqn:Hpc; try exact Hc.
    + apply keyWait_counted; (assumption || congruence).
    + apply loopHead_counted; (assumption || congruence).
    + apply window_counted; try assumption; [|congruence].
      apply (inv_window s Hinv Hpc).
    + apply ackWait_counted; try assumption; [|congruence].
      apply (cnt_past s Hc). now rewrite Hpc.
    + now apply fileEnd_counted.
Qed.

Lemma start_counted cm g publicKey peerId f fileId now :
  Counted (_sendFileDataViaRelay cm g publicKey peerId f fileId now).
Proof.
  unfold _sendFileDataViaRelay.
  set (s0 := {| r_peerId := peerId; r_file := f; r_fileId := fileId;
                r_transfer := _; r_registered := true; r_offset := 0;
                r_chunkIndex := 0; r_waitStart := now; r_pc := RLoopHead;
                r_cm := cm; r_rng := g; r_out := [] |}).
  assert (H0 : SenderInv s0 /\ Counted s0).
  { split.
    - constructor; cbn; try constructor; try discriminate.
      pose proof (SenderProofs.ceilDiv_spec (fileSize f) CHUNK_SIZE ltac:(reflexivity)) as Hc.
      fold (totalChunks f) in Hc. unfold fileSize, CHUNK_SIZE in *. nia.
    - constructor; cbn; try discriminate; try reflexivity.
      + intros i info [].
      + intros i Hi. lia. }
  destruct H0 as [Hinv Hc].
  destruct (hasSharedSecret cm peerId).
  - unfold r_begin. apply loopHead_counted;
      [apply emit_inv; [exact I | exact Hinv] | discriminate|].
    apply emit_counted; (reflexivity || discriminate || assumption).
  - apply keyWait_counted; [apply emit_inv; [exact I | exact Hinv] | discriminate|].
    apply emit_counted; (reflexivity || discriminate || assumption).
Qed.

Lemma run_counted s evs : SenderInv s -> Counted s -> Counted (r_run s evs).
Proof.
  unfold r_run. revert s. induction evs as [|ev evs IH]; intros s Hinv Hc; [exact Hc|].
  cbn [fold_left]. apply IH; [now apply step_inv | now apply step_counted].
Qed.

(** **** The addressee never changes *)

Lemma windowTurn_ident s now : ident (r_windowTurn now s) = ident s.
Proof.
  unfold r_windowTurn. cbv zeta.
  destruct (ACK_TIMEOUT <? _); [destruct (_getOldestPendingChunk _) as [[index info]|];
                                [destruct (MAX_CHUNK_RETRIES <=? _)|]|];
    cbn; try reflexivity; destruct (cancelled _); reflexivity.
Qed.

Lemma sendNext_ident s now : ident (r_sendNext now s) = ident s.
Proof. unfold r_sendNext. branches. Qed.

Lemma window_ident s now : ident (r_window now s) = ident s.
Proof.
  unfold r_window. destruct (_ <=? _)%nat; [apply windowTurn_ident | apply sendNext_ident].
Qed.

Lemma ackWait_ident s now : ident (r_ackWait now s) = ident s.
Proof. unfold r_ackWait. branches. Qed.

Lemma loopHead_ident s now : ident (r_loopHead now s) = ident s.
Proof.
  unfold r_loopHead.
  destruct (_ <? _); [|now rewrite ackWait_ident].
  destruct (_ || _); [reflexivity | apply window_ident].
Qed.

Lemma keyWait_ident s now : ident (r_keyWait now s) = ident s.
Proof.
  unfold r_keyWait, r_begin.
  destruct (hasSharedSecret _ _); [now rewrite loopHead_ident|].
  destruct (_ <? _); reflexivity.
Qed.

Lemma step_ident s ev : ident (r_step s ev) = ident s.
Proof.
  destruct ev; cbn [r_step]; try (destruct (r_registered s); reflexivity); try reflexivity.
  destruct (r_pc s); try reflexivity.
  - apply keyWait_ident.
  - apply loopHead_ident.
  - apply window_ident.
  - apply ackWait_ident.
Qed.

Lemma run_ident s evs : ident (r_run s evs) = ident s.
Proof.
  unfold r_run. revert s. induction evs as [|ev evs IH]; intros s; [reflexivity|].
  cbn [fold_left]. now rewrite IH, step_ident.
Qed.

Lemma start_ident cm g publicKey peerId f fileId now :
  ident (_sendFileDataViaRelay cm g publicKey peerId f fileId now) = (peerId, fileId, f).
Proof.
  unfold _sendFileDataViaRelay, r_begin.
  destruct (hasSharedSecret cm peerId);
    [now rewrite loopHead_ident | now rewrite keyWait_ident].
Qed.

(** Past the loop, every chunk has been read. *)
Lemma past_loop_all_read s :
  SenderInv s -> fileSize (r_file s) <= r_offset s ->
  Z.of_nat (r_chunkIndex s) = totalChunks (r_file s).
Proof.
  intros Hinv Hge. pose proof (inv_offset s Hinv) as Ho. pose proof (inv_index s Hinv) as Hi.
  pose proof (SenderProofs.ceilDiv_spec (fileSize (r_file s)) CHUNK_SIZE ltac:(reflexivity)) as Hc.
  fold (totalChunks (r_file s)) in Hc. unfold CHUNK_SIZE in *. nia.
Qed.

(** X12. However the acknowledgements, cancellations and timeouts fall,
    [_sendFileDataViaRelay] sends the chunk of one index at most
    [1 + MAX_CHUNK_RETRIES] times: once, and at most three
    retransmissions. *)
Theorem relay_chunk_sent_at_most_four_times
        (cm : CryptoManager) (g : Rng) (publicKey peerId : string)
        (f : File) (fileId : string) (now : Z) (evs : list RelayEvent) (i : nat) :
  Z.of_nat (sentCount i (r_out (r_run (_sendFileDataViaRelay cm g publicKey peerId f fileId now)
                                      evs)))
  <= 1 + MAX_CHUNK_RETRIES.
Proof.
  pose proof (run_counted _ evs (start_inv cm g publicKey peerId f fileId now)
                          (start_counted cm g publicKey peerId f fileId now)) as Hc.
  set (s := r_run _ evs) in *. unfold MAX_CHUNK_RETRIES.
  destruct (Nat.lt_ge_cases i (r_chunkIndex s)) as [Hlt | Hge].
  - pose proof (cnt_sent s Hc i Hlt). lia.
  - rewrite (cnt_unsent s Hc i Hge). lia.
Qed.

(** X13. [file-end] closes a complete transfer: if a run of
    [_sendFileDataViaRelay] has sent [file-end], then it has sent every
    chunk of the file, and no index beyond; [file-end] is the last frame,
    it carries [totalChunks], and the transfer is no longer registered. *)
Theorem relay_file_end_closes_the_transfer
        (cm : CryptoManager) (g : Rng) (publicKey peerId : string)
        (f : File) (fileId : string) (now : Z) (evs : list RelayEvent) :
  let s := r_run (_sendFileDataViaRelay cm g publicKey peerId f fileId now) evs in
  existsb isFileEnd (r_out s) = true ->
  (forall i, (1 <= sentCount i (r_out s))%nat <-> Z.of_nat i < totalChunks f)
  /\ last (r_out s) = Some (Send peerId (RelayData (FileEnd fileId (Some (totalChunks f)))))
  /\ r_registered s = false
  /\ r_pc s = RDone.
Proof.
  intros s Hend.
  pose proof (run_inv _ evs (start_inv cm g publicKey peerId f fileId now)) as Hinv.
  pose proof (run_counted _ evs (start_inv cm g publicKey peerId f fileId now)
                          (start_counted cm g publicKey peerId f fileId now)) as Hc.
  pose proof (run_ident (_sendFileDataViaRelay cm g publicKey peerId f fileId now) evs) as Hid.
  rewrite start_ident in Hid. fold s in Hinv, Hc, Hid. unfold ident in Hid.
  injection Hid as Hp Hfid Hf.
  assert (Hpc : r_pc s = RDone).
  { destruct (r_pc s) eqn:E; try reflexivity;
      rewrite (cnt_no_end s Hc) in Hend by (rewrite E; discriminate); discriminate. }
  assert (Hall : Z.of_nat (r_chunkIndex s) = totalChunks f).
  { rewrite <- Hf. apply past_loop_all_read; [exact Hinv|].
    apply (cnt_past s Hc). now rewrite Hpc. }
  destruct (cnt_end s Hc Hpc) as [Hlast Hreg]. rewrite Hp, Hfid, Hf in Hlast.
  split; [|now repeat split].
  intros i. split.
  - intros Hsent. destruct (Nat.lt_ge_cases i (r_chunkIndex s)) as [Hlt | Hge]; [lia|].
    rewrite (cnt_unsent s Hc i Hge) in Hsent. lia.
  - intros Hlt. apply (cnt_sent s Hc). lia.
Qed.

Lemma relay_file_end_closes_the_transfer_witness :
  let s := r_run (relayStart Spec.smallFile) [RWake 1; RWake 20000; RWake 20001] in
  existsb isFileEnd (r_out s) = true
  /\ (forall i, (1 <= sentCount i (r_out s))%nat <-> Z.of_nat i < 1)
  /\ last (r_out s) = Some (Send "bob" (RelayData (FileEnd "f1" (Some 1))))
  /\ r_registered s = false
  /\ r_pc s = RDone.
Proof.
  split; [vm_compute; reflexivity|].
  apply (relay_file_end_closes_the_transfer
           Spec.alice Spec.sampleRng "pk" "bob" Spec.smallFile "f1" 0
           [RWake 1; RWake 20000; RWake 20001]).
  vm_compute. reflexivity.
Defined.

(** **** First transmissions *)

Lemma firstCount_app i a b : firstCount i (a ++ b) = (firstCount i a + firstCount i b)%nat.
Proof. unfold firstCount. now rewrite List.filter_app, length_app. Qed.

Lemma once_update s s' added :
  r_chunkIndex s' = r_chunkIndex s -> r_out s' = r_out s ++ added ->
  Forall (fun e => forall i, isFirstChunkFor i e = false) added ->
  Once s -> Once s'.
Proof.
  intros Hi Hout Hadd Ho i. rewrite Hi, Hout, firstCount_app, (Ho i).
  assert (H0 : firstCount i added = 0%nat).
  { clear Hout. induction Hadd as [|e es He _ IH]; [reflexivity|].
    unfold firstCount in *. cbn [List.filter]. now rewrite (He i). }
  lia.
Qed.

Lemma once_same s s' :
  r_chunkIndex s' = r_chunkIndex s -> r_out s' = r_out s -> Once s -> Once s'.
Proof.
  intros Hi Hout. apply (once_update s s' []); [exact Hi | now rewrite app_nil_r | constructor].
Qed.

Lemma sendNext_once s now : Once s -> Once (r_sendNext now s).
Proof.
  intros Ho. unfold r_sendNext.
  destruct (_ && _); [now apply (once_same s)|].
  destruct (encryptChunk _ _ _ _) as [[e | encrypted] g]; [now apply (once_same s)|].
  intros i. cbn [r_out r_chunkIndex]. rewrite firstCount_app, (Ho i).
  match goal with
  | |- (_ + firstCount i ?l)%nat = _ =>
      assert (Hadd : firstCount i l = if Nat.eqb i (r_chunkIndex s) then 1%nat else 0%nat)
        by (unfold firstCount, isFirstChunkFor, _sendChunk; cbn;
            destruct (Nat.eqb i (r_chunkIndex s)); reflexivity);
      rewrite Hadd
  end.
  destruct (Nat.eqb_spec i (r_chunkIndex s)) as [Heq | Hne];
    destruct (Nat.ltb_spec i (r_chunkIndex s)), (Nat.ltb_spec i (S (r_chunkIndex s)));
    lia.
Qed.

Lemma windowTurn_once s now : SenderInv s -> Once s -> Once (r_windowTurn now s).
Proof.
  intros Hinv Ho.
  destruct (Z.le_gt_cases (now - lastAckTime (r_transfer s)) ACK_TIMEOUT) as [Hq | Ht].
  - destruct (windowTurn_quiet s now Hq) as [Hout _].
    apply (once_same s); [|exact Hout|exact Ho].
    unfold r_windowTurn.
    destruct (ACK_TIMEOUT <? now - lastAckTime (r_transfer s)) eqn:E;
      [apply Z.ltb_lt in E; lia|].
    destruct (cancelled (r_transfer s)); reflexivity.
  - destruct (_getOldestPendingChunk (r_transfer s)) as [[index info]|] eqn:Hold.
    + destruct (oldest_is_oldest _ _ _ Hold) as (Hin & _).
      destruct (Z.lt_ge_cases (retries info) MAX_CHUNK_RETRIES) as [Hr | Hr].
      * destruct (windowTurn_retransmits s now index info Ht Hold Hr)
          as (Hout & _ & _ & _ & Hidx & _).
        apply (once_update s _ _ Hidx Hout); [|exact Ho].
        pose proof (inv_retries s Hinv) as I5. rewrite Forall_forall in I5.
        assert (Hret : 0 <= retries info) by (apply (I5 (index, info)), list_elem_of_In, Hin).
        constructor; [|constructor]. intros i. unfold isFirstChunkFor, _sendChunk. cbn.
        replace (0 <? retries info + 1) with true by (symmetry; apply Z.ltb_lt; lia).
        apply andb_false_r.
      * rewrite (windowTurn_exhausted s now index info Ht Hold Hr).
        now apply (once_same s).
    + unfold r_windowTurn. apply Z.ltb_lt in Ht. rewrite Ht, Hold.
      destruct (cancelled (r_transfer s)); now apply (once_same s).
Qed.

Lemma ackWait_once s now : Once s -> Once (r_ackWait now s).
Proof.
  intros Ho. unfold r_ackWait.
  destruct (_ <? _); [|now apply (once_same s)].
  destruct (_ <? _).
  - eapply (once_update s); [reflexivity | cbn; reflexivity | | exact Ho].
    now repeat constructor.
  - destruct (cancelled _); now apply (once_same s).
Qed.

Lemma loopHead_once s now : SenderInv s -> Once s -> Once (r_loopHead now s).
Proof.
  intros Hinv Ho. unfold r_loopHead, r_window.
  destruct (_ <? _).
  - destruct (_ || _); [now apply (once_same s)|].
    destruct (_ <=? _)%nat; [now apply windowTurn_once | now apply sendNext_once].
  - apply ackWait_once. now apply (once_same s).
Qed.

Lemma keyWait_once s now : SenderInv s -> Once s -> Once (r_keyWait now s).
Proof.
  intros Hinv Ho. unfold r_keyWait, r_begin.
  destruct (hasSharedSecret _ _).
  - apply loopHead_once; [apply emit_inv; [exact I | exact Hinv]|].
    eapply (once_update s); [reflexivity | cbn; reflexivity | | exact Ho].
    now repeat constructor.
  - destruct (_ <? _); now apply (once_same s).
Qed.

Lemma step_once s ev : SenderInv s -> Once s -> Once (r_step s ev).
Proof.
  intros Hinv Ho. destruct ev as [acks now | | key | now]; cbn [r_step].
  - destruct (r_registered s); [now apply (once_same s) | exact Ho].
  - destruct (r_registered s); [now apply (once_same s) | exact Ho].
  - now apply (once_same s).
  - destruct (r_pc s); try exact Ho.
    + now apply keyWait_once.
    + now apply loopHead_once.
    + unfold r_window.
      destruct (_ <=? _)%nat; [now apply windowTurn_once | now apply sendNext_once].
    + now apply ackWait_once.
    + unfold r_fileEnd. eapply (once_update s); [reflexivity | cbn; reflexivity | | exact Ho].
      now repeat constructor.
Qed.

Lemma start_once cm g publicKey peerId f fileId now :
  Once (_sendFileDataViaRelay cm g publicKey peerId f fileId now).
Proof.
  unfold _sendFileDataViaRelay.
  set (s0 := {| r_peerId := peerId; r_file := f; r_fileId := fileId;
                r_transfer := _; r_registered := true; r_offset := 0;
                r_chunkIndex := 0; r_waitStart := now; r_pc := RLoopHead;
                r_cm := cm; r_rng := g; r_out := [] |}).
  assert (Hinv : SenderInv s0).
  { constructor; cbn; try constructor; try discriminate.
    pose proof (SenderProofs.ceilDiv_spec (fileSize f) CHUNK_SIZE ltac:(reflexivity)) as Hc.
    fold (totalChunks f) in Hc. unfold fileSize, CHUNK_SIZE in *. nia. }
  assert (Ho : Once s0) by (intros i; reflexivity).
  destruct (hasSharedSecret cm peerId).
  - unfold r_begin. apply loopHead_once; [apply emit_inv; [exact I | exact Hinv]|].
    eapply (once_update s0); [reflexivity | cbn; reflexivity | | exact Ho].
    now repeat constructor.
  - apply keyWait_once; [apply emit_inv; [exact I | exact Hinv]|].
    eapply (once_update s0); [reflexivity | cbn; reflexivity | | exact Ho].
    now repeat constructor.
Qed.

Lemma run_once s evs : SenderInv s -> Once s -> Once (r_run s evs).
Proof.
  unfold r_run. revert s. induction evs as [|ev evs IH]; intros s Hinv Ho; [exact Ho|].
  cbn [fold_left]. apply IH; [now apply step_inv | now apply step_once].
Qed.

(** Without retransmission, every frame of a chunk is its first. *)
Lemma sentCount_firstCount i es :
  noRetransmission es -> sentCount i es = firstCount i es.
Proof.
  unfold sentCount, firstCount, isFirstChunkFor, noRetransmission.
  induction 1 as [|e es He _ IH]; [reflexivity|].
  cbn [List.filter]. rewrite He, andb_true_r.
  destruct (isChunkFor i e); cbn [length]; now rewrite IH.
Qed.

(** X14. A file of at most [WINDOW_SIZE] chunks is never retransmitted:
    whatever acknowledgements arrive or are lost, and however long the
    sender waits, [_sendFileDataViaRelay] sends no chunk with
    [retry: true], and the chunk of one index at most once; once
    [file-end] is sent, every chunk of the file has been sent exactly
    once. *)
Theorem small_transfer_is_never_retransmitted
        (cm : CryptoManager) (g : Rng) (publicKey peerId : string)
        (f : File) (fileId : string) (now : Z) (evs : list RelayEvent) :
  totalChunks f <= Z.of_nat WINDOW_SIZE ->
  let s := r_run (_sendFileDataViaRelay cm g publicKey peerId f fileId now) evs in
  Forall (fun e => isRetransmission e = false) (r_out s)
  /\ (forall i, (sentCount i (r_out s) <= 1)%nat)
  /\ (existsb isFileEnd (r_out s) = true ->
      forall i, Z.of_nat i < totalChunks f -> sentCount i (r_out s) = 1%nat).
Proof.
  intros Hfit s.
  pose proof (fits_window_never_retransmits cm g publicKey peerId f fileId now evs Hfit) as Hno.
  pose proof (run_inv _ evs (start_inv cm g publicKey peerId f fileId now)) as Hinv.
  pose proof (run_counted _ evs (start_inv cm g publicKey peerId f fileId now)
                          (start_counted cm g publicKey peerId f fileId now)) as Hc.
  pose proof (run_once _ evs (start_inv cm g publicKey peerId f fileId now)
                       (start_once cm g publicKey peerId f fileId now)) as Ho.
  pose proof (run_ident (_sendFileDataViaRelay cm g publicKey peerId f fileId now) evs) as Hid.
  rewrite start_ident in Hid. fold s in Hno, Hinv, Hc, Ho, Hid. unfold ident in Hid.
  injection Hid as _ _ Hf.
  split; [exact Hno|]. split.
  - intros i. rewrite (sentCount_firstCount i _ Hno), (Ho i).
    destruct (i <? r_chunkIndex s)%nat; lia.
  - intros Hend i Hi.
    assert (Hpc : r_pc s = RDone).
    { destruct (r_pc s) eqn:E; try reflexivity;
        rewrite (cnt_no_end s Hc) in Hend by (rewrite E; discriminate); discriminate. }
    assert (Hall : Z.of_nat (r_chunkIndex s) = totalChunks f).
    { rewrite <- Hf. apply past_loop_all_read; [exact Hinv|].
      apply (cnt_past s Hc). now rewrite Hpc. }
    rewrite (sentCount_firstCount i _ Hno), (Ho i).
    destruct (Nat.ltb_spec i (r_chunkIndex s)); [reflexivity | lia].
Qed.

Lemma small_transfer_is_never_retransmitted_witness :
  let s := r_run (relayStart Spec.smallFile) [RWake 1; RWake 20000; RWake 20001] in
  totalChunks Spec.smallFile = 1
  /\ Forall (fun e => isRetransmission e = false) (r_out s)
  /\ (forall i, (sentCount i (r_out s) <= 1)%nat)
  /\ (existsb isFileEnd (r_out s) = true ->
      forall i, Z.of_nat i < 1 -> sentCount i (r_out s) = 1%nat).
Proof.
  split; [vm_compute; reflexivity|].
  apply (small_transfer_is_never_retransmitted
           Spec.alice Spec.sampleRng "pk" "bob" Spec.smallFile "f1" 0
           [RWake 1; RWake 20000; RWake 20001]).
  vm_compute. discriminate.
Defined.
End RelayMore.


Module DeliveryProofs.
Import Js Config Crypto Wire Sender DeliverySpec GcmProofs CryptoProofs.
Local Open Scope string_scope.
Local Open Scope list_scope.
Local Open Scope Z_scope.

(** **** What is sealed for a paired receiver opens *)

Lemma sealed_opens sender receiver toPeer fromPeer P g :
  Paired sender receiver toPeer fromPeer ->
  exists frame g',
    encryptChunk sender toPeer P g = (Ok frame, g')
    /\ decryptChunk receiver fromPeer frame = Ok P.
Proof.
  intros [(key & Hs & Hr) Hroom].
  destruct (hasRoomPassword sender) eqn:Hsp.
  - destruct Hroom as [Hroom | [Hrecv Hsame]]; [discriminate|].
    destruct (hasRoomPassword_key sender Hsp) as (rk & Hrk & _).
    pose proof (encryptChunk_room sender toPeer key rk P g Hs Hsp Hrk) as Henc.
    cbv zeta in Henc. rewrite Henc. eexists. eexists. split; [reflexivity|].
    rewrite decryptChunk_room by apply getRandomValues_length.
    rewrite (decrypt_encrypted receiver fromPeer key _ _ Hr).
    rewrite Hrecv. unfold decryptWithRoomKey.
    rewrite Hsame, Hrk, Hrecv. unfold Ok. cbv iota beta.
    now rewrite aes_decrypt_encrypt.
  - rewrite (encryptChunk_plain sender toPeer key P g Hs Hsp).
    eexists. eexists. split; [reflexivity|].
    rewrite decryptChunk_plain by apply getRandomValues_length.
    exact (decrypt_encrypted receiver fromPeer key _ _ Hr).
Qed.

(** **** The chunks of a file, in order, are the file *)

Lemma chunks_prefix f n :
  concat (map (chunkOf f) (seq 0 n))
  = firstn (Z.to_nat (CHUNK_SIZE * Z.of_nat n)) (content f).
Proof.
  induction n as [|n IH]; [reflexivity|].
  rewrite seq_S, map_app, concat_app, IH. cbn [map concat Nat.add].
  rewrite app_nil_r. unfold chunkOf, chunkAt, slice.
  replace (Z.to_nat (CHUNK_SIZE * Z.of_nat n + CHUNK_SIZE)
           - Z.to_nat (CHUNK_SIZE * Z.of_nat n))%nat
    with (Z.to_nat CHUNK_SIZE) by (unfold CHUNK_SIZE; lia).
  replace (Z.to_nat (CHUNK_SIZE * Z.of_nat (S n)))
    with (Z.to_nat (CHUNK_SIZE * Z.of_nat n) + Z.to_nat CHUNK_SIZE)%nat
    by (unfold CHUNK_SIZE; lia).
  now rewrite take_take_drop.
Qed.

Lemma chunks_whole f n :
  fileSize f <= CHUNK_SIZE * Z.of_nat n ->
  concat (map (chunkOf f) (seq 0 n)) = content f.
Proof.
  intros Hge. rewrite chunks_prefix. apply firstn_all2. unfold fileSize in Hge. lia.
Qed.

(** **** The frames of the sender *)










(** **** The receiver of the frames *)



(** **** The sender ends when it is woken often enough *)



End DeliveryProofs.


Module BytesProofs.
Import Js MoreSpec.
Local Open Scope list_scope.
Local Open Scope Z_scope.

(** **** Bytes stay bytes *)

Lemma land_byte x : isByte (Z.land x 255).
Proof.
  unfold isByte. change 255 with (Z.ones 8). rewrite Z.land_ones by lia.
  apply Z.mod_pos_bound. lia.
Qed.

Lemma byte_land b : isByte b -> Z.land b 255 = b.
Proof.
  unfold isByte. intros H. change 255 with (Z.ones 8). rewrite Z.land_ones by lia.
  apply Z.mod_small. exact H.
Qed.

Lemma lxor_byte a b : isByte a -> isByte b -> isByte (Z.lxor a b).
Proof.
  intros Ha Hb.
  assert (H : Z.land (Z.lxor a b) 255 = Z.lxor a b).
  { rewrite <- (byte_land a Ha), <- (byte_land b Hb). apply Z.bits_inj'. intros n Hn.
    rewrite Z.land_spec, Z.lxor_spec, !Z.land_spec.
    destruct (Z.testbit a n), (Z.testbit b n), (Z.testbit 255 n); reflexivity. }
  rewrite <- H. apply land_byte.
Qed.

Lemma nth_byte i l : Forall isByte l -> isByte (nth i l 0).
Proof.
  intros Hl. destruct (nth_in_or_default i l 0) as [Hin | ->]; [|unfold isByte; lia].
  rewrite List.Forall_forall in Hl. now apply Hl.
Qed.

Lemma firstn_bytes n l : Forall isByte l -> Forall isByte (firstn n l).
Proof. apply Forall_take. Qed.

Lemma skipn_bytes n l : Forall isByte l -> Forall isByte (skipn n l).
Proof. apply Forall_drop. Qed.

Lemma forallb_bytes l : forallb (fun b => (0 <=? b) && (b <? 256)) l = true -> Forall isByte l.
Proof.
  intros H. apply List.Forall_forall. intros b Hb. rewrite forallb_forall in H.
  specialize (H b Hb). apply andb_true_iff in H as [H1 H2]. unfold isByte. lia.
Qed.

(** **** AES *)

Lemma sbox_byte b : isByte (Aes.sbox b).
Proof.
  unfold Aes.sbox. apply nth_byte, forallb_bytes. vm_compute. reflexivity.
Qed.

Lemma xorBytes_bytes a b :
  Forall isByte a -> Forall isByte b -> Forall isByte (Aes.xorBytes a b).
Proof.
  unfold Aes.xorBytes. intros Ha. revert b.
  induction Ha as [|x a Hx _ IH]; intros b Hb; [constructor|].
  destruct Hb as [|y b Hy Hb]; [constructor|].
  cbn [combine map fst snd]. constructor; [now apply lxor_byte | now apply IH].
Qed.

Lemma subBytes_bytes s : Forall isByte (Aes.subBytes s).
Proof.
  unfold Aes.subBytes. induction s as [|b s IH]; cbn [map]; constructor;
    [apply sbox_byte | exact IH].
Qed.

Lemma shiftRows_bytes s : Forall isByte s -> Forall isByte (Aes.shiftRows s).
Proof.
  intros Hs. unfold Aes.shiftRows. apply List.Forall_forall. intros b Hb.
  apply in_map_iff in Hb as (i & <- & _). now apply nth_byte.
Qed.

Lemma expand_bytes n w :
  Forall (Forall isByte) w -> Forall (Forall isByte) (Aes.expand n w).
Proof.
  revert w. induction n as [|n IH]; intros w Hw; [exact Hw|].
  cbn [Aes.expand]. apply IH. apply Forall_app. split; [exact Hw|].
  assert (Hnth : forall i, Forall isByte (nth i w [])).
  { intros i. destruct (nth_in_or_default i w []) as [Hin | ->]; [|constructor].
    rewrite List.Forall_forall in Hw. now apply Hw. }
  constructor; [|constructor]. apply xorBytes_bytes; [apply Hnth|].
  destruct (Nat.eqb _ 0).
  - apply xorBytes_bytes; [apply (subBytes_bytes _)|].
    constructor; [|repeat constructor; unfold isByte; lia].
    apply nth_byte. apply forallb_bytes. reflexivity.
  - destruct (Nat.eqb _ 4); [apply (subBytes_bytes _) | apply Hnth].
Qed.

Lemma roundKeys_bytes key :
  Forall isByte key -> Forall (Forall isByte) (Aes.roundKeys key).
Proof.
  intros Hk. unfold Aes.roundKeys.
  assert (Hw : Forall (Forall isByte) (Aes.expand 52 (Aes.keyWords key))).
  { apply expand_bytes. unfold Aes.keyWords. apply List.Forall_forall. intros w Hin.
    apply in_map_iff in Hin as (i & <- & _). now apply firstn_bytes, skipn_bytes. }
  apply List.Forall_forall. intros rk Hin. apply in_map_iff in Hin as (r & <- & _).
  apply Forall_concat. now apply Forall_take, Forall_drop.
Qed.

Lemma encryptBlock_bytes key block :
  Forall isByte key -> Forall isByte (Aes.encryptBlock key block).
Proof.
  intros Hk. unfold Aes.encryptBlock, Aes.lastRound.
  apply xorBytes_bytes; [apply shiftRows_bytes, subBytes_bytes|].
  pose proof (roundKeys_bytes key Hk) as Hr.
  destruct (nth_in_or_default 14 (Aes.roundKeys key) []) as [Hin | ->]; [|constructor].
  rewrite List.Forall_forall in Hr. now apply Hr.
Qed.

(** **** GCM *)

Lemma xorFrom_bytes ks i p :
  (forall j, isByte (ks j)) -> Forall isByte p -> Forall isByte (Gcm.xorFrom ks i p).
Proof.
  intros Hks Hp. revert i. induction Hp as [|b p Hb _ IH]; intros i; cbn [Gcm.xorFrom];
    constructor; [now apply lxor_byte | apply IH].
Qed.

Lemma gctr_bytes key icb p :
  Forall isByte key -> Forall isByte p ->
  Forall isByte (Gcm.gctr Aes.encryptBlock key icb p).
Proof.
  intros Hk Hp. unfold Gcm.gctr. apply xorFrom_bytes; [|exact Hp].
  intros j. unfold Gcm.keystreamByte. now apply nth_byte, encryptBlock_bytes.
Qed.

Lemma aesEncrypt_bytes key iv p :
  Forall isByte key -> Forall isByte p -> Forall isByte (Gcm.aesEncrypt key iv p).
Proof.
  intros Hk Hp. unfold Gcm.aesEncrypt, Gcm.encrypt. apply Forall_app. split.
  - now apply gctr_bytes.
  - unfold Gcm.tag. apply gctr_bytes; [exact Hk|]. apply WorkerMore.beBytes_bytes.
Qed.

Lemma getRandomValues_bytes n g : Forall isByte (fst (Crypto.getRandomValues n g)).
Proof.
  unfold Crypto.getRandomValues. cbn [fst]. apply List.Forall_forall. intros b Hb.
  apply in_map_iff in Hb as (i & <- & _). unfold isByte. apply Z.mod_pos_bound. lia.
Qed.
End BytesProofs.


Module Base64Proofs.
Import Js Base64 Base64Spec MoreSpec.
Local Open Scope list_scope.
Local Open Scope Z_scope.

Lemma sextet_cases v : isSextet v -> In v (map Z.of_nat (seq 0 64)).
Proof.
  intros Hv. apply in_map_iff. exists (Z.to_nat v). unfold isSextet in Hv.
  split; [lia | apply in_seq; lia].
Qed.

Lemma charOf_facts v :
  isSextet v ->
  valueOf (charOf v) = Some v /\ isSpace (charOf v) = false
  /\ Ascii.eqb (charOf v) "="%char = false.
Proof.
  intros Hv. apply sextet_cases in Hv.
  assert (Hall : forallb (fun v => match valueOf (charOf v) with
                                   | Some w => (w =? v)
                                   | None => false
                                   end
                                   && negb (isSpace (charOf v))
                                   && negb (Ascii.eqb (charOf v) "="%char))
                         (map Z.of_nat (seq 0 64)) = true) by (vm_compute; reflexivity).
  rewrite forallb_forall in Hall. specialize (Hall v Hv).
  apply andb_true_iff in Hall as [Hall H3]. apply andb_true_iff in Hall as [H1 H2].
  destruct (valueOf (charOf v)) as [w|]; [|discriminate]. apply Z.eqb_eq in H1. subst w.
  repeat split; [now apply negb_true_iff | now apply negb_true_iff].
Qed.

Lemma encodeAux_split fuel bs :
  encodeAux fuel bs = map charOf (sextets fuel bs) ++ padding fuel bs.
Proof.
  revert bs. induction fuel as [|fuel IH]; intros bs; [reflexivity|].
  destruct bs as [|a [|b [|c r]]]; try reflexivity.
  cbn [encodeAux sextets padding map app]. now rewrite IH.
Qed.

Lemma sextets_range fuel bs : Forall isByte bs -> Forall isSextet (sextets fuel bs).
Proof.
  revert bs. induction fuel as [|fuel IH]; intros bs Hbs; [constructor|].
  destruct bs as [|a [|b [|c r]]]; cbn [sextets]; [constructor| | |].
  - inversion Hbs as [|? ? Ha _]; subst. unfold isByte, isSextet in *.
    repeat constructor; Z.div_mod_to_equations; lia.
  - inversion Hbs as [|? ? Ha Hbs1]; subst. inversion Hbs1 as [|? ? Hb _]; subst.
    unfold isByte, isSextet in *. repeat constructor; Z.div_mod_to_equations; lia.
  - inversion Hbs as [|? ? Ha Hbs1]; subst. inversion Hbs1 as [|? ? Hb Hbs2]; subst.
    inversion Hbs2 as [|? ? Hc Hr]; subst.
    repeat (constructor; [unfold isByte, isSextet in *; Z.div_mod_to_equations; lia|]).
    now apply IH.
Qed.

(** The shape of what is written: whole groups of four, then nothing, or
    three values and one [=], or two values and two [=]. *)
Lemma sextets_shape fuel bs :
  (length bs <= fuel)%nat ->
  exists k r,
    length (sextets fuel bs) = (4 * k + r)%nat
    /\ ((r = 0%nat /\ padding fuel bs = [])
        \/ (r = 3%nat /\ padding fuel bs = ["="%char])
        \/ (r = 2%nat /\ padding fuel bs = ["="%char; "="%char])).
Proof.
  revert bs. induction fuel as [|fuel IH]; intros bs Hlen.
  - exists 0%nat, 0%nat. split; [reflexivity | now left].
  - destruct bs as [|a [|b [|c r]]]; cbn [sextets padding length].
    + exists 0%nat, 0%nat. split; [reflexivity | now left].
    + exists 0%nat, 2%nat. split; [reflexivity | now right; right].
    + exists 0%nat, 3%nat. split; [reflexivity | now right; left].
    + destruct (IH r) as (k & q & Hk & Hq); [cbn [length] in Hlen; lia|].
      exists (S k), q. split; [lia | exact Hq].
Qed.

Lemma decodeAux_nil fuel : decodeAux fuel [] = [].
Proof. now destruct fuel. Qed.

Lemma decodeAux_sextets fuel bs :
  Forall isByte bs -> (length bs <= fuel)%nat ->
  forall fuel2, (length (sextets fuel bs) <= fuel2)%nat ->
                decodeAux fuel2 (sextets fuel bs) = bs.
Proof.
  revert bs. induction fuel as [|fuel IH]; intros bs Hbs Hlen fuel2 Hf2.
  - destruct bs; [apply decodeAux_nil | cbn in Hlen; lia].
  - destruct bs as [|a [|b [|c r]]]; cbn [sextets] in *.
    + apply decodeAux_nil.
    + inversion Hbs as [|? ? Ha _]; subst. unfold isByte in Ha.
      destruct fuel2 as [|fuel2]; [cbn in Hf2; lia|]. cbn [decodeAux]. f_equal.
      Z.div_mod_to_equations. lia.
    + inversion Hbs as [|? ? Ha Hbs1]; subst. inversion Hbs1 as [|? ? Hb _]; subst.
      unfold isByte in Ha, Hb.
      destruct fuel2 as [|fuel2]; [cbn in Hf2; lia|]. cbn [decodeAux].
      f_equal; [|f_equal]; Z.div_mod_to_equations; lia.
    + inversion Hbs as [|? ? Ha Hbs1]; subst. inversion Hbs1 as [|? ? Hb Hbs2]; subst.
      inversion Hbs2 as [|? ? Hc Hr]; subst. unfold isByte in Ha, Hb, Hc.
      destruct fuel2 as [|fuel2]; [cbn in Hf2; lia|]. cbn [decodeAux].
      f_equal; [|f_equal; [|f_equal]]; try (Z.div_mod_to_equations; lia).
      apply IH; [exact Hr | cbn [length] in Hlen; lia | cbn [length] in Hf2; lia].
Qed.

Lemma values_charOf vs : Forall isSextet vs -> values (map charOf vs) = Some vs.
Proof.
  induction 1 as [|v vs Hv _ IH]; [reflexivity|].
  cbn [map values]. destruct (charOf_facts v Hv) as (H1 & _). now rewrite H1, IH.
Qed.

Lemma no_space_charOf vs :
  Forall isSextet vs ->
  List.filter (fun c => negb (isSpace c)) (map charOf vs) = map charOf vs.
Proof.
  induction 1 as [|v vs Hv _ IH]; [reflexivity|].
  cbn [map List.filter]. destruct (charOf_facts v Hv) as (_ & H2 & _).
  now rewrite H2, IH.
Qed.

(** What [stripPadding] does on the reversed characters. *)
Lemma strip_none (c : ascii) r other :
  Ascii.eqb c "="%char = false ->
  match c :: r with
  | "="%char :: "="%char :: r' => rev r'
  | "="%char :: r' => rev r'
  | _ => other
  end = other.
Proof.
  intros Hc. destruct c as [[] [] [] [] [] [] [] []]; try reflexivity; discriminate.
Qed.

Lemma strip_one (c : ascii) r other :
  Ascii.eqb c "="%char = false ->
  match "="%char :: c :: r with
  | "="%char :: "="%char :: r' => rev r'
  | "="%char :: r' => rev r'
  | _ => other
  end = rev (c :: r).
Proof.
  intros Hc. destruct c as [[] [] [] [] [] [] [] []]; try reflexivity; discriminate.
Qed.

Lemma last_charOf vs :
  Forall isSextet vs -> vs <> [] ->
  exists c r, rev (map charOf vs) = c :: r /\ Ascii.eqb c "="%char = false.
Proof.
  intros Hvs Hne. destruct (exists_last Hne) as (vs' & v & ->).
  apply Forall_app in Hvs as [_ Hv]. inversion Hv as [|? ? Hv' _]; subst.
  rewrite map_app, rev_app_distr. cbn [map rev app]. eexists. eexists.
  split; [reflexivity|]. now destruct (charOf_facts v Hv') as (_ & _ & H3).
Qed.

(** [base64ToUint8Array] undoes [arrayBufferToBase64] on bytes. *)
Lemma decode_encode bs : Forall isByte bs -> decode (encode bs) = Some bs.
Proof.
  intros Hbs. unfold decode, encode.
  rewrite list_ascii_of_string_of_list_ascii, encodeAux_split.
  pose proof (sextets_range (length bs) bs Hbs) as Hvs.
  destruct (sextets_shape (length bs) bs (Nat.le_refl _)) as (k & r & Hlen & Hshape).
  set (vs := sextets (length bs) bs) in *.
  rewrite List.filter_app, (no_space_charOf vs Hvs).
  assert (Hpad : List.filter (fun c => negb (isSpace c)) (padding (length bs) bs)
                 = padding (length bs) bs).
  { destruct Hshape as [[_ ->] | [[_ ->] | [_ ->]]]; reflexivity. }
  rewrite Hpad.
  assert (Hstrip : stripPadding (map charOf vs ++ padding (length bs) bs) = map charOf vs).
  { unfold stripPadding.
    destruct Hshape as [[-> ->] | [[-> ->] | [-> ->]]].
    - rewrite app_nil_r, length_map, Hlen.
      replace ((4 * k + 0) mod 4)%nat with 0%nat
        by (rewrite Nat.add_0_r, Nat.mul_comm; symmetry; apply Nat.Div0.mod_mul).
      cbn [Nat.eqb]. destruct vs as [|v vs'] eqn:E; [reflexivity|]. rewrite <- E in *.
      destruct (last_charOf vs Hvs ltac:(rewrite E; discriminate)) as (c & r & Hrev & Hc).
      rewrite Hrev. exact (strip_none c r _ Hc).
    - rewrite length_app, length_map, Hlen.
      replace ((4 * k + 3 + length ["="%char]) mod 4)%nat with 0%nat
        by (replace (4 * k + 3 + length ["="%char])%nat with ((S k) * 4)%nat
              by (cbn [length]; lia);
            symmetry; apply Nat.Div0.mod_mul).
      cbn [Nat.eqb]. rewrite rev_app_distr. cbn [rev app].
      destruct (last_charOf vs Hvs) as (c & r & Hrev & Hc).
      { intros E. rewrite E in Hlen. cbn in Hlen. lia. }
      rewrite Hrev. etransitivity; [exact (strip_one c r [] Hc)|].
      rewrite <- Hrev. apply rev_involutive.
    - rewrite length_app, length_map, Hlen.
      replace ((4 * k + 2 + length ["="%char; "="%char]) mod 4)%nat with 0%nat
        by (replace (4 * k + 2 + length ["="%char; "="%char])%nat with ((S k) * 4)%nat
              by (cbn [length]; lia);
            symmetry; apply Nat.Div0.mod_mul).
      cbn [Nat.eqb]. rewrite rev_app_distr. cbn [rev app]. apply rev_involutive. }
  rewrite Hstrip, length_map, Hlen.
  assert (Hmod : Nat.eqb ((4 * k + r) mod 4) 1 = false).
  { replace (4 * k + r)%nat with (r + k * 4)%nat by lia. rewrite Nat.Div0.mod_add.
    destruct Hshape as [[-> _] | [[-> _] | [-> _]]]; reflexivity. }
  rewrite Hmod, (values_charOf vs Hvs). f_equal.
  apply decodeAux_sextets; [exact Hbs | apply Nat.le_refl | apply Nat.le_refl].
Qed.
End Base64Proofs.


Module RelayDeliveryProofs.
Import Js Config Crypto Wire Sender MoreSpec DeliverySpec RelayDeliverySpec.
Import GcmProofs CryptoProofs RelaySpec RelaySenderProofs BytesProofs Base64Proofs
       DeliveryProofs RelayMoreSpec RelayMore.
Local Open Scope string_scope.
Local Open Scope list_scope.
Local Open Scope Z_scope.

(** **** The frame of a chunk is made of bytes *)

Lemma encryptChunk_bytes cm peerId key chunk g frame g' :
  sharedSecrets cm !! peerId = Some key -> Forall isByte key ->
  (forall rk, roomKey cm = Some rk -> Forall isByte rk) ->
  Forall isByte chunk ->
  encryptChunk cm peerId chunk g = (Ok frame, g') -> Forall isByte frame.
Proof.
  intros Hk Hkb Hrb Hc Henc. destruct (hasRoomPassword cm) eqn:Hroom.
  - destruct (hasRoomPassword_key cm Hroom) as (rk & Hrk & _).
    pose proof (encryptChunk_room cm peerId key rk chunk g Hk Hroom Hrk) as H.
    cbv zeta in H. rewrite H in Henc.
    unfold Ok in Henc.
    match type of Henc with (inr ?X, _) = _ => assert (E : frame = X) by congruence end.
    subst frame. clear Henc H.
    constructor; [unfold isByte; lia|].
    apply Forall_app. split; [apply getRandomValues_bytes|].
    apply Forall_app. split; [apply getRandomValues_bytes|].
    apply aesEncrypt_bytes; [exact Hkb|]. apply aesEncrypt_bytes; [now apply Hrb | exact Hc].
  - rewrite (encryptChunk_plain cm peerId key chunk g Hk Hroom) in Henc.
    unfold Ok in Henc.
    match type of Henc with (inr ?X, _) = _ => assert (E : frame = X) by congruence end.
    subst frame. clear Henc.
    constructor; [unfold isByte; lia|].
    apply Forall_app. split; [apply getRandomValues_bytes|].
    now apply aesEncrypt_bytes.
Qed.

Lemma encryptChunk_needs_key cm peerId chunk g :
  sharedSecrets cm !! peerId = None ->
  exists e g', encryptChunk cm peerId chunk g = (Throw e, g').
Proof.
  intros Hk. unfold encryptChunk.
  destruct (if hasRoomPassword cm then _ else _) as [layer1 g1].
  unfold encrypt. rewrite Hk. eauto.
Qed.

Lemma chunkAt_bytes f offset : Forall isByte (content f) -> Forall isByte (chunkAt f offset).
Proof. intros H. unfold chunkAt, slice. now apply firstn_bytes, skipn_bytes. Qed.

Section Sender.
Variables (key : list Z) (sender receiver : CryptoManager) (fromPeer : string).
Hypothesis Hrecv : sharedSecrets receiver !! fromPeer = Some key.
Hypothesis Hroom : hasRoomPassword sender = false
                   \/ (hasRoomPassword receiver = true /\ roomKey receiver = roomKey sender).
Hypothesis Hkey : Forall isByte key.
Hypothesis Hrk : forall rk, roomKey sender = Some rk -> Forall isByte rk.

(** What is sealed while the invariant holds is readable. *)
Lemma sealed_readable s chunk encrypted g' i :
  Sealing key sender receiver fromPeer s -> Forall isByte chunk ->
  chunk = chunkOf (r_file s) i ->
  encryptChunk (r_cm s) (r_peerId s) chunk (r_rng s) = (inr encrypted, g') ->
  readable receiver fromPeer (r_file s) i (Base64.encode encrypted).
Proof.
  intros Hs Hbytes -> Henc. destruct (sl_key _ _ _ _ _ Hs) as [Hk | Hk].
  - assert (Hpair : Paired (r_cm s) receiver (r_peerId s) fromPeer).
    { split; [now exists key|].
      unfold hasRoomPassword in *. rewrite (sl_roomKey _ _ _ _ _ Hs), (sl_roomSet _ _ _ _ _ Hs).
      exact Hroom. }
    destruct (sealed_opens _ _ _ _ (chunkOf (r_file s) i) (r_rng s) Hpair)
      as (frame & g2 & Henc2 & Hdec).
    rewrite Henc in Henc2. injection Henc2 as -> ->.
    exists frame. split; [|exact Hdec].
    apply decode_encode.
    apply (encryptChunk_bytes (r_cm s) (r_peerId s) key (chunkOf (r_file s) i) (r_rng s)
                              frame g2 Hk Hkey);
      [|exact Hbytes | exact Henc].
    intros rk. rewrite (sl_roomKey _ _ _ _ _ Hs). apply Hrk.
  - destruct (encryptChunk_needs_key (r_cm s) (r_peerId s) (chunkOf (r_file s) i)
                                     (r_rng s) Hk) as (e & g2 & H).
    rewrite H in Henc. discriminate.
Qed.

Lemma sealing_update s s' added :
  r_cm s' = r_cm s -> r_peerId s' = r_peerId s -> r_file s' = r_file s ->
  r_fileId s' = r_fileId s ->
  (forall e, In e (pendingChunks (r_transfer s')) -> In e (pendingChunks (r_transfer s))) ->
  r_out s' = r_out s ++ added ->
  Forall (frameReadable receiver fromPeer (r_file s) (r_fileId s)) added ->
  Sealing key sender receiver fromPeer s -> Sealing key sender receiver fromPeer s'.
Proof.
  intros Hcm Hp Hf Hfid Hpend Hout Hadd [S1 S2 S3 S4 S5 S6].
  constructor; rewrite ?Hcm, ?Hp, ?Hf, ?Hfid, ?Hout; try assumption.
  - apply Forall_app. now split.
  - apply List.Forall_forall. intros e He. rewrite List.Forall_forall in S6.
    apply S6, Hpend, He.
Qed.

Lemma sealing_same s s' :
  r_cm s' = r_cm s -> r_peerId s' = r_peerId s -> r_file s' = r_file s ->
  r_fileId s' = r_fileId s ->
  (forall e, In e (pendingChunks (r_transfer s')) -> In e (pendingChunks (r_transfer s))) ->
  r_out s' = r_out s ->
  Sealing key sender receiver fromPeer s -> Sealing key sender receiver fromPeer s'.
Proof.
  intros Hcm Hp Hf Hfid Hpend Hout. apply (sealing_update s s' []); try assumption.
  - now rewrite app_nil_r.
  - constructor.
Qed.

Ltac kept := apply (sealing_same _ _); try reflexivity; try (intros ? H; exact H).

Ltac extended :=
  eapply sealing_update;
  [ reflexivity | reflexivity | reflexivity | reflexivity | intros ? H; exact H
  | cbn; reflexivity | now repeat constructor ].

Lemma sendNext_sealed s now : SenderInv s -> Sealing key sender receiver fromPeer s -> Sealing key sender receiver fromPeer (r_sendNext now s).
Proof.
  intros Hinv Hs. unfold r_sendNext.
  destruct (_ && _); [revert Hs; kept|].
  destruct (encryptChunk _ _ _ _) as [[e | encrypted] g] eqn:Henc; [revert Hs; kept|].
  assert (Hread : readable receiver fromPeer (r_file s) (r_chunkIndex s)
                           (Base64.encode encrypted)).
  { apply (sealed_readable s (chunkAt (r_file s) (r_offset s)) encrypted g);
      [exact Hs | apply chunkAt_bytes, (sl_bytes _ _ _ _ _ Hs) | | exact Henc].
    unfold chunkOf. now rewrite (inv_offset s Hinv). }
  destruct Hs as [S1 S2 S3 S4 S5 S6].
  constructor; cbn [r_cm r_peerId r_file r_fileId r_out r_transfer pendingChunks];
    try assumption.
  - apply Forall_app. split; [exact S5|].
    constructor; [|repeat constructor]. cbn. split; [reflexivity|].
    exists (r_chunkIndex s). now split.
  - apply List.Forall_forall. intros e He. apply mapSet_In in He as [-> | He].
    + exact Hread.
    + rewrite List.Forall_forall in S6. now apply S6.
Qed.

Lemma windowTurn_sealed s now : Sealing key sender receiver fromPeer s -> Sealing key sender receiver fromPeer (r_windowTurn now s).
Proof.
  intros Hs.
  destruct (Z.le_gt_cases (now - lastAckTime (r_transfer s)) ACK_TIMEOUT) as [Hq | Ht].
  - unfold r_windowTurn.
    destruct (ACK_TIMEOUT <? now - lastAckTime (r_transfer s)) eqn:E;
      [apply Z.ltb_lt in E; lia|].
    destruct (cancelled (r_transfer s)); revert Hs; kept.
  - destruct (_getOldestPendingChunk (r_transfer s)) as [[index info]|] eqn:Hold.
    + destruct (oldest_is_oldest _ _ _ Hold) as (Hin & _).
      assert (Hread : readable receiver fromPeer (r_file s) index (base64 info)).
      { pose proof (sl_pending _ _ _ _ _ Hs) as S6. rewrite List.Forall_forall in S6.
        exact (S6 (index, info) Hin). }
      destruct (Z.lt_ge_cases (retries info) MAX_CHUNK_RETRIES) as [Hr | Hr].
      * unfold r_windowTurn. apply Z.ltb_lt in Ht. rewrite Ht, Hold.
        destruct (MAX_CHUNK_RETRIES <=? retries info) eqn:E; [apply Z.leb_le in E; lia|].
        destruct Hs as [S1 S2 S3 S4 S5 S6].
        assert (Hpend : Forall (fun e => readable receiver fromPeer (r_file s) (fst e)
                                                  (base64 (snd e)))
                               (mapSet index {| base64 := base64 info;
                                                retries := retries info + 1;
                                                sentAt := now |}
                                       (pendingChunks (r_transfer s)))).
        { apply List.Forall_forall. intros e He. apply mapSet_In in He as [-> | He].
          - exact Hread.
          - rewrite List.Forall_forall in S6. now apply S6. }
        assert (Hout : Forall (frameReadable receiver fromPeer (r_file s) (r_fileId s))
                              (r_out s ++ [_sendChunk (r_peerId s) (r_fileId s) index
                                                      (base64 info) (retries info + 1)])).
        { apply Forall_app. split; [exact S5|]. constructor; [|constructor].
          cbn. split; [reflexivity|]. exists index. now split. }
        destruct (cancelled (r_transfer s)); constructor; cbn; assumption.
      * rewrite (windowTurn_exhausted s now index info Ht Hold Hr). revert Hs. kept.
    + unfold r_windowTurn. apply Z.ltb_lt in Ht. rewrite Ht, Hold.
      destruct (cancelled (r_transfer s)); revert Hs; kept.
Qed.

Lemma ackWait_sealed s now : Sealing key sender receiver fromPeer s -> Sealing key sender receiver fromPeer (r_ackWait now s).
Proof.
  intros Hs. unfold r_ackWait.
  destruct (_ <? _); [|revert Hs; kept].
  destruct (_ <? _).
  - revert Hs. extended.
  - destruct (cancelled _); revert Hs; kept.
Qed.

Lemma loopHead_sealed s now : SenderInv s -> Sealing key sender receiver fromPeer s -> Sealing key sender receiver fromPeer (r_loopHead now s).
Proof.
  intros Hinv Hs. unfold r_loopHead, r_window.
  destruct (_ <? _).
  - destruct (_ || _); [revert Hs; kept|].
    destruct (_ <=? _)%nat; [now apply windowTurn_sealed | now apply sendNext_sealed].
  - apply ackWait_sealed. revert Hs. kept.
Qed.

Lemma keyWait_sealed s now : SenderInv s -> Sealing key sender receiver fromPeer s -> Sealing key sender receiver fromPeer (r_keyWait now s).
Proof.
  intros Hinv Hs. unfold r_keyWait, r_begin.
  destruct (hasSharedSecret _ _).
  - apply loopHead_sealed; [apply emit_inv; [exact I | exact Hinv]|].
    revert Hs. extended.
  - destruct (_ <? _); revert Hs; kept.
Qed.

Lemma step_sealed s ev :
  sameKey key ev -> SenderInv s -> Sealing key sender receiver fromPeer s -> Sealing key sender receiver fromPeer (r_step s ev).
Proof.
  intros Hev Hinv Hs. destruct ev as [acks now | | k | now]; cbn [r_step].
  - destruct (r_registered s); [|exact Hs].
    revert Hs. apply (sealing_same _ _); try reflexivity.
    intros e. cbn [r_with r_transfer]. apply ackTransfer_keys.
  - destruct (r_registered s); [|exact Hs]. revert Hs. kept.
  - cbn in Hev. subst k. destruct Hs as [S1 S2 S3 S4 S5 S6].
    constructor; cbn; try assumption. left. apply lookup_insert_eq.
  - destruct (r_pc s); try exact Hs.
    + now apply keyWait_sealed.
    + now apply loopHead_sealed.
    + unfold r_window.
      destruct (_ <=? _)%nat; [now apply windowTurn_sealed | now apply sendNext_sealed].
    + now apply ackWait_sealed.
    + unfold r_fileEnd. revert Hs. extended.
Qed.

Lemma run_sealed s evs :
  Forall (sameKey key) evs -> SenderInv s -> Sealing key sender receiver fromPeer s -> Sealing key sender receiver fromPeer (r_run s evs).
Proof.
  unfold r_run. intros Hevs. revert s.
  induction Hevs as [|ev evs Hev _ IH]; intros s Hinv Hs; [exact Hs|].
  cbn [fold_left]. apply IH; [now apply step_inv | now apply step_sealed].
Qed.

Lemma start_sealed g publicKey toPeer f fileId now :
  (sharedSecrets sender !! toPeer = Some key \/ sharedSecrets sender !! toPeer = None) ->
  Forall isByte (content f) ->
  Sealing key sender receiver fromPeer (_sendFileDataViaRelay sender g publicKey toPeer f fileId now).
Proof.
  intros Hk Hbytes. unfold _sendFileDataViaRelay.
  set (s0 := {| r_peerId := toPeer; r_file := f; r_fileId := fileId;
                r_transfer := _; r_registered := true; r_offset := 0;
                r_chunkIndex := 0; r_waitStart := now; r_pc := RLoopHead;
                r_cm := sender; r_rng := g; r_out := [] |}).
  assert (Hinv : SenderInv s0).
  { constructor; cbn; try constructor; try discriminate.
    pose proof (SenderProofs.ceilDiv_spec (fileSize f) CHUNK_SIZE ltac:(reflexivity)) as Hc.
    fold (totalChunks f) in Hc. unfold fileSize, CHUNK_SIZE in *. nia. }
  assert (Hs : Sealing key sender receiver fromPeer s0)
    by (constructor; cbn;
        [reflexivity | reflexivity | exact Hk | exact Hbytes | constructor | constructor]).
  destruct (hasSharedSecret sender toPeer).
  - unfold r_begin. apply loopHead_sealed; [apply emit_inv; [exact I | exact Hinv]|].
    revert Hs. extended.
  - apply keyWait_sealed; [apply emit_inv; [exact I | exact Hinv]|].
    revert Hs. extended.
Qed.
End Sender.

(** **** The frames that arrive *)

Lemma framesOf_usable receiver fromPeer f fid total es :
  Forall (frameReadable receiver fromPeer f fid) es ->
  Forall (chunkInRange total) es ->
  Forall (usable receiver fromPeer f fid total) (ReceiverSpec.framesOf es).
Proof.
  unfold ReceiverSpec.framesOf. induction 1 as [|e es He _ IH]; intros Hr; [constructor|].
  inversion Hr as [|? ? Hr1 Hr2]; subst. cbn [flat_map]. apply Forall_app.
  split; [|now apply IH].
  destruct e as [to [p| | | |]| | | | | | | | | | |]; try constructor.
  destruct p; try constructor; [|constructor].
  cbn in He, Hr1. destruct He as (-> & i & -> & Hread).
  destruct Hr1 as (j & [= <-] & Hj). split; [reflexivity|]. exists i. now repeat split.
Qed.

Lemma delivered_usable (P : WebRTC.ChunkFrame -> Prop) sent frames :
  Forall P sent -> ReceiverSpec.delivered sent frames = true -> Forall P frames.
Proof.
  intros Hs Hd. apply List.Forall_forall. intros fr Hin.
  unfold ReceiverSpec.delivered in Hd. rewrite forallb_forall in Hd.
  specialize (Hd fr Hin). apply bool_decide_eq_true_1 in Hd.
  rewrite List.Forall_forall in Hs. apply Hs. now apply list_elem_of_In.
Qed.

(** **** The receiver *)

Section Receiver.
Variables (receiver : CryptoManager) (fromPeer : string) (f : File) (fid : string).

Lemma receiveChunk_faithful R t i data :
  Z.of_nat i < totalChunks f ->
  readable receiver fromPeer f i data ->
  Faithful f fid (totalChunks f) R t ->
  exists R',
    Faithful f fid (totalChunks f) R'
             (fst (WebRTC.receiveChunk receiver fromPeer fid (Some i) data t))
    /\ R ⊆ R' /\ i ∈ R'.
Proof.
  intros Hi (bytes & Hdec & Hopen) Ht. unfold WebRTC.receiveChunk.
  rewrite (ft_fileId _ _ _ _ _ Ht), String.eqb_refl. cbn [negb].
  unfold WebRTC.hasReceived. rewrite (ft_indices _ _ _ _ _ Ht).
  destruct (bool_decide (i ∈ R)) eqn:Hhas.
  - apply bool_decide_eq_true_1 in Hhas. exists R.
    split; [exact Ht | split; [reflexivity | exact Hhas]].
  - rewrite Hdec. unfold opens in Hopen. rewrite Hopen. unfold Ok.
    destruct Ht as [T1 T2 T3 T4 T5 T6 T7 T8 T9].
    exists (R ∪ {[i]}). split; [|split].
    + constructor; cbn [fst WebRTC.fileId WebRTC.name WebRTC.size WebRTC.mimeType
                        WebRTC.totalChunks WebRTC.receivedIndices WebRTC.chunks];
        try assumption; try reflexivity.
      * intros j. destruct (Nat.eq_dec i j) as [<- | Hne].
        -- rewrite ReceiverProofs.arrayGet_arraySet_eq. split; [discriminate|].
           intros _. apply elem_of_union. right. now apply elem_of_singleton.
        -- rewrite (ReceiverProofs.arrayGet_arraySet_ne i j) by exact Hne.
           rewrite <- T7, elem_of_union, elem_of_singleton. intuition congruence.
      * intros j c. destruct (Nat.eq_dec i j) as [<- | Hne].
        -- rewrite ReceiverProofs.arrayGet_arraySet_eq. now intros [= <-].
        -- rewrite (ReceiverProofs.arrayGet_arraySet_ne i j) by exact Hne. apply T8.
      * intros j Hj. apply elem_of_union in Hj as [Hj | Hj]; [now apply T9|].
        apply elem_of_singleton in Hj. now subst.
    + apply union_subseteq_l.
    + apply elem_of_union. right. now apply elem_of_singleton.
Qed.

Lemma relayChunk_holding R m fr :
  usable receiver fromPeer f fid (totalChunks f) fr ->
  Holding receiver fromPeer f fid R m ->
  exists R',
    Holding receiver fromPeer f fid R'
            (WebRTC.relayChunk fromPeer (fst (fst fr)) (snd (fst fr)) (snd fr) m)
    /\ R ⊆ R' /\ (forall i, snd (fst fr) = Some i -> i ∈ R').
Proof.
  intros (Hfid & i & Hidx & Hi & Hread) (Hcm & Hrelay & t & Hm & Ht).
  destruct (ReceiverProofs.relayChunk_extends fromPeer (fst (fst fr)) (snd (fst fr))
                                              (snd fr) m) as (Hrm & Hcr & _).
  unfold WebRTC.relayChunk in *. rewrite Hm in *. rewrite Hfid, Hidx, Hcm in *.
  destruct (receiveChunk_faithful R t i (snd fr) Hi Hread Ht) as (R' & Ht' & Hsub & Hin).
  destruct (WebRTC.receiveChunk receiver fromPeer fid (Some i) (snd fr) t) as [t' out].
  cbn [fst] in Ht'. exists R'. split; [|split; [exact Hsub | now intros j [= <-]]].
  split; [now rewrite Hcr|]. split; [unfold WebRTC.inRelayMode in *; now rewrite Hrm|].
  exists t'. split; [|exact Ht']. ReceiverProofs.project. apply lookup_insert_eq.
Qed.

Lemma receiveFrames_holding frames now :
  Forall (usable receiver fromPeer f fid (totalChunks f)) frames ->
  forall R m,
    Holding receiver fromPeer f fid R m ->
    exists R',
      Holding receiver fromPeer f fid R' (ReceiverSpec.receiveFrames fromPeer frames now m)
      /\ R ⊆ R' /\ (forall i data, In (fid, Some i, data) frames -> i ∈ R').
Proof.
  unfold ReceiverSpec.receiveFrames.
  induction 1 as [|fr frames Hfr _ IH]; intros R m Hm.
  - exists R. split; [exact Hm|]. split; [reflexivity | intros i data []].
  - cbn [fold_left].
    rewrite (ReceiverProofs.handleRelayData_chunk _ _ _ _ _ _ _ _ (proj1 (proj2 Hm))).
    destruct (relayChunk_holding R m fr Hfr Hm) as (R1 & Hm1 & Hsub1 & Hin1).
    destruct (IH R1 _ Hm1) as (R2 & Hm2 & Hsub2 & Hin2).
    exists R2. split; [exact Hm2|]. split; [now transitivity R1|].
    intros i data [-> | Hin]; [apply Hsub2, Hin1; reflexivity | now apply (Hin2 i data)].
Qed.

Lemma start_holding accepted now0 m0 :
  WebRTC.crypto m0 = receiver ->
  Holding receiver fromPeer f fid ∅
          (WebRTC.handleRelayData fromPeer
             (FileStart fid (name f) (fileSize f) (mimeType f) (totalChunks f)) [] now0
             (WebRTC.acceptFileRequest fromPeer fid (name f) (fileSize f) (mimeType f)
                                       (totalChunks f) accepted m0)).
Proof.
  intros Hcm. unfold WebRTC.handleRelayData. cbn [WebRTC.dispatchRelayData].
  set (m := WebRTC.acceptFileRequest _ _ _ _ _ _ _ m0).
  assert (Hm : WebRTC.incomingTransfers (WebRTC.noteRelayMode fromPeer m) !! fromPeer
               = Some {| WebRTC.fileId := fid; WebRTC.name := name f;
                         WebRTC.size := fileSize f; WebRTC.mimeType := mimeType f;
                         WebRTC.totalChunks := totalChunks f; WebRTC.chunks := [];
                         WebRTC.receivedIndices := None; WebRTC.received := 0;
                         WebRTC.startTime := accepted; WebRTC.confirmed := true;
                         WebRTC.pendingAcks := None |}).
  { rewrite ReceiverProofs.noteRelayMode_incoming. subst m.
    unfold WebRTC.acceptFileRequest. ReceiverProofs.project.
    rewrite SenderProofs.mimeType_truthy. apply lookup_insert_eq. }
  split; [|split].
  - rewrite <- Hcm. unfold WebRTC.relayFileStart. rewrite Hm. cbn. rewrite String.eqb_refl.
    cbn. ReceiverProofs.project. subst m. destruct m0.
    unfold WebRTC.noteRelayMode, WebRTC.acceptFileRequest, WebRTC.inRelayMode. cbn.
    match goal with |- context [match ?x with Some _ => _ | None => _ end] => destruct x end;
      try match goal with |- context [if ?b then _ else _] => destruct b end; reflexivity.
  - unfold WebRTC.inRelayMode. rewrite ReceiverProofs.relayFileStart_relayMode.
    apply ReceiverProofs.noteRelayMode_sets.
  - unfold WebRTC.relayFileStart. rewrite Hm. cbn. rewrite String.eqb_refl. cbn.
    ReceiverProofs.project. rewrite lookup_insert_eq. eexists. split; [reflexivity|].
    constructor; cbn; try reflexivity.
    + intros i. rewrite ReceiverProofs.arrayGet_nil.
      split; [intros H; now apply not_elem_of_empty in H | congruence].
    + intros i c. now rewrite ReceiverProofs.arrayGet_nil.
    + intros i H. now apply not_elem_of_empty in H.
Qed.

Lemma full_set (R : gset nat) total :
  0 <= total ->
  (forall i, i ∈ R -> Z.of_nat i < total) ->
  (forall i, Z.of_nat i < total -> i ∈ R) ->
  Z.of_nat (base.size R) = total.
Proof.
  intros Hnn Hb Hall.
  assert (Heq : R = set_seq 0 (Z.to_nat total)).
  { apply set_eq. intros i. rewrite elem_of_set_seq. split.
    - intros Hi. specialize (Hb i Hi). lia.
    - intros Hi. apply Hall. lia. }
  rewrite Heq, size_set_seq. lia.
Qed.

Lemma ordered_all cs l :
  (forall i, In i l -> WebRTC.arrayGet i cs = Some (chunkOf f i)) ->
  map snd (flat_map (fun i => match WebRTC.arrayGet i cs with
                              | Some c => [(i, c)]
                              | None => []
                              end) l)
  = map (chunkOf f) l.
Proof.
  induction l as [|a l IH]; intros H; [reflexivity|].
  cbn [flat_map map]. rewrite map_app, IH by (intros i Hi; apply H; now right).
  rewrite (H a) by now left. reflexivity.
Qed.

(** With every index in the set, [file-end] hands over the file. *)
Lemma fileEnd_delivers R ticks now m :
  Holding receiver fromPeer f fid R m ->
  (forall i, Z.of_nat i < totalChunks f -> i ∈ R) ->
  let m' := WebRTC.handleRelayData fromPeer (FileEnd fid (Some (totalChunks f))) ticks now m in
  (exists acks,
      WebRTC.effects m'
      = WebRTC.effects m ++ acks
        ++ [FileReceived fromPeer (name f) (mimeType f) (content f)]
      /\ forallb ReceiverSpec.quietEffect acks = true)
  /\ WebRTC.incomingTransfers m' !! fromPeer = None.
Proof.
  intros (Hcm & Hrelay & t & Hm & Ht) Hall m'. subst m'.
  pose proof (SenderProofs.ceilDiv_spec (fileSize f) CHUNK_SIZE ltac:(reflexivity)) as Hc.
  fold (totalChunks f) in Hc.
  assert (Hnn : 0 <= totalChunks f) by (unfold fileSize, CHUNK_SIZE in *; nia).
  assert (Hcount : WebRTC.receivedCount t = totalChunks f).
  { unfold WebRTC.receivedCount. rewrite (ft_indices _ _ _ _ _ Ht).
    apply full_set; [exact Hnn | apply (ft_bound _ _ _ _ _ Ht) | exact Hall]. }
  assert (Hblob : concat (map snd (WebRTC.orderedChunks (totalChunks f) t)) = content f).
  { unfold WebRTC.orderedChunks. rewrite ordered_all.
    - apply chunks_whole. rewrite Z2Nat.id by exact Hnn. lia.
    - intros i Hi. apply in_seq in Hi.
      assert (Hin : i ∈ R) by (apply Hall; lia).
      apply (ft_stored _ _ _ _ _ Ht) in Hin.
      destruct (WebRTC.arrayGet i (WebRTC.chunks t)) as [c|] eqn:E; [|congruence].
      now rewrite (ft_chunks _ _ _ _ _ Ht i c E). }
  unfold WebRTC.handleRelayData. rewrite (ReceiverProofs.noteRelayMode_id _ _ Hrelay).
  cbn [WebRTC.dispatchRelayData]. unfold WebRTC.relayFileEnd. rewrite Hm. cbv zeta.
  rewrite (ReceiverProofs.expectedCountOf_same _ t (ft_total _ _ _ _ _ Ht)).
  unfold WebRTC.fileEndWait.
  replace (WebRTC.receivedCount t <? totalChunks f) with false
    by (symmetry; apply Z.ltb_ge; lia).
  set (m1 := match WebRTC.pendingAcks t with Some (a :: l) => _ | _ => m end).
  assert (H1 : exists t1 acks,
             WebRTC.incomingTransfers m1 !! fromPeer = Some t1
             /\ WebRTC.effects m1 = WebRTC.effects m ++ acks
             /\ forallb ReceiverSpec.quietEffect acks = true
             /\ WebRTC.receivedCount t1 = totalChunks f
             /\ WebRTC.orderedChunks (totalChunks f) t1 = WebRTC.orderedChunks (totalChunks f) t
             /\ WebRTC.name t1 = name f /\ WebRTC.mimeType t1 = mimeType f
             /\ WebRTC.size t1 = fileSize f).
  { subst m1. destruct Ht as [T1 T2 T3 T4 T5 T6 T7 T8 T9].
    destruct (WebRTC.pendingAcks t) as [[|a l]|].
    - exists t, []. rewrite app_nil_r. now repeat split.
    - eexists. exists [WebRTC._sendChunkAck fromPeer (WebRTC.fileId t) (a :: l)].
      ReceiverProofs.project. rewrite lookup_insert_eq.
      split; [reflexivity|]. now repeat split.
    - exists t, []. rewrite app_nil_r. now repeat split. }
  destruct H1 as (t1 & acks & Hm1 & He1 & Hq & Hcount1 & Hord1 & Hn1 & Hmime1 & Hsz1).
  rewrite Hm1. unfold WebRTC.fileEndAssemble. cbv zeta.
  rewrite Hcount1, Z.eqb_refl, Hord1, Hblob, Hsz1. unfold fileSize at 1.
  rewrite Z.eqb_refl, Hmime1, Hn1, SenderProofs.mimeType_truthy.
  split.
  - exists acks. split; [|exact Hq]. ReceiverProofs.project.
    now rewrite He1, <- app_assoc.
  - ReceiverProofs.project. apply lookup_delete_eq.
Qed.
End Receiver.

(** X16. A transfer through the relay delivers the file.  The receiver
    holds a key for the sender, and the sender holds the same key or gets
    it during the transfer; the sender has no room password or both hold
    the same room key; keys and file are made of bytes; the receiver has
    accepted the request.  The sender runs [_sendFileDataViaRelay] under any
    schedule of acknowledgements, wake-ups and cancellations.  If the frames
    that reach the receiver between [file-start] and [file-end] are frames
    that were sent (some lost, repeated or out of order) and every index
    below [totalChunks] is among them, the handler of [file-end] sends the
    acknowledgements it still holds and hands over a blob that is the
    content of the file, byte for byte, under the name and the type of the
    file, without waiting; then the transfer is forgotten. *)
Theorem relay_transfer_delivers_the_file
        (cm : CryptoManager) (g : Rng) (publicKey toPeer : string) (f : File)
        (fid : string) (sentAt : Z) (evs : list RelayEvent)
        (key : list Z) (fromPeer : string) (frames : list WebRTC.ChunkFrame)
        (ticks : list (list WebRTC.ChunkFrame * Z)) (accepted now0 now1 now : Z)
        (m0 : WebRTC.Manager) :
  KeysAgree key cm (WebRTC.crypto m0) toPeer fromPeer ->
  Forall (sameKey key) evs ->
  Forall isByte (content f) ->
  ReceiverSpec.delivered (ReceiverSpec.sentFrames cm g publicKey toPeer f fid sentAt evs)
                         frames = true ->
  (forall i, Z.of_nat i < totalChunks f -> exists data, In (fid, Some i, data) frames) ->
  let m := WebRTC.acceptFileRequest fromPeer fid (name f) (fileSize f) (mimeType f)
                                    (totalChunks f) accepted m0 in
  let m1 := WebRTC.handleRelayData fromPeer
              (FileStart fid (name f) (fileSize f) (mimeType f) (totalChunks f)) [] now0 m in
  let m2 := ReceiverSpec.receiveFrames fromPeer frames now1 m1 in
  let m3 := WebRTC.handleRelayData fromPeer (FileEnd fid (Some (totalChunks f))) ticks now
                                   m2 in
  (exists acks,
      WebRTC.effects m3
      = WebRTC.effects m2 ++ acks
        ++ [FileReceived fromPeer (name f) (mimeType f) (content f)]
      /\ forallb ReceiverSpec.quietEffect acks = true)
  /\ WebRTC.incomingTransfers m3 !! fromPeer = None.
Proof.
  intros [K1 K2 K3 K4 K5] Hevs Hbytes Hdel Hcover m m1 m2 m3.
  set (s := r_run (_sendFileDataViaRelay cm g publicKey toPeer f fid sentAt) evs).
  assert (Hseal : Sealing key cm (WebRTC.crypto m0) fromPeer s).
  { apply run_sealed; try assumption; [apply start_inv|]. now apply start_sealed. }
  pose proof (run_ident (_sendFileDataViaRelay cm g publicKey toPeer f fid sentAt) evs) as Hid.
  rewrite start_ident in Hid. fold s in Hid. unfold ident in Hid.
  injection Hid as _ Hfid Hf.
  pose proof (sl_frames _ _ _ _ _ Hseal) as Hread. rewrite Hf, Hfid in Hread.
  pose proof (relay_frames_in_range cm g publicKey toPeer f fid sentAt evs) as Hrange.
  fold s in Hrange.
  pose proof (framesOf_usable _ _ _ _ _ _ Hread Hrange) as Hsent.
  pose proof (delivered_usable _ _ _ Hsent Hdel) as Husable.
  pose proof (start_holding (WebRTC.crypto m0) fromPeer f fid accepted now0 m0 eq_refl) as H1.
  fold m m1 in H1.
  destruct (receiveFrames_holding (WebRTC.crypto m0) fromPeer f fid frames now1 Husable ∅ m1 H1)
    as (R & H2 & _ & Hin). fold m2 in H2.
  apply (fileEnd_delivers (WebRTC.crypto m0) fromPeer f fid R ticks now m2 H2).
  intros i Hi. destruct (Hcover i Hi) as (data & Hd). now apply (Hin i data).
Qed.

Lemma relay_transfer_delivers_the_file_witness :
  let m := WebRTC.acceptFileRequest "alice" "f1" "hello.bin" 3 "application/octet-stream" 1
                                    0 ReceiverSpec.receiver in
  let m1 := WebRTC.handleRelayData "alice"
              (FileStart "f1" "hello.bin" 3 "application/octet-stream" 1) [] 1 m in
  let m2 := ReceiverSpec.receiveFrames "alice" (relayedSmall ++ relayedSmall) 2 m1 in
  let m3 := WebRTC.handleRelayData "alice" (FileEnd "f1" (Some 1)) [] 3 m2 in
  (exists acks,
      WebRTC.effects m3
      = WebRTC.effects m2 ++ acks
        ++ [FileReceived "alice" "hello.bin" "application/octet-stream" [1; 2; 3]]
      /\ forallb ReceiverSpec.quietEffect acks = true)
  /\ WebRTC.incomingTransfers m3 !! "alice" = None.
Proof.
  apply (relay_transfer_delivers_the_file
           Spec.alice Spec.sampleRng "pk" "bob" Spec.smallFile "f1" 0
           [RWake 1; RAck [0%nat] 2; RWake 3] Spec.peerKey "alice"
           (relayedSmall ++ relayedSmall) [] 0 1 2 3 ReceiverSpec.receiver).
  - constructor.
    + reflexivity.
    + left. reflexivity.
    + right. split; reflexivity.
    + apply forallb_bytes. reflexivity.
    + intros rk [= <-]. apply forallb_bytes. reflexivity.
  - repeat constructor.
  - apply forallb_bytes. reflexivity.
  - vm_compute. reflexivity.
  - intros i Hi. change (totalChunks Spec.smallFile) with 1 in Hi.
    assert (i = 0%nat) as -> by lia.
    eexists. vm_compute. left. reflexivity.
Defined.
End RelayDeliveryProofs.


Module EngineMore.
Import Js Config Crypto Wire WebRTC EngineSpec EngineMoreSpec EngineProofs.
Local Open Scope string_scope.
Local Open Scope list_scope.
Local Open Scope Z_scope.

(** **** ICE failures *)

Lemma ice_failed_restarts peerId now m :
  directPossible m peerId = true -> restartCount m peerId < MAX_ICE_RESTARTS ->
  let m' := _handleIceConnectionStateChange peerId IceFailed now m in
  restartCount m' peerId = restartCount m peerId + 1
  /\ directPossible m' peerId = true
  /\ relayMode m' = relayMode m
  /\ effects m' = effects m.
Proof.
  intros Hq Hc. destruct m as [a b c d e f0 g h i j k l n o p q r].
  unfold _handleIceConnectionStateChange, directPossible, restartCount, inRelayMode in *.
  fields.
  destruct (g !! peerId) as [id|]; fields; unfold clearTimeout; fields;
    rewrite Hq; (replace (_ <? MAX_ICE_RESTARTS) with true by (symmetry; apply Z.ltb_lt; lia));
    cbn [andb]; unfold _attemptIceRestart; fields;
    (replace (MAX_ICE_RESTARTS <=? _) with false by (symmetry; apply Z.leb_gt; lia));
    fields; rewrite lookup_insert_eq; now repeat split.
Qed.

(** [_switchToRelay] leaves the peer in relay mode, with the other peers as
    they were. *)
Lemma switchToRelay_sets peerId message silent now m :
  inRelayMode (_switchToRelay peerId message silent now m) peerId = true.
Proof.
  unfold _switchToRelay. destruct (inRelayMode m peerId) eqn:Hmode; [exact Hmode|].
  cbv zeta. set (m3 := if bool_decide _ then _ else _).
  assert (H3 : relayMode m3 = <[peerId := true]> (relayMode m)).
  { subst m3. destruct m as [a b c d e f0 g h i j k l n o p q r]. fields.
    destruct (bool_decide _); [|reflexivity].
    destruct (i !! peerId) as [racing|]; [|reflexivity].
    destruct (resolved racing); reflexivity. }
  revert H3. generalize m3 as x. clear m3. intros x H3.
  unfold _startBackgroundP2PRetry, _stopBackgroundP2PRetry, setTimeout, clearTimeout,
    inRelayMode.
  destruct x as [a b c d e f0 g h i j k l n o p q r]. fields.
  destruct (n !! peerId) as [id|]; [destruct (0 <? id)%nat|]; fields;
    rewrite H3, lookup_insert_eq; reflexivity.
Qed.

Lemma ice_failed_switches peerId now m :
  directPossible m peerId = false \/ MAX_ICE_RESTARTS <= restartCount m peerId ->
  inRelayMode (_handleIceConnectionStateChange peerId IceFailed now m) peerId = true.
Proof.
  intros Hq. unfold _handleIceConnectionStateChange. cbv zeta.
  set (m1 := match disconnectedTimers _ !! peerId with Some id => _ | None => _ end).
  assert (H1 : directPossible m1 peerId = directPossible m peerId
               /\ restartCount m1 peerId = restartCount m peerId).
  { subst m1. destruct m as [a b c d e f0 g h i j k l n o p q r].
    unfold directPossible, restartCount, clearTimeout. fields.
    destruct (g !! peerId); now fields. }
  destruct H1 as [H1 H2]. unfold directPossible, restartCount in *. rewrite H1, H2.
  destruct Hq as [Hq | Hq].
  - rewrite Hq. cbn [andb]. apply switchToRelay_sets.
  - replace (_ <? MAX_ICE_RESTARTS) with false by (symmetry; apply Z.ltb_ge; exact Hq).
    rewrite andb_false_r. apply switchToRelay_sets.
Qed.

Lemma ice_failed_keeps_mode peerId now m :
  directPossible m peerId = true -> restartCount m peerId < MAX_ICE_RESTARTS ->
  inRelayMode (_handleIceConnectionStateChange peerId IceFailed now m) peerId
  = inRelayMode m peerId.
Proof.
  intros Hq Hc. destruct (ice_failed_restarts peerId now m Hq Hc) as (_ & _ & Hr & _).
  unfold inRelayMode. now rewrite Hr.
Qed.

(** X17. With a direct candidate seen ([p2pPossible]), the first
    [MAX_ICE_RESTARTS] failures of the ICE connection of a peer restart ICE:
    the restart counter goes up by one, the peer is not switched to relay
    mode and the observer hears nothing.  The failure after that switches
    the peer to relay mode; so does the first failure when no direct
    candidate has been seen. *)
Theorem ice_restarts_are_bounded (peerId : string) (t1 t2 t3 : Z) (m : Manager) :
  inRelayMode m peerId = false ->
  iceRestartCounts m !! peerId = None ->
  (directPossible m peerId = true ->
   let m1 := iceFailures peerId [t1] m in
   let m2 := iceFailures peerId [t1; t2] m in
   let m3 := iceFailures peerId [t1; t2; t3] m in
   (restartCount m1 peerId = 1 /\ inRelayMode m1 peerId = false /\ effects m1 = effects m)
   /\ (restartCount m2 peerId = 2 /\ inRelayMode m2 peerId = false
       /\ effects m2 = effects m)
   /\ inRelayMode m3 peerId = true)
  /\ (directPossible m peerId = false ->
      inRelayMode (iceFailures peerId [t1] m) peerId = true).
Proof.
  intros Hmode Hcount. split.
  - intros Hq m1 m2 m3. subst m1 m2 m3. unfold iceFailures. cbn [fold_left].
    assert (H0 : restartCount m peerId = 0) by (unfold restartCount; now rewrite Hcount).
    destruct (ice_failed_restarts peerId t1 m Hq ltac:(rewrite H0; reflexivity))
      as (C1 & Q1 & R1 & E1).
    set (m1 := _handleIceConnectionStateChange peerId IceFailed t1 m) in *.
    rewrite H0 in C1.
    destruct (ice_failed_restarts peerId t2 m1 Q1 ltac:(rewrite C1; reflexivity))
      as (C2 & Q2 & R2 & E2).
    set (m2 := _handleIceConnectionStateChange peerId IceFailed t2 m1) in *.
    rewrite C1 in C2.
    split; [|split].
    + split; [exact C1|]. split; [|exact E1]. unfold inRelayMode in *. now rewrite R1.
    + split; [exact C2|]. split; [|now rewrite E2]. unfold inRelayMode in *.
      now rewrite R2, R1.
    + apply ice_failed_switches. right. rewrite C2. unfold MAX_ICE_RESTARTS. lia.
  - intros Hq. unfold iceFailures. cbn [fold_left]. apply ice_failed_switches. now left.
Qed.

Lemma ice_restarts_are_bounded_witness :
  let m1 := iceFailures "bob" [10] withHostCandidate in
  let m2 := iceFailures "bob" [10; 20] withHostCandidate in
  let m3 := iceFailures "bob" [10; 20; 30] withHostCandidate in
  (restartCount m1 "bob" = 1 /\ inRelayMode m1 "bob" = false
   /\ effects m1 = effects withHostCandidate)
  /\ (restartCount m2 "bob" = 2 /\ inRelayMode m2 "bob" = false
      /\ effects m2 = effects withHostCandidate)
  /\ inRelayMode m3 "bob" = true.
Proof.
  apply (ice_restarts_are_bounded "bob" 10 20 30 withHostCandidate);
    vm_compute; reflexivity.
Defined.

(** **** The background retry *)

Lemma failedRetry_again peerId now k m :
  inRelayMode m peerId = true -> p2pRetryAttempts m !! peerId = Some k ->
  k + 1 <= P2P_RETRY_MAX_ATTEMPTS ->
  let m' := failedRetry peerId now m in
  inRelayMode m' peerId = true
  /\ p2pRetryAttempts m' !! peerId = Some (k + 1)
  /\ p2pRetryTimers m' !! peerId = Some (nextTimerId m)
  /\ nextTimerId m' = S (nextTimerId m)
  /\ connections m' !! peerId = None
  /\ effects m' = effects m.
Proof.
  intros Hmode Hk Hle. unfold failedRetry, _attemptSilentP2PReconnect.
  rewrite Hmode, Hk. cbn [negb].
  replace (P2P_RETRY_MAX_ATTEMPTS <? k + 1) with false by (symmetry; apply Z.ltb_ge; lia).
  unfold silentReconnectDone, inRelayMode in *.
  destruct m as [a b c d e f0 g h i j k0 l n o p q r]. unfold setTimeout. fields.
  rewrite Hmode. fields. rewrite !lookup_insert_eq, lookup_delete_eq.
  now repeat split.
Qed.

Lemma failedRetry_stops peerId now k m :
  inRelayMode m peerId = true -> p2pRetryAttempts m !! peerId = Some k ->
  P2P_RETRY_MAX_ATTEMPTS < k + 1 ->
  (forall id, p2pRetryTimers m !! peerId = Some id -> (0 < id)%nat) ->
  let m' := failedRetry peerId now m in
  inRelayMode m' peerId = true
  /\ p2pRetryAttempts m' !! peerId = None
  /\ p2pRetryTimers m' !! peerId = None
  /\ connections m' = connections m
  /\ effects m' = effects m.
Proof.
  intros Hmode Hk Hgt Hpos. unfold failedRetry, _attemptSilentP2PReconnect.
  rewrite Hmode, Hk. cbn [negb].
  replace (P2P_RETRY_MAX_ATTEMPTS <? k + 1) with true by (symmetry; apply Z.ltb_lt; lia).
  unfold _stopBackgroundP2PRetry, clearTimeout, inRelayMode in *.
  destruct m as [a b c d e f0 g h i j k0 l n o p q r]. fields.
  destruct (n !! peerId) as [id|] eqn:En.
  - specialize (Hpos id eq_refl). apply Nat.ltb_lt in Hpos. rewrite Hpos. fields.
    rewrite !lookup_delete_eq. now repeat split.
  - fields. rewrite lookup_delete_eq. now repeat split.
Qed.

Lemma failedRetries_count peerId times :
  forall k m,
    inRelayMode m peerId = true -> p2pRetryAttempts m !! peerId = Some k ->
    (0 < nextTimerId m)%nat ->
    (forall id, p2pRetryTimers m !! peerId = Some id -> (0 < id)%nat) ->
    k + Z.of_nat (length times) <= P2P_RETRY_MAX_ATTEMPTS ->
    let m' := failedRetries peerId times m in
    inRelayMode m' peerId = true
    /\ p2pRetryAttempts m' !! peerId = Some (k + Z.of_nat (length times))
    /\ (0 < nextTimerId m')%nat
    /\ (forall id, p2pRetryTimers m' !! peerId = Some id -> (0 < id)%nat)
    /\ (times <> [] -> p2pRetryTimers m' !! peerId <> None)
    /\ effects m' = effects m.
Proof.
  unfold failedRetries.
  induction times as [|now times IH]; intros k m Hmode Hk Hnext Hpos Hle.
  - cbn [fold_left length]. rewrite Z.add_0_r. now repeat split.
  - cbn [fold_left]. cbn [length] in Hle.
    destruct (failedRetry_again peerId now k m Hmode Hk ltac:(lia))
      as (A1 & A2 & A3 & A4 & _ & A6).
    set (m1 := failedRetry peerId now m) in *.
    destruct (IH (k + 1) m1 A1 A2) as (B1 & B2 & B3 & B4 & B5 & B6).
    + rewrite A4. lia.
    + intros id. rewrite A3. intros [= <-]. exact Hnext.
    + lia.
    + split; [exact B1|]. split; [rewrite B2; f_equal; cbn [length]; lia|].
      split; [exact B3|]. split; [exact B4|]. split; [|now rewrite B6].
      intros _. destruct times as [|t2 times]; [|apply B5; discriminate].
      cbn [fold_left]. rewrite A3. discriminate.
Qed.

(** X18. In relay mode the background retry counts its attempts.  Each of
    the first [P2P_RETRY_MAX_ATTEMPTS] rounds starts a silent attempt and,
    when that fails, schedules the next round; the peer stays in relay
    mode and the observer hears nothing.  The round after that starts no
    attempt: it removes the timer and the counter of the peer, and the
    peer stays in relay mode. *)
Theorem background_retry_gives_up (peerId : string) (times : list Z) (last : Z)
        (m : Manager) :
  inRelayMode m peerId = true ->
  p2pRetryAttempts m !! peerId = Some 0 ->
  (0 < nextTimerId m)%nat ->
  (forall id, p2pRetryTimers m !! peerId = Some id -> (0 < id)%nat) ->
  Z.of_nat (length times) <= P2P_RETRY_MAX_ATTEMPTS ->
  let m' := failedRetries peerId times m in
  (inRelayMode m' peerId = true
   /\ retryAttempts m' peerId = Some (Z.of_nat (length times))
   /\ (times <> [] -> p2pRetryTimers m' !! peerId <> None)
   /\ effects m' = effects m)
  /\ (Z.of_nat (length times) = P2P_RETRY_MAX_ATTEMPTS ->
      let stopped := failedRetry peerId last m' in
      inRelayMode stopped peerId = true
      /\ retryAttempts stopped peerId = None
      /\ p2pRetryTimers stopped !! peerId = None
      /\ connections stopped = connections m'
      /\ effects stopped = effects m).
Proof.
  intros Hmode Hk Hnext Hpos Hle m'.
  destruct (failedRetries_count peerId times 0 m Hmode Hk Hnext Hpos ltac:(lia))
    as (A1 & A2 & A3 & A4 & A5 & A6).
  fold m' in A1, A2, A3, A4, A5, A6. rewrite Z.add_0_l in A2.
  split; [now repeat split|].
  intros Hlen stopped.
  destruct (failedRetry_stops peerId last _ m' A1 A2 ltac:(lia) A4)
    as (B1 & B2 & B3 & B4 & B5).
  fold stopped in B1, B2, B3, B4, B5. rewrite A6 in B5. now repeat split.
Qed.

Lemma background_retry_gives_up_witness :
  let m' := failedRetries "bob" [1; 2; 3; 4; 5; 6; 7; 8; 9; 10] relayedBob in
  (inRelayMode m' "bob" = true
   /\ retryAttempts m' "bob" = Some 10
   /\ ([1; 2; 3; 4; 5; 6; 7; 8; 9; 10] <> [] -> p2pRetryTimers m' !! "bob" <> None)
   /\ effects m' = effects relayedBob)
  /\ (10 = P2P_RETRY_MAX_ATTEMPTS ->
      let stopped := failedRetry "bob" 11 m' in
      inRelayMode stopped "bob" = true
      /\ retryAttempts stopped "bob" = None
      /\ p2pRetryTimers stopped !! "bob" = None
      /\ connections stopped = connections m'
      /\ effects stopped = effects relayedBob).
Proof.
  apply (background_retry_gives_up "bob" [1; 2; 3; 4; 5; 6; 7; 8; 9; 10] 11 relayedBob).
  - vm_compute. reflexivity.
  - vm_compute. reflexivity.
  - vm_compute. lia.
  - intros id H. vm_compute in H. injection H as <-. lia.
  - vm_compute. discriminate.
Defined.

(** **** The race and its timers *)

Lemma pendingTimer_cleared id m : pendingTimer (clearTimeout id m) id = None.
Proof.
  unfold pendingTimer, clearTimeout. destruct m as [a b c d e f0 g h i j k l n o p q r].
  fields. induction k as [|t k IH]; [reflexivity|].
  cbn [List.filter]. destruct (Nat.eqb (timerId t) id) eqn:E; cbn [negb]; [exact IH|].
  cbn [find]. now rewrite E.
Qed.

Lemma pendingTimer_stays_cleared id id' m :
  pendingTimer m id = None -> pendingTimer (clearTimeout id' m) id = None.
Proof.
  unfold pendingTimer, clearTimeout. destruct m as [a b c d e f0 g h i j k l n o p q r].
  fields. induction k as [|t k IH]; [reflexivity|].
  cbn [find List.filter]. destruct (Nat.eqb (timerId t) id) eqn:E; [discriminate|].
  intros H. destruct (negb (Nat.eqb (timerId t) id')); [|now apply IH].
  cbn [find]. rewrite E. now apply IH.
Qed.

(** X19. When the direct attempt of a race succeeds before the race is
    resolved, the race is settled for the direct connection and the
    observer is told [connected]; the relay modes are as they were; the
    three timers of the race are cleared, so none of them fires any more;
    and should the handler of the fallback timer or of the ultimate timer
    still run, it leaves the relay modes and what the observer has been
    told as they are. *)
Theorem direct_win_disarms_the_race (peerId : string) (racing : Racing) (m : Manager) :
  races m !! peerId = Some racing ->
  resolved racing = false ->
  raceResult m !! peerId = None ->
  let m' := p2pSucceeded peerId m in
  raceResult m' !! peerId = Some P2P
  /\ (peerId ∉ connectionRacing m')
  /\ relayMode m' = relayMode m
  /\ effects m' = effects m ++ [Notify peerId Connected None]
  /\ (forall id now, In id (raceTimers racing) -> fire id now m' = m')
  /\ (forall now,
         relayMode (fallbackTimerFired peerId now m') = relayMode m
         /\ effects (fallbackTimerFired peerId now m') = effects m'
         /\ relayMode (ultimateTimerFired peerId now m') = relayMode m
         /\ effects (ultimateTimerFired peerId now m') = effects m').
Proof.
  intros Hrace Hopen Hres m'.
  assert (Hm' : m' = settle peerId P2P
                       (clearTimeout (ultimateTimer racing)
                          (clearTimeout (fallbackTimer racing)
                             (clearTimeout (slowTimer racing)
                                (withRaces (insert peerId
                                              {| resolved := true; winner := Some P2P;
                                                 slowTimer := slowTimer racing;
                                                 fallbackTimer := fallbackTimer racing;
                                                 ultimateTimer := ultimateTimer racing |})
                                           m))))).
  { subst m'. unfold p2pSucceeded, resolveRace, clearRaceTimers. rewrite Hrace, Hopen.
    destruct m as [a b c d e f0 g h i j k l n o p q r]. fields.
    now rewrite lookup_insert_eq. }
  set (m0 := withRaces _ m) in Hm'.
  set (m3 := clearTimeout _ (clearTimeout _ (clearTimeout _ m0))) in Hm'.
  assert (Hcleared : forall id, In id (raceTimers racing) -> pendingTimer m' id = None).
  { assert (H3 : forall id, In id (raceTimers racing) -> pendingTimer m3 id = None).
    { intros id [<- | [<- | [<- | []]]]; subst m3.
      - apply pendingTimer_stays_cleared, pendingTimer_stays_cleared, pendingTimer_cleared.
      - apply pendingTimer_stays_cleared, pendingTimer_cleared.
      - apply pendingTimer_cleared. }
    intros id Hid. specialize (H3 id Hid). rewrite Hm'. revert H3.
    unfold settle, pendingTimer. destruct m3 as [a b c d e f0 g h i j k l n o p q r].
    fields. destruct (j !! peerId); now fields. }
  assert (Hfields : raceResult m' !! peerId = Some P2P
                    /\ (peerId ∉ connectionRacing m')
                    /\ relayMode m' = relayMode m
                    /\ effects m' = effects m ++ [Notify peerId Connected None]
                    /\ races m' !! peerId
                       = Some {| resolved := true; winner := Some P2P;
                                 slowTimer := slowTimer racing;
                                 fallbackTimer := fallbackTimer racing;
                                 ultimateTimer := ultimateTimer racing |}).
  { rewrite Hm'. subst m3 m0. unfold settle, clearTimeout.
    destruct m as [a b c d e f0 g h i j k l n o p q r]. fields. rewrite Hres. fields.
    rewrite !lookup_insert_eq. repeat split.
    intros Hin. apply elem_of_difference in Hin as [_ Hn]. apply Hn.
    now apply elem_of_singleton. }
  destruct Hfields as (F1 & F2 & F3 & F4 & F5).
  split; [exact F1|]. split; [exact F2|]. split; [exact F3|]. split; [exact F4|]. split.
  - intros id now Hid. unfold fire. now rewrite (Hcleared id Hid).
  - intros now. unfold fallbackTimerFired, ultimateTimerFired. rewrite F5. cbv zeta.
    cbn [slowTimer fallbackTimer].
    assert (Hres1 : forall x, races x = races m' -> isResolved x peerId = true).
    { intros x Hx. unfold isResolved. now rewrite Hx, F5. }
    rewrite (Hres1 (clearTimeout (slowTimer racing) m')),
      (Hres1 (clearTimeout (fallbackTimer racing) (clearTimeout (slowTimer racing) m')));
      try (unfold clearTimeout; destruct m'; reflexivity).
    rewrite <- F3. unfold clearTimeout. destruct m'. now repeat split.
Qed.

Lemma direct_win_disarms_the_race_witness :
  let m' := p2pSucceeded "bob" (started "bob" 0 new) in
  raceResult m' !! "bob" = Some P2P
  /\ ("bob" ∉ connectionRacing m')
  /\ relayMode m' = relayMode (started "bob" 0 new)
  /\ effects m' = effects (started "bob" 0 new) ++ [Notify "bob" Connected None]
  /\ (forall id now, In id (raceTimers firstRace) -> fire id now m' = m')
  /\ (forall now,
         relayMode (fallbackTimerFired "bob" now m') = relayMode (started "bob" 0 new)
         /\ effects (fallbackTimerFired "bob" now m') = effects m'
         /\ relayMode (ultimateTimerFired "bob" now m') = relayMode (started "bob" 0 new)
         /\ effects (ultimateTimerFired "bob" now m') = effects m').
Proof.
  apply (direct_win_disarms_the_race "bob" firstRace (started "bob" 0 new));
    vm_compute; reflexivity.
Defined.

(** X20. When the ultimate timer of a race fires and the race is not
    resolved, the race is settled for the relay and the peer is in relay
    mode afterwards.  If it was not in relay mode before, the observer is
    told so with the message of the timeout and the background retry is
    started with its counter at 0; if it was, the observer hears nothing.
    When the race is resolved, the timer changes neither the relay modes
    nor the outcome nor what the observer has been told. *)
Theorem ultimate_timer_commits (peerId : string) (now : Z) (m : Manager) :
  let m' := ultimateTimerFired peerId now m in
  (isResolved m peerId = false -> raceResult m !! peerId = None ->
   inRelayMode m' peerId = true
   /\ raceResult m' !! peerId = Some ViaRelay
   /\ (inRelayMode m peerId = false ->
       effects m' = effects m
                    ++ [Notify peerId Relay (Some "transfer.connection.timeoutSwitchRelay")]
       /\ p2pRetryAttempts m' !! peerId = Some 0)
   /\ (inRelayMode m peerId = true -> effects m' = effects m))
  /\ (isResolved m peerId = true ->
      relayMode m' = relayMode m /\ raceResult m' = raceResult m
      /\ effects m' = effects m).
Proof.
  intros m'. subst m'. unfold ultimateTimerFired.
  set (m1 := match races m !! peerId with Some racing => _ | None => m end).
  assert (H1 : inRelayMode m1 peerId = inRelayMode m peerId
               /\ isResolved m1 peerId = isResolved m peerId
               /\ raceResult m1 = raceResult m /\ effects m1 = effects m
               /\ relayMode m1 = relayMode m).
  { subst m1. destruct (races m !! peerId) as [racing|]; [|now repeat split].
    destruct (clearTimeout_keeps (slowTimer racing) peerId m)
      as (K1 & K2 & _ & _ & K5 & K6 & K7).
    destruct (clearTimeout_keeps (fallbackTimer racing) peerId
                                 (clearTimeout (slowTimer racing) m))
      as (L1 & L2 & _ & _ & L5 & L6 & L7).
    rewrite L1, L2, L5, L6, L7, K1, K2, K5, K6, K7. now repeat split. }
  destruct H1 as (A1 & A2 & A3 & A4 & A5). cbv zeta. rewrite A2. split.
  - intros Hopen Hres. rewrite Hopen.
    destruct (inRelayMode m peerId) eqn:Hmode.
    + unfold _switchToRelay. rewrite A1. unfold settle. rewrite A3, Hres.
      destruct m1 as [a b c d e f0 g h i j k l n o p q r].
      unfold inRelayMode in *. fields. rewrite lookup_insert_eq, A1.
      split; [reflexivity|]. split; [reflexivity|]. split; [discriminate|].
      intros _. exact A4.
    + destruct (switch_and_settle peerId "transfer.connection.timeoutSwitchRelay" now m1)
        as (S1 & S2 & S3); [rewrite A1; reflexivity | now rewrite A3|].
      split; [exact S1|]. split; [exact S2|]. split; [|discriminate].
      intros _. split; [now rewrite S3, A4|].
      destruct (switchToRelay_starts_retry
                  peerId (Some "transfer.connection.timeoutSwitchRelay") false now m1)
        as (_ & T2 & _); [rewrite A1; reflexivity|].
      revert T2. generalize (_switchToRelay peerId
                               (Some "transfer.connection.timeoutSwitchRelay") false now m1).
      intros x T2. unfold settle.
      destruct (raceResult x !! peerId); [exact T2|].
      destruct x. fields. exact T2.
  - intros Hdone. rewrite Hdone. now repeat split.
Qed.

Lemma ultimate_timer_commits_witness :
  let m := started "bob" 0 new in
  let m' := ultimateTimerFired "bob" 15000 m in
  (isResolved m "bob" = false /\ raceResult m !! "bob" = None
   /\ inRelayMode m "bob" = false)
  /\ inRelayMode m' "bob" = true
  /\ raceResult m' !! "bob" = Some ViaRelay
  /\ effects m' = effects m
                  ++ [Notify "bob" Relay (Some "transfer.connection.timeoutSwitchRelay")]
  /\ p2pRetryAttempts m' !! "bob" = Some 0.
Proof.
  intros m m'.
  assert (H1 : isResolved m "bob" = false) by (vm_compute; reflexivity).
  assert (H2 : raceResult m !! "bob" = None) by (vm_compute; reflexivity).
  assert (H3 : inRelayMode m "bob" = false) by (vm_compute; reflexivity).
  destruct (ultimate_timer_commits "bob" 15000 m) as [H _].
  destruct (H H1 H2) as (R1 & R2 & R3 & _). destruct (R3 H3) as [R4 R5].
  repeat split; assumption.
Defined.
End EngineMore.


Module AppMore.
Import Js Config Crypto Wire WebRTC Spec RoomSpec AppSpec.
Local Open Scope string_scope.
Local Open Scope list_scope.
Local Open Scope Z_scope.

(** **** Creating a secure room *)





(** **** A cancelled transfer *)

Lemma data_frame_ignored peerId frame now m :
  isDataFrame frame = true -> incomingTransfers m !! peerId = None ->
  handleMessage peerId frame now m = m.
Proof.
  intros Hf Hnone. destruct frame as [[]|]; try discriminate;
    unfold handleMessage; now rewrite ?Hnone.
Qed.

Lemma data_frames_ignored peerId frames now m :
  forallb isDataFrame frames = true -> incomingTransfers m !! peerId = None ->
  handleMessages peerId frames now m = m.
Proof.
  unfold handleMessages. induction frames as [|frame frames IH]; intros Hf Hnone;
    [reflexivity|].
  cbn [forallb] in Hf. apply andb_true_iff in Hf as [H1 H2]. cbn [fold_left].
  rewrite (data_frame_ignored peerId frame now m H1 Hnone). now apply IH.
Qed.

Lemma data_payload_ignored peerId data now m :
  isDataPayload data = true -> incomingTransfers m !! peerId = None ->
  handleRelayData peerId data [] now m = noteRelayMode peerId m.
Proof.
  intros Hd Hnone. unfold handleRelayData.
  pose proof (ReceiverProofs.noteRelayMode_incoming peerId m) as Hinc.
  destruct data; try discriminate; cbn [dispatchRelayData].
  - unfold relayChunk. now rewrite Hinc, Hnone.
  - unfold relayFileEnd. now rewrite Hinc, Hnone.
Qed.

Lemma data_payloads_ignored peerId payloads now m :
  forallb isDataPayload payloads = true -> incomingTransfers m !! peerId = None ->
  payloads <> [] ->
  relayed peerId payloads now m = noteRelayMode peerId m.
Proof.
  unfold relayed. revert m. induction payloads as [|data payloads IH]; intros m Hd Hnone Hne;
    [congruence|].
  cbn [forallb] in Hd. apply andb_true_iff in Hd as [H1 H2]. cbn [fold_left].
  rewrite (data_payload_ignored peerId data now m H1 Hnone).
  destruct payloads as [|d2 payloads]; [reflexivity|].
  rewrite IH; [| exact H2 | now rewrite ReceiverProofs.noteRelayMode_incoming | discriminate].
  apply ReceiverProofs.noteRelayMode_id, ReceiverProofs.noteRelayMode_sets.
Qed.

(** X22. A cancelled transfer delivers nothing.  When [file-cancel]
    arrives for the transfer that a peer is sending, [handleFileCancel]
    forgets the incoming transfer, marks the registered transfer as
    cancelled and tells the observer.  Whatever chunks and [file-end] of
    that peer arrive afterwards, over the data channel or through the
    relay, no file is handed over and no progress is reported: over the
    data channel nothing changes at all, through the relay at most the
    switch of the peer to relay mode is noted. *)
Theorem cancelled_transfer_delivers_nothing (peerId fid reason : string)
        (t : IncomingTransfer) (m : Manager) :
  incomingTransfers m !! peerId = Some t ->
  fileId t = fid ->
  let m1 := handleFileCancel peerId fid reason m in
  incomingTransfers m1 !! peerId = None
  /\ effects m1 = effects m ++ [TransferCancelled peerId fid reason]
  /\ (forall p c, activeTransfers m !! fid = Some (Receiving p c) ->
                  activeTransfers m1 !! fid = Some (Receiving p true))
  /\ (forall frames now,
         forallb isDataFrame frames = true ->
         handleMessages peerId frames now m1 = m1)
  /\ (forall payloads now,
         forallb isDataPayload payloads = true ->
         let m2 := relayed peerId payloads now m1 in
         incomingTransfers m2 !! peerId = None
         /\ existsb isDelivery (skipn (length (effects m1)) (effects m2)) = false).
Proof.
  intros Hin Hfid m1.
  assert (H1 : incomingTransfers m1 !! peerId = None
               /\ effects m1 = effects m ++ [TransferCancelled peerId fid reason]
               /\ (forall p c, activeTransfers m !! fid = Some (Receiving p c) ->
                               activeTransfers m1 !! fid = Some (Receiving p true))).
  { subst m1. unfold handleFileCancel.
    destruct m as [a b c d e f0 g h i j k l n o p q r].
    cbn [incomingTransfers activeTransfers effects] in *.
    destruct (q !! fid) as [[sp st | rp rc]|] eqn:Eq; EngineProofs.fields;
      rewrite Hin, Hfid, String.eqb_refl; EngineProofs.fields;
      (split; [apply lookup_delete_eq|]; split; [reflexivity|]);
      intros p0 c0 H; try discriminate; injection H as <- <-; apply lookup_insert_eq. }
  destruct H1 as (A1 & A2 & A3).
  split; [exact A1|]. split; [exact A2|]. split; [exact A3|]. split.
  - intros frames now Hf. now apply data_frames_ignored.
  - intros payloads now Hd m2. subst m2.
    destruct payloads as [|d payloads].
    + cbn [relayed fold_left]. split; [exact A1|]. now rewrite skipn_all.
    + rewrite (data_payloads_ignored peerId (d :: payloads) now m1 Hd A1) by discriminate.
      split; [now rewrite ReceiverProofs.noteRelayMode_incoming|].
      unfold noteRelayMode. destruct (inRelayMode m1 peerId); [now rewrite skipn_all|].
      clearbody m1. clear. destruct m1. EngineProofs.fields.
      rewrite skipn_app, skipn_all, Nat.sub_diag. reflexivity.
Qed.

Lemma cancelled_transfer_delivers_nothing_witness :
  let m1 := handleFileCancel "alice" "f1" "user" receivingFromAlice in
  (exists t, incomingTransfers receivingFromAlice !! "alice" = Some t /\ fileId t = "f1")
  /\ incomingTransfers m1 !! "alice" = None
  /\ effects m1 = effects receivingFromAlice ++ [TransferCancelled "alice" "f1" "user"]
  /\ handleMessages "alice" [DcBinary [0]; DcText (FileEnd "f1" None)] 9 m1 = m1.
Proof.
  intros m1.
  assert (Hin : exists t, incomingTransfers receivingFromAlice !! "alice" = Some t
                          /\ fileId t = "f1")
    by (eexists; split; vm_compute; reflexivity).
  split; [exact Hin|]. destruct Hin as (t & Hin & Hfid).
  destruct (cancelled_transfer_delivers_nothing "alice" "f1" "user" t receivingFromAlice
                                                Hin Hfid) as (A1 & A2 & _ & A4 & _).
  split; [exact A1|]. split; [exact A2|]. now apply A4.
Defined.
End AppMore.


Module HubProofs.
Import Js RoomDO Hub HubSpec.
Local Open Scope string_scope.
Local Open Scope list_scope.
Local Open Scope Z_scope.

(** **** Updates by position *)

Lemma update_length i f l : length (update i f l) = length l.
Proof.
  revert i. induction l as [|s l IH]; intros [|i]; cbn; try reflexivity. now rewrite IH.
Qed.

Lemma update_split i f l s :
  nth_error l i = Some s ->
  l = firstn i l ++ s :: skipn (S i) l
  /\ update i f l = firstn i l ++ f s :: skipn (S i) l.
Proof.
  revert i. induction l as [|x l IH]; intros [|i] H; try discriminate.
  - injection H as ->. now split.
  - cbn in H. destruct (IH i H) as [H1 H2]. cbn [firstn skipn update app].
    split; [now rewrite <- H1 | now rewrite H2].
Qed.

Lemma update_outside i f l : nth_error l i = None -> update i f l = l.
Proof.
  revert i. induction l as [|x l IH]; intros [|i] H; try reflexivity; try discriminate.
  cbn in *. now rewrite IH.
Qed.

Lemma update_compose i f g l :
  update i g (update i f l) = update i (fun s => g (f s)) l.
Proof.
  revert i. induction l as [|s l IH]; intros [|i]; cbn; try reflexivity. now rewrite IH.
Qed.

Lemma firstn_at i (l : Sockets) s : nth_error l i = Some s -> length (firstn i l) = i.
Proof.
  revert i. induction l as [|x l IH]; intros [|i] H; try discriminate; [reflexivity|].
  cbn in *. now rewrite (IH i H).
Qed.

Lemma nth_error_at (a b : Sockets) x n :
  length a = n -> nth_error (a ++ x :: b) n = Some x.
Proof. intros <-. induction a as [|y a IH]; [reflexivity | exact IH]. Qed.

(** **** Sending to one peer *)

Lemma reaches_spec target s :
  reaches target s = true
  <-> exists a, attachment s = Some a /\ id a = target /\ sendThrows s = false.
Proof.
  unfold reaches. destruct (attachment s) as [a|].
  - rewrite andb_true_iff, negb_true_iff, String.eqb_eq. split.
    + intros [H1 H2]. now exists a.
    + intros (a' & [= <-] & H1 & H2). now split.
  - split; [discriminate | intros (a & H & _); discriminate].
Qed.

Lemma sendToPeer_skip target msg s l :
  reaches target s = false ->
  sendToPeer target msg (s :: l) = s :: sendToPeer target msg l.
Proof.
  unfold reaches. cbn [sendToPeer]. destruct (attachment s) as [a|]; [|reflexivity].
  destruct (String.eqb (id a) target); [|reflexivity].
  destruct (sendThrows s); [reflexivity | discriminate].
Qed.

Lemma sendToPeer_hit target msg s l :
  reaches target s = true -> sendToPeer target msg (s :: l) = withSent msg s :: l.
Proof.
  unfold reaches. cbn [sendToPeer]. destruct (attachment s) as [a|]; [|discriminate].
  destruct (String.eqb (id a) target); [|discriminate].
  destruct (sendThrows s); [discriminate | reflexivity].
Qed.

Lemma sendToPeer_spec target msg l :
  (exists before s after,
      l = before ++ s :: after
      /\ sendToPeer target msg l = before ++ withSent msg s :: after
      /\ reaches target s = true
      /\ forallb (fun x => negb (reaches target x)) before = true)
  \/ (sendToPeer target msg l = l
      /\ forallb (fun x => negb (reaches target x)) l = true).
Proof.
  induction l as [|s l IH]; [right; now split|].
  destruct (reaches target s) eqn:Er.
  - left. exists [], s, l. rewrite (sendToPeer_hit target msg s l Er). now repeat split.
  - rewrite (sendToPeer_skip target msg s l Er). cbn [forallb]. rewrite Er. cbn [negb andb].
    destruct IH as [(before & x & after & H1 & H2 & H3 & H4) | [H1 H2]].
    + left. exists (s :: before), x, after. rewrite H1 at 1. rewrite H2.
      split; [reflexivity|]. split; [reflexivity|]. split; [exact H3|].
      cbn [forallb]. now rewrite Er.
    + right. now rewrite H1.
Qed.

(** X23. Messages between peers.  An [offer], [answer], [ice-candidate],
    [text], [relay-data], [key-exchange], [file-request], [file-response]
    or [file-cancel] of a client changes nothing unless its socket carries
    an identifier and the message names a target; then it goes to the first
    socket that carries the target's identifier and on which [send] works,
    and to no other socket; what is sent has the type and the data of the
    message, and as [from] the identifier that the sender's socket carries,
    whatever the client wrote. *)
Theorem forwarded_to_the_target_only (ws : nat) (msg : ClientMessage)
        (uuid generated : string) (l : Sockets) :
  isRouted (type msg) = true ->
  let l' := webSocketMessage ws msg uuid generated l in
  (exists sender a target before s after,
      nth_error l ws = Some sender /\ attachment sender = Some a
      /\ to msg = Some target
      /\ l = before ++ s :: after
      /\ l' = before ++ withSent (Routed (type msg) (id a) (data msg)) s :: after
      /\ reaches target s = true
      /\ forallb (fun x => negb (reaches target x)) before = true)
  \/ (l' = l
      /\ forall sender a target,
           nth_error l ws = Some sender -> attachment sender = Some a ->
           truthy (id a) = true -> to msg = Some target -> truthy target = true ->
           forallb (fun x => negb (reaches target x)) l = true).
Proof.
  intros Hr l'. subst l'. unfold webSocketMessage.
  destruct (String.eqb (type msg) "join") eqn:Ej.
  { apply String.eqb_eq in Ej. rewrite Ej in Hr. discriminate. }
  rewrite Hr. unfold forward.
  destruct (to msg) as [target|]; [|right; split; [reflexivity | intros; congruence]].
  destruct (truthy target) eqn:Et; cbn [negb];
    [|right; split; [reflexivity | intros; congruence]].
  destruct (nth_error l ws) as [sender|]; [|right; split; [reflexivity | intros; congruence]].
  unfold getPeerIdFromWs.
  destruct (attachment sender) as [a|] eqn:Ea;
    [|right; split; [reflexivity | intros; congruence]].
  destruct (truthy (id a)) eqn:Eid;
    [|right; split; [reflexivity | intros; congruence]].
  destruct (sendToPeer_spec target (Routed (type msg) (id a) (data msg)) l)
    as [(before & s & after & H1 & H2 & H3 & H4) | [H1 H2]].
  - left. exists sender, a, target, before, s, after. now repeat split.
  - right. split; [exact H1|]. intros ? ? ? _ _ _ [= <-] _. exact H2.
Qed.

Lemma forwarded_to_the_target_only_witness :
  let msg := {| type := "relay-data"; to := Some "u2"; data := Some (JStr "chunk") |} in
  let l' := webSocketMessage 0 msg "" "" twoPeers in
  isRouted (type msg) = true
  /\ ((exists sender a target before s after,
          nth_error twoPeers 0 = Some sender /\ attachment sender = Some a
          /\ to msg = Some target
          /\ twoPeers = before ++ s :: after
          /\ l' = before ++ withSent (Routed (type msg) (id a) (data msg)) s :: after
          /\ reaches target s = true
          /\ forallb (fun x => negb (reaches target x)) before = true)
      \/ (l' = twoPeers
          /\ forall sender a target,
               nth_error twoPeers 0 = Some sender -> attachment sender = Some a ->
               truthy (id a) = true -> to msg = Some target -> truthy target = true ->
               forallb (fun x => negb (reaches target x)) twoPeers = true))
  /\ option_map (fun s => last (sent s)) (nth_error l' 1)
     = Some (Some (Routed "relay-data" "u1" (Some (JStr "chunk")))).
Proof.
  intros msg l'. split; [reflexivity|]. split.
  - apply (forwarded_to_the_target_only 0 msg "" "" twoPeers). reflexivity.
  - vm_compute. reflexivity.
Defined.

(** **** Broadcasts and identifiers *)

Lemma broadcast_told msg ex l : broadcast msg ex l = map (told msg ex) l.
Proof.
  unfold broadcast. apply map_ext. intros s. unfold told.
  destruct (attachment s) as [a|]; [|reflexivity].
  destruct (truthy (id a)), (match ex with Some e => String.eqb (id a) e | None => false end),
    (sendThrows s); reflexivity.
Qed.

Lemma ids_app a b : ids (a ++ b) = ids a ++ ids b.
Proof. unfold ids. apply flat_map_app. Qed.

Lemma ids_told msg ex l : ids (map (told msg ex) l) = ids l.
Proof.
  unfold ids. induction l as [|s l IH]; [reflexivity|].
  cbn [map flat_map]. rewrite IH. f_equal. unfold told.
  destruct (attachment s) as [a|] eqn:E; [|now rewrite E].
  destruct (_ && _); [cbn; now rewrite E | now rewrite E].
Qed.

(** Someone else's identifier is not the excluded one. *)
Lemma told_others msg uuid l :
  ~ In uuid (ids l) -> map (told msg (Some uuid)) l = map (told msg None) l.
Proof.
  intros Hfresh. apply map_ext_in. intros s Hs. unfold told.
  destruct (attachment s) as [a|] eqn:E; [|reflexivity].
  destruct (String.eqb_spec (id a) uuid) as [Heq | Hne]; [|reflexivity].
  elim Hfresh. unfold ids. apply in_flat_map. exists s. split; [exact Hs|].
  rewrite E. now left.
Qed.

Lemma mapSet_fresh {V} k (v : V) m :
  ~ In k (map fst m) -> Hub.mapSet k v m = m ++ [(k, v)].
Proof.
  induction m as [|[k' v'] m IH]; intros H; [reflexivity|].
  cbn [Hub.mapSet]. destruct (String.eqb_spec k' k) as [-> | Hne].
  - elim H. now left.
  - cbn [app]. rewrite IH; [reflexivity|]. intros Hin. apply H. now right.
Qed.

Lemma peersOf_app a b : peersOf (a ++ b) = peersOf a ++ peersOf b.
Proof. unfold peersOf. apply flat_map_app. Qed.

Lemma peersOf_ids l a : In a (peersOf l) -> In (id a) (ids l).
Proof.
  unfold peersOf, ids. rewrite !in_flat_map. intros (s & Hs & Ha). exists s.
  split; [exact Hs|]. destruct (attachment s) as [b|]; [|destruct Ha].
  destruct (_ && _); [|destruct Ha]. destruct Ha as [<- | []]. now left.
Qed.

Lemma getActivePeers_unique l :
  Unique l -> getActivePeers l = map (fun a => (id a, a)) (peersOf l).
Proof.
  unfold getActivePeers, Unique.
  assert (H : forall acc,
             List.NoDup (map fst acc ++ ids l) ->
             fold_left (fun peers s =>
                          match attachment s with
                          | Some a =>
                              if truthy (id a) && (readyState s =? OPEN)
                              then Hub.mapSet (id a) a peers
                              else peers
                          | None => peers
                          end) l acc
             = acc ++ map (fun a => (id a, a)) (peersOf l)).
  { induction l as [|s l IH]; intros acc Hnd; [now rewrite app_nil_r|].
    cbn [fold_left]. unfold peersOf, ids in *. cbn [flat_map] in *.
    destruct (attachment s) as [a|].
    - pose proof (List.NoDup_remove_2 _ _ _ Hnd) as Hnot.
      destruct (truthy (id a) && (readyState s =? OPEN)).
      + rewrite mapSet_fresh by (intros H; apply Hnot, in_or_app; now left).
        rewrite IH.
        * cbn [map app]. now rewrite <- app_assoc.
        * rewrite map_app. cbn [map fst]. now rewrite <- app_assoc.
      + cbn [app]. apply IH. apply List.NoDup_remove_1 in Hnd. exact Hnd.
    - cbn [app] in *. now apply IH. }
  intros Hu. now rewrite (H [] Hu).
Qed.

Lemma ids_split ws l s :
  nth_error l ws = Some s ->
  ids l = ids (firstn ws l) ++ match attachment s with Some a => [id a] | None => [] end
          ++ ids (skipn (S ws) l).
Proof.
  intros H. destruct (update_split ws (fun x => x) l s H) as [H1 _].
  rewrite H1 at 1. rewrite ids_app. unfold ids at 2. cbn [flat_map]. reflexivity.
Qed.

Lemma attachmentOf_spec joinData peerId generated nm dt bi :
  prop "name" joinData = Some nm -> prop "deviceType" joinData = Some dt ->
  prop "browserInfo" joinData = Some bi ->
  {| id := peerId;
     name := Some (match nm with
                   | Some v => if truthyJson v then v else JStr generated
                   | None => JStr generated
                   end);
     deviceType := match dt with
                   | Some v => if truthyJson v then v else JStr "desktop"
                   | None => JStr "desktop"
                   end;
     browserInfo := bi |}
  = attachmentOf joinData peerId generated.
Proof. intros H1 H2 H3. unfold attachmentOf. now rewrite H1, H2, H3. Qed.

Lemma prop_defined k joinData : joinData <> JNull -> exists v, prop k joinData = Some v.
Proof. intros H. destruct joinData; try congruence; cbn; eauto. Qed.

(** X24. Joining a room.  A socket on which [send] works sends [join]
    with data that is not [null]; the identifiers of the room are distinct
    and the new identifier is not among them.  The socket gets the new
    attachment and is sent [joined] with its identifier, the room code of
    its tag and the other peers that are open, in the order of the sockets;
    every other socket that carries an identifier and on which [send] works
    is sent [peer-joined] with the new attachment; nothing else changes, and
    the identifiers of the room are still distinct. *)
Theorem join_announces_the_peer (ws : nat) (msg : ClientMessage) (uuid generated : string)
        (l : Sockets) (socket : Socket) (joinData : Json) :
  type msg = "join" ->
  nth_error l ws = Some socket ->
  sendThrows socket = false ->
  data msg = Some joinData -> joinData <> JNull ->
  Unique l -> ~ In uuid (ids l) ->
  let a := attachmentOf joinData uuid generated in
  let l' := webSocketMessage ws msg uuid generated l in
  l' = map (told (PeerJoined a) None) (firstn ws l)
       ++ withSent (Joined uuid (match tags socket with t :: _ => t | [] => "" end)
                           (peersOf (others ws l)))
                   (withAttachment a socket)
       :: map (told (PeerJoined a) None) (skipn (S ws) l)
  /\ Unique l'
  /\ peerAt l' ws = Some a.
Proof.
  intros Htype Hws Hsend Hdata Hnull Hu Hfresh a l'.
  destruct (prop_defined "name" joinData Hnull) as (nm & Hnm).
  destruct (prop_defined "deviceType" joinData Hnull) as (dt & Hdt).
  destruct (prop_defined "browserInfo" joinData Hnull) as (bi & Hbi).
  destruct (update_split ws (withAttachment a) l socket Hws) as [Hl Hl1].
  assert (Hside : ~ In uuid (ids (firstn ws l)) /\ ~ In uuid (ids (skipn (S ws) l))
                  /\ List.NoDup (ids (firstn ws l) ++ ids (skipn (S ws) l))).
  { rewrite (ids_split ws l socket Hws) in Hfresh. unfold Unique in Hu.
    rewrite (ids_split ws l socket Hws) in Hu.
    split; [|split].
    - intros H. apply Hfresh, in_or_app. now left.
    - intros H. apply Hfresh, in_or_app. right. apply in_or_app. now right.
    - destruct (attachment socket) as [old|]; [|exact Hu].
      cbn [app] in Hu. now apply List.NoDup_remove_1 in Hu. }
  destruct Hside as (Hf1 & Hf2 & Hnd).
  assert (Hids1 : ids (update ws (withAttachment a) l)
                  = ids (firstn ws l) ++ uuid :: ids (skipn (S ws) l)).
  { rewrite Hl1, ids_app. unfold ids at 2. cbn [flat_map]. reflexivity. }
  assert (Hu1 : Unique (update ws (withAttachment a) l)).
  { unfold Unique. rewrite Hids1.
    apply (proj2 (List.NoDup_Add (List.Add_app uuid (ids (firstn ws l))
                                               (ids (skipn (S ws) l))))).
    split; [exact Hnd|]. intros H. apply in_app_or in H as [H | H]; contradiction. }
  assert (Hkeep : forall x, ~ In uuid (ids x) ->
                            map snd (List.filter
                                       (fun e => negb (String.eqb (fst e) uuid))
                                       (map (fun b => (id b, b)) (peersOf x)))
                            = peersOf x).
  { intros x Hx.
    assert (Hall : forall b, In b (peersOf x) -> id b <> uuid).
    { intros b Hb Heq. apply Hx. rewrite <- Heq. now apply peersOf_ids. }
    induction (peersOf x) as [|b bs IH]; [reflexivity|].
    cbn [map List.filter fst].
    destruct (String.eqb_spec (id b) uuid) as [Heq | Hne];
      [elim (Hall b (or_introl eq_refl) Heq)|].
    cbn [negb map snd]. f_equal. apply IH. intros c Hc. apply Hall. now right. }
  assert (Hpeers : map snd (List.filter (fun e => negb (String.eqb (fst e) uuid))
                                        (getActivePeers (update ws (withAttachment a) l)))
                   = peersOf (others ws l)).
  { rewrite (getActivePeers_unique _ Hu1), Hl1. unfold others.
    change (withAttachment a socket :: skipn (S ws) l)
      with ([withAttachment a socket] ++ skipn (S ws) l).
    rewrite !peersOf_app, !map_app, !List.filter_app, !map_app.
    rewrite (Hkeep _ Hf1), (Hkeep _ Hf2). f_equal.
    replace (map snd (List.filter (fun e => negb (String.eqb (fst e) uuid))
                                  (map (fun b => (id b, b))
                                       (peersOf [withAttachment a socket]))))
      with (@nil PeerAttachment); [reflexivity|].
    unfold peersOf. cbn [flat_map attachment withAttachment].
    destruct (truthy (id a) && (readyState (withAttachment a socket) =? OPEN));
      [|reflexivity].
    cbn [app map List.filter fst]. subst a. cbn [id attachmentOf].
    now rewrite String.eqb_refl. }
  assert (Hl' : l' = map (told (PeerJoined a) None) (firstn ws l)
                     ++ withSent (Joined uuid (match tags socket with t :: _ => t | [] => "" end)
                                         (peersOf (others ws l)))
                                 (withAttachment a socket)
                     :: map (told (PeerJoined a) None) (skipn (S ws) l)).
  { subst l'. unfold webSocketMessage. rewrite Htype. cbn [String.eqb Ascii.eqb Bool.eqb].
    unfold handleJoin. rewrite Hws, Hdata, Hnm, Hdt, Hbi.
    rewrite (attachmentOf_spec joinData uuid generated nm dt bi Hnm Hdt Hbi).
    fold a. cbv zeta. rewrite Hsend, Hpeers, broadcast_told, update_compose.
    destruct (update_split ws (fun s => withSent (Joined uuid
                                                    (match tags socket with
                                                     | t :: _ => t
                                                     | [] => ""
                                                     end)
                                                    (peersOf (others ws l)))
                                                 (withAttachment a s))
                           l socket Hws) as [_ H2].
    rewrite H2, map_app. cbn [map].
    rewrite (told_others _ uuid _ Hf1), (told_others _ uuid _ Hf2).
    f_equal. f_equal. unfold told. cbn [attachment withSent withAttachment].
    subst a. cbn [id attachmentOf]. rewrite String.eqb_refl.
    now rewrite andb_false_r. }
  split; [exact Hl'|]. split.
  - unfold Unique. rewrite Hl', ids_app. unfold ids at 2. cbn [flat_map].
    fold (ids (map (told (PeerJoined a) None) (skipn (S ws) l))).
    rewrite !ids_told. cbn [attachment withSent withAttachment app].
    unfold Unique in Hu1. now rewrite Hids1 in Hu1.
  - unfold peerAt. rewrite Hl'.
    rewrite nth_error_at by (rewrite length_map; now apply (firstn_at ws l socket)).
    reflexivity.
Qed.

Lemma join_announces_the_peer_witness :
  let l := webSocketMessage 0 (joinAs "Alice") "u1" "Calm Lion" [accepted; accepted] in
  let joinData := JObj [("name", JStr "Bob"); ("deviceType", JStr "mobile")] in
  let a := attachmentOf joinData "u2" "Swift Wolf" in
  let l' := webSocketMessage 1 (joinAs "Bob") "u2" "Swift Wolf" l in
  l' = map (told (PeerJoined a) None) (firstn 1 l)
       ++ withSent (Joined "u2" (match tags accepted with t :: _ => t | [] => "" end)
                           (peersOf (others 1 l)))
                   (withAttachment a accepted)
       :: map (told (PeerJoined a) None) (skipn 2 l)
  /\ Unique l'
  /\ peerAt l' 1 = Some a.
Proof.
  intros l joinData a l'.
  apply (join_announces_the_peer 1 (joinAs "Bob") "u2" "Swift Wolf" l accepted joinData).
  - reflexivity.
  - reflexivity.
  - reflexivity.
  - reflexivity.
  - discriminate.
  - vm_compute. constructor; [intros [] | constructor].
  - vm_compute. intros [H | []]. discriminate.
Defined.

(** **** Distinct identifiers *)

Lemma ids_In l k s a :
  nth_error l k = Some s -> attachment s = Some a -> In (id a) (ids l).
Proof.
  intros Hk Ha. unfold ids. apply in_flat_map. exists s.
  split; [now apply nth_error_In with k | rewrite Ha; now left].
Qed.

Lemma sendToPeer_at m l : forall k t b,
  Unique l -> nth_error l k = Some t -> attachment t = Some b -> sendThrows t = false ->
  sendToPeer (id b) m l = update k (withSent m) l.
Proof.
  unfold Unique. induction l as [|s l IH]; intros [|k] t b Hu Hk Hb Hs; try discriminate.
  - injection Hk as ->. apply sendToPeer_hit. unfold reaches.
    now rewrite Hb, String.eqb_refl, Hs.
  - cbn [nth_error] in Hk. cbn [update].
    assert (Er : reaches (id b) s = false).
    { unfold reaches. destruct (attachment s) as [a'|] eqn:Ea; [|reflexivity].
      destruct (String.eqb_spec (id a') (id b)) as [Heq | Hne]; [|reflexivity].
      exfalso. unfold ids in Hu. cbn [flat_map] in Hu. rewrite Ea in Hu. cbn [app] in Hu.
      apply List.NoDup_cons_iff in Hu as [Hnot _]. apply Hnot. rewrite Heq.
      exact (ids_In l k t b Hk Hb). }
    rewrite (sendToPeer_skip _ m s l Er). f_equal. apply (IH k t b); try assumption.
    unfold ids in Hu. cbn [flat_map] in Hu.
    destruct (attachment s); [|exact Hu]. cbn [app] in Hu.
    now apply List.NoDup_cons_iff in Hu as [_ Hu].
Qed.

(** X25. Routing with distinct identifiers.  When no two sockets of the
    room carry the same identifier, a message between peers that names the
    identifier of a socket on which [send] works is sent on that very
    socket, with the identifier of the sender's socket as [from], and no
    other socket of the room is touched. *)
Theorem routed_to_the_named_socket (ws k : nat) (msg : ClientMessage)
        (uuid generated : string) (l : Sockets) (sender target : Socket)
        (a b : PeerAttachment) :
  isRouted (type msg) = true ->
  Unique l ->
  nth_error l ws = Some sender -> attachment sender = Some a -> truthy (id a) = true ->
  nth_error l k = Some target -> attachment target = Some b -> truthy (id b) = true ->
  sendThrows target = false ->
  to msg = Some (id b) ->
  webSocketMessage ws msg uuid generated l
  = update k (withSent (Routed (type msg) (id a) (data msg))) l.
Proof.
  intros Hr Hu Hws Ha Hida Hk Hb Hidb Hs Hto. unfold webSocketMessage.
  destruct (String.eqb (type msg) "join") eqn:Ej.
  { apply String.eqb_eq in Ej. rewrite Ej in Hr. discriminate. }
  rewrite Hr. unfold forward, getPeerIdFromWs. rewrite Hto, Hidb, Hws, Ha, Hida. cbn [negb].
  exact (sendToPeer_at _ l k target b Hu Hk Hb Hs).
Qed.

Lemma routed_to_the_named_socket_witness :
  let msg := {| type := "text"; to := Some "u1"; data := Some (JStr "hello") |} in
  webSocketMessage 1 msg "" "" twoPeers
  = update 0 (withSent (Routed "text" "u2" (Some (JStr "hello")))) twoPeers.
Proof.
  intros msg.
  pose (alice := {| id := "u1"; name := Some (JStr "Alice"); deviceType := JStr "mobile";
                    browserInfo := None |}).
  pose (bob := {| id := "u2"; name := Some (JStr "Bob"); deviceType := JStr "mobile";
                  browserInfo := None |}).
  apply (routed_to_the_named_socket 1 0 msg "" "" twoPeers
           (withSent (Joined "u2" "ROOM01" [alice]) (withAttachment bob accepted))
           (withSent (PeerJoined bob)
                     (withSent (Joined "u1" "ROOM01" []) (withAttachment alice accepted)))
           bob alice).
  - reflexivity.
  - vm_compute. constructor; [intros [H | []]; discriminate|].
    constructor; [intros [] | constructor].
  - reflexivity.
  - reflexivity.
  - reflexivity.
  - reflexivity.
  - reflexivity.
  - reflexivity.
  - reflexivity.
  - reflexivity.
Defined.
End HubProofs.
